(** * SEBI regulatory knowledge base: corpus pipeline

    A shallow embedding of the corpus modules of the repository

    - [pdf-parser.ts]  : token counting, section extraction, chunking;
    - [embedder.ts]    : the embedding generator (cache, batches, rate limit, retry);
    - [qdrant-client.ts] : the vector-store manager (upsert, search, rank fusion);
    - [ingest.ts]      : the ingestion pipeline for one PDF, a directory, the corpus;

    followed by the properties established about them.

    Conventions of the embedding.

    - JavaScript strings are modelled by [string]: the sequences of code
      units below 256, each read as the character U+0000..U+00FF of that
      number.  On these the white space of [trim] and of the regular
      expression class [\s] is TAB, LF, VT, FF, CR, SPACE and the no-break
      space U+00A0, and [toLowerCase] moves the capital letters of ASCII and of
      U+00C0..U+00DE.  The no-break space is the one character [NBSP] of
      number 160, not the two bytes of its UTF-8 form.  Strings with a code
      unit above 255 are outside the embedding.
    - [async] code is modelled by explicit state passing: a computation takes
      the state of the object and of its collaborators and returns either the
      thrown value or the result, together with the new state.  Every call that
      leaves the process (provider, vector store, file system, logger, timer)
      appends an event to the trace kept in the state.
    - [number] is [Z] or [nat] where the code only counts, and [Q] for scores. *)

From Stdlib Require Import ZArith QArith Lia Lqa Ascii.
From Stdlib Require String.
From stdpp Require Import base option list strings pretty gmap.

#[local] Set Warnings "-register-all".

(* ================================================================== *)
(** * JavaScript string primitives used by the modules *)
(* ================================================================== *)

Module Js.

(** The characters matched by [\s] and removed by [String.prototype.trim]
    (the white space and the line terminators of the language) among the
    code units below 256: U+0009..U+000D, U+0020 and U+00A0. *)
Definition isSpace (c : ascii) : bool :=
  let n := nat_of_ascii c in
  ((9 <=? n)%nat && (n <=? 13)%nat) || (n =? 32)%nat || (n =? 160)%nat.

(** Line terminators, which [.] does not match: LF and CR. *)
Definition isLineTerminator (c : ascii) : bool :=
  let n := nat_of_ascii c in (n =? 10)%nat || (n =? 13)%nat.

Definition isDigit (c : ascii) : bool :=
  let n := nat_of_ascii c in (48 <=? n)%nat && (n <=? 57)%nat.

Definition chars : string -> list ascii := String.list_ascii_of_string.
Definition str : list ascii -> string := String.string_of_list_ascii.

(** [l.dropWhile(p)] and the split of [l] at the first element failing [p]. *)
Fixpoint dropWhile {A} (p : A -> bool) (l : list A) : list A :=
  match l with
  | [] => []
  | x :: t => if p x then dropWhile p t else l
  end.

Fixpoint takeWhile {A} (p : A -> bool) (l : list A) : list A :=
  match l with
  | [] => []
  | x :: t => if p x then x :: takeWhile p t else []
  end.

Definition trimStartChars (l : list ascii) : list ascii := dropWhile isSpace l.
Definition trimEndChars (l : list ascii) : list ascii :=
  rev (dropWhile isSpace (rev l)).
Definition trimChars (l : list ascii) : list ascii :=
  trimEndChars (trimStartChars l).

(** [s.trim()] *)
Definition trim (s : string) : string := str (trimChars (chars s)).

(** Truthiness of a string: [Boolean(s)], false exactly for the empty string. *)
Definition truthy (s : string) : bool :=
  match s with EmptyString => false | String _ _ => true end.

(** [parts.join(sep)] *)
Fixpoint join (sep : string) (parts : list string) : string :=
  match parts with
  | [] => ""
  | [p] => p
  | p :: rest => p +:+ sep +:+ join sep rest
  end.

(** [s.split(c)] for a one-character separator: never returns the empty list. *)
Fixpoint splitCharsOn (c : ascii) (cur : list ascii) (l : list ascii)
  : list (list ascii) :=
  match l with
  | [] => [rev cur]
  | x :: t =>
      if Ascii.eqb x c then rev cur :: splitCharsOn c [] t
      else splitCharsOn c (x :: cur) t
  end.

Definition splitOn (c : ascii) (s : string) : list string :=
  map str (splitCharsOn c [] (chars s)).

(** [s.toLowerCase()] on one character below U+0100: the capital letters
    A..Z and U+00C0..U+00DE (but not the sign U+00D7) move up by 32. *)
Definition toLower (c : ascii) : ascii :=
  let n := nat_of_ascii c in
  if ((65 <=? n)%nat && (n <=? 90)%nat)
     || ((192 <=? n)%nat && (n <=? 222)%nat && negb (n =? 215)%nat)
  then ascii_of_nat (n + 32) else c.

(** [`${n}`] for a non-negative integer counter. *)
Definition showNat (n : nat) : string := pretty n.

Definition LF : ascii := ascii_of_nat 10.
Definition CR : ascii := ascii_of_nat 13.

(** The no-break space U+00A0. *)
Definition NBSP : ascii := ascii_of_nat 160.

(** [s.toLowerCase()] *)
Definition toLowerCase (s : string) : string := str (map toLower (chars s)).

(** [l] starts with [p]. *)
Fixpoint startsWithChars (p l : list ascii) : bool :=
  match p, l with
  | [], _ => true
  | x :: p', y :: l' => Ascii.eqb x y && startsWithChars p' l'
  | _ :: _, [] => false
  end.

Fixpoint includesChars (needle hay : list ascii) : bool :=
  startsWithChars needle hay
  || match hay with
     | [] => false
     | _ :: t => includesChars needle t
     end.

(** [s.includes(needle)] *)
Definition includes (s needle : string) : bool :=
  includesChars (chars needle) (chars s).

(** [s.endsWith(suffix)] *)
Definition endsWith (s suffix : string) : bool :=
  startsWithChars (rev (chars suffix)) (rev (chars s)).

End Js.

(* ================================================================== *)
(** * Shared types ([types/sebi-document.ts]) and thrown values *)
(* ================================================================== *)

Module Types.

(** Values that the modelled code throws or that a collaborator rejects with. *)
Inductive exn :=
| Error (message : string)        (* [new Error(message)] *)
| TypeError (message : string)    (* raised by the runtime on [undefined.f(..)] *)
| RangeError (message : string)   (* raised by [toISOString] on an invalid date *)
| ZodError (schema : string)      (* raised by [Schema.parse] *)
| Rejected (value : string)       (* a collaborator's rejection, by its JSON text *)
| Undefined.                      (* [throw undefined] *)

(** The outcome of a call that may throw. *)
Definition result (A : Type) : Type := exn + A.

(** A [Date] object: its time value in milliseconds, [None] for an invalid date. *)
Definition JsDate : Type := option Z.

(** [Record<string, unknown>], values kept by their JSON text. *)
Definition Metadata : Type := list (string * string).

(** An embedding: [number[]]. *)
Definition vector : Type := list Q.

(** [SEBIDocument]. [category] is a string at run time: [validateMetadata]
    tests it against the enumeration. *)
Record SEBIDocument := mkDocument {
  doc_id : string;
  circular_id : string;
  doc_title : string;
  doc_date : JsDate;
  category : string;
  doc_content : string;
  doc_url : string;
  doc_chapter : option string;
  doc_section : option string;
  doc_metadata : Metadata }.

(** [Partial<SEBIDocument>]: every property may be absent. *)
Record PartialDocument := mkPartial {
  p_id : option string;
  p_circular_id : option string;
  p_title : option string;
  p_date : option JsDate;
  p_category : option string;
  p_content : option string;
  p_url : option string;
  p_chapter : option string;
  p_section : option string;
  p_metadata : option Metadata }.

(** The [metadata] property that [qdrant-client.ts] reads off a chunk object
    ([ChunkMetadata]); [m_date] is the [string | Date] it carries, as text. *)
Record ChunkMetadata := mkChunkMetadata {
  m_circular_id : option string;
  m_category : option string;
  m_date : option string;
  m_chapter : option string;
  m_title : option string;
  m_url : option string;
  m_document : option PartialDocument;
  m_metadata : option Metadata }.

(** [SEBIChunk], with the untyped [metadata] property of the run-time object. *)
Record SEBIChunk := mkChunk {
  chunk_id : string;
  document_id : string;
  chunk_index : nat;
  content : string;
  tokens : nat;
  section_hierarchy : list string;
  embedding : option vector;
  chunk_metadata : option ChunkMetadata }.

(** The category enumeration ([CATEGORY_KEYS] of [ingest.ts], the members of
    [SEBICategory]). *)
Definition CATEGORY_KEYS : list string :=
  ["mutual_funds"; "portfolio_managers"; "invits"; "reits"; "general"].

(** The Zod schemas [SEBIChunkSchema] and [SEBIDocumentSchema] of
    [types/sebi-document.ts].  A schema is an object schema: [parse] returns
    the properties it declares (an undeclared property, such as the [metadata]
    of a chunk object, is dropped) when every test passes, and throws a
    [ZodError] otherwise; [safeParse] returns the same outcome as a value.
    The tests are kept as a pair of validators, so that a property that does
    not depend on them is stated for every pair; [zodSchemas] below is the
    pair of the code. *)
Record Schemas := mkSchemas {
  chunkOk : SEBIChunk -> bool;
  documentOk : SEBIDocument -> bool }.

(** The properties [SEBIChunkSchema] declares: all of [SEBIChunk] but the
    [metadata] of the run-time object. *)
Definition declared (c : SEBIChunk) : SEBIChunk :=
  {| chunk_id := chunk_id c; document_id := document_id c;
     chunk_index := chunk_index c; content := content c; tokens := tokens c;
     section_hierarchy := section_hierarchy c; embedding := embedding c;
     chunk_metadata := None |}.

Definition SEBIChunkSchema_parse (S : Schemas) (c : SEBIChunk) : result SEBIChunk :=
  if chunkOk S c then inr (declared c) else inl (ZodError "SEBIChunk").

Definition SEBIChunkSchema_safeParse (S : Schemas) (c : SEBIChunk) : option SEBIChunk :=
  if chunkOk S c then Some (declared c) else None.

(** [SEBIDocumentSchema] declares every property of [SEBIDocument], and
    [z.coerce.date()] returns a date of the same time value. *)
Definition SEBIDocumentSchema_parse (S : Schemas) (d : SEBIDocument) : result SEBIDocument :=
  if documentOk S d then inr d else inl (ZodError "SEBIDocument").

(** The tests of the two schemas.

    - [SEBIChunkSchema]: [chunk_id] and [document_id] are [z.string().min(1)];
      [chunk_index] and [tokens] are non-negative integers, [content] a string
      and [section_hierarchy] an array of strings (so by their types here);
      [embedding] is [z.array(z.number()).length(3072).optional()].
    - [SEBIDocumentSchema]: [id], [circular_id] and [title] are
      [z.string().min(1)]; [date] is [z.coerce.date()], which refuses an
      invalid date; [category] is the enumeration; [content] is any string;
      [url] is [z.string().url()]; [chapter] and [section] are optional strings
      and [metadata] a record.

    [z.string().url()] accepts the strings that the runtime's [new URL(s)]
    accepts; this test is the parameter [isUrl]. *)
Definition zodSchemas (isUrl : string -> bool) : Schemas :=
  {| chunkOk c :=
       Js.truthy (chunk_id c) && Js.truthy (document_id c)
       && match embedding c with
          | Some v => (length v =? 3072)%nat
          | None => true
          end;
     documentOk d :=
       Js.truthy (doc_id d) && Js.truthy (circular_id d) && Js.truthy (doc_title d)
       && bool_decide (is_Some (doc_date d))
       && bool_decide (category d ∈ CATEGORY_KEYS)
       && isUrl (doc_url d) |}.

(** The error monad of synchronous code. *)
Definition rbind {A B} (m : result A) (k : A -> result B) : result B :=
  match m with
  | inl e => inl e
  | inr a => k a
  end.

End Types.

(* ================================================================== *)
(** * [pdf-parser.ts]: section extraction and chunking *)
(* ================================================================== *)

Module PdfParser.
Import Js Types.

(** ** Types *)

(** [interface Section] *)
Inductive DocSection := mkSection {
  sec_id : string;
  sec_title : string;
  sec_content : string;
  sec_level : nat;
  sec_children : list DocSection }.

(** [interface ChunkOptions] *)
Record ChunkOptions := mkChunkOptions {
  maxTokens : option Z;
  minTokens : option Z;
  overlap : option Z }.

(** [interface ContentBlock] *)
Record ContentBlock := mkBlock {
  block_content : string;
  block_hierarchy : list string }.

(** ** The line patterns of [extractSections] *)

Definition isSep (c : ascii) : bool :=
  Ascii.eqb c ":" || Ascii.eqb c "." || isSpace c.

Definition isRoman (c : ascii) : bool :=
  bool_decide (toLower c ∈ chars "ivxlcdm").

Definition notLineTerminator (c : ascii) : bool := negb (isLineTerminator c).

(** A literal prefix under the [i] flag. *)
Fixpoint stripPrefixCI (pat l : list ascii) : option (list ascii) :=
  match pat, l with
  | [], _ => Some l
  | p :: pat', c :: l' =>
      if Ascii.eqb (toLower p) (toLower c) then stripPrefixCI pat' l' else None
  | _ :: _, [] => None
  end.

(** [[:\.\s]+(.+)] at the start of [l], the separators taking [k] characters:
    the longest run first, giving one character back at a time until [(.+)]
    finds a character that is not a line terminator.  The result is group 2. *)
Fixpoint backtrackTitle (k : nat) (l : list ascii) : option (list ascii) :=
  match k with
  | O => None
  | S k' =>
      match takeWhile notLineTerminator (drop k l) with
      | [] => backtrackTitle k' l
      | t => Some t
      end
  end.

Definition matchSepTitle (l : list ascii) : option (list ascii) :=
  backtrackTitle (length (takeWhile isSep l)) l.

(** [\d+(\.\d+){n}] at the start of [l]: the matched characters and the rest. *)
Fixpoint dottedNumber (n : nat) (l : list ascii) : option (list ascii * list ascii) :=
  match takeWhile isDigit l with
  | [] => None
  | d =>
      let rest := dropWhile isDigit l in
      match n with
      | O => Some (d, rest)
      | S n' =>
          match rest with
          | c :: rest' =>
              if Ascii.eqb c "." then
                match dottedNumber n' rest' with
                | Some (d', rest'') => Some (d ++ c :: d', rest'')
                | None => None
                end
              else None
          | [] => None
          end
      end
  end.

(** [/^Chapter\s+(\d+|[IVXLCDM]+)[:\.\s]+(.+)/i]: groups 1 and 2. *)
Definition chapterMatch (line : string) : option (string * string) :=
  match stripPrefixCI (chars "chapter") (chars line) with
  | None => None
  | Some rest0 =>
      match takeWhile isSpace rest0 with
      | [] => None
      | _ =>
          let rest1 := dropWhile isSpace rest0 in
          let g1 :=
            match takeWhile isDigit rest1 with
            | [] => takeWhile isRoman rest1
            | d => d
            end in
          match g1 with
          | [] => None
          | _ =>
              match matchSepTitle (drop (length g1) rest1) with
              | Some t => Some (str g1, str t)
              | None => None
              end
          end
      end
  end.

(** [/^(\d+\.\d+)[:\.\s]+(.+)/] for [dots = 1] and
    [/^(\d+\.\d+\.\d+)[:\.\s]+(.+)/] for [dots = 2]. *)
Definition numberedMatch (dots : nat) (line : string) : option (string * string) :=
  match dottedNumber dots (chars line) with
  | Some (g1, rest) =>
      match matchSepTitle rest with
      | Some t => Some (str g1, str t)
      | None => None
      end
  | None => None
  end.

Definition sectionMatch : string -> option (string * string) := numberedMatch 1.
Definition subSectionMatch : string -> option (string * string) := numberedMatch 2.

(** [/^\d+\.\d+\.\d+/] *)
Definition startsWithTriple (line : string) : bool :=
  match dottedNumber 2 (chars line) with Some _ => true | None => false end.

(** ** [extractSections]

    The section objects are shared between the result array and the three
    cursors and are mutated through either, so they live in a store and are
    named by their index in it. *)

Record SectionObj := mkObj {
  o_id : string;
  o_title : string;
  o_content : string;
  o_level : nat;
  o_children : list nat }.

Record ExtractState := mkExtract {
  store : list SectionObj;
  sections : list nat;
  currentChapter : option nat;
  currentSection : option nat;
  currentSubSection : option nat;
  contentBuffer : list string }.

(** [target.content += (target.content ? '\n' : '') + content] *)
Definition appendContent (content : string) (o : SectionObj) : SectionObj :=
  {| o_id := o_id o; o_title := o_title o;
     o_content := o_content o +:+ (if truthy (o_content o) then "
" else "") +:+ content;
     o_level := o_level o; o_children := o_children o |}.

(** [parent.children.push(child)] *)
Definition pushChild (child : nat) (o : SectionObj) : SectionObj :=
  {| o_id := o_id o; o_title := o_title o; o_content := o_content o;
     o_level := o_level o; o_children := o_children o ++ [child] |}.

Definition withStore (st : ExtractState) (h : list SectionObj) (buf : list string)
  : ExtractState :=
  {| store := h; sections := sections st; currentChapter := currentChapter st;
     currentSection := currentSection st; currentSubSection := currentSubSection st;
     contentBuffer := buf |}.

Definition flushContent (st : ExtractState) : ExtractState :=
  let content := trim (join "
" (contentBuffer st)) in
  if negb (truthy content) then st
  else
    match currentSubSection st, currentSection st, currentChapter st with
    | Some r, _, _ => withStore st (alter (appendContent content) r (store st)) []
    | None, Some r, _ => withStore st (alter (appendContent content) r (store st)) []
    | None, None, Some r => withStore st (alter (appendContent content) r (store st)) []
    | None, None, None => withStore st (store st) []
    end.

Definition newObj (idt : string * string) (lvl : nat) : SectionObj :=
  {| o_id := fst idt; o_title := trim (snd idt); o_content := "";
     o_level := lvl; o_children := [] |}.

(** One iteration of [for (const line of lines)]. *)
Definition extractLine (st0 : ExtractState) (line : string) : ExtractState :=
  let trimmedLine := trim line in
  match chapterMatch trimmedLine with
  | Some m =>
      let st := flushContent st0 in
      let r := length (store st) in
      {| store := store st ++ [newObj m 1];
         sections := sections st ++ [r];
         currentChapter := Some r;
         currentSection := None;
         currentSubSection := None;
         contentBuffer := contentBuffer st |}
  | None =>
      match (if startsWithTriple trimmedLine then None else sectionMatch trimmedLine) with
      | Some m =>
          let st := flushContent st0 in
          let r := length (store st) in
          let h := store st ++ [newObj m 2] in
          match currentChapter st with
          | Some c =>
              {| store := alter (pushChild r) c h; sections := sections st;
                 currentChapter := currentChapter st; currentSection := Some r;
                 currentSubSection := None; contentBuffer := contentBuffer st |}
          | None =>
              {| store := h; sections := sections st ++ [r];
                 currentChapter := currentChapter st; currentSection := Some r;
                 currentSubSection := None; contentBuffer := contentBuffer st |}
          end
      | None =>
          match subSectionMatch trimmedLine with
          | Some m =>
              let st := flushContent st0 in
              let r := length (store st) in
              let h := store st ++ [newObj m 3] in
              match currentSection st, currentChapter st with
              | Some s, _ =>
                  {| store := alter (pushChild r) s h; sections := sections st;
                     currentChapter := currentChapter st;
                     currentSection := currentSection st;
                     currentSubSection := Some r; contentBuffer := contentBuffer st |}
              | None, Some c =>
                  {| store := alter (pushChild r) c h; sections := sections st;
                     currentChapter := currentChapter st;
                     currentSection := currentSection st;
                     currentSubSection := Some r; contentBuffer := contentBuffer st |}
              | None, None =>
                  {| store := h; sections := sections st ++ [r];
                     currentChapter := currentChapter st;
                     currentSection := currentSection st;
                     currentSubSection := Some r; contentBuffer := contentBuffer st |}
              end
          | None =>
              if truthy trimmedLine
              then withStore st0 (store st0) (contentBuffer st0 ++ [trimmedLine])
              else st0
          end
      end
  end.

(** The tree below the object [r] of the store; [fuel] bounds the depth. *)
Fixpoint reify (fuel : nat) (h : list SectionObj) (r : nat) : option DocSection :=
  match fuel with
  | O => None
  | S f =>
      match h !! r with
      | Some o =>
          Some (mkSection (o_id o) (o_title o) (o_content o) (o_level o)
                          (omap (reify f h) (o_children o)))
      | None => None
      end
  end.

Definition extractSections (text : string) : list DocSection :=
  let lines := splitOn LF text in
  let st0 := {| store := []; sections := []; currentChapter := None;
                currentSection := None; currentSubSection := None;
                contentBuffer := [] |} in
  let st := flushContent (fold_left extractLine lines st0) in
  omap (reify (S (length (store st))) (store st)) (sections st).

(** ** Chunking *)

Section Chunking.

(** [countTokens]: the length of the [cl100k_base] encoding of the text.  The
    encoder belongs to the [tiktoken] package and is a parameter here. *)
Variable countTokens : string -> nat.

(** The schemas of [types/sebi-document.ts]. *)
Variable schemas : Schemas.

Definition isSentenceEnd (prev : option ascii) : bool :=
  match prev with
  | Some c => Ascii.eqb c "." || Ascii.eqb c "!" || Ascii.eqb c "?"
  | None => false
  end.

(** [text.split(/(?<=[.!?])\s+/)]: a separator is a maximal run of white space
    that follows one of [.], [!], [?].  [skipping] holds inside a separator,
    [prev] is the character before the current one and [cur] the piece read
    so far, last character first. *)
Fixpoint splitAtBoundaries (skipping : bool) (prev : option ascii)
  (cur l : list ascii) : list (list ascii) :=
  match l with
  | [] => [rev cur]
  | c :: t =>
      if isSpace c then
        if skipping then splitAtBoundaries true (Some c) cur t
        else if isSentenceEnd prev then rev cur :: splitAtBoundaries true (Some c) [] t
        else splitAtBoundaries false (Some c) (c :: cur) t
      else splitAtBoundaries false (Some c) (c :: cur) t
  end.

Definition splitIntoSentences (text : string) : list string :=
  List.filter truthy
    (map trim (map str (splitAtBoundaries false None [] (chars text)))).

(** The variables of the loop of [splitByTokens]. *)
Record SplitState := mkSplit {
  chunks : list string;
  currentChunk : list string;
  currentTokens : Z }.

(** [for (let i = currentChunk.length - 1; i >= 0 && overlapTokens < overlap; i--)]:
    [remaining] is [currentChunk[0..i]], last sentence first. *)
Fixpoint takeOverlap (overlap : Z) (remaining : list string)
  (overlapSentences : list string) (overlapTokens : Z) : list string * Z :=
  match remaining with
  | [] => (overlapSentences, overlapTokens)
  | sent :: more =>
      if (overlapTokens <? overlap)%Z
      then takeOverlap overlap more (sent :: overlapSentences)
             (overlapTokens + Z.of_nat (countTokens sent))%Z
      else (overlapSentences, overlapTokens)
  end.

(** The body of [for (const sentence of sentences)]. *)
Definition splitStep (maxTokens overlap : Z) (st : SplitState) (sentence : string)
  : SplitState :=
  let sentenceTokens := Z.of_nat (countTokens sentence) in
  let st1 :=
    if (currentTokens st + sentenceTokens >? maxTokens)%Z
       && (0 <? length (currentChunk st))%nat
    then
      let saved := chunks st ++ [join " " (currentChunk st)] in
      if (overlap >? 0)%Z then
        let ov := takeOverlap overlap (rev (currentChunk st)) [] 0%Z in
        {| chunks := saved; currentChunk := fst ov; currentTokens := snd ov |}
      else {| chunks := saved; currentChunk := []; currentTokens := 0%Z |}
    else st in
  {| chunks := chunks st1;
     currentChunk := currentChunk st1 ++ [sentence];
     currentTokens := (currentTokens st1 + sentenceTokens)%Z |}.

Definition splitFinish (st : SplitState) : list string :=
  if (0 <? length (currentChunk st))%nat
  then chunks st ++ [join " " (currentChunk st)]
  else chunks st.

Definition splitByTokens (text : string) (maxTokens overlap : Z) : list string :=
  splitFinish
    (fold_left (splitStep maxTokens overlap) (splitIntoSentences text)
       {| chunks := []; currentChunk := []; currentTokens := 0%Z |}).

(** [flattenSections], one section at a time. *)
Fixpoint flattenSection (parentPath : list string) (section : DocSection)
  : list ContentBlock :=
  match section with
  | mkSection id title content _ children =>
      let currentPath := parentPath ++ [trim (id +:+ " " +:+ title)] in
      (if truthy content then [mkBlock content currentPath] else [])
      ++ (if (0 <? length children)%nat
          then flat_map (flattenSection currentPath) children
          else [])
  end.

Definition flattenSections (sections : list DocSection) (parentPath : list string)
  : list ContentBlock :=
  flat_map (flattenSection parentPath) sections.

(** The [chunks] array and the [chunkIndex] counter of [chunkDocument]. *)
Record Emitted := mkEmitted {
  emitted : list SEBIChunk;
  chunkIndex : nat }.

(** [chunks.push(SEBIChunkSchema.parse(chunk)); chunkIndex++] for the chunk
    literal built from the current counter. *)
Definition pushChunk (document : SEBIDocument) (text : string) (tokens : nat)
  (hierarchy : list string) (st : Emitted) : result Emitted :=
  let chunk :=
    {| chunk_id := doc_id document +:+ "-chunk-" +:+ showNat (chunkIndex st);
       document_id := doc_id document;
       chunk_index := chunkIndex st;
       content := text;
       tokens := tokens;
       section_hierarchy := hierarchy;
       embedding := None;
       chunk_metadata := None |} in
  rbind (SEBIChunkSchema_parse schemas chunk)
    (fun parsed => inr {| emitted := emitted st ++ [parsed];
                          chunkIndex := S (chunkIndex st) |}).

(** A [for ... of] loop whose body may throw. *)
Fixpoint forEach {A B} (body : B -> A -> result B) (l : list A) (st : B) : result B :=
  match l with
  | [] => inr st
  | x :: t => rbind (body st x) (forEach body t)
  end.

(** The loop of the branch [sections.length === 0]. *)
Definition emitUnstructured (document : SEBIDocument) (minTokens : Z)
  (textChunks : list string) (st : Emitted) (text : string) : result Emitted :=
  let tokens := countTokens text in
  if (Z.of_nat tokens <? minTokens)%Z && (1 <? length textChunks)%nat
  then inr st
  else pushChunk document text tokens [] st.

(** The inner loop of the branch that splits a block. *)
Definition emitSplit (document : SEBIDocument) (minTokens : Z)
  (hierarchy : list string) (textChunks : list string) (st : Emitted)
  (text : string) : result Emitted :=
  let tokens := countTokens text in
  if (Z.of_nat tokens >=? minTokens)%Z || (length textChunks =? 1)%nat
  then pushChunk document text tokens hierarchy st
  else inr st.

(** The body of [for (const block of contentBlocks)]. *)
Definition emitBlock (document : SEBIDocument) (maxTokens minTokens overlap : Z)
  (contentBlocks : list ContentBlock) (st : Emitted) (block : ContentBlock)
  : result Emitted :=
  let blockTokens := countTokens (block_content block) in
  if (Z.of_nat blockTokens <=? maxTokens)%Z then
    if (Z.of_nat blockTokens >=? minTokens)%Z || (length contentBlocks =? 1)%nat
    then pushChunk document (block_content block) blockTokens (block_hierarchy block) st
    else inr st
  else
    let textChunks := splitByTokens (block_content block) maxTokens overlap in
    forEach (emitSplit document minTokens (block_hierarchy block) textChunks)
      textChunks st.

Definition chunkDocument (document : SEBIDocument) (options : ChunkOptions)
  : result (list SEBIChunk) :=
  let maxTokens := default 512%Z (maxTokens options) in
  let minTokens := default 128%Z (minTokens options) in
  let overlap := default 50%Z (overlap options) in
  let sections := extractSections (doc_content document) in
  let start := {| emitted := []; chunkIndex := 0 |} in
  if (length sections =? 0)%nat then
    let textChunks := splitByTokens (doc_content document) maxTokens overlap in
    rbind (forEach (emitUnstructured document minTokens textChunks) textChunks start)
      (fun st => inr (emitted st))
  else
    let contentBlocks := flattenSections sections [] in
    rbind (forEach (emitBlock document maxTokens minTokens overlap contentBlocks)
             contentBlocks start)
      (fun st => inr (emitted st)).

End Chunking.

(** ** Classification *)

(** [detectCategory]: the first group of keywords found in the text in lower
    case decides. *)
Definition detectCategory (text : string) : string :=
  let lowerText := toLowerCase text in
  if includes lowerText "mutual fund" || includes lowerText "amc"
     || includes lowerText "ter"
  then "mutual_funds"
  else if includes lowerText "portfolio manager" then "portfolio_managers"
  else if includes lowerText "invit"
          || includes lowerText "infrastructure investment trust"
  then "invits"
  else if includes lowerText "reit" || includes lowerText "real estate investment trust"
  then "reits"
  else "general".

(** [buildHierarchy]: [sections.filter(Boolean)]. *)
Definition buildHierarchy (sections : list string) : list string :=
  List.filter truthy sections.

End PdfParser.

(* ================================================================== *)
(** * Computations with state and exceptions *)
(* ================================================================== *)

Module Effect.
Import Types.

(** An [async] method run to completion: from the state before the call to
    the thrown value or the result, and the state after it.  A throw keeps
    the effects that happened before it. *)
Definition M (W A : Type) : Type := W -> result A * W.

Definition ret {W A} (a : A) : M W A := fun w => (inr a, w).

Definition bind {W A B} (m : M W A) (k : A -> M W B) : M W B :=
  fun w =>
    match m w with
    | (inr a, w') => k a w'
    | (inl e, w') => (inl e, w')
    end.

Definition throw {W A} (e : exn) : M W A := fun w => (inl e, w).

(** [try { body } catch (error) { handler }] *)
Definition tryCatch {W A} (body : M W A) (handler : exn -> M W A) : M W A :=
  fun w =>
    match body w with
    | (inr a, w') => (inr a, w')
    | (inl e, w') => handler e w'
    end.

Definition gets {W A} (f : W -> A) : M W A := fun w => (inr (f w), w).
Definition modify {W} (f : W -> W) : M W unit := fun w => (inr tt, f w).

(** A synchronous call that may throw. *)
Definition lift {W A} (r : result A) : M W A := fun w => (r, w).

(** [for (const x of l) { body }] with the loop variables in [B]. *)
Fixpoint forEachM {W A B} (body : B -> A -> M W B) (l : list A) (b : B) : M W B :=
  match l with
  | [] => ret b
  | x :: t => bind (body b x) (forEachM body t)
  end.

End Effect.

Declare Scope effect_scope.
Delimit Scope effect_scope with effect.
Notation "x <- m ;; k" := (Effect.bind m (fun x => k))
  (at level 100, m at next level, right associativity) : effect_scope.
Notation "m ;;; k" := (Effect.bind m (fun _ => k))
  (at level 100, right associativity) : effect_scope.

(* ================================================================== *)
(** * [embedder.ts]: the embedding generator *)
(* ================================================================== *)

Module Embedder.
Import Js Types Effect.
Local Open Scope effect_scope.
Local Open Scope Z_scope.

Definition VECTOR_SIZE : nat := 3072.
Definition DEFAULT_BATCH_SIZE : Z := 100.
Definition DEFAULT_MAX_CONCURRENCY : Z := 5.
Definition MAX_CACHE_ENTRIES : nat := 1000.
Definition DEFAULT_RATE_LIMIT_PER_MINUTE : Z := 3000.
Definition ONE_MINUTE_MS : Z := 60000.

(** [interface EmbeddingGeneratorOptions] (the model name and the logger are
    not read by the modelled methods). *)
Record EmbeddingGeneratorOptions := mkOptions {
  opt_batchSize : option Z;
  opt_maxConcurrency : option Z;
  opt_cacheTtlSeconds : option Z;
  opt_rateLimitPerMinute : option Z }.

(** The read-only fields of an [EmbeddingGenerator]. *)
Record Generator := mkGenerator {
  batchSize : Z;
  maxConcurrency : Z;
  cacheSize : nat;
  rateLimitPerMinute : Z;
  stdTTL : Z }.

(** What leaves the generator: calls of the cache, of the provider, of the
    timer and of the logger. *)
Inductive Event :=
| CacheGet (key : string)
| CacheSet (key : string)
| CacheDel (key : string)
| EmbedQuery (text : string)
| EmbedDocuments (texts : list string)
| Delay (ms : Z)
| LogInfo (message : string)
| LogWarn (message : string).

(** The mutable state: the clock read by [Date.now()], the entries of the
    [NodeCache] in insertion order (value and expiry time, [0] for none), the
    window of the rate limiter, the number of provider calls issued, and the
    trace of events, oldest first. *)
Record World := mkWorld {
  now : Z;
  cache : list (string * (vector * Z));
  requestTimestamps : list Z;
  providerCalls : nat;
  trace : list Event }.

(** The embedding provider ([OpenAIEmbeddings]): the outcome of its [n]-th
    call, by method and argument, and the time that call takes. *)
Record Provider := mkProvider {
  embedQuery : nat -> string -> result vector;
  embedDocuments : nat -> list string -> result (list vector);
  latency : nat -> Z }.

(** The constructor. *)
Definition newGenerator (apiKey : string) (options : EmbeddingGeneratorOptions)
  : result Generator :=
  if negb (truthy apiKey) then inl (Error "OpenAI API key is required for embeddings")
  else inr {| batchSize := default DEFAULT_BATCH_SIZE (opt_batchSize options);
              maxConcurrency := default DEFAULT_MAX_CONCURRENCY (opt_maxConcurrency options);
              cacheSize := MAX_CACHE_ENTRIES;
              rateLimitPerMinute :=
                default DEFAULT_RATE_LIMIT_PER_MINUTE (opt_rateLimitPerMinute options);
              stdTTL := default (60 * 60) (opt_cacheTtlSeconds options) |}.

(** The state of a generator that has just been built at time [t]. *)
Definition freshWorld (t : Z) : World :=
  {| now := t; cache := []; requestTimestamps := []; providerCalls := 0; trace := [] |}.

Section Generator.

(** [cacheKey]: the hexadecimal MD5 digest of the text ([node:crypto]). *)
Variable cacheKey : string -> string.
Variable provider : Provider.
Variable this : Generator.

Definition emit (e : Event) : M World unit :=
  modify (fun w => {| now := now w; cache := cache w;
                      requestTimestamps := requestTimestamps w;
                      providerCalls := providerCalls w;
                      trace := trace w ++ [e] |}).

Definition setCache (c : list (string * (vector * Z))) : M World unit :=
  modify (fun w => {| now := now w; cache := c;
                      requestTimestamps := requestTimestamps w;
                      providerCalls := providerCalls w;
                      trace := trace w |}).

Definition setTimestamps (ts : list Z) : M World unit :=
  modify (fun w => {| now := now w; cache := cache w;
                      requestTimestamps := ts;
                      providerCalls := providerCalls w;
                      trace := trace w |}).

(** Time passes. *)
Definition elapse (ms : Z) : M World unit :=
  modify (fun w => {| now := now w + ms; cache := cache w;
                      requestTimestamps := requestTimestamps w;
                      providerCalls := providerCalls w;
                      trace := trace w |}).

(** ** The [NodeCache] instance ([useClones: false])

    An entry is live when it has no expiry or its expiry is not before the
    clock; [get] and [has] delete the entry they find expired. *)

Definition expired (t : Z) (entry : vector * Z) : bool :=
  negb (snd entry =? 0) && (snd entry <? t).

Fixpoint lookupEntry (key : string) (c : list (string * (vector * Z)))
  : option (vector * Z) :=
  match c with
  | [] => None
  | (k, e) :: rest => if String.eqb k key then Some e else lookupEntry key rest
  end.

Definition removeEntry (key : string) (c : list (string * (vector * Z)))
  : list (string * (vector * Z)) :=
  List.filter (fun ke => negb (String.eqb (fst ke) key)) c.

(** Assigning a property keeps the position of an existing key and puts a
    new key last. *)
Fixpoint assignEntry (key : string) (e : vector * Z) (c : list (string * (vector * Z)))
  : list (string * (vector * Z)) :=
  match c with
  | [] => [(key, e)]
  | (k, e0) :: rest =>
      if String.eqb k key then (k, e) :: rest else (k, e0) :: assignEntry key e rest
  end.

(** The check shared by [get] and [has]. *)
Definition cacheCheck (key : string) : M World (option vector) :=
  c <- gets cache ;;
  t <- gets now ;;
  match lookupEntry key c with
  | Some e =>
      if expired t e then setCache (removeEntry key c) ;;; ret None
      else ret (Some (fst e))
  | None => ret None
  end.

Definition cacheGet (key : string) : M World (option vector) :=
  emit (CacheGet key) ;;; cacheCheck key.

Definition cacheHas (key : string) : M World bool :=
  r <- cacheCheck key ;; ret (bool_decide (is_Some r)).

Definition cacheKeys : M World (list string) :=
  gets (fun w => map fst (cache w)).

Definition cacheDel (key : string) : M World unit :=
  emit (CacheDel key) ;;;
  c <- gets cache ;; setCache (removeEntry key c).

Definition cacheSet (key : string) (value : vector) : M World unit :=
  emit (CacheSet key) ;;;
  c <- gets cache ;;
  t <- gets now ;;
  let livetime := if stdTTL this =? 0 then 0 else t + stdTTL this * 1000 in
  setCache (assignEntry key (value, livetime) c).

(** ** The methods *)

(** [delay(ms)] *)
Definition delay (ms : Z) : M World unit :=
  if ms <=? 0 then ret tt
  else emit (Delay ms) ;;; elapse ms.

Definition stringifyError (error : exn) : string :=
  match error with
  | Error m => m
  | TypeError m => m
  | RangeError m => m
  | ZodError s => s
  | Rejected v => v
  | Undefined => "undefined"
  end.

Definition setCacheEntry (key : string) (value : vector) : M World unit :=
  keys <- cacheKeys ;;
  full <- (if (cacheSize this <=? length keys)%nat
           then present <- cacheHas key ;; ret (negb present)
           else ret false) ;;
  (if full : bool then
     keys' <- cacheKeys ;;
     match keys' with
     | oldestKey :: _ => if truthy oldestKey then cacheDel oldestKey else ret tt
     | [] => ret tt
     end
   else ret tt) ;;;
  cacheSet key value.

(** [ensureVectorSize(vector, sourceText)]; [sourceText] is [None] when the
    caller passes [undefined], on which [slice] throws. *)
Definition ensureVectorSize (v : vector) (sourceText : option string) : M World unit :=
  if negb (length v =? VECTOR_SIZE)%nat then
    match sourceText with
    | Some s =>
        emit (LogWarn ("Unexpected embedding size (" +:+ showNat (length v)
                       +:+ ") for text snippet: " +:+ String.substring 0 32 s +:+ "..."))
    | None => throw (TypeError "Cannot read properties of undefined (reading 'slice')")
    end
  else ret tt.

(** The loop of [executeWithRetry]: [remaining] attempts are left, the next
    one is number [attempt]. *)
Fixpoint retryLoop {A} (fn : M World A) (remaining : nat) (attempt : Z)
  (lastError : option exn) : M World A :=
  match remaining with
  | O => throw (default Undefined lastError)
  | S remaining' =>
      tryCatch fn (fun error =>
        let delayMs := 2 ^ attempt * 100 in
        emit (LogWarn ("Embedding request failed (attempt " +:+ pretty attempt
                       +:+ "): " +:+ stringifyError error)) ;;;
        delay delayMs ;;;
        retryLoop fn remaining' (attempt + 1) (Some error))
  end.

Definition executeWithRetry {A} (fn : M World A) (attempts : nat) : M World A :=
  retryLoop fn attempts 1 None.

(** The window of the rate limiter: [while (... now - requestTimestamps[0] >
    ONE_MINUTE_MS) requestTimestamps.shift()]. *)
Definition dropOld (t : Z) (ts : list Z) : list Z :=
  dropWhile (fun t0 => t - t0 >? ONE_MINUTE_MS) ts.

(** [enforceRateLimit].  With an empty window and a limit that is not
    positive the wait is [NaN], which [setTimeout] takes as 1 ms. *)
Definition enforceRateLimit : M World unit :=
  t <- gets now ;;
  ts0 <- gets requestTimestamps ;;
  let ts := dropOld t ts0 in
  setTimestamps ts ;;;
  (if rateLimitPerMinute this <=? Z.of_nat (length ts) then
     match ts with
     | t0 :: _ => delay (ONE_MINUTE_MS - (t - t0) + 5)
     | [] => emit (Delay 1) ;;; elapse 1
     end
   else ret tt) ;;;
  t' <- gets now ;;
  ts' <- gets requestTimestamps ;;
  setTimestamps (ts' ++ [t']).

(** One call of the provider: it is recorded, takes its time, and answers. *)
Definition callProvider {A} (e : Event) (answer : nat -> result A) : M World A :=
  emit e ;;;
  n <- gets providerCalls ;;
  modify (fun w => {| now := now w + latency provider n; cache := cache w;
                      requestTimestamps := requestTimestamps w;
                      providerCalls := S n;
                      trace := trace w |}) ;;;
  lift (answer n).

(** [embedText] *)
Definition embedText (text : string) : M World vector :=
  let trimmed := trim text in
  if negb (truthy trimmed) then throw (Error "Cannot embed empty text")
  else
    let key := cacheKey trimmed in
    cached <- cacheGet key ;;
    match cached with
    | Some v => ret v
    | None =>
        embedding <- executeWithRetry
          (enforceRateLimit ;;;
           callProvider (EmbedQuery trimmed) (fun n => embedQuery provider n trimmed)) 5 ;;
        setCacheEntry key embedding ;;;
        ensureVectorSize embedding (Some trimmed) ;;;
        ret embedding
    end.

(** The first loop of [embedTextsChunk]; its variables. *)
Record Lookup := mkLookup {
  vectors : list (option vector);
  uncachedTexts : list string;
  uncachedIndices : list nat }.

Definition lookupText (st : Lookup) (it : nat * string) : M World Lookup :=
  let '(index, text) := it in
  let key := cacheKey text in
  cached <- cacheGet key ;;
  match cached with
  | Some v =>
      ret {| vectors := <[index := Some v]> (vectors st);
             uncachedTexts := uncachedTexts st;
             uncachedIndices := uncachedIndices st |}
  | None =>
      ret {| vectors := vectors st;
             uncachedTexts := uncachedTexts st ++ [text];
             uncachedIndices := uncachedIndices st ++ [index] |}
  end.

(** The body of [fetched.forEach((vector, idx) => ...)]. *)
Definition storeFetched (texts : list string) (indices : list nat)
  (vs : list (option vector)) (it : nat * vector) : M World (list (option vector)) :=
  let '(idx, v) := it in
  ensureVectorSize v (texts !! idx) ;;;
  match texts !! idx with
  | None => throw (TypeError "The data argument must be of type string")
  | Some text =>
      setCacheEntry (cacheKey text) v ;;;
      match indices !! idx with
      | Some i => ret (<[i := Some v]> vs)
      | None => ret vs
      end
  end.

(** [slots.map((vector, idx) => { if (!vector) throw ...; return vector })]
    on an array made by [new Array(n)]: [map] does not call its function on
    the slots that were never assigned ([None]) and leaves them empty, and an
    assigned slot holds an array, which is truthy; so the function never
    throws and the array comes back as it is. *)
Fixpoint mapPresent (slots : list (option vector)) : list (option vector) :=
  match slots with
  | [] => []
  | Some v :: rest => Some v :: mapPresent rest
  | None :: rest => None :: mapPresent rest
  end.

(** [embedTextsChunk] *)
Definition embedTextsChunk (texts : list string) : M World (list (option vector)) :=
  st <- forEachM lookupText (imap pair texts)
          {| vectors := replicate (length texts) None;
             uncachedTexts := []; uncachedIndices := [] |} ;;
  vs <- (if (0 <? length (uncachedTexts st))%nat then
           fetched <- executeWithRetry
             (enforceRateLimit ;;;
              callProvider (EmbedDocuments (uncachedTexts st))
                (fun n => embedDocuments provider n (uncachedTexts st))) 5 ;;
           forEachM (storeFetched (uncachedTexts st) (uncachedIndices st))
             (imap pair fetched) (vectors st)
         else ret (vectors st)) ;;
  ret (mapPresent vs).

(** [createBatches]: [i] is the loop counter; the loop ends within
    [fuel = items.length] rounds when [batchSize] is positive. *)
Fixpoint createBatchesFrom (fuel : nat) (items : list string) (size i : nat)
  : list (nat * list string) :=
  match fuel with
  | O => []
  | S fuel' =>
      if (i <? length items)%nat
      then (i, take size (drop i items)) :: createBatchesFrom fuel' items size (i + size)
      else []
  end.

(** [None]: the loop of [createBatches] does not end (the counter does not
    grow) when [batchSize] is not positive and there is an item. *)
Definition createBatches (items : list string) (size : Z)
  : option (list (nat * list string)) :=
  match items with
  | [] => Some []
  | _ => if size <=? 0 then None
         else Some (createBatchesFrom (length items) items (Z.to_nat size) 0)
  end.

(** The variables that the worker of [embedBatch] shares with it. *)
Record BatchState := mkBatchState {
  results : list (option vector);
  processed : nat }.

(** [vectors.forEach((vector, idx) => { results[start + idx] = vector })];
    [forEach] skips the empty slots. *)
Fixpoint copyInto (start idx : nat) (vs : list (option vector))
  (res : list (option vector)) : list (option vector) :=
  match vs with
  | [] => res
  | Some v :: rest => copyInto start (S idx) rest (<[(start + idx)%nat := Some v]> res)
  | None :: rest => copyInto start (S idx) rest res
  end.

(** The worker passed to [runWithConcurrency]. *)
Definition batchWorker (total : nat) (st : BatchState) (batch : nat * list string)
  : M World BatchState :=
  let '(start, items) := batch in
  vs <- embedTextsChunk items ;;
  let processed' := (processed st + length items)%nat in
  (if (50 <=? total)%nat && (processed' mod 50 =? 0)%nat
   then emit (LogInfo ("Embedded " +:+ showNat processed' +:+ "/" +:+ showNat total
                       +:+ " texts"))
   else ret tt) ;;;
  ret {| results := copyInto start 0 vs (results st); processed := processed' |}.

(** [runWithConcurrency]: [min(maxConcurrency, queue.length)] workers drain
    the queue.  No worker leaves the queue untouched; one worker takes the
    batches first-in first-out.  Two or more workers interleave at every
    [await]; such runs are outside this model ([None]). *)
Definition runWithConcurrency (total : nat) (queue : list (nat * list string))
  (st : BatchState) : option (M World BatchState) :=
  let concurrency := Z.min (maxConcurrency this) (Z.of_nat (length queue)) in
  if concurrency <=? 0 then Some (ret st)
  else if concurrency =? 1 then Some (forEachM (batchWorker total) queue st)
  else None.

(** [embedBatch(texts, batchSize)] *)
Definition embedBatch (texts : list string) (size : Z)
  : option (M World (list (option vector))) :=
  if (length texts =? 0)%nat then Some (ret [])
  else
    match createBatches texts size with
    | None => None
    | Some batches =>
        match runWithConcurrency (length texts) batches
                {| results := replicate (length texts) None; processed := 0 |} with
        | None => None
        | Some run => Some (st <- run ;; ret (mapPresent (results st)))
        end
    end.

(** [chunks.map((chunk, idx) => SEBIChunkSchema.parse({ ...chunk, embedding:
    embeddings[idx] }))]; an empty slot reads as [undefined]. *)
Fixpoint attachEmbeddings (schemas : Schemas) (idx : nat) (chunks : list SEBIChunk)
  (embeddings : list (option vector)) : result (list SEBIChunk) :=
  match chunks with
  | [] => inr []
  | c :: rest =>
      rbind (SEBIChunkSchema_parse schemas
               {| chunk_id := chunk_id c; document_id := document_id c;
                  chunk_index := chunk_index c; content := content c;
                  tokens := tokens c; section_hierarchy := section_hierarchy c;
                  embedding := mjoin (embeddings !! idx);
                  chunk_metadata := chunk_metadata c |})
        (fun enriched =>
           rbind (attachEmbeddings schemas (S idx) rest embeddings)
                 (fun others => inr (enriched :: others)))
  end.

(** [embedChunks] *)
Definition embedChunks (schemas : Schemas) (chunks : list SEBIChunk)
  : option (M World (list SEBIChunk)) :=
  if (length chunks =? 0)%nat then Some (ret [])
  else
    match embedBatch (map content chunks) (batchSize this) with
    | None => None
    | Some run =>
        Some (embeddings <- run ;; lift (attachEmbeddings schemas 0 chunks embeddings))
    end.

End Generator.

End Embedder.

(* ================================================================== *)
(** * [qdrant-client.ts]: the vector-store manager *)
(* ================================================================== *)

Module Qdrant.
Import Js Types Effect.
Local Open Scope effect_scope.

Definition DEFAULT_COLLECTION : string := "sebi_regulations".
Definition VECTOR_SIZE : nat := 3072.
Definition DEFAULT_BATCH_SIZE : nat := 100.
Definition RRF_K : Q := 60.

(** [interface SearchFilters] *)
Record SearchFilters := mkFilters {
  f_category : option string;
  f_dateFrom : option JsDate;
  f_dateTo : option JsDate;
  f_chapter : option string }.

(** [interface SearchResult] *)
Record SearchResult := mkResult {
  score : Q;
  chunk : SEBIChunk;
  document : SEBIDocument }.

(** [interface PayloadDocumentShape] *)
Record PayloadDocumentShape := mkPayloadDocument {
  pd_id : option string;
  pd_circular_id : option string;
  pd_title : option string;
  pd_date : option string;
  pd_category : option string;
  pd_chapter : option string;
  pd_section : option string;
  pd_content : option string;
  pd_url : option string;
  pd_metadata : option Metadata }.

(** [interface PayloadShape]; [pl_chunk] is the stored object before any
    validation. *)
Record PayloadShape := mkPayload {
  pl_chunk : option SEBIChunk;
  pl_document : option PayloadDocumentShape;
  pl_circular_id : option string;
  pl_category : option string;
  pl_date : option string;
  pl_chapter : option string;
  pl_url : option string;
  pl_title : option string;
  pl_metadata : option Metadata }.

(** One condition of [QdrantFilter.must]. *)
Inductive Condition :=
| Match (key value : string)
| Range (key : string) (gte lte : option JsDate).

Definition QdrantFilter : Type := list Condition.

(** [interface QdrantPoint] *)
Record QdrantPoint := mkPoint {
  pt_id : string;
  pt_vector : option vector;
  pt_payload : option PayloadShape }.

(** What [client.search] and [client.scroll] return for one point. *)
Record Hit := mkHit {
  hit_id : string;
  hit_score : option Q;
  hit_payload : option PayloadShape }.

(** The [QdrantClient] the manager is given, over the state [Store] of the
    service behind it.  Each method answers or rejects and moves the store. *)
Record Client (Store : Type) := mkClient {
  getCollection : string -> Store -> result unit * Store;
  createCollection : string -> Store -> result unit * Store;
  createPayloadIndex : string -> string -> string -> Store -> result unit * Store;
  upsert : string -> list QdrantPoint -> Store -> result unit * Store;
  search : string -> vector -> Z -> option QdrantFilter -> Store
           -> result (list Hit) * Store;
  scroll : string -> option QdrantFilter -> option string -> Store
           -> result (list Hit * option string) * Store;
  deleteCollection : string -> Store -> result unit * Store }.

Arguments getCollection {Store}.
Arguments createCollection {Store}.
Arguments createPayloadIndex {Store}.
Arguments upsert {Store}.
Arguments search {Store}.
Arguments scroll {Store}.
Arguments deleteCollection {Store}.

(** The calls that leave the manager. *)
Inductive Event :=
| GetCollection (name : string)
| CreateCollection (name : string)
| CreatePayloadIndex (name field schema : string)
| Upsert (name : string) (points : list QdrantPoint)
| Search (name : string) (v : vector) (limit : Z) (filter : option QdrantFilter)
| Scroll (name : string) (filter : option QdrantFilter) (offset : option string)
| DeleteCollection (name : string)
| Sleep (ms : Z)
| LogWarn (message : string).

Record World (Store : Type) := mkWorld {
  now : Z;
  service : Store;
  trace : list Event }.

Arguments mkWorld {Store}.
Arguments now {Store}.
Arguments service {Store}.
Arguments trace {Store}.

Section Manager.

Context {Store : Type}.
Variable client : Client Store.
Variable collectionName : string.
Variable schemas : Schemas.

(** [new Date(text)] and [date.toISOString()] of the runtime. *)
Variable parseDate : string -> JsDate.
Variable toISOString : Z -> string.

(** [Math.log], on the rationals that model [number]. *)
Variable ln : Q -> Q.

Definition emit (e : Event) : M (World Store) unit :=
  modify (fun w => {| now := now w; service := service w; trace := trace w ++ [e] |}).

Definition elapse (ms : Z) : M (World Store) unit :=
  modify (fun w => {| now := (now w + ms)%Z; service := service w; trace := trace w |}).

(** A call of the client: recorded, then run on the service. *)
Definition call {A} (e : Event) (op : Store -> result A * Store) : M (World Store) A :=
  emit e ;;;
  fun w =>
    let '(r, s') := op (service w) in
    (r, {| now := now w; service := s'; trace := trace w |}).

Definition stringifyError (error : exn) : string :=
  match error with
  | Error m => m
  | TypeError m => m
  | RangeError m => m
  | ZodError s => s
  | Rejected v => v
  | Undefined => "undefined"
  end.

(** [retry(operation, attempts)] *)
Fixpoint retryLoop {A} (operation : M (World Store) A) (attempts : nat)
  (remaining : nat) (attempt : nat) (lastError : option exn) : M (World Store) A :=
  match remaining with
  | O => throw (default Undefined lastError)
  | S remaining' =>
      tryCatch operation (fun error =>
        emit (LogWarn ("Qdrant operation failed (attempt " +:+ showNat attempt +:+ "/"
                       +:+ showNat attempts +:+ "): " +:+ stringifyError error)) ;;;
        emit (Sleep (100 * Z.of_nat attempt)) ;;;
        elapse (100 * Z.of_nat attempt) ;;;
        retryLoop operation attempts remaining' (S attempt) (Some error))
  end.

Definition retry {A} (operation : M (World Store) A) (attempts : nat)
  : M (World Store) A :=
  retryLoop operation attempts attempts 1 None.

(** [new Date(x).toISOString()] *)
Definition isoOfDate (d : JsDate) : result string :=
  match d with
  | Some t => inr (toISOString t)
  | None => inl (RangeError "Invalid time value")
  end.

(** [normalizeDocumentPayload] *)
Definition normalizeDocumentPayload (document : option PartialDocument)
  : result (option PayloadDocumentShape) :=
  match document with
  | None => inr None
  | Some d =>
      rbind (match p_date d with
             | Some date => rbind (isoOfDate date) (fun s => inr (Some s))
             | None => inr None
             end)
        (fun date =>
           inr (Some {| pd_id := p_id d; pd_circular_id := p_circular_id d;
                        pd_title := p_title d; pd_date := date;
                        pd_category := p_category d; pd_chapter := p_chapter d;
                        pd_section := p_section d; pd_content := p_content d;
                        pd_url := p_url d; pd_metadata := p_metadata d |}))
  end.

Definition emptyMetadata : ChunkMetadata :=
  {| m_circular_id := None; m_category := None; m_date := None; m_chapter := None;
     m_title := None; m_url := None; m_document := None; m_metadata := None |}.

(** [extractChunkMetadata] *)
Definition extractChunkMetadata (c : SEBIChunk) : ChunkMetadata :=
  default emptyMetadata (chunk_metadata c).

(** [a ?? b] on an optional first operand. *)
Definition orElse {A} (a : option A) (b : option A) : option A :=
  match a with Some _ => a | None => b end.

(** [buildPayload] *)
Definition buildPayload (c : SEBIChunk) : result PayloadShape :=
  let meta := extractChunkMetadata c in
  let chapter := orElse (m_chapter meta) (section_hierarchy c !! 0%nat) in
  rbind (match m_date meta with
         | Some d => if truthy d
                     then rbind (isoOfDate (parseDate d)) (fun s => inr (Some s))
                     else inr None
         | None => inr None
         end)
    (fun dateValue =>
       rbind (normalizeDocumentPayload (m_document meta))
         (fun doc =>
            inr {| pl_chunk := Some c;
                   pl_document := doc;
                   pl_circular_id := Some (default (document_id c) (m_circular_id meta));
                   pl_category := Some (default "general" (m_category meta));
                   pl_date := dateValue;
                   pl_chapter := chapter;
                   pl_url := m_url meta;
                   pl_title := m_title meta;
                   pl_metadata := Some (default [] (m_metadata meta)) |})).

(** [chunkBatch.map((chunk, index) => ({ id, vector, payload }))] *)
Fixpoint buildPoints (index : nat) (chunkBatch : list SEBIChunk)
  (embeddingBatch : list vector) : result (list QdrantPoint) :=
  match chunkBatch with
  | [] => inr []
  | c :: rest =>
      rbind (buildPayload c) (fun payload =>
      rbind (buildPoints (S index) rest embeddingBatch) (fun points =>
        inr ({| pt_id := chunk_id c;
                pt_vector := embeddingBatch !! index;
                pt_payload := Some payload |} :: points)))
  end.

(** The values of [i] in [for (let i = 0; i < n; i += size)], [size > 0];
    [fuel = n] rounds are enough. *)
Fixpoint batchStarts (fuel n size i : nat) : list nat :=
  match fuel with
  | O => []
  | S fuel' => if (i <? n)%nat then i :: batchStarts fuel' n size (i + size) else []
  end.

(** [upsertChunks] *)
Definition upsertChunks (chunks : list SEBIChunk) (embeddings : list vector)
  : M (World Store) nat :=
  if negb (length chunks =? length embeddings)%nat
  then throw (Error "Chunks and embeddings length mismatch")
  else
    forEachM (fun (success : nat) (i : nat) =>
        let chunkBatch := take DEFAULT_BATCH_SIZE (drop i chunks) in
        let embeddingBatch := take DEFAULT_BATCH_SIZE (drop i embeddings) in
        retry (points <- lift (buildPoints 0 chunkBatch embeddingBatch) ;;
               call (Upsert collectionName points) (upsert client collectionName points))
              3 ;;;
        ret (success + length chunkBatch)%nat)
      (batchStarts (length chunks) (length chunks) DEFAULT_BATCH_SIZE 0) 0%nat.

(** [collectionExists] *)
Definition collectionExists : M (World Store) bool :=
  tryCatch
    (call (GetCollection collectionName) (getCollection client collectionName) ;;;
     ret true)
    (fun error =>
       emit (LogWarn ("Collection " +:+ collectionName +:+ " not found: "
                      +:+ stringifyError error)) ;;;
       ret false).

(** A promise that is started and awaited later: its outcome as a value. *)
Definition settled {A} (m : M (World Store) A) : M (World Store) (result A) :=
  fun w => let '(r, w') := m w in (inr r, w').

Definition createIndex (field schema : string) : M (World Store) unit :=
  call (CreatePayloadIndex collectionName field schema)
       (createPayloadIndex client collectionName field schema).

(** [await Promise.all(promises)] on promises that are already running: it
    returns when all are fulfilled and throws the reason of the promise that
    is rejected first in time.  [settles] is the order in which the runtime
    settles the promises, by their positions in the array; the positions it
    leaves out settle after the others, in the order written. *)
Definition firstRejection {A} (settles : list nat) (outcomes : list (result A))
  : option exn :=
  head (omap (fun i => match outcomes !! i with
                       | Some (inl e) => Some e
                       | _ => None
                       end)
             (settles ++ seq 0 (length outcomes))).

Definition promiseAll (settles : list nat) (outcomes : list (result unit))
  : result unit :=
  match firstRejection settles outcomes with
  | Some e => inl e
  | None => inr tt
  end.

(** [initializeCollection].  Each of the four methods of the array sends its
    request when it is called, so the four index requests are all issued, in
    the order written, before any answer is awaited; the store is taken to
    have answered the four when [Promise.all] settles, in the order
    [settles]. *)
Definition initializeCollection (settles : list nat) : M (World Store) unit :=
  present <- collectionExists ;;
  if present : bool then ret tt
  else
    call (CreateCollection collectionName) (createCollection client collectionName) ;;;
    r1 <- settled (createIndex "circular_id" "keyword") ;;
    r2 <- settled (createIndex "category" "keyword") ;;
    r3 <- settled (createIndex "chapter" "keyword") ;;
    r4 <- settled (createIndex "date" "datetime") ;;
    lift (promiseAll settles [r1; r2; r3; r4]).

(** [buildFilter] *)
Definition buildFilter (filters : option SearchFilters) : option QdrantFilter :=
  match filters with
  | None => None
  | Some f =>
      let must :=
        (match f_category f with
         | Some c => if truthy c then [Match "category" c] else []
         | None => []
         end)
        ++ (match f_chapter f with
            | Some c => if truthy c then [Match "chapter" c] else []
            | None => []
            end)
        ++ (if bool_decide (is_Some (f_dateFrom f)) || bool_decide (is_Some (f_dateTo f))
            then [Range "date" (f_dateFrom f) (f_dateTo f)]
            else []) in
      if (length must =? 0)%nat then None else Some must
  end.

Definition emptyPayloadDocument : PayloadDocumentShape :=
  {| pd_id := None; pd_circular_id := None; pd_title := None; pd_date := None;
     pd_category := None; pd_chapter := None; pd_section := None;
     pd_content := None; pd_url := None; pd_metadata := None |}.

(** [payloadToDocument]; [new Date()] reads the clock. *)
Definition payloadToDocument (payload : PayloadShape) (c : SEBIChunk)
  : M (World Store) SEBIDocument :=
  t <- gets now ;;
  let rawDocument := default emptyPayloadDocument (pl_document payload) in
  let dateSource :=
    default (toISOString t) (orElse (pd_date rawDocument) (pl_date payload)) in
  let parsedDate := parseDate dateSource in
  let safeDate := match parsedDate with Some _ => parsedDate | None => Some t end in
  let docCandidate :=
    {| doc_id := default (document_id c) (pd_id rawDocument);
       circular_id :=
         default (document_id c)
           (orElse (pd_circular_id rawDocument) (pl_circular_id payload));
       doc_title :=
         default ("SEBI Circular " +:+ document_id c)
           (orElse (pd_title rawDocument) (pl_title payload));
       doc_date := safeDate;
       category :=
         default "general" (orElse (pd_category rawDocument) (pl_category payload));
       doc_chapter :=
         orElse (orElse (pd_chapter rawDocument) (pl_chapter payload))
                (section_hierarchy c !! 0%nat);
       doc_section := orElse (pd_section rawDocument) (last (section_hierarchy c));
       doc_content := default (content c) (pd_content rawDocument);
       doc_url := default "" (orElse (pd_url rawDocument) (pl_url payload));
       doc_metadata :=
         default [] (orElse (pd_metadata rawDocument) (pl_metadata payload)) |} in
  lift (SEBIDocumentSchema_parse schemas docCandidate).

(** [mapHitToResult] *)
Definition mapHitToResult (hit : Hit) : M (World Store) (option SearchResult) :=
  match hit_payload hit with
  | None => ret None
  | Some payload =>
      match pl_chunk payload with
      | None => ret None
      | Some raw =>
          match SEBIChunkSchema_safeParse schemas raw with
          | None => emit (LogWarn "Failed to parse chunk payload") ;;; ret None
          | Some data =>
              doc <- payloadToDocument payload data ;;
              ret (Some {| score := default 0%Q (hit_score hit);
                           chunk := data;
                           document := doc |})
          end
      end
  end.

(** [hits.map((hit) => this.mapHitToResult(hit))] *)
Fixpoint mapHits (hits : list Hit) : M (World Store) (list (option SearchResult)) :=
  match hits with
  | [] => ret []
  | hit :: rest =>
      r <- mapHitToResult hit ;;
      rs <- mapHits rest ;;
      ret (r :: rs)
  end.

(** [semanticSearch] *)
Definition semanticSearch (v : vector) (filters : option SearchFilters) (limit : Z)
  : M (World Store) (list SearchResult) :=
  let filter := buildFilter filters in
  hits <- call (Search collectionName v limit filter)
               (search client collectionName v limit filter) ;;
  mapped <- mapHits hits ;;
  ret (omap id mapped).

(** The loop of [fetchAllPoints]; it runs as long as the service names a next
    page, [None] when that is for more than [pages] pages. *)
Fixpoint fetchPages (pages : nat) (filter : option QdrantFilter)
  (offset : option string) (results : list SearchResult)
  : M (World Store) (option (list SearchResult)) :=
  match pages with
  | O => ret None
  | S pages' =>
      response <- call (Scroll collectionName filter offset)
                       (scroll client collectionName filter offset) ;;
      results' <- forEachM (fun acc point =>
                     mapped <- mapHitToResult point ;;
                     ret (match mapped with Some r => acc ++ [r] | None => acc end))
                   (fst response) results ;;
      match snd response with
      | Some next =>
          if truthy next then fetchPages pages' filter (Some next) results'
          else ret (Some results')
      | None => ret (Some results')
      end
  end.

Definition fetchAllPoints (pages : nat) (filters : option SearchFilters)
  : M (World Store) (option (list SearchResult)) :=
  fetchPages pages (buildFilter filters) None [].

(** [text.toLowerCase().split(/[^a-z0-9]+/g).filter(...)]: the maximal runs
    of letters and digits of the text in lower case. *)
Definition isAlnum (c : ascii) : bool :=
  let n := nat_of_ascii c in
  ((97 <=? n)%nat && (n <=? 122)%nat) || isDigit c.

Fixpoint tokenizeChars (cur : list ascii) (l : list ascii) : list string :=
  match l with
  | [] => match cur with [] => [] | _ => [str (rev cur)] end
  | c :: t =>
      if isAlnum (toLower c) then tokenizeChars (toLower c :: cur) t
      else match cur with
           | [] => tokenizeChars [] t
           | _ => str (rev cur) :: tokenizeChars [] t
           end
  end.

Definition tokenize (text : string) : list string := tokenizeChars [] (chars text).

(** [computeDocumentFrequency] *)
Definition computeDocumentFrequency (documents : list (list string))
  (queryTokens : list string) : gmap string nat :=
  fold_left (fun (df : gmap string nat) term =>
      <[term := length (List.filter (fun tokens => bool_decide (term ∈ tokens)) documents)]> df)
    queryTokens ∅.

Definition ofNat (n : nat) : Q := inject_Z (Z.of_nat n).

(** [computeBm25Score] *)
Definition computeBm25Score (docTokens queryTokens : list string)
  (df : gmap string nat) (totalDocs : nat) (avgDocLength : Q) : Q :=
  if (length docTokens =? 0)%nat || (length queryTokens =? 0)%nat then 0%Q
  else
    let k1 : Q := 1.5%Q in
    let b : Q := 0.75%Q in
    let docLength := ofNat (length docTokens) in
    let tf : gmap string nat :=
      fold_left (fun (m : gmap string nat) token =>
                   <[token := (default 0 (m !! token) + 1)%nat]> m) docTokens ∅ in
    fold_left (fun (acc : Q) term =>
        let termFrequency := default 0%nat (tf !! term) in
        if (termFrequency =? 0)%nat then acc
        else
          let documentFrequency :=
            match df !! term with Some n => ofNat n | None => 0.5%Q end in
          let idf := ln ((ofNat totalDocs - documentFrequency + 0.5)
                         / (documentFrequency + 0.5) + 1)%Q in
          let numerator := (ofNat termFrequency * (k1 + 1))%Q in
          let denominator :=
            (ofNat termFrequency
             + k1 * (1 - b + (b * docLength)
                              / (if Qeq_bool avgDocLength 0 then 1 else avgDocLength)))%Q in
          (acc + idf * (numerator / denominator))%Q)
      queryTokens 0%Q.

(** [l.sort((a, b) => b.score - a.score)]: the sort is stable, so the result
    is the rearrangement by descending score that keeps equal scores in their
    order; it is computed by insertion from the right. *)
Fixpoint insertDesc {A} (key : A -> Q) (x : A) (l : list A) : list A :=
  match l with
  | [] => [x]
  | y :: t => if Qle_bool (key y) (key x) then x :: y :: t else y :: insertDesc key x t
  end.

Definition sortDesc {A} (key : A -> Q) (l : list A) : list A :=
  fold_right (insertDesc key) [] l.

(** [l.slice(0, limit)] *)
Definition slice0 {A} (limit : Z) (l : list A) : list A :=
  if (0 <=? limit)%Z then take (Z.to_nat limit) l
  else take (length l - Z.to_nat (- limit)) l.

(** [keywordSearch] *)
Definition keywordSearch (pages : nat) (query : string) (limit : Z)
  (filters : option SearchFilters) : M (World Store) (option (list SearchResult)) :=
  fetched <- fetchAllPoints pages filters ;;
  match fetched with
  | None => ret None
  | Some candidates =>
      if negb (truthy (trim query)) then ret (Some (slice0 limit candidates))
      else
        let queryTokens := tokenize query in
        let documents := map (fun c => (c, tokenize (content (chunk c)))) candidates in
        let avgDocLength :=
          (fold_left (fun sum doc => sum + ofNat (length (snd doc))) documents 0
           / ofNat (Nat.max (length documents) 1))%Q in
        let docFrequencies := computeDocumentFrequency (map snd documents) queryTokens in
        let scored :=
          map (fun doc =>
                 (doc, computeBm25Score (snd doc) queryTokens docFrequencies
                         (length documents) avgDocLength)) documents in
        ret (Some (map (fun d => {| score := snd d;
                                    chunk := chunk (fst (fst d));
                                    document := document (fst (fst d)) |})
                       (slice0 limit (sortDesc snd scored))))
  end.

(** ** Reciprocal rank fusion *)

(** The key of the [scores] map. *)
Definition rrfKey (r : SearchResult) : string :=
  doc_id (document r) +:+ "-" +:+ chunk_id (chunk r).

(** [existing ? existing.score += increment : scores.set(key, ...)] on the
    entries of the map, in insertion order. *)
Fixpoint accumulate (key : string) (r : SearchResult) (increment : Q)
  (scores : list (string * (SearchResult * Q))) : list (string * (SearchResult * Q)) :=
  match scores with
  | [] => [(key, (r, increment))]
  | (k, (r0, s)) :: rest =>
      if String.eqb k key then (k, (r0, (s + increment)%Q)) :: rest
      else (k, (r0, s)) :: accumulate key r increment rest
  end.

(** The inner [results.forEach((result, index) => ...)], for the constant [k]. *)
Definition fuseList (k : Q) (scores : list (string * (SearchResult * Q)))
  (results : list SearchResult) : list (string * (SearchResult * Q)) :=
  fold_left (fun sc (ir : nat * SearchResult) =>
               accumulate (rrfKey (snd ir)) (snd ir)
                          (1 / (k + ofNat (fst ir) + 1))%Q sc)
            (imap pair results) scores.

(** The [scores] map after [resultSets.forEach]. *)
Definition fusedScores (k : Q) (resultSets : list (list SearchResult))
  : list (string * (SearchResult * Q)) :=
  fold_left (fuseList k) resultSets [].

Definition reciprocalRankFusionWith (k : Q) (resultSets : list (list SearchResult))
  (limit : Z) : list SearchResult :=
  map (fun entry => {| score := snd entry;
                       chunk := chunk (fst entry);
                       document := document (fst entry) |})
      (slice0 limit (sortDesc snd (map snd (fusedScores k resultSets)))).

(** [reciprocalRankFusion] *)
Definition reciprocalRankFusion : list (list SearchResult) -> Z -> list SearchResult :=
  reciprocalRankFusionWith RRF_K.

(** [hybridSearch] *)
Definition hybridSearch (pages : nat) (query : string) (semanticEmbedding : vector)
  (limit : Z) (filters : option SearchFilters)
  : M (World Store) (option (list SearchResult)) :=
  semanticHits <- semanticSearch semanticEmbedding filters (Z.max (limit * 2) 10) ;;
  keywordHits <- keywordSearch pages query (Z.max (limit * 2) 10) filters ;;
  match keywordHits with
  | None => ret None
  | Some hits => ret (Some (reciprocalRankFusion [semanticHits; hits] limit))
  end.

End Manager.

End Qdrant.

(* ================================================================== *)
(** * [ingest.ts]: the ingestion of one PDF *)
(* ================================================================== *)

Module Ingest.
Import Js Types Effect.
Local Open Scope effect_scope.

(** [DEFAULT_CHUNK_OPTIONS] *)
Definition DEFAULT_CHUNK_OPTIONS : PdfParser.ChunkOptions :=
  {| PdfParser.maxTokens := Some 512%Z;
     PdfParser.minTokens := Some 128%Z;
     PdfParser.overlap := Some 50%Z |}.

(** [interface IngestionConfig] (the logger is the trace). *)
Record IngestionConfig := mkConfig {
  sourcePath : option string;
  chunkOptions : option PdfParser.ChunkOptions }.

(** [interface IngestionSummary] *)
Record IngestionSummary := mkSummary {
  pdfPath : string;
  circularId : string;
  chunkCount : nat;
  embeddingCount : nat;
  durationMs : Z }.

(** The calls that leave [CorpusIngestion]: to the [QdrantManager], to the
    file system, to the parser, to the [EmbeddingGenerator], to the logger. *)
Inductive Event :=
| QdrantInitializeCollection
| ReadFile (path : string)
| Parse (buffer : string)
| EmbedChunks (chunks : list SEBIChunk)
| QdrantUpsertChunks (chunks : list SEBIChunk) (embeddings : list vector)
| LogInfo (message : string).

(** The calls that reach the vector store or the embedding provider.
    [QdrantManager.initializeCollection] asks the store whether the
    collection exists, [EmbeddingGenerator.embedChunks] calls the provider for
    the texts it has not cached, [QdrantManager.upsertChunks] writes to the
    store. *)
Definition isNetworkCall (e : Event) : bool :=
  match e with
  | QdrantInitializeCollection | EmbedChunks _ | QdrantUpsertChunks _ _ => true
  | ReadFile _ | Parse _ | LogInfo _ => false
  end.

(** The calls that embed or store chunks. *)
Definition isEmbedOrUpsert (e : Event) : bool :=
  match e with
  | EmbedChunks _ | QdrantUpsertChunks _ _ => true
  | QdrantInitializeCollection | ReadFile _ | Parse _ | LogInfo _ => false
  end.

(** [interface CorpusDependencies], with the file system and the path
    resolution of the runtime: the outcome of each call by its arguments, and
    the time it takes. *)
Record Dependencies := mkDeps {
  initializeCollection : result unit;
  readFile : string -> result string;
  parser : string -> result SEBIDocument;
  embedChunks : list SEBIChunk -> result (list SEBIChunk);
  upsertChunks : list SEBIChunk -> list vector -> result nat;
  resolve : option string -> string -> string;
  elapsed : Event -> Z }.

Record World := mkWorld {
  now : Z;
  trace : list Event }.

Section CorpusIngestion.

Variable countTokens : string -> nat.
Variable schemas : Schemas.
Variable deps : Dependencies.
Variable config : IngestionConfig.

(** A call of a collaborator: recorded, takes its time, answers. *)
Definition call {A} (e : Event) (answer : result A) : M World A :=
  fun w => (answer, {| now := (now w + elapsed deps e)%Z; trace := trace w ++ [e] |}).

(** [this.logger.info?.(...)]; the colour codes that [chalk] puts around the
    message are left out. *)
Definition logInfo (message : string) : M World unit :=
  modify (fun w => {| now := now w; trace := trace w ++ [LogInfo message] |}).

(** [{ ...a, ...b }] on metadata: the keys of [a] in their order, with the
    value [b] gives them if any, then the other keys of [b]. *)
Fixpoint assoc (key : string) (m : Metadata) : option string :=
  match m with
  | [] => None
  | (k, v) :: rest => if String.eqb k key then Some v else assoc key rest
  end.

Fixpoint dedupKeys (seen : list string) (m : Metadata) : Metadata :=
  match m with
  | [] => []
  | (k, v) :: rest =>
      if bool_decide (k ∈ seen) then dedupKeys seen rest
      else (k, v) :: dedupKeys (k :: seen) rest
  end.

Definition spread (a b : Metadata) : Metadata :=
  map (fun kv => (fst kv, default (snd kv) (assoc (fst kv) b))) a
  ++ dedupKeys (map fst a) b.

(** A document seen as a [Partial<SEBIDocument>]. *)
Definition toPartial (d : SEBIDocument) : PartialDocument :=
  {| p_id := Some (doc_id d); p_circular_id := Some (circular_id d);
     p_title := Some (doc_title d); p_date := Some (doc_date d);
     p_category := Some (category d); p_content := Some (doc_content d);
     p_url := Some (doc_url d); p_chapter := doc_chapter d;
     p_section := doc_section d; p_metadata := Some (doc_metadata d) |}.

(** [mergeMetadata] *)
Definition mergeMetadata (document : SEBIDocument) (overrides : option PartialDocument)
  : result SEBIDocument :=
  let merged :=
    match overrides with
    | None =>
        {| doc_id := doc_id document; circular_id := circular_id document;
           doc_title := doc_title document; doc_date := doc_date document;
           category := category document; doc_content := doc_content document;
           doc_url := doc_url document; doc_chapter := doc_chapter document;
           doc_section := doc_section document;
           doc_metadata := spread (doc_metadata document) [] |}
    | Some o =>
        {| doc_id := default (doc_id document) (p_id o);
           circular_id := default (circular_id document) (p_circular_id o);
           doc_title := default (doc_title document) (p_title o);
           doc_date := default (doc_date document) (p_date o);
           category := default (category document) (p_category o);
           doc_content := default (doc_content document) (p_content o);
           doc_url := default (doc_url document) (p_url o);
           doc_chapter := match p_chapter o with Some c => Some c | None => doc_chapter document end;
           doc_section := match p_section o with Some c => Some c | None => doc_section document end;
           doc_metadata := spread (doc_metadata document) (default [] (p_metadata o)) |}
    end in
  SEBIDocumentSchema_parse schemas merged.

(** [validateMetadata] *)
Definition validateMetadata (metadata : option PartialDocument) : result unit :=
  match metadata with
  | None => inl (Error "Document metadata is required")
  | Some m =>
      if negb (from_option truthy false (p_circular_id m))
      then inl (Error "Missing circular_id in metadata")
      else if negb (bool_decide (is_Some (p_date m)))
      then inl (Error "Missing date in metadata")
      else if negb (from_option truthy false (p_category m))
      then inl (Error "Missing category in metadata")
      else if negb (bool_decide (default "" (p_category m) ∈ CATEGORY_KEYS))
      then inl (Error ("Invalid category: " +:+ default "" (p_category m)))
      else inr tt
  end.

(** [get chunkOptions()] *)
Definition effectiveChunkOptions : PdfParser.ChunkOptions :=
  match chunkOptions config with
  | None => DEFAULT_CHUNK_OPTIONS
  | Some o =>
      {| PdfParser.maxTokens :=
           Some (default 512%Z (PdfParser.maxTokens o));
         PdfParser.minTokens :=
           Some (default 128%Z (PdfParser.minTokens o));
         PdfParser.overlap :=
           Some (default 50%Z (PdfParser.overlap o)) |}
  end.

(** [embeddedChunks.map((chunk) => { if (!chunk.embedding) throw ...; return chunk.embedding })] *)
Fixpoint requireEmbeddings (chunks : list SEBIChunk) : result (list vector) :=
  match chunks with
  | [] => inr []
  | c :: rest =>
      match embedding c with
      | None => inl (Error ("Missing embedding for chunk " +:+ chunk_id c))
      | Some v => rbind (requireEmbeddings rest) (fun vs => inr (v :: vs))
      end
  end.

(** [ingestPDF] *)
Definition ingestPDF (pdfPath : string) (metadata : option PartialDocument)
  : M World IngestionSummary :=
  let absolutePath := resolve deps (sourcePath config) pdfPath in
  call QdrantInitializeCollection (initializeCollection deps) ;;;
  start <- gets now ;;
  logInfo ("Ingesting PDF: " +:+ absolutePath) ;;;
  buffer <- call (ReadFile absolutePath) (readFile deps absolutePath) ;;
  document <- call (Parse buffer) (parser deps buffer) ;;
  merged <- lift (mergeMetadata document metadata) ;;
  lift (validateMetadata (Some (toPartial merged))) ;;;
  chunks <- lift (PdfParser.chunkDocument countTokens schemas merged
                    effectiveChunkOptions) ;;
  (if (length chunks =? 0)%nat
   then throw (Error ("No chunks produced for " +:+ circular_id merged))
   else ret tt) ;;;
  logInfo ("Chunked document into " +:+ showNat (length chunks) +:+ " chunks") ;;;
  embeddedChunks <- call (EmbedChunks chunks) (embedChunks deps chunks) ;;
  embeddings <- lift (requireEmbeddings embeddedChunks) ;;
  upserted <- call (QdrantUpsertChunks embeddedChunks embeddings)
                   (upsertChunks deps embeddedChunks embeddings) ;;
  finish <- gets now ;;
  let summary :=
    {| pdfPath := absolutePath;
       circularId := circular_id merged;
       chunkCount := length embeddedChunks;
       embeddingCount := upserted;
       durationMs := (finish - start)%Z |} in
  logInfo ("Ingested " +:+ circularId summary +:+ " ("
           +:+ showNat (chunkCount summary) +:+ " chunks)") ;;;
  ret summary.

End CorpusIngestion.

(** ** The corpus as a whole: [ingestDirectory], [updateCorpus], [getCorpusStats] *)

(** [interface DirectoryIngestionSummary] *)
Record DirectoryIngestionSummary := mkDirectorySummary {
  totalFiles : nat;
  successCount : nat;
  failureCount : nat;
  summaries : list IngestionSummary;
  failures : list (string * string) }.

(** A value held by the [categories] object: a count, or the string that
    [+ 1] makes of a value that is not a number. *)
Inductive Tally :=
| Count (n : nat)
| Text (s : string).

(** [interface CorpusStats]; [categories] by its own keys in insertion
    order. *)
Record CorpusStats := mkStats {
  totalChunks : nat;
  categories : list (string * Tally);
  latestIngestion : option string }.

(** A [fs.Dirent].  The file system under a directory is a finite tree: a
    directory entry carries what [fs.readdir] answers for it. *)
Inductive Dirent :=
| Directory (name : string) (listing : result (list Dirent))
| RegularFile (name : string)
| OtherEntry (name : string).

(** [entry.name] *)
Definition direntName (entry : Dirent) : string :=
  match entry with
  | Directory name _ | RegularFile name | OtherEntry name => name
  end.

(** The calls that leave the methods on the corpus: those of [ingestPDF], the
    directory reads, the two other methods called on the [QdrantManager], and
    the warnings and errors given to the logger. *)
Inductive CorpusEvent :=
| Ingestion (e : Event)
| Readdir (dir : string)
| QdrantDeleteChunksByCircularId (circularId : string)
| QdrantListChunks
| LogWarn (message : string)
| LogError (message : string).

Record CorpusWorld := mkCorpusWorld {
  corpusNow : Z;
  corpusTrace : list CorpusEvent }.

(** The collaborators of the methods on the corpus, besides those of
    [ingestPDF]: the file system below each directory, [path.join], the
    runtime's [toISOString], the [message] of a [ZodError] and [String(v)] for
    a rejection value given by its JSON text, the text [String(v)] of the
    value [v] that an object inherits from [Object.prototype] under a key, the
    time each call takes, and the methods [deleteChunksByCircularId] and [listChunks] that [ingest.ts]
    calls on its [QdrantManager].  [qdrant-client.ts] defines neither of the
    two; like the other collaborators they are taken by their answers. *)
Record CorpusDependencies := mkCorpusDeps {
  readdir : string -> result (list Dirent);
  pathJoin : string -> string -> string;
  deleteChunksByCircularId : string -> result unit;
  listChunks : result (list Qdrant.SearchResult);
  toISOString : Z -> string;
  zodMessage : string -> string;
  stringOf : string -> string;
  inheritedText : string -> string;
  took : CorpusEvent -> Z }.

Section Corpus.

Variable countTokens : string -> nat.
Variable schemas : Schemas.
Variable deps : Dependencies.
Variable config : IngestionConfig.
Variable corpus : CorpusDependencies.

(** A call of a collaborator: recorded, takes its time, answers. *)
Definition callCorpus {A} (e : CorpusEvent) (answer : result A) : M CorpusWorld A :=
  fun w => (answer, {| corpusNow := (corpusNow w + took corpus e)%Z;
                       corpusTrace := corpusTrace w ++ [e] |}).

Definition logCorpus (e : CorpusEvent) : M CorpusWorld unit :=
  modify (fun w => {| corpusNow := corpusNow w; corpusTrace := corpusTrace w ++ [e] |}).

(** A run of a method of the single-document pipeline inside a method on the
    corpus: it starts at the current time, and its calls follow those made so
    far. *)
Definition ingestion {A} (m : M World A) : M CorpusWorld A :=
  fun w =>
    let '(r, w1) := m {| now := corpusNow w; trace := [] |} in
    (r, {| corpusNow := now w1;
           corpusTrace := corpusTrace w ++ map Ingestion (trace w1) |}).

(** The body of [for (const entry of entries)] in [walkPdfFiles]; the
    recursive call on a directory reads the listing that the entry carries. *)
Fixpoint walkEntry (dir : string) (pdfs : list string) (entry : Dirent) {struct entry}
  : M CorpusWorld (list string) :=
  let fullPath := pathJoin corpus dir (direntName entry) in
  match entry with
  | Directory _ listing =>
      callCorpus (Readdir fullPath) (inr tt) ;;;
      match listing with
      | inl error => throw error
      | inr entries =>
          found <- forEachM (walkEntry fullPath) entries [] ;;
          ret (pdfs ++ found)
      end
  | RegularFile name =>
      if endsWith (toLowerCase name) ".pdf" then ret (pdfs ++ [fullPath]) else ret pdfs
  | OtherEntry _ => ret pdfs
  end.

(** [walkPdfFiles] *)
Definition walkPdfFiles (dir : string) : M CorpusWorld (list string) :=
  entries <- callCorpus (Readdir dir) (readdir corpus dir) ;;
  forEachM (walkEntry dir) entries [].

(** [error instanceof Error ? error.message : String(error)] *)
Definition errorMessage (error : exn) : string :=
  match error with
  | Error m | TypeError m | RangeError m => m
  | ZodError s => zodMessage corpus s
  | Rejected v => stringOf corpus v
  | Undefined => "undefined"
  end.

(** [ingestDirectory]; the pair of loop variables is [summaries], [failures]. *)
Definition ingestDirectory (dirPath : string) : M CorpusWorld DirectoryIngestionSummary :=
  let directory := resolve deps (sourcePath config) dirPath in
  pdfFiles <- walkPdfFiles directory ;;
  (if (length pdfFiles =? 0)%nat
   then logCorpus (LogWarn ("No PDF files found under " +:+ directory))
   else ret tt) ;;;
  collected <-
    forEachM (fun (acc : list IngestionSummary * list (string * string)) pdf =>
        tryCatch
          (summary <- ingestion (ingestPDF countTokens schemas deps config pdf None) ;;
           ret (fst acc ++ [summary], snd acc))
          (fun error =>
             let message := errorMessage error in
             logCorpus (LogError ("Failed to ingest " +:+ pdf +:+ ": " +:+ message)) ;;;
             ret (fst acc, snd acc ++ [(pdf, message)])))
      pdfFiles ([], []) ;;
  ret {| totalFiles := length pdfFiles;
         successCount := length (fst collected);
         failureCount := length (snd collected);
         summaries := fst collected;
         failures := snd collected |}.

(** The JSON text of a string without characters to escape, as the ISO text
    of a date is. *)
Definition quoted (s : string) : string :=
  str ([ascii_of_nat 34] ++ chars s ++ [ascii_of_nat 34]).

(** [{ circular_id: circularId, metadata: { version: isoText } }] *)
Definition versionOverrides (circularId isoText : string) : PartialDocument :=
  {| p_id := None; p_circular_id := Some circularId; p_title := None; p_date := None;
     p_category := None; p_content := None; p_url := None; p_chapter := None;
     p_section := None; p_metadata := Some [("version", quoted isoText)] |}.

(** [updateCorpus]; [new Date()] is read when the deletion has returned. *)
Definition updateCorpus (circularId pdfPath : string) : M CorpusWorld IngestionSummary :=
  logCorpus (Ingestion (LogInfo ("Updating corpus for " +:+ circularId))) ;;;
  callCorpus (QdrantDeleteChunksByCircularId circularId)
             (deleteChunksByCircularId corpus circularId) ;;;
  t <- gets corpusNow ;;
  ingestion (ingestPDF countTokens schemas deps config pdfPath
               (Some (versionOverrides circularId (toISOString corpus t)))).

(** The own properties of the [categories] object: the lookup of a key, and
    the definition of a key, which keeps the position of a key that is there
    and puts a new key last. *)
Fixpoint getKey (key : string) (categories : list (string * Tally)) : option Tally :=
  match categories with
  | [] => None
  | (k, n) :: rest => if String.eqb k key then Some n else getKey key rest
  end.

Fixpoint setKey (key : string) (value : Tally) (categories : list (string * Tally))
  : list (string * Tally) :=
  match categories with
  | [] => [(key, value)]
  | (k, n) :: rest =>
      if String.eqb k key then (k, value) :: rest else (k, n) :: setKey key value rest
  end.

(** The keys under which an object made by [{}] inherits a property from
    [Object.prototype]. *)
Definition inheritedKeys : list string :=
  ["constructor"; "__defineGetter__"; "__defineSetter__"; "hasOwnProperty";
   "__lookupGetter__"; "__lookupSetter__"; "isPrototypeOf"; "propertyIsEnumerable";
   "toString"; "valueOf"; "__proto__"; "toLocaleString"].

(** [categories[key]]: the own property, else the inherited one, which is a
    function or, under [__proto__], the prototype; [+ 1] turns either into
    its text. *)
Definition readKey (key : string) (categories : list (string * Tally)) : option Tally :=
  match getKey key categories with
  | Some v => Some v
  | None =>
      if bool_decide (key ∈ inheritedKeys) then Some (Text (inheritedText corpus key))
      else None
  end.

(** [(v ?? 0) + 1] *)
Definition plusOne (v : option Tally) : Tally :=
  match v with
  | None => Count 1
  | Some (Count n) => Count (n + 1)
  | Some (Text s) => Text (s +:+ "1")
  end.

(** [categories[key] = v] for a number or a string [v]: the setter of
    [__proto__] ignores such a value, every other key becomes or stays an own
    property. *)
Definition assignKey (key : string) (v : Tally) (categories : list (string * Tally))
  : list (string * Tally) :=
  if String.eqb key "__proto__" then categories else setKey key v categories.

(** The body of [for (const result of chunks)] in [getCorpusStats], on the
    pair [categories], [latestTimestamp].  The time of an invalid date is
    [NaN], which is above no number. *)
Definition countChunk (acc : list (string * Tally) * Z) (result : Qdrant.SearchResult)
  : list (string * Tally) * Z :=
  let category := category (Qdrant.document result) in
  (assignKey category (plusOne (readKey category (fst acc))) (fst acc),
   match doc_date (Qdrant.document result) with
   | Some timestamp => if (timestamp >? snd acc)%Z then timestamp else snd acc
   | None => snd acc
   end).

(** [getCorpusStats] *)
Definition getCorpusStats : M CorpusWorld CorpusStats :=
  chunks <- callCorpus QdrantListChunks (listChunks corpus) ;;
  let counted :=
    fold_left countChunk chunks (map (fun key => (key, Count 0)) CATEGORY_KEYS, 0%Z) in
  ret {| totalChunks := length chunks;
         categories := fst counted;
         latestIngestion :=
           if (snd counted =? 0)%Z then None
           else Some (toISOString corpus (snd counted)) |}.

End Corpus.

End Ingest.

(* ================================================================== *)
(** * Properties of the section extractor *)
(* ================================================================== *)

Module SectionFacts.
Import Js Types PdfParser.

(** The children of an object of the store were allocated after it. *)
Definition Ordered (h : list SectionObj) : Prop :=
  forall r o, h !! r = Some o ->
              Forall (fun c => (r < c < length h)%nat) (o_children o).

(** The cursors and the result array point into the store. *)
Record Sound (st : ExtractState) : Prop := mkSound {
  sd_store : Ordered (store st);
  sd_sections : Forall (fun r => (r < length (store st))%nat) (sections st);
  sd_chapter : forall r, currentChapter st = Some r -> (r < length (store st))%nat;
  sd_section : forall r, currentSection st = Some r -> (r < length (store st))%nat;
  sd_sub : forall r, currentSubSection st = Some r -> (r < length (store st))%nat }.

(** The tree [t] is the object [r] of the store with all its descendants. *)
Inductive Represents (h : list SectionObj) : nat -> DocSection -> Prop :=
| represents r o ts :
    h !! r = Some o ->
    Forall2 (Represents h) (o_children o) ts ->
    Represents h r (mkSection (o_id o) (o_title o) (o_content o) (o_level o) ts).

(** [omap] keeps every element on which the function is defined. *)
Lemma omap_total {A B} (f : A -> option B) (R : A -> B -> Prop) l :
  Forall (fun x => exists y, f x = Some y /\ R x y) l -> Forall2 R l (omap f l).
Proof.
  induction 1 as [|x l (y & Hy & HR) _ IH]; [constructor|].
  change (omap f (x :: l))
    with (match f x with Some z => z :: omap f l | None => omap f l end).
  rewrite Hy. now constructor.
Qed.

(** With the fuel that [extractSections] gives it, [reify] loses nothing. *)
Lemma reify_represents h :
  Ordered h ->
  forall fuel r,
    (r < length h)%nat -> (length h - r <= fuel)%nat ->
    exists t, reify fuel h r = Some t /\ Represents h r t.
Proof.
  intros Hord. induction fuel as [|fuel IH]; intros r Hr Hfuel; [lia|].
  destruct (lookup_lt_is_Some_2 h r Hr) as [o Ho].
  cbn [reify]. rewrite Ho.
  eexists. split; [reflexivity|]. constructor; [exact Ho|].
  apply omap_total. eapply Forall_impl; [apply (Hord r o Ho)|].
  intros c [Hc1 Hc2]. apply IH; lia.
Qed.

Lemma ordered_alter f i h :
  (forall o, o_children (f o) = o_children o) -> Ordered h -> Ordered (alter f i h).
Proof.
  intros Hf Hord r o. rewrite length_alter.
  destruct (decide (i = r)) as [->|Hne].
  - rewrite list_lookup_alter_eq. destruct (h !! r) as [o0|] eqn:Ho; [|discriminate].
    simpl. intros [= <-]. rewrite Hf. now apply Hord.
  - rewrite list_lookup_alter_ne by exact Hne. apply Hord.
Qed.

Lemma ordered_snoc h o :
  o_children o = [] -> Ordered h -> Ordered (h ++ [o]).
Proof.
  intros Ho Hord r o'. rewrite length_app. simpl. intros Hr.
  destruct (decide (r < length h)%nat) as [Hlt|Hge].
  - rewrite lookup_app_l in Hr by exact Hlt.
    eapply Forall_impl; [apply (Hord _ _ Hr)|]. simpl. lia.
  - rewrite lookup_app_r in Hr by lia.
    destruct (r - length h)%nat; simpl in Hr; [|discriminate].
    injection Hr as <-. rewrite Ho. constructor.
Qed.

(** The store after a new object is added, optionally below a parent. *)
Lemma ordered_new h m lvl parent :
  Ordered h ->
  (forall c, parent = Some c -> (c < length h)%nat) ->
  Ordered (match parent with
           | Some c => alter (pushChild (length h)) c (h ++ [newObj m lvl])
           | None => h ++ [newObj m lvl]
           end).
Proof.
  intros Hord Hparent.
  pose proof (ordered_snoc h (newObj m lvl) eq_refl Hord) as Hsnoc.
  destruct parent as [c|]; [|exact Hsnoc].
  specialize (Hparent c eq_refl). intros r o Hr.
  assert (Hlen : length (h ++ [newObj m lvl]) = S (length h))
    by (rewrite length_app; simpl; lia).
  rewrite length_alter, Hlen.
  destruct (decide (c = r)) as [->|Hne].
  - rewrite list_lookup_alter_eq in Hr.
    destruct ((h ++ [newObj m lvl]) !! r) as [o0|] eqn:Ho; [|discriminate].
    simpl in Hr. injection Hr as <-. simpl. apply Forall_app. split.
    + pose proof (Hsnoc _ _ Ho) as H. now rewrite Hlen in H.
    + repeat constructor; lia.
  - rewrite list_lookup_alter_ne in Hr by exact Hne.
    pose proof (Hsnoc _ _ Hr) as H. now rewrite Hlen in H.
Qed.

Lemma flushContent_sound st : Sound st -> Sound (flushContent st).
Proof.
  intros [Hs Hsec Hc1 Hc2 Hc3]. unfold flushContent.
  destruct (negb _); [now split|].
  destruct (currentSubSection st) as [r|] eqn:E3;
    [|destruct (currentSection st) as [r|] eqn:E2;
      [|destruct (currentChapter st) as [r|] eqn:E1]];
    split; simpl; rewrite ?length_alter, ?E1, ?E2, ?E3; auto;
    try (apply ordered_alter; [reflexivity | exact Hs]);
    try discriminate.
Qed.

Lemma sections_grow (l : list nat) n :
  Forall (fun r => (r < n)%nat) l -> Forall (fun r => (r < S n)%nat) (l ++ [n]).
Proof.
  intros H. apply Forall_app. split.
  - eapply Forall_impl; [exact H|]. simpl. lia.
  - repeat constructor.
Qed.

Lemma sections_keep (l : list nat) n :
  Forall (fun r => (r < n)%nat) l -> Forall (fun r => (r < S n)%nat) l.
Proof. intros H. eapply Forall_impl; [exact H|]. simpl. lia. Qed.

Lemma extractLine_sound st line : Sound st -> Sound (extractLine st line).
Proof.
  intros Hst. unfold extractLine.
  pose proof (flushContent_sound st Hst) as [Hs Hsec Hc1 Hc2 Hc3].
  assert (Hlen : forall o, length (store (flushContent st) ++ [o])
                           = S (length (store (flushContent st))))
    by (intros o; rewrite length_app; simpl; lia).
  destruct (chapterMatch (trim line)) as [m|].
  { split; simpl; rewrite ?Hlen; try discriminate.
    - now apply (ordered_new _ m 1%nat None).
    - now apply sections_grow.
    - intros r [= <-]. lia. }
  destruct (if startsWithTriple (trim line) then None else sectionMatch (trim line))
    as [m|].
  { destruct (currentChapter (flushContent st)) as [c|] eqn:Ec;
      split; simpl; rewrite ?length_alter, ?Hlen, ?Ec; try discriminate.
    - apply (ordered_new _ m 2%nat (Some c)); [exact Hs|]. intros ? [= <-]. auto.
    - now apply sections_keep.
    - intros r [= <-]. specialize (Hc1 c eq_refl). lia.
    - intros r [= <-]. lia.
    - now apply (ordered_new _ m 2%nat None).
    - now apply sections_grow.
    - intros r [= <-]. lia. }
  destruct (subSectionMatch (trim line)) as [m|].
  { destruct (currentSection (flushContent st)) as [c2|] eqn:E2;
      [|destruct (currentChapter (flushContent st)) as [c1|] eqn:E1];
      split; simpl; rewrite ?length_alter, ?Hlen, ?E1, ?E2; try discriminate.
    - apply (ordered_new _ m 3%nat (Some c2)); [exact Hs|]. intros ? [= <-]. auto.
    - now apply sections_keep.
    - intros r Hr. specialize (Hc1 r Hr). lia.
    - intros r [= <-]. specialize (Hc2 c2 eq_refl). lia.
    - intros r [= <-]. lia.
    - apply (ordered_new _ m 3%nat (Some c1)); [exact Hs|]. intros ? [= <-]. auto.
    - now apply sections_keep.
    - intros r [= <-]. specialize (Hc1 c1 eq_refl). lia.
    - intros r [= <-]. lia.
    - now apply (ordered_new _ m 3%nat None).
    - now apply sections_grow.
    - intros r [= <-]. lia. }
  destruct Hst as [Hs0 Hsec0 H1 H2 H3].
  destruct (truthy (trim line)); split; simpl; auto.
Qed.

(** Every section that [extractSections] recorded is in its result, whole:
    the result is the forest below the entries of the result array. *)
Lemma extractSections_represents text :
  exists st,
    Sound st
    /\ Forall2 (Represents (store st)) (sections st) (extractSections text).
Proof.
  unfold extractSections.
  set (st0 := {| store := []; sections := []; currentChapter := None;
                 currentSection := None; currentSubSection := None;
                 contentBuffer := [] |}).
  assert (Hloop : forall lines st, Sound st -> Sound (fold_left extractLine lines st)).
  { induction lines as [|l ls IH]; simpl; intros st Hst; [exact Hst|].
    apply IH. now apply extractLine_sound. }
  assert (H0 : Sound st0).
  { split; simpl; try discriminate; try constructor;
      try (intros r o Hr; now rewrite lookup_nil in Hr). }
  pose proof (flushContent_sound _ (Hloop (splitOn LF text) st0 H0)) as Hst.
  exists (flushContent (fold_left extractLine (splitOn LF text) st0)).
  split; [exact Hst|].
  destruct Hst as [Hs Hsec _ _ _].
  apply omap_total. eapply Forall_impl; [exact Hsec|].
  intros r Hr. apply reify_represents; [exact Hs | exact Hr | lia].
Qed.

End SectionFacts.

(* ================================================================== *)
(** * Properties of the chunker *)
(* ================================================================== *)

Module ChunkerFacts.
Import Js Types PdfParser.

Section Emission.

Variable countTokens : string -> nat.
Variable schemas : Schemas.
Variable document : SEBIDocument.

(** The identifier of the chunk of ordinal [i] of the document. *)
Definition chunkIdOf (i : nat) : string :=
  doc_id document +:+ "-chunk-" +:+ showNat i.

(** What holds of the chunks emitted so far, whatever the branch. *)
Record WellNumbered (st : Emitted) : Prop := mkWellNumbered {
  wn_counter : chunkIndex st = length (emitted st);
  wn_ordinals : map chunk_index (emitted st) = seq 0 (length (emitted st));
  wn_ids : Forall (fun c => chunk_id c = chunkIdOf (chunk_index c)
                            /\ document_id c = doc_id document) (emitted st);
  wn_tokens : Forall (fun c => tokens c = countTokens (content c)) (emitted st) }.

Lemma wellNumbered_start : WellNumbered {| emitted := []; chunkIndex := 0 |}.
Proof. split; simpl; auto. Qed.

(** A loop keeps what its body keeps. *)
Lemma forEach_keeps {A B} (I : B -> Prop) (body : B -> A -> result B) :
  (forall st x st', I st -> body st x = inr st' -> I st') ->
  forall l st st', I st -> forEach body l st = inr st' -> I st'.
Proof.
  intros Hbody l. induction l as [|x l IH]; simpl; intros st st' Hst Hrun.
  - congruence.
  - destruct (body st x) as [e|st1] eqn:Hx; simpl in Hrun; [discriminate|].
    eapply IH; [eapply Hbody; eassumption | exact Hrun].
Qed.

(** A loop ends normally when its body always does. *)
Lemma forEach_returns {A B} (body : B -> A -> result B) :
  (forall st x, exists st', body st x = inr st') ->
  forall l st, exists st', forEach body l st = inr st'.
Proof.
  intros Hbody l. induction l as [|x l IH]; simpl; intros st; eauto.
  destruct (Hbody st x) as [st1 ->]. simpl. apply IH.
Qed.

Lemma pushChunk_keeps text hierarchy st st' :
  WellNumbered st ->
  pushChunk schemas document text (countTokens text) hierarchy st = inr st' ->
  WellNumbered st'.
Proof.
  intros [Hc Ho Hi Ht]. unfold pushChunk, SEBIChunkSchema_parse.
  destruct (chunkOk schemas _); simpl; [|discriminate].
  intros [= <-]. split; simpl.
  - rewrite length_app. simpl. lia.
  - rewrite map_app, length_app, Ho. simpl.
    rewrite Nat.add_1_r, seq_S. simpl. now rewrite Hc.
  - apply Forall_app. split; [exact Hi|]. repeat constructor.
  - apply Forall_app. split; [exact Ht|]. repeat constructor.
Qed.

Lemma pushChunk_returns text n hierarchy st :
  (forall c, chunkOk schemas c = true) ->
  exists st', pushChunk schemas document text n hierarchy st = inr st'.
Proof.
  intros Hok. unfold pushChunk, SEBIChunkSchema_parse. rewrite Hok. simpl. eauto.
Qed.

Lemma emitUnstructured_keeps minT textChunks st text st' :
  WellNumbered st ->
  emitUnstructured countTokens schemas document minT textChunks st text = inr st' ->
  WellNumbered st'.
Proof.
  intros Hst. unfold emitUnstructured.
  destruct (_ && _); [intros [= <-]; exact Hst | now apply pushChunk_keeps].
Qed.

Lemma emitSplit_keeps minT hierarchy textChunks st text st' :
  WellNumbered st ->
  emitSplit countTokens schemas document minT hierarchy textChunks st text = inr st' ->
  WellNumbered st'.
Proof.
  intros Hst. unfold emitSplit.
  destruct (_ || _); [now apply pushChunk_keeps | intros [= <-]; exact Hst].
Qed.

Lemma emitBlock_keeps maxT minT ov blocks st block st' :
  WellNumbered st ->
  emitBlock countTokens schemas document maxT minT ov blocks st block = inr st' ->
  WellNumbered st'.
Proof.
  intros Hst. unfold emitBlock.
  destruct (_ <=? _)%Z.
  - destruct (_ || _); [now apply pushChunk_keeps | intros [= <-]; exact Hst].
  - apply forEach_keeps; [|exact Hst].
    intros s x s'. apply emitSplit_keeps.
Qed.

(** Every normal result of [chunkDocument] comes from a well-numbered state. *)
Lemma chunkDocument_wellNumbered options chunks :
  chunkDocument countTokens schemas document options = inr chunks ->
  exists st, emitted st = chunks /\ WellNumbered st.
Proof.
  unfold chunkDocument.
  destruct (length (extractSections (doc_content document)) =? 0)%nat.
  - destruct (forEach _ _ _) as [e|st] eqn:Hrun; simpl; [discriminate|].
    intros [= <-]. exists st. split; [reflexivity|].
    eapply forEach_keeps; [| apply wellNumbered_start | exact Hrun].
    intros s x s'. apply emitUnstructured_keeps.
  - destruct (forEach _ _ _) as [e|st] eqn:Hrun; simpl; [discriminate|].
    intros [= <-]. exists st. split; [reflexivity|].
    eapply forEach_keeps; [| apply wellNumbered_start | exact Hrun].
    intros s x s'. apply emitBlock_keeps.
Qed.

(** [chunkDocument] returns when the schema accepts the chunks it builds. *)
Lemma chunkDocument_returns options :
  (forall c, chunkOk schemas c = true) ->
  exists chunks, chunkDocument countTokens schemas document options = inr chunks.
Proof.
  intros Hok. unfold chunkDocument.
  destruct (length (extractSections (doc_content document)) =? 0)%nat.
  - edestruct (forEach_returns
       (emitUnstructured countTokens schemas document (default 128%Z (minTokens options))
          (splitByTokens countTokens (doc_content document)
             (default 512%Z (maxTokens options)) (default 50%Z (overlap options)))))
      as [st ->]; [|simpl; eauto].
    intros st x. unfold emitUnstructured.
    destruct (_ && _); eauto using pushChunk_returns.
  - edestruct (forEach_returns
       (emitBlock countTokens schemas document (default 512%Z (maxTokens options))
          (default 128%Z (minTokens options)) (default 50%Z (overlap options))
          (flattenSections (extractSections (doc_content document)) [])))
      as [st ->]; [|simpl; eauto].
    intros st x. unfold emitBlock.
    destruct (_ <=? _)%Z.
    + destruct (_ || _); eauto using pushChunk_returns.
    + apply forEach_returns. intros s y. unfold emitSplit.
      destruct (_ || _); eauto using pushChunk_returns.
Qed.

End Emission.

(** The identifiers of distinct ordinals differ. *)
Lemma chunkIdOf_inj document i j :
  chunkIdOf document i = chunkIdOf document j -> i = j.
Proof.
  unfold chunkIdOf, showNat. intros H.
  apply (inj (String.app (doc_id document))) in H.
  apply (inj (String.app "-chunk-")) in H.
  now apply (inj pretty) in H.
Qed.

(** C6. For every document and every chunk options, the passages that
    [chunkDocument] returns carry the ordinals [0, 1, ..., n-1] in the order
    of emission, the identifier of each passage is the function
    [chunkIdOf] of the document identifier and the ordinal (so two passages
    never share one), and [chunkDocument] does return whenever the chunk
    schema accepts the chunks built. *)
Theorem chunk_ordinals_contiguous countTokens schemas document options :
  (forall chunks,
      chunkDocument countTokens schemas document options = inr chunks ->
      map chunk_index chunks = seq 0 (length chunks)
      /\ Forall (fun c => chunk_id c = chunkIdOf document (chunk_index c)
                          /\ document_id c = doc_id document) chunks
      /\ NoDup (map chunk_id chunks))
  /\ ((forall c, chunkOk schemas c = true) ->
      exists chunks, chunkDocument countTokens schemas document options = inr chunks).
Proof.
  split; [|apply chunkDocument_returns].
  intros chunks Hrun.
  destruct (chunkDocument_wellNumbered _ _ _ _ _ Hrun) as (st & <- & [Hc Ho Hi Ht]).
  split; [exact Ho|]. split; [exact Hi|].
  assert (Hids : map chunk_id (emitted st)
                 = map (chunkIdOf document) (map chunk_index (emitted st))).
  { clear Ho Ht Hc Hrun. induction Hi as [|c l [Hid _] _ IH]; simpl; [reflexivity|].
    now rewrite Hid, IH. }
  rewrite Hids, Ho.
  assert (Hinj : Inj (=) (=) (chunkIdOf document))
    by (intros i j; apply chunkIdOf_inj).
  apply (NoDup_fmap_2 (chunkIdOf document)), NoDup_seq.
Qed.

(** C7. For every passage that [chunkDocument] returns, the [tokens] field is
    the tokenizer's count of the [content] field, and [chunkDocument] does
    return whenever the chunk schema accepts the chunks built. *)
Theorem chunk_tokens_exact countTokens schemas document options :
  (forall chunks,
      chunkDocument countTokens schemas document options = inr chunks ->
      Forall (fun c => tokens c = countTokens (content c)) chunks)
  /\ ((forall c, chunkOk schemas c = true) ->
      exists chunks, chunkDocument countTokens schemas document options = inr chunks).
Proof.
  split; [|apply chunkDocument_returns].
  intros chunks Hrun.
  destruct (chunkDocument_wellNumbered _ _ _ _ _ Hrun) as (st & <- & [Hc Ho Hi Ht]).
  exact Ht.
Qed.

(** ** Overlap between consecutive passages *)

Lemma append_cons (x : ascii) (a b : string) :
  String x a +:+ b = String x (a +:+ b).
Proof. reflexivity. Qed.



Lemma join_truthy sep (xs : list string) :
  xs <> [] -> Forall (fun s => truthy s = true) xs -> truthy (join sep xs) = true.
Proof.
  intros Hne Hall. destruct Hall as [|x xs Hx Hxs]; [congruence|].
  destruct x as [|c x]; [discriminate|].
  destruct xs; reflexivity.
Qed.

Section Overlap.

Variable countTokens : string -> nat.

(** The token count that the loops add up for a run of sentences. *)
Definition tokensOf (sentences : list string) : Z :=
  fold_right (fun s acc => (Z.of_nat (countTokens s) + acc)%Z) 0%Z sentences.

Lemma tokensOf_nonneg sentences : (0 <= tokensOf sentences)%Z.
Proof. induction sentences; simpl; lia. Qed.

(** The sentences that seed the passage after a passage made of [sentences]. *)
Definition seedOf (overlap : Z) (sentences : list string) : list string :=
  fst (takeOverlap countTokens overlap (rev sentences) [] 0%Z).

(** What the backwards loop returns: the sentences taken are the first ones
    of [remaining], it stops as soon as the target is reached, and before the
    last sentence taken the target was not reached. *)
Lemma takeOverlap_spec overlap remaining acc :
  exists taken rest,
    remaining = taken ++ rest
    /\ takeOverlap countTokens overlap remaining acc (tokensOf acc)
       = (rev taken ++ acc, tokensOf (rev taken ++ acc))
    /\ (rest = [] \/ (overlap <= tokensOf (rev taken ++ acc))%Z)
    /\ (taken <> [] -> (tokensOf (tail (rev taken ++ acc)) < overlap)%Z)
    /\ ((tokensOf acc < overlap)%Z -> remaining <> [] -> taken <> []).
Proof.
  revert acc. induction remaining as [|sent more IH]; intros acc.
  - exists [], []. simpl. repeat split; auto; congruence.
  - simpl. destruct (tokensOf acc <? overlap)%Z eqn:Hlt.
    + apply Z.ltb_lt in Hlt.
      destruct (IH (sent :: acc)) as (taken & rest & Hrem & Hrun & Hstop & Hmin & _).
      exists (sent :: taken), rest. simpl in Hrun |- *.
      replace ((rev taken ++ [sent]) ++ acc) with (rev taken ++ sent :: acc)
        by (now rewrite <- app_assoc).
      repeat split.
      * now rewrite Hrem.
      * rewrite Z.add_comm. exact Hrun.
      * exact Hstop.
      * intros _. destruct taken as [|t taken'].
        -- simpl. exact Hlt.
        -- apply Hmin. discriminate.
      * discriminate.
    + apply Z.ltb_ge in Hlt. exists [], (sent :: more). simpl.
      repeat split; auto; try congruence. intros; lia.
Qed.


(** The loop of [splitByTokens] with the closed passages kept as runs of
    sentences; [splitStep] joins each of them when it closes it. *)
Definition groupStep (maxTokens overlap : Z)
  (g : list (list string) * SplitState) (sentence : string)
  : list (list string) * SplitState :=
  let st := snd g in
  let sentenceTokens := Z.of_nat (countTokens sentence) in
  (if (currentTokens st + sentenceTokens >? maxTokens)%Z
      && (0 <? length (currentChunk st))%nat
   then fst g ++ [currentChunk st] else fst g,
   splitStep countTokens maxTokens overlap st sentence).





Lemma groupStep_snd maxTokens overlap sentences g :
  snd (fold_left (groupStep maxTokens overlap) sentences g)
  = fold_left (splitStep countTokens maxTokens overlap) sentences (snd g).
Proof.
  revert g. induction sentences as [|s l IH]; simpl; intros g; [reflexivity|].
  now rewrite IH.
Qed.

(** The passages of [splitByTokens] as runs of sentences. *)
Definition passageSentences (text : string) (maxTokens overlap : Z)
  : list (list string) :=
  let g := fold_left (groupStep maxTokens overlap)
             (splitIntoSentences text)
             ([], {| chunks := []; currentChunk := []; currentTokens := 0%Z |}) in
  if (0 <? length (currentChunk (snd g)))%nat
  then fst g ++ [currentChunk (snd g)] else fst g.




(** The sentences of a text are not empty. *)
Lemma splitIntoSentences_truthy text :
  Forall (fun s => truthy s = true) (splitIntoSentences text).
Proof.
  unfold splitIntoSentences. apply List.Forall_forall. intros s Hs.
  now apply List.filter_In in Hs.
Qed.

Lemma takeOverlap_Forall (P : string -> Prop) overlap remaining acc t :
  Forall P remaining -> Forall P acc ->
  Forall P (fst (takeOverlap countTokens overlap remaining acc t)).
Proof.
  revert acc t. induction remaining as [|sent more IH]; simpl; intros acc t Hr Ha.
  - exact Ha.
  - inversion Hr; subst. destruct (t <? overlap)%Z; [|exact Ha].
    apply IH; [assumption | now constructor].
Qed.

Lemma groupStep_Forall (P : string -> Prop) maxTokens overlap g sentence :
  P sentence ->
  Forall (Forall P) (fst g) /\ Forall P (currentChunk (snd g)) ->
  Forall (Forall P) (fst (groupStep maxTokens overlap g sentence))
  /\ Forall P (currentChunk (snd (groupStep maxTokens overlap g sentence))).
Proof.
  intros Hs [Hg Hc]. destruct g as [groups st]. unfold groupStep, splitStep. simpl in *.
  destruct (_ && _); simpl.
  - split; [apply Forall_app; split; [exact Hg | now repeat constructor]|].
    destruct (overlap >? 0)%Z; simpl; [|now repeat constructor].
    apply Forall_app. split; [|now repeat constructor].
    apply takeOverlap_Forall; [|constructor].
    apply Forall_rev. exact Hc.
  - split; [exact Hg|]. apply Forall_app. split; [exact Hc | now repeat constructor].
Qed.

Lemma passages_Forall (P : string -> Prop) text maxTokens overlap :
  Forall P (splitIntoSentences text) ->
  Forall (Forall P) (passageSentences text maxTokens overlap).
Proof.
  intros Hall. unfold passageSentences.
  assert (H : forall sentences g,
             Forall P sentences ->
             Forall (Forall P) (fst g) /\ Forall P (currentChunk (snd g)) ->
             Forall (Forall P) (fst (fold_left (groupStep maxTokens overlap) sentences g))
             /\ Forall P (currentChunk
                            (snd (fold_left (groupStep maxTokens overlap) sentences g)))).
  { induction sentences as [|x l IH]; simpl; intros g Hl Hg; [exact Hg|].
    inversion Hl; subst. apply IH; [assumption|]. now apply groupStep_Forall. }
  destruct (H (splitIntoSentences text)
              ([], {| chunks := []; currentChunk := []; currentTokens := 0%Z |}) Hall)
    as [Hg Hc]; [split; constructor|].
  destruct (0 <? length _)%nat; [|exact Hg].
  apply Forall_app. split; [exact Hg | now repeat constructor].
Qed.

End Overlap.

(** A tokenizer for concrete runs: one token for each word.  It stands in
    for the [cl100k_base] encoder, which is a parameter of the model. *)
Definition wordTokens (text : string) : nat := length (String.words text).




(** *** Concrete runs *)

(** Schemas that accept every object.  The chunks of the runs below have an
    identifier, a document identifier and no embedding, so the chunk schema of
    the code accepts them as well. *)
Definition acceptAll : Schemas :=
  {| chunkOk := fun _ => true; documentOk := fun _ => true |}.

Definition documentOf (text : string) : SEBIDocument :=
  {| doc_id := "doc-001"; circular_id := "SEBI/HO/IMD/2024/001";
     doc_title := "Sample Circular"; doc_date := Some 1704067200000%Z;
     category := "mutual_funds"; doc_content := text; doc_url := "";
     doc_chapter := None; doc_section := None; doc_metadata := [] |}.

Definition smallBudget : ChunkOptions :=
  {| maxTokens := Some 4%Z; minTokens := Some 2%Z; overlap := Some 1%Z |}.

(** The three passages of an unstructured text of three sentences. *)
Lemma chunk_ordinals_contiguous_witness :
  exists chunks,
    chunkDocument wordTokens acceptAll (documentOf "aa bb cc. dd ee ff. gg hh ii.")
      smallBudget = inr chunks
    /\ map chunk_index chunks = seq 0 (length chunks)
    /\ Forall (fun c => chunk_id c
                        = chunkIdOf (documentOf "aa bb cc. dd ee ff. gg hh ii.")
                            (chunk_index c)
                        /\ document_id c = "doc-001") chunks
    /\ NoDup (map chunk_id chunks).
Proof.
  destruct (chunk_ordinals_contiguous wordTokens acceptAll
              (documentOf "aa bb cc. dd ee ff. gg hh ii.") smallBudget) as [Hall Hret].
  destruct (Hret (fun _ => eq_refl)) as [chunks Hrun].
  exists chunks. split; [exact Hrun | exact (Hall chunks Hrun)].
Defined.

Lemma chunk_tokens_exact_witness :
  exists chunks,
    chunkDocument wordTokens acceptAll (documentOf "aa bb cc. dd ee ff. gg hh ii.")
      smallBudget = inr chunks
    /\ Forall (fun c => tokens c = wordTokens (content c)) chunks.
Proof.
  destruct (chunk_tokens_exact wordTokens acceptAll
              (documentOf "aa bb cc. dd ee ff. gg hh ii.") smallBudget) as [Hall Hret].
  destruct (Hret (fun _ => eq_refl)) as [chunks Hrun].
  exists chunks. split; [exact Hrun | exact (Hall chunks Hrun)].
Defined.

(** The passages of that run. *)
Example chunkDocument_unstructured :
  match chunkDocument wordTokens acceptAll
          (documentOf "aa bb cc. dd ee ff. gg hh ii.") smallBudget with
  | inr chunks => map (fun c => (chunk_id c, chunk_index c, content c, tokens c)) chunks
  | inl _ => []
  end
  = [("doc-001-chunk-0", 0%nat, "aa bb cc.", 3%nat);
     ("doc-001-chunk-1", 1%nat, "aa bb cc. dd ee ff.", 6%nat);
     ("doc-001-chunk-2", 2%nat, "dd ee ff. gg hh ii.", 6%nat)].
Proof. reflexivity. Qed.

(** A structured text: a chapter, a section with two lines of text, a
    sub-section, and a second chapter whose only text is dropped as too
    small. *)
Definition structuredText : string :=
  "Preface line
Chapter 1: Intro
1.1 Background
SEBI has been reviewing the expense ratio.
This circular introduces amendments.
1.1.1 Detail
Lower limits apply to debt schemes here.
Chapter II. Scope
Short.".

Example extractSections_structured :
  extractSections structuredText
  = [mkSection "1" "Intro" "" 1
       [mkSection "1.1" "Background"
          "SEBI has been reviewing the expense ratio.
This circular introduces amendments." 2
          [mkSection "1.1.1" "Detail" "Lower limits apply to debt schemes here." 3 []]];
     mkSection "II" "Scope" "Short." 1 []].
Proof. reflexivity. Qed.

Example chunkDocument_structured :
  match chunkDocument wordTokens acceptAll (documentOf structuredText)
          {| maxTokens := Some 512%Z; minTokens := Some 5%Z; overlap := Some 2%Z |} with
  | inr chunks => map (fun c => (chunk_index c, section_hierarchy c, tokens c)) chunks
  | inl _ => []
  end
  = [(0%nat, ["1 Intro"; "1.1 Background"], 11%nat);
     (1%nat, ["1 Intro"; "1.1 Background"; "1.1.1 Detail"], 7%nat)].
Proof. reflexivity. Qed.

End ChunkerFacts.

(* ================================================================== *)
(** * Properties of the string primitives *)
(* ================================================================== *)

Module JsFacts.
Import Js.

Lemma dropWhile_all {A} (p : A -> bool) l :
  forallb p l = true -> dropWhile p l = [].
Proof.
  induction l as [|x l IH]; simpl; [reflexivity|].
  destruct (p x); simpl; [exact IH | discriminate].
Qed.

Lemma dropWhile_not_all {A} (p : A -> bool) l :
  forallb p l = false -> exists x t, dropWhile p l = x :: t /\ p x = false.
Proof.
  induction l as [|x l IH]; simpl; [discriminate|].
  destruct (p x) eqn:Hx; simpl; [exact IH | eauto].
Qed.

Lemma dropWhile_idem {A} (p : A -> bool) l :
  dropWhile p (dropWhile p l) = dropWhile p l.
Proof.
  induction l as [|x l IH]; simpl; [reflexivity|].
  destruct (p x) eqn:Hx; [exact IH | simpl; now rewrite Hx].
Qed.

Lemma dropWhile_snoc {A} (p : A -> bool) l x :
  p x = false -> dropWhile p (l ++ [x]) = dropWhile p l ++ [x].
Proof.
  intros Hx. induction l as [|y l IH]; simpl; [now rewrite Hx|].
  destruct (p y); [exact IH | reflexivity].
Qed.

(** The trimmed characters of a text that is not blank: its first character
    that is not white space, then the rest without the white space at its end. *)
Lemma trimChars_cons x t :
  isSpace x = false ->
  trimChars (x :: t) = x :: rev (dropWhile isSpace (rev t)).
Proof.
  intros Hx. unfold trimChars, trimStartChars, trimEndChars. simpl. rewrite Hx.
  simpl. rewrite dropWhile_snoc by exact Hx.
  now rewrite rev_app_distr.
Qed.

Lemma trimChars_blank l : forallb isSpace l = true -> trimChars l = [].
Proof.
  intros H. unfold trimChars, trimStartChars, trimEndChars.
  now rewrite (dropWhile_all _ l H).
Qed.

Lemma trimChars_not_blank l :
  forallb isSpace l = false ->
  exists x r, trimChars l = x :: r /\ isSpace x = false
              /\ trimChars (x :: r) = x :: r.
Proof.
  intros H. destruct (dropWhile_not_all _ _ H) as (x & t & Hd & Hx).
  exists x, (rev (dropWhile isSpace (rev t))).
  assert (Hl : trimChars l = x :: rev (dropWhile isSpace (rev t))).
  { unfold trimChars, trimStartChars in *. rewrite Hd.
    change (trimEndChars (x :: t)) with (rev (dropWhile isSpace (rev t ++ [x]))).
    rewrite dropWhile_snoc by exact Hx. now rewrite rev_app_distr. }
  split; [exact Hl|]. split; [exact Hx|].
  rewrite trimChars_cons by exact Hx.
  now rewrite rev_involutive, dropWhile_idem.
Qed.

(** [trim] gives the empty string exactly on the texts made of white space. *)
Lemma trim_blank text :
  forallb isSpace (chars text) = true -> trim text = "".
Proof. intros H. unfold trim. now rewrite trimChars_blank. Qed.

Lemma trim_not_blank text :
  forallb isSpace (chars text) = false ->
  truthy (trim text) = true /\ trim (trim text) = trim text.
Proof.
  intros H. unfold trim.
  destruct (trimChars_not_blank _ H) as (x & r & -> & _ & Hidem).
  split; [reflexivity|].
  unfold chars, str. rewrite String.list_ascii_of_string_of_list_ascii.
  now rewrite Hidem.
Qed.

(** The no-break space is white space: [trim] removes it, at both ends. *)
Example trim_no_break_space :
  trim (String NBSP (" a b" +:+ String NBSP "")) = "a b"
  /\ trim (String NBSP "") = "".
Proof. split; reflexivity. Qed.

End JsFacts.

(* ================================================================== *)
(** * Properties of the embedding generator *)
(* ================================================================== *)

Module EmbedderFacts.
Import Js Types Effect Embedder.
Local Open Scope Z_scope.

(** ** Retry *)

(** The state after the failed attempt number [n]: the warning is logged and
    the generator has slept [100 * 2 ^ n] milliseconds. *)
Definition backoff (n : Z) (error : exn) (w : World) : World :=
  {| now := now w + 100 * 2 ^ n;
     cache := cache w;
     requestTimestamps := requestTimestamps w;
     providerCalls := providerCalls w;
     trace := trace w ++
       [LogWarn ("Embedding request failed (attempt " +:+ pretty n +:+ "): "
                 +:+ stringifyError error);
        Delay (100 * 2 ^ n)] |}.

(** The runs of a call under retry, stated on their own: the attempt number
    [n] either succeeds, or fails and is followed, after the backoff of [n],
    by the attempt number [n + 1], or is the fifth and fails, and then its
    error is thrown after the backoff of 5. *)
Inductive RetryRun {A} (fn : M World A) : Z -> World -> result A * World -> Prop :=
| attempt_succeeds n w a w' :
    fn w = (inr a, w') ->
    RetryRun fn n w (inr a, w')
| attempt_fails_retry n w e w1 out :
    n < 5 ->
    fn w = (inl e, w1) ->
    RetryRun fn (n + 1) (backoff n e w1) out ->
    RetryRun fn n w out
| attempt_fails_last w e w1 :
    fn w = (inl e, w1) ->
    RetryRun fn 5 w (inl e, backoff 5 e w1).

(** One round of the loop, in terms of [backoff]. *)
Lemma retryLoop_failed {A} (fn : M World A) remaining n last w e w1 :
  0 <= n ->
  fn w = (inl e, w1) ->
  retryLoop fn (S remaining) n last w
  = retryLoop fn remaining (n + 1) (Some e) (backoff n e w1).
Proof.
  intros Hn Hfn. simpl. unfold tryCatch. rewrite Hfn.
  unfold bind at 1. unfold emit at 1, modify. 
  unfold bind at 1. unfold delay.
  assert (H : (2 ^ n * 100 <=? 0) = false).
  { apply Z.leb_gt. pose proof (Z.pow_pos_nonneg 2 n). lia. }
  rewrite H. unfold bind at 1. unfold emit, modify, elapse. simpl.
  unfold backoff. rewrite <- app_assoc. simpl.
  now rewrite (Z.mul_comm 100).
Qed.

Lemma retryLoop_succeeded {A} (fn : M World A) remaining n last w a w' :
  fn w = (inr a, w') ->
  retryLoop fn (S remaining) n last w = (inr a, w').
Proof. intros Hfn. simpl. unfold tryCatch. now rewrite Hfn. Qed.

(** C5, as the code has it.  Every call made through [executeWithRetry] with
    its 5 attempts runs as [RetryRun] says from attempt 1: at most 5 attempts;
    after the failed attempt [n] a warning and a wait of [100 * 2 ^ n] ms,
    that is 200, 400, 800, 1600 and 3200 ms; after the fifth failure the error
    thrown is the error of that attempt. *)
Theorem retry_five_attempts_doubling {A} (fn : M World A) (w : World) :
  RetryRun fn 1 w (executeWithRetry fn 5 w).
Proof.
  unfold executeWithRetry.
  destruct (fn w) as [[e1|a] w1] eqn:H1;
    [|erewrite retryLoop_succeeded by eassumption; now apply attempt_succeeds].
  erewrite retryLoop_failed by (try eassumption; lia).
  eapply attempt_fails_retry; [lia | eassumption |]. simpl Z.add.
  destruct (fn (backoff 1 e1 w1)) as [[e2|a] w2] eqn:H2;
    [|erewrite retryLoop_succeeded by eassumption; now apply attempt_succeeds].
  erewrite retryLoop_failed by (try eassumption; lia).
  eapply attempt_fails_retry; [lia | eassumption |]. simpl Z.add.
  destruct (fn (backoff 2 e2 w2)) as [[e3|a] w3] eqn:H3;
    [|erewrite retryLoop_succeeded by eassumption; now apply attempt_succeeds].
  erewrite retryLoop_failed by (try eassumption; lia).
  eapply attempt_fails_retry; [lia | eassumption |]. simpl Z.add.
  destruct (fn (backoff 3 e3 w3)) as [[e4|a] w4] eqn:H4;
    [|erewrite retryLoop_succeeded by eassumption; now apply attempt_succeeds].
  erewrite retryLoop_failed by (try eassumption; lia).
  eapply attempt_fails_retry; [lia | eassumption |]. simpl Z.add.
  destruct (fn (backoff 4 e4 w4)) as [[e5|a] w5] eqn:H5;
    [|erewrite retryLoop_succeeded by eassumption; now apply attempt_succeeds].
  erewrite retryLoop_failed by (try eassumption; lia).
  simpl. now apply attempt_fails_last.
Qed.

(** ** What a method adds to the trace *)

(** [m] adds to the trace only events that satisfy [P]. *)
Definition emits {A} (P : Event -> Prop) (m : M World A) : Prop :=
  forall w, exists added, trace (snd (m w)) = trace w ++ added /\ Forall P added.

Lemma emits_nothing {A} (P : Event -> Prop) (m : M World A) :
  (forall w, trace (snd (m w)) = trace w) -> emits P m.
Proof. intros H w. exists []. rewrite app_nil_r. split; [apply H | constructor]. Qed.

Lemma emits_ret {A} P (a : A) : emits P (ret a).
Proof. now apply emits_nothing. Qed.


Lemma emits_gets {A} P (f : World -> A) : emits P (gets f).
Proof. now apply emits_nothing. Qed.


Lemma emits_bind {A B} P (m : M World A) (k : A -> M World B) :
  emits P m -> (forall a, emits P (k a)) -> emits P (bind m k).
Proof.
  intros Hm Hk w. destruct (Hm w) as (ad1 & H1 & F1). unfold bind.
  destruct (m w) as [[e|a] w1]; simpl in *.
  - exists ad1. now split.
  - destruct (Hk a w1) as (ad2 & H2 & F2). exists (ad1 ++ ad2).
    rewrite H2, H1, app_assoc. split; [reflexivity | now apply Forall_app].
Qed.


Lemma emits_emit (P : Event -> Prop) e : P e -> emits P (emit e).
Proof. intros He w. exists [e]. split; [reflexivity | now repeat constructor]. Qed.

Lemma emits_if {A} P (b : bool) (m1 m2 : M World A) :
  emits P m1 -> emits P m2 -> emits P (if b then m1 else m2).
Proof. now destruct b. Qed.

Lemma emits_forEachM {A B} P (body : B -> A -> M World B) l :
  (forall b x, emits P (body b x)) -> forall b, emits P (forEachM body l b).
Proof.
  intros Hbody. induction l as [|x l IH]; simpl; intros b.
  - apply emits_ret.
  - apply emits_bind; [apply Hbody | exact IH].
Qed.

Section Methods.

Variable cacheKey : string -> string.
Variable provider : Provider.
Variable this : Generator.
Variable P : Event -> Prop.

Lemma emits_setCache c : emits P (setCache c).
Proof. now apply emits_nothing. Qed.



Lemma emits_cacheCheck key : emits P (cacheCheck key).
Proof.
  unfold cacheCheck. apply emits_bind; [apply emits_gets|]. intros c.
  apply emits_bind; [apply emits_gets|]. intros t.
  destruct (lookupEntry key c); [|apply emits_ret].
  apply emits_if; [|apply emits_ret].
  apply emits_bind; [apply emits_setCache | intros; apply emits_ret].
Qed.

Lemma emits_cacheGet key : P (CacheGet key) -> emits P (cacheGet key).
Proof.
  intros H. apply emits_bind; [now apply emits_emit | intros; apply emits_cacheCheck].
Qed.










End Methods.

(** ** [embedText] *)



(** ** [embedBatch] *)

(** The batches of [createBatches] are the items, in order: the rounds that
    the model allows are enough. *)
Lemma createBatchesFrom_cover items size fuel i :
  (0 < size)%nat -> (length items - i <= fuel)%nat ->
  concat (map snd (createBatchesFrom fuel items size i)) = drop i items.
Proof.
  intros Hsize. revert i. induction fuel as [|fuel IH]; intros i Hfuel.
  - simpl. symmetry. apply drop_ge. lia.
  - cbn [createBatchesFrom]. destruct (i <? length items)%nat eqn:Hi.
    + cbn [map snd concat]. rewrite IH by lia.
      rewrite <- (take_drop size (drop i items)) at 2.
      now rewrite drop_drop.
    + apply Nat.ltb_ge in Hi. simpl. symmetry. now apply drop_ge.
Qed.

Lemma createBatches_cover items size batches :
  createBatches items size = Some batches -> concat (map snd batches) = items.
Proof.
  unfold createBatches. destruct items as [|x items]; [now intros [= <-]|].
  remember (x :: items) as l eqn:El.
  destruct (size <=? 0) eqn:Hs; [discriminate|]. intros [= <-].
  apply Z.leb_gt in Hs. rewrite createBatchesFrom_cover; [reflexivity | lia | lia].
Qed.

(** The provider calls of a trace, in order. *)
Definition providerEvents (tr : list Event) : list Event :=
  List.filter (fun e => match e with
                        | EmbedQuery _ | EmbedDocuments _ => true
                        | _ => false
                        end) tr.

Lemma providerEvents_app tr1 tr2 :
  providerEvents (tr1 ++ tr2) = providerEvents tr1 ++ providerEvents tr2.
Proof. apply List.filter_app. Qed.

(** [m] returns, whatever the state, and does not reach the provider. *)
Definition local {A} (m : M World A) : Prop :=
  forall w, exists a w',
    m w = (inr a, w')
    /\ providerCalls w' = providerCalls w
    /\ providerEvents (trace w') = providerEvents (trace w).

Lemma local_ret {A} (a : A) : local (ret a).
Proof. intros w. now exists a, w. Qed.

Lemma local_gets {A} (f : World -> A) : local (gets f).
Proof. intros w. now exists (f w), w. Qed.

Lemma local_bind {A B} (m : M World A) (k : A -> M World B) :
  local m -> (forall a, local (k a)) -> local (bind m k).
Proof.
  intros Hm Hk w. destruct (Hm w) as (a & w1 & H1 & C1 & T1).
  destruct (Hk a w1) as (b & w2 & H2 & C2 & T2).
  exists b, w2. unfold bind. rewrite H1, H2. repeat split; congruence.
Qed.

Lemma local_if {A} (b : bool) (m1 m2 : M World A) :
  local m1 -> local m2 -> local (if b then m1 else m2).
Proof. now destruct b. Qed.

Lemma local_emit e :
  providerEvents [e] = [] -> local (emit e).
Proof.
  intros He w. eexists tt, _. split; [reflexivity|]. split; [reflexivity|].
  simpl. rewrite providerEvents_app, He. apply app_nil_r.
Qed.

Lemma local_setCache c : local (setCache c).
Proof. intros w. now eexists tt, _. Qed.

Lemma local_cacheCheck key : local (cacheCheck key).
Proof.
  unfold cacheCheck. apply local_bind; [apply local_gets|]. intros c.
  apply local_bind; [apply local_gets|]. intros t.
  destruct (lookupEntry key c); [|apply local_ret].
  apply local_if; [|apply local_ret].
  apply local_bind; [apply local_setCache | intros; apply local_ret].
Qed.

Lemma local_setCacheEntry this key v : local (setCacheEntry this key v).
Proof.
  unfold setCacheEntry, cacheKeys, cacheHas, cacheDel, cacheSet.
  apply local_bind; [apply local_gets|]. intros keys.
  apply local_bind.
  { apply local_if; [|apply local_ret].
    apply local_bind; [apply local_bind; [apply local_cacheCheck|]|];
      intros; apply local_ret. }
  intros full. apply local_bind.
  { apply local_if; [|apply local_ret].
    apply local_bind; [apply local_gets|]. intros keys'.
    destruct keys' as [|k ?]; [apply local_ret|].
    apply local_if; [|apply local_ret].
    apply local_bind; [now apply local_emit|]. intros _.
    apply local_bind; [apply local_gets | intros; apply local_setCache]. }
  intros _. apply local_bind; [now apply local_emit|]. intros _.
  apply local_bind; [apply local_gets|]. intros c.
  apply local_bind; [apply local_gets | intros; apply local_setCache].
Qed.

Lemma local_ensureVectorSize v s : local (ensureVectorSize v (Some s)).
Proof.
  unfold ensureVectorSize. apply local_if; [now apply local_emit | apply local_ret].
Qed.

Section Scenario.

Variable cacheKey : string -> string.
Variable provider : Provider.
Variable this : Generator.

(** A fetched vector goes to the slot of its text. *)
Lemma storeFetched_slot texts indices vs idx v text i w :
  texts !! idx = Some text -> indices !! idx = Some i ->
  exists w',
    storeFetched cacheKey this texts indices vs (idx, v) w
    = (inr (<[i := Some v]> vs), w')
    /\ providerCalls w' = providerCalls w
    /\ providerEvents (trace w') = providerEvents (trace w).
Proof.
  intros Ht Hi. unfold storeFetched. rewrite Ht, Hi.
  destruct (local_ensureVectorSize v text w) as ([] & w1 & H1 & C1 & T1).
  destruct (local_setCacheEntry this (cacheKey text) v w1) as ([] & w2 & H2 & C2 & T2).
  exists w2. unfold bind. rewrite H1, H2. unfold ret.
  repeat split; congruence.
Qed.

(** On an empty cache a lookup misses. *)
Lemma lookupText_miss st index text w :
  cache w = [] ->
  lookupText cacheKey st (index, text) w
  = (inr {| vectors := vectors st;
            uncachedTexts := uncachedTexts st ++ [text];
            uncachedIndices := uncachedIndices st ++ [index] |},
     {| now := now w; cache := []; requestTimestamps := requestTimestamps w;
        providerCalls := providerCalls w;
        trace := trace w ++ [CacheGet (cacheKey text)] |}).
Proof.
  intros Hc. unfold lookupText, cacheGet, cacheCheck, bind, emit, modify, gets.
  simpl. rewrite Hc. reflexivity.
Qed.

(** So the texts are all kept for the provider, in their order, with their
    positions. *)
Lemma lookup_empty_cache (its : list (nat * string)) st w :
  cache w = [] ->
  exists w',
    forEachM (lookupText cacheKey) its st w
    = (inr {| vectors := vectors st;
              uncachedTexts := uncachedTexts st ++ map snd its;
              uncachedIndices := uncachedIndices st ++ map fst its |}, w')
    /\ cache w' = [] /\ providerCalls w' = providerCalls w
    /\ requestTimestamps w' = requestTimestamps w /\ now w' = now w
    /\ providerEvents (trace w') = providerEvents (trace w).
Proof.
  revert st w. induction its as [|[index text] its IH]; intros st w Hc.
  - exists w. simpl. unfold ret. rewrite !app_nil_r. destruct st. simpl.
    repeat split; auto.
  - cbn [forEachM]. unfold bind at 1. rewrite lookupText_miss by exact Hc.
    match goal with
    | |- context [forEachM _ its ?st1 ?w1] =>
        destruct (IH st1 w1) as (w' & Hrun & Hc' & Hp & Hts & Hn & Htr);
          [reflexivity|]
    end.
    exists w'. rewrite Hrun. simpl in *. rewrite <- !app_assoc. simpl.
    repeat split; auto.
    rewrite Htr, providerEvents_app. simpl. apply app_nil_r.
Qed.

(** With an empty window and a positive limit the rate limiter lets the
    call through at once; the provider is then called once. *)
Lemma provider_call_first_attempt texts vs w :
  requestTimestamps w = [] ->
  0 < rateLimitPerMinute this ->
  embedDocuments provider (providerCalls w) texts = inr vs ->
  exists w',
    bind (enforceRateLimit this)
         (fun _ => callProvider provider (EmbedDocuments texts)
                     (fun n => embedDocuments provider n texts)) w
    = (inr vs, w')
    /\ providerCalls w' = S (providerCalls w)
    /\ providerEvents (trace w') = providerEvents (trace w) ++ [EmbedDocuments texts].
Proof.
  intros Hts Hlimit Hans.
  unfold enforceRateLimit, callProvider, bind, gets, setTimestamps, emit, modify, lift.
  rewrite Hts. simpl.
  replace (rateLimitPerMinute this <=? Z.of_nat 0) with false
    by (symmetry; apply Z.leb_gt; simpl; lia).
  simpl. rewrite Hans. eexists. split; [reflexivity|]. simpl.
  split; [reflexivity|]. now rewrite providerEvents_app.
Qed.

Variables va va' vb : vector.
Hypothesis answer : embedDocuments provider 0 ["a"; "a"; "b"] = inr [va; va'; vb].
Hypothesis limit : 0 < rateLimitPerMinute this.

(** The chunk of the scenario on an empty cache: one provider call for the
    three texts, and the three slots filled in order. *)
Lemma embedTextsChunk_scenario w :
  cache w = [] -> requestTimestamps w = [] -> providerCalls w = 0%nat ->
  exists w',
    embedTextsChunk cacheKey provider this ["a"; "a"; "b"] w
    = (inr [Some va; Some va'; Some vb], w')
    /\ providerCalls w' = 1%nat
    /\ providerEvents (trace w')
       = providerEvents (trace w) ++ [EmbedDocuments ["a"; "a"; "b"]].
Proof.
  intros Hc Hts Hp. unfold embedTextsChunk.
  unfold bind at 1.
  match goal with
  | |- context [forEachM (lookupText cacheKey) ?its ?st w] =>
      destruct (lookup_empty_cache its st w Hc)
        as (w1 & Hrun & Hc1 & Hp1 & Hts1 & Hn1 & Htr1)
  end.
  rewrite Hrun. cbn [uncachedTexts uncachedIndices vectors imap map app length
                     replicate Nat.ltb Nat.leb].
  unfold compose. cbn [fst snd].
  unfold bind at 1. unfold bind at 1. unfold executeWithRetry.
  destruct (provider_call_first_attempt ["a"; "a"; "b"] [va; va'; vb] w1)
    as (w2 & Hcall & Hp2 & Htr2); [congruence | exact limit | now rewrite Hp1, Hp |].
  rewrite (retryLoop_succeeded _ _ _ _ _ _ _ Hcall).
  cbn [forEachM imap fst snd]. unfold compose.
  destruct (storeFetched_slot ["a"; "a"; "b"] [0; 1; 2]%nat [None; None; None]
              0%nat va "a" 0%nat w2 eq_refl eq_refl) as (w3 & H3 & Hp3 & Htr3).
  unfold bind. rewrite H3. cbv beta iota.
  destruct (storeFetched_slot ["a"; "a"; "b"] [0; 1; 2]%nat
              (<[0%nat := Some va]> [None; None; None])
              1%nat va' "a" 1%nat w3 eq_refl eq_refl) as (w4 & H4 & Hp4 & Htr4).
  rewrite H4. cbv beta iota.
  destruct (storeFetched_slot ["a"; "a"; "b"] [0; 1; 2]%nat
              (<[1%nat := Some va']> (<[0%nat := Some va]> [None; None; None]))
              2%nat vb "b" 2%nat w4 eq_refl eq_refl) as (w5 & H5 & Hp5 & Htr5).
  rewrite H5. cbv beta iota.
  exists w5. unfold ret. simpl.
  split; [reflexivity|]. split; [congruence|]. congruence.
Qed.

End Scenario.

(** *** Concrete collaborators *)

(** The generator built with no option. *)
Definition defaultGenerator : Generator :=
  {| batchSize := 100; maxConcurrency := 5; cacheSize := 1000;
     rateLimitPerMinute := 3000; stdTTL := 3600 |}.

(** A provider that answers every text with a one-component vector, the
    length of the text. *)
Definition lengthVector (text : string) : vector :=
  [inject_Z (Z.of_nat (String.length text))].

Definition lengthProvider : Provider :=
  {| embedQuery := fun _ text => inr (lengthVector text);
     embedDocuments := fun _ texts => inr (map lengthVector texts);
     latency := fun _ => 0 |}.

(** A provider that rejects every call with the number of the call. *)
Definition downProvider : Provider :=
  {| embedQuery := fun n _ => inl (Rejected (showNat n));
     embedDocuments := fun n _ => inl (Rejected (showNat n));
     latency := fun _ => 0 |}.

(** The waits of a trace, in order. *)
Definition delaysOf (tr : list Event) : list Z :=
  omap (fun e => match e with Delay ms => Some ms | _ => None end) tr.

(** C1, as the code has it.  For [embedBatch(["a","a","b"])] on a generator
    built with the default options and a fresh cache, whatever the key
    function and the provider: when the provider answers its first call,
    made for [["a","a","b"]], with [va, va', vb], exactly one provider call
    is issued, it is that call, which carries every cache miss in input
    order with the duplicate, and the result is [va, va', vb], one vector for
    each input in input order. *)
Theorem embedBatch_sends_every_miss cacheKey provider apiKey this t va va' vb :
  newGenerator apiKey (mkOptions None None None None) = inr this ->
  embedDocuments provider 0 ["a"; "a"; "b"] = inr [va; va'; vb] ->
  exists run,
    embedBatch cacheKey provider this ["a"; "a"; "b"] (batchSize this) = Some run
    /\ fst (run (freshWorld t)) = inr [Some va; Some va'; Some vb]
    /\ providerEvents (trace (snd (run (freshWorld t))))
       = [EmbedDocuments ["a"; "a"; "b"]]
    /\ providerCalls (snd (run (freshWorld t))) = 1%nat.
Proof.
  intros Hnew Hans. unfold newGenerator in Hnew.
  destruct (negb (truthy apiKey)); [discriminate|]. injection Hnew as <-.
  eexists. split; [reflexivity|].
  match goal with
  | |- context [createBatchesFrom ?a ?b ?c ?d] =>
      change (createBatchesFrom a b c d) with [(0%nat, ["a"; "a"; "b"])]
  end.
  match goal with
  | |- context [batchWorker ?k ?p ?g] =>
      destruct (embedTextsChunk_scenario k p g va va' vb Hans eq_refl
                  (freshWorld t) eq_refl eq_refl eq_refl) as (w' & Hrun & Hp & Htr)
  end.
  cbn [forEachM]. unfold batchWorker. cbv beta iota. unfold bind. rewrite Hrun. simpl.
  repeat split; assumption.
Qed.

(** The scenario with the key function taken for the identity and the
    provider [lengthProvider]. *)
Lemma embedBatch_sends_every_miss_witness :
  exists run,
    embedBatch id lengthProvider defaultGenerator ["a"; "a"; "b"]
      (batchSize defaultGenerator) = Some run
    /\ fst (run (freshWorld 0)) = inr [Some [1%Q]; Some [1%Q]; Some [1%Q]]
    /\ providerEvents (trace (snd (run (freshWorld 0))))
       = [EmbedDocuments ["a"; "a"; "b"]]
    /\ providerCalls (snd (run (freshWorld 0))) = 1%nat.
Proof.
  apply (embedBatch_sends_every_miss id lengthProvider "key" defaultGenerator 0
           [1%Q] [1%Q] [1%Q]); reflexivity.
Defined.

(** C1 as stated fails: the one provider call of the scenario is made for
    [["a","a","b"]], not for the distinct texts [["a","b"]]. *)
Lemma embedBatch_sends_duplicates :
  exists run,
    embedBatch id lengthProvider defaultGenerator ["a"; "a"; "b"] 100 = Some run
    /\ providerEvents (trace (snd (run (freshWorld 0))))
       = [EmbedDocuments ["a"; "a"; "b"]]
    /\ [EmbedDocuments ["a"; "a"; "b"]] <> [EmbedDocuments ["a"; "b"]].
Proof.
  eexists. split; [reflexivity|]. split; [vm_compute; reflexivity | discriminate].
Qed.

(** C5 as stated fails: when the provider is down, the waits of [embedText]
    are 200, 400, 800, 1600 and 3200 ms; the first is not 100 ms, and the last
    comes after the fifth attempt.  The error thrown is that of the fifth
    call (number 4 from 0). *)
Lemma first_backoff_is_200ms :
  delaysOf (trace (snd (embedText id downProvider defaultGenerator "x" (freshWorld 0))))
  = [200; 400; 800; 1600; 3200]
  /\ fst (embedText id downProvider defaultGenerator "x" (freshWorld 0))
     = inl (Rejected "4")
  /\ providerCalls (snd (embedText id downProvider defaultGenerator "x" (freshWorld 0)))
     = 5%nat
  /\ [200; 400; 800; 1600; 3200] <> [100; 200; 400; 800; 1600].
Proof. vm_compute. repeat split; discriminate. Qed.


(** The run on the padded text: one lookup, one call for the trimmed text,
    one cache entry. *)
Example embedText_padded :
  fst (embedText id lengthProvider defaultGenerator " hi " (freshWorld 0))
  = inr [2%Q]
  /\ providerEvents
       (trace (snd (embedText id lengthProvider defaultGenerator " hi " (freshWorld 0))))
     = [EmbedQuery "hi"]
  /\ map fst (cache (snd (embedText id lengthProvider defaultGenerator " hi "
                            (freshWorld 0))))
     = ["hi"].
Proof. vm_compute. repeat split; reflexivity. Qed.

End EmbedderFacts.

(* ================================================================== *)
(** * Properties of the vector-store manager *)
(* ================================================================== *)

Module QdrantFacts.
Import Js Types Effect Qdrant.

(** ** [upsertChunks] *)

Section Upsert.

Context {Store : Type}.
Variable client : Client Store.
Variable collectionName : string.
Variable parseDate : string -> JsDate.
Variable toISOString : Z -> string.

(** The number of chunks in the batches that start at [starts]. *)
Definition batchTotal {A} (items : list A) (starts : list nat) : nat :=
  list_sum (map (fun i => length (take DEFAULT_BATCH_SIZE (drop i items))) starts).

(** The batches cover the list from [i] on. *)
Lemma batchStarts_cover {A} (items : list A) size fuel i :
  (0 < size)%nat -> (length items - i <= fuel)%nat ->
  list_sum (map (fun j => length (take size (drop j items)))
                (batchStarts fuel (length items) size i))
  = (length items - i)%nat.
Proof.
  intros Hsize. revert i. induction fuel as [|fuel IH]; intros i Hfuel; simpl.
  - lia.
  - destruct (i <? length items)%nat eqn:Hi.
    + apply Nat.ltb_lt in Hi. simpl. rewrite IH by lia.
      rewrite length_take, length_drop. lia.
    + apply Nat.ltb_ge in Hi. simpl. lia.
Qed.

(** The loop of [upsertChunks] from the batch starts [starts] and the count
    [success]: the body of one round. *)
Definition upsertRound (chunks : list SEBIChunk) (embeddings : list vector)
  (success i : nat) : M (World Store) nat :=
  bind (retry
          (bind (lift (buildPoints parseDate toISOString 0
                         (take DEFAULT_BATCH_SIZE (drop i chunks))
                         (take DEFAULT_BATCH_SIZE (drop i embeddings))))
                (fun points => call (Upsert collectionName points)
                                    (upsert client collectionName points)))
          3)
       (fun _ => ret (success + length (take DEFAULT_BATCH_SIZE (drop i chunks)))%nat).

Lemma upsert_loop_count chunks embeddings starts success w n w' :
  forEachM (upsertRound chunks embeddings) starts success w = (inr n, w') ->
  n = (success + batchTotal chunks starts)%nat.
Proof.
  revert success w. induction starts as [|i starts IH]; intros success w; simpl.
  - unfold ret. intros [= <- <-]. unfold batchTotal. simpl. lia.
  - unfold bind at 1. unfold upsertRound at 1. unfold bind at 1.
    destruct (retry _ 3 w) as [[e|u] w1]; [discriminate|].
    unfold ret at 1. intros Hrun. apply IH in Hrun. subst n.
    unfold batchTotal. simpl. lia.
Qed.

(** One round returns when the payloads can be built and the store accepts
    the points. *)
Lemma buildPoints_returns index chunkBatch embeddingBatch :
  Forall (fun c => exists payload, buildPayload parseDate toISOString c = inr payload)
         chunkBatch ->
  exists points,
    buildPoints parseDate toISOString index chunkBatch embeddingBatch = inr points.
Proof.
  intros Hall. revert index. induction Hall as [|c l [payload Hc] _ IH]; intros index.
  - now exists [].
  - simpl. rewrite Hc. simpl. destruct (IH (S index)) as [points ->]. simpl. eauto.
Qed.

Lemma upsertRound_returns chunks embeddings success i w :
  Forall (fun c => exists payload, buildPayload parseDate toISOString c = inr payload)
         chunks ->
  (forall name points s, exists s', upsert client name points s = (inr tt, s')) ->
  exists w',
    upsertRound chunks embeddings success i w
    = (inr (success + length (take DEFAULT_BATCH_SIZE (drop i chunks)))%nat, w').
Proof.
  intros Hall Hstore. unfold upsertRound.
  destruct (buildPoints_returns 0 (take DEFAULT_BATCH_SIZE (drop i chunks))
              (take DEFAULT_BATCH_SIZE (drop i embeddings))) as [points Hpoints].
  { rewrite Forall_forall in Hall |- *. intros c Hc. apply Hall.
    now apply (subseteq_drop i), (subseteq_take DEFAULT_BATCH_SIZE). }
  rewrite Hpoints.
  destruct (Hstore collectionName points (service w)) as [s' Hs].
  eexists. unfold retry, retryLoop, tryCatch, lift, call, emit, modify, ret, bind.
  simpl in *. rewrite Hs. reflexivity.
Qed.

Lemma upsert_loop_returns chunks embeddings starts success w :
  Forall (fun c => exists payload, buildPayload parseDate toISOString c = inr payload)
         chunks ->
  (forall name points s, exists s', upsert client name points s = (inr tt, s')) ->
  exists n w', forEachM (upsertRound chunks embeddings) starts success w = (inr n, w').
Proof.
  intros Hall Hstore. revert success w.
  induction starts as [|i starts IH]; intros success w; simpl.
  - now exists success, w.
  - unfold bind at 1.
    destruct (upsertRound_returns chunks embeddings success i w Hall Hstore)
      as [w1 ->].
    apply IH.
Qed.

(** C10. [upsertChunks] on lists of different lengths throws
    [Chunks and embeddings length mismatch] and leaves the state of the
    manager and of the store as they were: no upsert is issued.  On lists of
    equal length every count it returns is the number of chunks passed in, and
    it does return when the payloads can be built and the store accepts the
    points. *)
Theorem upsertChunks_guard_and_count chunks embeddings (w : World Store) :
  (length chunks <> length embeddings ->
   upsertChunks client collectionName parseDate toISOString chunks embeddings w
   = (inl (Error "Chunks and embeddings length mismatch"), w))
  /\ (length chunks = length embeddings ->
      (forall n w',
          upsertChunks client collectionName parseDate toISOString chunks embeddings w
          = (inr n, w') ->
          n = length chunks)
      /\ (Forall (fun c => exists payload,
                      buildPayload parseDate toISOString c = inr payload) chunks ->
          (forall name points s, exists s', upsert client name points s = (inr tt, s')) ->
          exists w',
            upsertChunks client collectionName parseDate toISOString chunks embeddings w
            = (inr (length chunks), w'))).
Proof.
  unfold upsertChunks. split; intros Hlen.
  - apply Nat.eqb_neq in Hlen. now rewrite Hlen.
  - assert (Hcover : batchTotal chunks
                       (batchStarts (length chunks) (length chunks) DEFAULT_BATCH_SIZE 0)
                     = length chunks).
    { unfold batchTotal. rewrite batchStarts_cover; unfold DEFAULT_BATCH_SIZE; lia. }
    apply Nat.eqb_eq in Hlen. rewrite Hlen. change (negb true) with false. cbv iota.
    change (forEachM _ ?starts 0%nat w)
      with (forEachM (upsertRound chunks embeddings) starts 0%nat w).
    split.
    + intros n w' Hrun. apply upsert_loop_count in Hrun. rewrite Hcover in Hrun. lia.
    + intros Hall Hstore.
      destruct (upsert_loop_returns chunks embeddings
                  (batchStarts (length chunks) (length chunks) DEFAULT_BATCH_SIZE 0)
                  0%nat w Hall Hstore) as (n & w' & Hrun).
      exists w'. rewrite Hrun. apply upsert_loop_count in Hrun.
      rewrite Hcover in Hrun. now subst n.
Qed.

End Upsert.

(** ** Reciprocal rank fusion *)

Section Fusion.

(** The constant of the fusion; the code runs with [RRF_K].  Above [-1]
    every rank has a positive share. *)
Variable k : Q.
Hypothesis k_admissible : (-1 < k)%Q.


(** The place of the first result of a list with the key [key], counted from
    [index] for the head of the list. *)
Fixpoint rankFrom (key : string) (index : nat) (results : list SearchResult)
  : option nat :=
  match results with
  | [] => None
  | r :: rest =>
      if String.eqb (rrfKey r) key then Some index else rankFrom key (S index) rest
  end.














Lemma rankFrom_absent key n m results :
  rankFrom key n results = None -> rankFrom key m results = None.
Proof.
  revert n m. induction results as [|r rest IH]; intros n m; simpl; [reflexivity|].
  destruct (String.eqb (rrfKey r) key); [discriminate | apply IH].
Qed.




(** *** The entries of the map *)

(** No key stands twice in the map, and an entry stands under the key of its
    result. *)
Definition WellKeyed (scores : list (string * (SearchResult * Q))) : Prop :=
  NoDup (map fst scores)
  /\ Forall (fun e => fst e = rrfKey (fst (snd e))) scores.

Lemma accumulate_keys key r inc scores :
  map fst (accumulate key r inc scores)
  = if bool_decide (key ∈ map fst scores) then map fst scores
    else map fst scores ++ [key].
Proof.
  induction scores as [|[k0 [r0 s]] rest IH].
  - rewrite bool_decide_eq_false_2; [reflexivity | apply not_elem_of_nil].
  - cbn [accumulate]. destruct (String.eqb k0 key) eqn:Hk; cbn [map fst].
    + apply String.eqb_eq in Hk. subst k0.
      rewrite bool_decide_eq_true_2; [reflexivity | left].
    + apply String.eqb_neq in Hk. rewrite IH.
      destruct (bool_decide (key ∈ map fst rest)) eqn:Hin.
      * apply bool_decide_eq_true in Hin.
        rewrite bool_decide_eq_true_2; [reflexivity | now right].
      * apply bool_decide_eq_false in Hin.
        rewrite bool_decide_eq_false_2; [reflexivity|].
        intros H. apply elem_of_cons in H as [H|H]; [congruence | contradiction].
Qed.

Lemma accumulate_wellKeyed r inc scores :
  WellKeyed scores -> WellKeyed (accumulate (rrfKey r) r inc scores).
Proof.
  intros [Hnd Hkeys]. split.
  - rewrite accumulate_keys. destruct (bool_decide _) eqn:Hin; [exact Hnd|].
    apply bool_decide_eq_false in Hin.
    apply NoDup_app. split; [exact Hnd|]. split.
    + intros x Hx Hx'. apply list_elem_of_singleton in Hx'. now subst x.
    + apply NoDup_singleton.
  - clear Hnd. induction Hkeys as [|[k0 [r0 s]] rest Hk Hrest IH]; simpl.
    + now repeat constructor.
    + destruct (String.eqb k0 (rrfKey r)); constructor; auto.
Qed.

Lemma fusedScores_wellKeyed resultSets : WellKeyed (fusedScores k resultSets).
Proof.
  unfold fusedScores.
  assert (H : forall sets scores, WellKeyed scores ->
                                  WellKeyed (fold_left (fuseList k) sets scores)).
  { induction sets as [|results sets IH]; simpl; intros scores Hs; [exact Hs|].
    apply IH. unfold fuseList.
    generalize (imap pair results). intros irs. revert scores Hs.
    induction irs as [|ir irs IHirs]; simpl; intros scores Hs; [exact Hs|].
    apply IHirs. now apply accumulate_wellKeyed. }
  apply H. split; [apply NoDup_nil_2 | constructor].
Qed.


Lemma insertDesc_elem {A} (key : A -> Q) x y l :
  y ∈ insertDesc key x l -> y = x \/ y ∈ l.
Proof.
  induction l as [|z l IH]; simpl.
  - intros H. apply list_elem_of_singleton in H. now left.
  - destruct (Qle_bool (key z) (key x)).
    + intros H. apply elem_of_cons in H as [H|H]; [now left | now right].
    + intros H. apply elem_of_cons in H as [H|H].
      * right. subst. left.
      * destruct (IH H) as [H'|H']; [now left | right; now right].
Qed.

Lemma sortDesc_elem {A} (key : A -> Q) y l : y ∈ sortDesc key l -> y ∈ l.
Proof.
  induction l as [|x l IH]; simpl; [easy|].
  intros H. apply insertDesc_elem in H as [->|H]; [left | right; now apply IH].
Qed.

Lemma slice0_elem {A} limit (y : A) l : y ∈ slice0 limit l -> y ∈ l.
Proof. unfold slice0. destruct (0 <=? limit)%Z; apply subseteq_take. Qed.


End Fusion.

(** *** Concrete data *)

(** The stored chunk of ordinal [i] of the document [doc]. *)
Definition sampleChunk (doc : string) (i : nat) (v : option vector) : SEBIChunk :=
  {| chunk_id := doc +:+ "-chunk-" +:+ showNat i; document_id := doc;
     chunk_index := i; content := "TER limits for equity schemes"; tokens := 5;
     section_hierarchy := ["1 Intro"]; embedding := v; chunk_metadata := None |}.

(** The address under which the sample documents are published. *)
Definition sampleUrl : string := "https://www.sebi.gov.in/circulars/sample".

Definition sampleDocument (doc : string) : SEBIDocument :=
  {| doc_id := doc; circular_id := doc; doc_title := "SEBI Circular " +:+ doc;
     doc_date := Some 0%Z; category := "general";
     doc_content := "TER limits for equity schemes"; doc_url := sampleUrl;
     doc_chapter := Some "1 Intro"; doc_section := Some "1 Intro";
     doc_metadata := [] |}.

Definition sampleResult (doc : string) (s : Q) : SearchResult :=
  {| score := s; chunk := sampleChunk doc 0 None; document := sampleDocument doc |}.





(** ** Result reconstruction *)

(** A store that answers every search and every scroll with the same hits. *)
Definition scriptedClient (hits : list Hit) : Client unit :=
  {| getCollection := fun _ s => (inr tt, s);
     createCollection := fun _ s => (inr tt, s);
     createPayloadIndex := fun _ _ _ s => (inr tt, s);
     upsert := fun _ _ s => (inr tt, s);
     search := fun _ _ _ _ s => (inr hits, s);
     scroll := fun _ _ _ s => (inr (hits, None), s);
     deleteCollection := fun _ s => (inr tt, s) |}.

(** A runtime whose dates all read as the epoch. *)
Definition epochOf (text : string) : JsDate := Some 0%Z.
Definition epochText (t : Z) : string := "1970-01-01T00:00:00.000Z".

(** A URL test for the concrete runs: it accepts the strings that go on after
    [https://] and refuses the others.  On the strings that the runs put to
    it, the empty string and addresses made of [https://], a host name and a
    path of letters, as [sampleUrl] is, it decides as [new URL] does. *)
Definition httpsUrl (s : string) : bool :=
  startsWithChars (chars "https://") (chars s) && (8 <? String.length s)%nat.

(** The payload stored for the chunk [c] under the category [cat] and the
    address [url]. *)
Definition payloadOf (c : SEBIChunk) (cat : string) (url : option string)
  : PayloadShape :=
  {| pl_chunk := Some c; pl_document := None; pl_circular_id := Some (document_id c);
     pl_category := Some cat; pl_date := Some "1970-01-01T00:00:00.000Z";
     pl_chapter := Some "1 Intro"; pl_url := url; pl_title := None;
     pl_metadata := Some [] |}.

(** A sound point; a point whose stored category is outside the enumeration;
    a point stored without an address, as [buildPayload] stores a chunk that
    carries no metadata; and a point whose stored chunk carries a vector of
    the wrong size. *)
Definition soundHit : Hit :=
  {| hit_id := "d1-chunk-0"; hit_score := Some 0.9%Q;
     hit_payload :=
       Some (payloadOf (sampleChunk "d1" 0 None) "general" (Some sampleUrl)) |}.

Definition strayCategoryHit : Hit :=
  {| hit_id := "d2-chunk-0"; hit_score := Some 0.8%Q;
     hit_payload :=
       Some (payloadOf (sampleChunk "d2" 0 None) "crypto" (Some sampleUrl)) |}.

Definition unlinkedHit : Hit :=
  {| hit_id := "d4-chunk-0"; hit_score := Some 0.6%Q;
     hit_payload := Some (payloadOf (sampleChunk "d4" 0 None) "general" None) |}.

Definition strayChunkHit : Hit :=
  {| hit_id := "d3-chunk-0"; hit_score := Some 0.7%Q;
     hit_payload :=
       Some (payloadOf (sampleChunk "d3" 0 (Some [1%Q])) "general" (Some sampleUrl)) |}.

Definition startWorld : World unit := {| now := 0; service := tt; trace := [] |}.

Section Reconstruction.

Context {Store : Type}.
Variable client : Client Store.
Variable collectionName : string.
Variable schemas : Schemas.
Variable parseDate : string -> JsDate.
Variable toISOString : Z -> string.

(** [mapHitToResult] throws on the hit, whatever the state. *)
Definition Unbuildable (hit : Hit) : Prop :=
  forall w : World Store,
    fst (mapHitToResult schemas parseDate toISOString hit w)
    = inl (ZodError "SEBIDocument").

(** The only value that [mapHitToResult] throws is the [ZodError] of
    [SEBIDocumentSchema.parse]. *)
Lemma mapHitToResult_error hit (w : World Store) e :
  fst (mapHitToResult schemas parseDate toISOString hit w) = inl e ->
  e = ZodError "SEBIDocument".
Proof.
  unfold mapHitToResult.
  destruct (hit_payload hit) as [payload|]; [|discriminate].
  destruct (pl_chunk payload) as [raw|]; [|discriminate].
  destruct (SEBIChunkSchema_safeParse schemas raw) as [data|].
  - unfold bind, payloadToDocument, gets, lift, ret, SEBIDocumentSchema_parse. simpl.
    match goal with
    | |- context [documentOk schemas ?d] => destruct (documentOk schemas d)
    end; simpl; [discriminate | now intros [= <-]].
  - unfold bind, emit, modify, ret. simpl. discriminate.
Qed.

(** A stored chunk that fails [SEBIChunkSchema] is skipped with a warning. *)
Lemma mapHitToResult_skips hit payload raw (w : World Store) :
  hit_payload hit = Some payload ->
  pl_chunk payload = Some raw ->
  chunkOk schemas raw = false ->
  mapHitToResult schemas parseDate toISOString hit w
  = (inr None, {| now := now w; service := service w;
                  trace := trace w ++ [LogWarn "Failed to parse chunk payload"] |}).
Proof.
  intros Hp Hc Hbad. unfold mapHitToResult, SEBIChunkSchema_safeParse.
  now rewrite Hp, Hc, Hbad.
Qed.

(** One hit that throws makes the whole [map] throw. *)
Lemma mapHits_throws hit hits :
  hit ∈ hits -> Unbuildable hit ->
  forall w : World Store,
    fst (mapHits schemas parseDate toISOString hits w) = inl (ZodError "SEBIDocument").
Proof.
  intros Hin Hthrows. induction hits as [|h rest IH]; intros w.
  { now apply elem_of_nil in Hin. }
  cbn [mapHits]. unfold bind.
  destruct (mapHitToResult schemas parseDate toISOString h w) as [[e|r] w1] eqn:Hh.
  - simpl. f_equal. apply (mapHitToResult_error h w). now rewrite Hh.
  - apply elem_of_cons in Hin as [->|Hin].
    + specialize (Hthrows w). rewrite Hh in Hthrows. discriminate.
    + specialize (IH Hin w1).
      destruct (mapHits schemas parseDate toISOString rest w1) as [[e|rs] w2];
        simpl in *; [exact IH | discriminate].
Qed.

(** The same for the loop over the points of a page. *)
Lemma collect_throws hit points :
  hit ∈ points -> Unbuildable hit ->
  forall results (w : World Store),
    fst (forEachM
           (fun acc point =>
              bind (mapHitToResult schemas parseDate toISOString point)
                (fun mapped =>
                   ret (match mapped with Some r => acc ++ [r] | None => acc end)))
           points results w)
    = inl (ZodError "SEBIDocument").
Proof.
  intros Hin Hthrows. induction points as [|h rest IH]; intros results w.
  { now apply elem_of_nil in Hin. }
  cbn [forEachM]. unfold bind at 1. unfold bind at 1.
  destruct (mapHitToResult schemas parseDate toISOString h w) as [[e|r] w1] eqn:Hh.
  - simpl. f_equal. apply (mapHitToResult_error h w). now rewrite Hh.
  - apply elem_of_cons in Hin as [->|Hin].
    + specialize (Hthrows w). rewrite Hh in Hthrows. discriminate.
    + unfold ret at 1. apply (IH Hin).
Qed.

Lemma semanticSearch_throws hit hits v filters limit (w : World Store) :
  hit ∈ hits -> Unbuildable hit ->
  fst (search client collectionName v limit (buildFilter filters) (service w))
  = inr hits ->
  fst (semanticSearch client collectionName schemas parseDate toISOString
         v filters limit w)
  = inl (ZodError "SEBIDocument").
Proof.
  intros Hin Hthrows Hsearch. unfold semanticSearch, call.
  unfold bind at 1. unfold bind at 1. unfold emit, modify. cbn [now service trace].
  destruct (search client collectionName v limit (buildFilter filters) (service w))
    as [r s1]. simpl in Hsearch. subst r.
  unfold bind.
  match goal with
  | |- context [mapHits schemas parseDate toISOString hits ?w1] =>
      pose proof (mapHits_throws hit hits Hin Hthrows w1) as Hmap;
      destruct (mapHits schemas parseDate toISOString hits w1) as [[e|rs] w2]
  end; simpl in *; [now injection Hmap as -> | discriminate].
Qed.

Lemma fetchAllPoints_throws hit hits next pages filters (w : World Store) :
  hit ∈ hits -> Unbuildable hit ->
  fst (scroll client collectionName (buildFilter filters) None (service w))
  = inr (hits, next) ->
  fst (fetchAllPoints client collectionName schemas parseDate toISOString
         (S pages) filters w)
  = inl (ZodError "SEBIDocument").
Proof.
  intros Hin Hthrows Hscroll. unfold fetchAllPoints. cbn [fetchPages]. unfold call.
  unfold bind at 1. unfold bind at 1. unfold emit, modify. cbn [now service trace].
  destruct (scroll client collectionName (buildFilter filters) None (service w))
    as [r s1]. simpl in Hscroll. subst r. cbn [fst].
  unfold bind at 1.
  match goal with
  | |- context [forEachM ?body hits [] ?w1] =>
      pose proof (collect_throws hit hits Hin Hthrows [] w1) as Hloop;
      destruct (forEachM body hits [] w1) as [[e|rs] w2]
  end; simpl in *; [now injection Hloop as -> | discriminate].
Qed.

End Reconstruction.

(** A payload without a nested document whose address is missing, or whose
    category is outside the enumeration, fails [SEBIDocumentSchema]. *)
Lemma payloadToDocument_rejects {Store} isUrl parseDate toISOString payload c
  (w : World Store) :
  isUrl "" = false ->
  pl_document payload = None ->
  pl_url payload = None
  \/ (exists cat, pl_category payload = Some cat /\ cat ∉ CATEGORY_KEYS) ->
  payloadToDocument (zodSchemas isUrl) parseDate toISOString payload c w
  = (inl (ZodError "SEBIDocument"), w).
Proof.
  intros Hurl Hdoc Hbad.
  unfold payloadToDocument, bind, gets, lift, SEBIDocumentSchema_parse.
  cbn [fst snd]. rewrite Hdoc.
  match goal with
  | |- context [documentOk (zodSchemas isUrl) ?d] =>
      assert (Hno : documentOk (zodSchemas isUrl) d = false)
  end.
  { cbn [documentOk zodSchemas doc_url category default emptyPayloadDocument
           pd_url pd_category orElse].
    destruct Hbad as [Hnone|(cat & Hcat & Hout)].
    - rewrite Hnone. cbn [default]. rewrite Hurl. apply andb_false_r.
    - rewrite Hcat. cbn [default]. rewrite (bool_decide_eq_false_2 _ Hout).
      now rewrite andb_false_r. }
  now rewrite Hno.
Qed.

(** C4 fails on the code.  A stored chunk that fails [SEBIChunkSchema] is
    skipped and logged, as C4 says.  But the document is rebuilt from the
    payload with [SEBIDocumentSchema.parse], outside any [try]: a point
    whose chunk is valid and whose payload has no nested document and either
    no address (the address is then rebuilt as the empty string, which is no
    URL) or a category outside the enumeration makes [semanticSearch],
    [fetchAllPoints] and with it [keywordSearch], and [hybridSearch] throw
    the [ZodError], whatever else the store returned: the sound results are
    lost with the query. *)
Theorem reconstruction_error_fails_query {Store} (client : Client Store) name isUrl
  parseDate toISOString ln (hits : list Hit) hit payload raw :
  isUrl "" = false ->
  hit ∈ hits ->
  hit_payload hit = Some payload ->
  pl_chunk payload = Some raw ->
  chunkOk (zodSchemas isUrl) raw = true ->
  pl_document payload = None ->
  pl_url payload = None
  \/ (exists cat, pl_category payload = Some cat /\ cat ∉ CATEGORY_KEYS) ->
  (forall stray payload' raw' (w : World Store),
      hit_payload stray = Some payload' ->
      pl_chunk payload' = Some raw' ->
      chunkOk (zodSchemas isUrl) raw' = false ->
      mapHitToResult (zodSchemas isUrl) parseDate toISOString stray w
      = (inr None, {| now := now w; service := service w;
                      trace := trace w ++ [LogWarn "Failed to parse chunk payload"] |}))
  /\ (forall v filters limit (w : World Store),
        fst (search client name v limit (buildFilter filters) (service w)) = inr hits ->
        fst (semanticSearch client name (zodSchemas isUrl) parseDate toISOString
               v filters limit w)
        = inl (ZodError "SEBIDocument"))
  /\ (forall pages next query limit filters (w : World Store),
        fst (scroll client name (buildFilter filters) None (service w))
        = inr (hits, next) ->
        fst (fetchAllPoints client name (zodSchemas isUrl) parseDate toISOString
               (S pages) filters w)
        = inl (ZodError "SEBIDocument")
        /\ fst (keywordSearch client name (zodSchemas isUrl) parseDate toISOString ln
                  (S pages) query limit filters w)
           = inl (ZodError "SEBIDocument"))
  /\ (forall pages query v limit filters (w : World Store),
        fst (search client name v (Z.max (limit * 2) 10) (buildFilter filters)
               (service w)) = inr hits ->
        fst (hybridSearch client name (zodSchemas isUrl) parseDate toISOString ln
               pages query v limit filters w)
        = inl (ZodError "SEBIDocument")).
Proof.
  intros Hurl Hin Hp Hc Hok Hdoc Hbad.
  assert (Hthrows : Unbuildable (Store := Store) (zodSchemas isUrl) parseDate
                      toISOString hit).
  { intros w. unfold mapHitToResult, SEBIChunkSchema_safeParse.
    rewrite Hp, Hc, Hok. unfold bind.
    now rewrite (payloadToDocument_rejects isUrl parseDate toISOString payload
                   (declared raw) w Hurl Hdoc Hbad). }
  split; [|split; [|split]].
  - intros stray payload' raw' w. apply mapHitToResult_skips.
  - intros v filters limit w. now apply (semanticSearch_throws _ _ _ _ _ hit hits).
  - intros pages next query limit filters w Hscroll.
    pose proof (fetchAllPoints_throws client name (zodSchemas isUrl) parseDate
                  toISOString hit hits next pages filters w Hin Hthrows Hscroll)
      as Hfetch.
    split; [exact Hfetch|]. unfold keywordSearch, bind.
    destruct (fetchAllPoints client name (zodSchemas isUrl) parseDate toISOString
                (S pages) filters w) as [[e|fetched] w1];
      simpl in *; [now injection Hfetch as -> | discriminate].
  - intros pages query v limit filters w Hsearch.
    pose proof (semanticSearch_throws client name (zodSchemas isUrl) parseDate
                  toISOString hit hits v filters (Z.max (limit * 2) 10) w Hin Hthrows
                  Hsearch) as Hsem.
    unfold hybridSearch, bind.
    destruct (semanticSearch client name (zodSchemas isUrl) parseDate toISOString
                v filters (Z.max (limit * 2) 10) w) as [[e|found] w1];
      simpl in *; [now injection Hsem as -> | discriminate].
Qed.

(** A store that holds a point with a chunk of the wrong vector size and a
    sound point answers a search through the manager with the sound result
    and a warning; when it also holds a point stored without an address, as
    the manager itself stores a chunk without metadata, or a point of a
    category outside the enumeration, the search throws. *)
Lemma reconstruction_error_fails_query_witness :
  fst (semanticSearch (scriptedClient [strayChunkHit; soundHit]) "sebi_regulations"
         (zodSchemas httpsUrl) epochOf epochText [] None 5 startWorld)
  = inr [sampleResult "d1" 0.9]
  /\ trace (snd (semanticSearch (scriptedClient [strayChunkHit; soundHit])
                   "sebi_regulations" (zodSchemas httpsUrl) epochOf epochText
                   [] None 5 startWorld))
     = [Search "sebi_regulations" [] 5 None; LogWarn "Failed to parse chunk payload"]
  /\ fst (semanticSearch (scriptedClient [strayChunkHit; soundHit; unlinkedHit])
            "sebi_regulations" (zodSchemas httpsUrl) epochOf epochText
            [] None 5 startWorld)
     = inl (ZodError "SEBIDocument")
  /\ fst (hybridSearch (scriptedClient [strayChunkHit; soundHit; unlinkedHit])
            "sebi_regulations" (zodSchemas httpsUrl) epochOf epochText (fun x => x)
            8 "TER equity" [] 5 None startWorld)
     = inl (ZodError "SEBIDocument")
  /\ fst (keywordSearch (scriptedClient [soundHit; strayCategoryHit])
            "sebi_regulations" (zodSchemas httpsUrl) epochOf epochText (fun x => x)
            8 "TER equity" 5 None startWorld)
     = inl (ZodError "SEBIDocument").
Proof.
  split; [vm_compute; reflexivity|]. split; [vm_compute; reflexivity|].
  pose proof (reconstruction_error_fails_query
                (scriptedClient [strayChunkHit; soundHit; unlinkedHit])
                "sebi_regulations" httpsUrl epochOf epochText (fun x => x)
                [strayChunkHit; soundHit; unlinkedHit] unlinkedHit
                (payloadOf (sampleChunk "d4" 0 None) "general" None)
                (sampleChunk "d4" 0 None)
                eq_refl
                (list_elem_of_further _ _ _
                   (list_elem_of_further _ _ _ (list_elem_of_here _ _)))
                eq_refl eq_refl eq_refl eq_refl (or_introl eq_refl))
    as (_ & Hsemantic & _ & Hhybrid).
  split; [exact (Hsemantic [] None 5%Z startWorld eq_refl)|].
  split; [exact (Hhybrid 8%nat "TER equity" [] 5%Z None startWorld eq_refl)|].
  assert (Hstray : "crypto" ∉ CATEGORY_KEYS).
  { apply (bool_decide_unpack _). vm_compute. exact I. }
  pose proof (reconstruction_error_fails_query
                (scriptedClient [soundHit; strayCategoryHit])
                "sebi_regulations" httpsUrl epochOf epochText (fun x => x)
                [soundHit; strayCategoryHit] strayCategoryHit
                (payloadOf (sampleChunk "d2" 0 None) "crypto" (Some sampleUrl))
                (sampleChunk "d2" 0 None)
                eq_refl
                (list_elem_of_further _ _ _ (list_elem_of_here _ _))
                eq_refl eq_refl eq_refl eq_refl
                (or_intror (ex_intro _ "crypto" (conj eq_refl Hstray))))
    as (_ & _ & Hscan & _).
  exact (proj2 (Hscan 7%nat None "TER equity" 5%Z None startWorld eq_refl)).
Defined.

(** ** [initializeCollection] *)

Section Traces.

Context {Store : Type}.

(** [m] only adds to the trace. *)
Definition grows {A} (m : M (World Store) A) : Prop :=
  forall w, exists added, trace (snd (m w)) = trace w ++ added.

(** [m] adds [e] to the trace before anything else. *)
Definition startsWith {A} (e : Event) (m : M (World Store) A) : Prop :=
  forall w, exists rest, trace (snd (m w)) = trace w ++ e :: rest.

Lemma grows_still {A} (m : M (World Store) A) :
  (forall w, trace (snd (m w)) = trace w) -> grows m.
Proof. intros H w. exists []. now rewrite app_nil_r. Qed.

Lemma grows_bind {A B} (m : M (World Store) A) (k : A -> M (World Store) B) :
  grows m -> (forall a, grows (k a)) -> grows (bind m k).
Proof.
  intros Hm Hk w. destruct (Hm w) as [ad1 H1]. unfold bind.
  destruct (m w) as [[e|a] w1]; simpl in *; [now exists ad1|].
  destruct (Hk a w1) as [ad2 H2]. exists (ad1 ++ ad2).
  now rewrite H2, H1, app_assoc.
Qed.

Lemma grows_tryCatch {A} (body : M (World Store) A) handler :
  grows body -> (forall e, grows (handler e)) -> grows (tryCatch body handler).
Proof.
  intros Hm Hk w. destruct (Hm w) as [ad1 H1]. unfold tryCatch.
  destruct (body w) as [[e|a] w1]; simpl in *; [|now exists ad1].
  destruct (Hk e w1) as [ad2 H2]. exists (ad1 ++ ad2).
  now rewrite H2, H1, app_assoc.
Qed.

Lemma grows_emit e : grows (emit (Store := Store) e).
Proof. intros w. now exists [e]. Qed.

Lemma grows_call {A} e (op : Store -> result A * Store) : grows (call e op).
Proof.
  intros w. exists [e]. unfold call, bind, emit, modify. simpl.
  now destruct (op (service w)).
Qed.

Lemma grows_settled {A} (m : M (World Store) A) : grows m -> grows (settled m).
Proof.
  intros Hm w. destruct (Hm w) as [ad H]. exists ad. unfold settled.
  now destruct (m w).
Qed.

Lemma startsWith_call {A} e (op : Store -> result A * Store) :
  startsWith e (call e op).
Proof.
  intros w. exists []. unfold call, bind, emit, modify. simpl.
  now destruct (op (service w)).
Qed.

Lemma startsWith_bind {A B} e (m : M (World Store) A) (k : A -> M (World Store) B) :
  startsWith e m -> (forall a, grows (k a)) -> startsWith e (bind m k).
Proof.
  intros Hm Hk w. destruct (Hm w) as [r1 H1]. unfold bind.
  destruct (m w) as [[err|a] w1]; simpl in *; [now exists r1|].
  destruct (Hk a w1) as [ad2 H2]. exists (r1 ++ ad2).
  rewrite H2, H1, <- app_assoc. reflexivity.
Qed.

Lemma startsWith_tryCatch {A} e (body : M (World Store) A) handler :
  startsWith e body -> (forall err, grows (handler err)) ->
  startsWith e (tryCatch body handler).
Proof.
  intros Hm Hk w. destruct (Hm w) as [r1 H1]. unfold tryCatch.
  destruct (body w) as [[err|a] w1]; simpl in *; [|now exists r1].
  destruct (Hk err w1) as [ad2 H2]. exists (r1 ++ ad2).
  rewrite H2, H1, <- app_assoc. reflexivity.
Qed.

(** Whatever the store answers, [initializeCollection] starts by asking it for
    the collection. *)
Lemma initializeCollection_asks_store (client : Client Store) name settles :
  startsWith (GetCollection name) (initializeCollection client name settles).
Proof.
  unfold initializeCollection. apply startsWith_bind.
  - unfold collectionExists. apply startsWith_tryCatch.
    + apply startsWith_bind; [apply startsWith_call|].
      intros _. now apply grows_still.
    + intros err. apply grows_bind; [apply grows_emit|].
      intros _. now apply grows_still.
  - intros [|]; [now apply grows_still|].
    apply grows_bind; [apply grows_call|]. intros _.
    repeat (apply grows_bind; [apply grows_settled, grows_call|]; intros ?).
    now apply grows_still.
Qed.

End Traces.

(** One chunk with no embedding, then with one. *)
Lemma upsertChunks_guard_and_count_witness :
  upsertChunks (scriptedClient []) "sebi_regulations" epochOf epochText
    [sampleChunk "d1" 0 None] [] startWorld
  = (inl (Error "Chunks and embeddings length mismatch"), startWorld)
  /\ exists w',
      upsertChunks (scriptedClient []) "sebi_regulations" epochOf epochText
        [sampleChunk "d1" 0 None] [[1%Q]] startWorld
      = (inr 1%nat, w').
Proof.
  split.
  - apply (proj1 (upsertChunks_guard_and_count (scriptedClient []) "sebi_regulations"
                    epochOf epochText [sampleChunk "d1" 0 None] [] startWorld)).
    discriminate.
  - apply (proj2 (proj2 (upsertChunks_guard_and_count (scriptedClient [])
                           "sebi_regulations" epochOf epochText
                           [sampleChunk "d1" 0 None] [[1%Q]] startWorld) eq_refl)).
    + repeat constructor. eexists. reflexivity.
    + intros name points s. now exists s.
Defined.

End QdrantFacts.

(* ================================================================== *)
(** * Properties of the ingestion of one PDF *)
(* ================================================================== *)

Module IngestFacts.
Import Js Types Effect Ingest.

#[local] Arguments validateMetadata : simpl never.
#[local] Arguments mergeMetadata : simpl never.
#[local] Arguments requireEmbeddings : simpl never.
#[local] Arguments PdfParser.chunkDocument : simpl never.

Section Order.

Variable countTokens : string -> nat.
Variable schemas : Schemas.
Variable deps : Dependencies.
Variable config : IngestionConfig.

(** The events of a run up to the validation of the metadata. *)
Definition preamble (pdfPath : string) (buffer : string) : list Event :=
  [QdrantInitializeCollection;
   LogInfo ("Ingesting PDF: " +:+ resolve deps (sourcePath config) pdfPath);
   ReadFile (resolve deps (sourcePath config) pdfPath);
   Parse buffer].

(** The document that [ingestPDF] validates, when it gets that far. *)
Definition validated (pdfPath : string) (metadata : option PartialDocument)
  (merged : SEBIDocument) : Prop :=
  exists buffer document,
    initializeCollection deps = inr tt
    /\ readFile deps (resolve deps (sourcePath config) pdfPath) = inr buffer
    /\ parser deps buffer = inr document
    /\ mergeMetadata schemas document metadata = inr merged
    /\ validateMetadata (Some (toPartial merged)) = inr tt.

(** [m] only adds to the trace. *)
Definition appends {A} (m : M World A) : Prop :=
  forall w, exists added, trace (snd (m w)) = trace w ++ added.

Lemma appends_still {A} (m : M World A) :
  (forall w, trace (snd (m w)) = trace w) -> appends m.
Proof. intros H w. exists []. now rewrite app_nil_r. Qed.

Lemma appends_bind {A B} (m : M World A) (k : A -> M World B) :
  appends m -> (forall a, appends (k a)) -> appends (bind m k).
Proof.
  intros Hm Hk w. destruct (Hm w) as [ad1 H1]. unfold bind.
  destruct (m w) as [[e|a] w1]; simpl in *; [now exists ad1|].
  destruct (Hk a w1) as [ad2 H2]. exists (ad1 ++ ad2).
  now rewrite H2, H1, app_assoc.
Qed.

Lemma appends_call {A} e (answer : result A) : appends (call deps e answer).
Proof. intros w. now exists [e]. Qed.

Lemma appends_logInfo message : appends (logInfo message).
Proof. intros w. now exists [LogInfo message]. Qed.

Lemma ingestPDF_appends pdfPath metadata :
  appends (ingestPDF countTokens schemas deps config pdfPath metadata).
Proof.
  unfold ingestPDF.
  repeat first
    [ apply appends_call
    | apply appends_logInfo
    | apply appends_bind; [|intros ?]
    | now apply appends_still
    | match goal with |- appends (if ?b then _ else _) => destruct b end ].
Qed.

(** A run that reaches the embedding has validated its document. *)
Lemma embedding_after_validation pdfPath metadata w :
  exists added,
    trace (snd (ingestPDF countTokens schemas deps config pdfPath metadata w))
    = trace w ++ added
    /\ (existsb isEmbedOrUpsert added = true ->
        exists merged, validated pdfPath metadata merged).
Proof.
  destruct (ingestPDF_appends pdfPath metadata w) as [added Hadded].
  exists added. split; [exact Hadded|]. intros Hreached.
  revert Hadded. unfold ingestPDF, validated.
  set (path := resolve deps (sourcePath config) pdfPath).
  unfold call, logInfo, lift, gets, modify, throw, ret, bind. simpl.
  destruct (initializeCollection deps) as [e|[]] eqn:Hinit; simpl;
    [intros H; apply app_inv_head in H; subst added; discriminate|].
  destruct (readFile deps path) as [e|buffer] eqn:Hread; simpl;
    [rewrite <- !app_assoc; intros H; apply app_inv_head in H; subst added;
     discriminate|].
  destruct (parser deps buffer) as [e|document] eqn:Hparse; simpl;
    [rewrite <- !app_assoc; intros H; apply app_inv_head in H; subst added;
     discriminate|].
  destruct (mergeMetadata schemas document metadata) as [e|merged] eqn:Hmerge; simpl;
    [rewrite <- !app_assoc; intros H; apply app_inv_head in H; subst added;
     discriminate|].
  destruct (validateMetadata (Some (toPartial merged))) as [e|[]] eqn:Hvalid; simpl;
    [rewrite <- !app_assoc; intros H; apply app_inv_head in H; subst added;
     discriminate|].
  intros _. exists merged, buffer, document. auto.
Qed.

(** A document that fails the schema or [validateMetadata] ends the run with
    that error, after the preamble and nothing else. *)
Lemma validation_error_stops pdfPath metadata w buffer document e :
  initializeCollection deps = inr tt ->
  readFile deps (resolve deps (sourcePath config) pdfPath) = inr buffer ->
  parser deps buffer = inr document ->
  rbind (mergeMetadata schemas document metadata)
        (fun merged => validateMetadata (Some (toPartial merged))) = inl e ->
  fst (ingestPDF countTokens schemas deps config pdfPath metadata w) = inl e
  /\ trace (snd (ingestPDF countTokens schemas deps config pdfPath metadata w))
     = trace w ++ preamble pdfPath buffer.
Proof.
  intros Hinit Hread Hparse Hbad. unfold ingestPDF, preamble.
  set (path := resolve deps (sourcePath config) pdfPath) in *.
  unfold call, logInfo, lift, gets, modify, throw, ret, bind. simpl.
  rewrite Hinit. simpl. rewrite Hread. simpl. rewrite Hparse. simpl.
  destruct (mergeMetadata schemas document metadata) as [e'|merged]; simpl in *.
  - injection Hbad as <-. split; [reflexivity | now rewrite <- !app_assoc].
  - rewrite Hbad. simpl. split; [reflexivity | now rewrite <- !app_assoc].
Qed.

End Order.

(** A document that passes the schema of the code passes [validateMetadata]:
    the schema has tested the circular identifier, the date and the category
    already. *)
Lemma validateMetadata_after_schema isUrl d :
  documentOk (zodSchemas isUrl) d = true ->
  validateMetadata (Some (toPartial d)) = inr tt.
Proof.
  cbn [documentOk zodSchemas]. rewrite !andb_true_iff.
  intros [[[[[_ Hcircular] _] Hdate] Hcategory] _].
  apply bool_decide_eq_true in Hcategory.
  assert (Hnamed : truthy (category d) = true).
  { unfold CATEGORY_KEYS in Hcategory.
    repeat (apply elem_of_cons in Hcategory as [->|Hcategory]; [reflexivity|]).
    now apply elem_of_nil in Hcategory. }
  unfold validateMetadata, toPartial. cbn [p_circular_id p_date p_category from_option default].
  rewrite Hcircular, Hnamed. cbn [negb].
  rewrite (bool_decide_eq_true_2 (is_Some (Some (doc_date d)))) by eauto. cbn [negb].
  now rewrite (bool_decide_eq_true_2 _ Hcategory).
Qed.

(** *** Concrete collaborators *)

(** The document of the ingestion test. *)
Definition sampleDocument : SEBIDocument :=
  {| doc_id := "doc-001"; circular_id := "SEBI/HO/IMD/2024/001";
     doc_title := "Sample Circular"; doc_date := Some 1704067200000%Z;
     category := "mutual_funds";
     doc_content := "This is a sample SEBI circular content. It contains multiple sentences to ensure chunking works as expected.";
     doc_url := "https://www.sebi.gov.in/circulars/sample";
     doc_chapter := None; doc_section := None; doc_metadata := [] |}.

(** Collaborators that all succeed: the parser returns [sampleDocument], the
    embedder returns every chunk with a vector of 3072 numbers, the store
    accepts them. *)
Definition sampleDeps : Dependencies :=
  {| initializeCollection := inr tt;
     readFile := fun _ => inr "PDF";
     parser := fun _ => inr sampleDocument;
     embedChunks := fun chunks =>
       inr (map (fun c => {| chunk_id := chunk_id c; document_id := document_id c;
                             chunk_index := chunk_index c; content := content c;
                             tokens := tokens c;
                             section_hierarchy := section_hierarchy c;
                             embedding := Some (replicate 3072 1%Q);
                             chunk_metadata := None |}) chunks);
     upsertChunks := fun chunks _ => inr (length chunks);
     resolve := fun _ path => "/tmp/" +:+ path;
     elapsed := fun _ => 1%Z |}.

Definition sampleConfig : IngestionConfig :=
  {| sourcePath := Some "/tmp"; chunkOptions := None |}.

(** Overrides that blank the circular identifier. *)
Definition blankCircular : PartialDocument :=
  {| p_id := None; p_circular_id := Some ""; p_title := None; p_date := None;
     p_category := None; p_content := None; p_url := None; p_chapter := None;
     p_section := None; p_metadata := None |}.

(** The schemas of the code, with the URL test of the sample runs. *)
Definition sampleSchemas : Schemas := zodSchemas QdrantFacts.httpsUrl.

(** C3, as the code has it.  In every run of [ingestPDF] the chunks are
    embedded and upserted only after the merged document has passed the
    schema and [validateMetadata]; and when the collection is ready and the
    file is read and parsed, a document that fails either check ends the run
    with that error after the events of the preamble only: the call of
    [QdrantManager.initializeCollection], which reaches the vector store, the
    log line, the file read and the parse.  So a validation error precedes
    every embedding-provider call and every upsert, but not the vector-store
    calls of [initializeCollection].  Under the schemas of the code the
    error is always the [ZodError] of [mergeMetadata]: a merged document
    that has passed [SEBIDocumentSchema] has a circular identifier, a date
    and a category of the enumeration, and passes [validateMetadata]. *)
Theorem validation_precedes_embedding_and_upsert
  countTokens schemas deps config pdfPath metadata w :
  (exists added,
      trace (snd (ingestPDF countTokens schemas deps config pdfPath metadata w))
      = trace w ++ added
      /\ (existsb isEmbedOrUpsert added = true ->
          exists merged, validated schemas deps config pdfPath metadata merged))
  /\ (forall buffer document e,
         initializeCollection deps = inr tt ->
         readFile deps (resolve deps (sourcePath config) pdfPath) = inr buffer ->
         parser deps buffer = inr document ->
         rbind (mergeMetadata schemas document metadata)
               (fun merged => validateMetadata (Some (toPartial merged))) = inl e ->
         fst (ingestPDF countTokens schemas deps config pdfPath metadata w) = inl e
         /\ trace (snd (ingestPDF countTokens schemas deps config pdfPath metadata w))
            = trace w ++ preamble deps config pdfPath buffer
         /\ existsb isEmbedOrUpsert (preamble deps config pdfPath buffer) = false)
  /\ (forall isUrl document merged,
         mergeMetadata (zodSchemas isUrl) document metadata = inr merged ->
         validateMetadata (Some (toPartial merged)) = inr tt).
Proof.
  split; [apply embedding_after_validation|]. split.
  - intros buffer document e Hinit Hread Hparse Hbad.
    destruct (validation_error_stops countTokens schemas deps config pdfPath metadata w
                buffer document e Hinit Hread Hparse Hbad) as [Hres Htrace].
    repeat split; assumption.
  - intros isUrl document merged. unfold mergeMetadata, SEBIDocumentSchema_parse.
    match goal with
    | |- context [documentOk (zodSchemas isUrl) ?d] =>
        destruct (documentOk (zodSchemas isUrl) d) eqn:Hok
    end; [|discriminate].
    intros [= <-]. now apply (validateMetadata_after_schema isUrl).
Qed.

(** The run of the sample collaborators, under the schemas of the code, on
    overrides that blank the circular identifier: [mergeMetadata] throws the
    [ZodError] after the preamble. *)
Lemma validation_precedes_embedding_and_upsert_witness :
  fst (ingestPDF ChunkerFacts.wordTokens sampleSchemas sampleDeps sampleConfig
         "sample.pdf" (Some blankCircular) {| now := 0; trace := [] |})
  = inl (ZodError "SEBIDocument")
  /\ trace (snd (ingestPDF ChunkerFacts.wordTokens sampleSchemas sampleDeps
                   sampleConfig "sample.pdf" (Some blankCircular)
                   {| now := 0; trace := [] |}))
     = [] ++ preamble sampleDeps sampleConfig "sample.pdf" "PDF"
  /\ existsb isEmbedOrUpsert (preamble sampleDeps sampleConfig "sample.pdf" "PDF")
     = false.
Proof.
  apply (proj1 (proj2 (validation_precedes_embedding_and_upsert
                  ChunkerFacts.wordTokens sampleSchemas sampleDeps sampleConfig
                  "sample.pdf" (Some blankCircular) {| now := 0; trace := [] |}))
           "PDF" sampleDocument); reflexivity.
Defined.

(** C3 as stated fails: under the schemas of the code, the run on overrides
    that blank the circular identifier ends with the validation error of
    [mergeMetadata], and has by then called
    [QdrantManager.initializeCollection], a call that reaches the vector
    store. *)
Lemma validation_follows_store_call :
  fst (ingestPDF ChunkerFacts.wordTokens sampleSchemas sampleDeps sampleConfig
         "sample.pdf" (Some blankCircular) {| now := 0; trace := [] |})
  = inl (ZodError "SEBIDocument")
  /\ trace (snd (ingestPDF ChunkerFacts.wordTokens sampleSchemas sampleDeps
                   sampleConfig "sample.pdf" (Some blankCircular)
                   {| now := 0; trace := [] |}))
     = [QdrantInitializeCollection; LogInfo "Ingesting PDF: /tmp/sample.pdf";
        ReadFile "/tmp/sample.pdf"; Parse "PDF"]
  /\ existsb isNetworkCall
       [QdrantInitializeCollection; LogInfo "Ingesting PDF: /tmp/sample.pdf";
        ReadFile "/tmp/sample.pdf"; Parse "PDF"] = true.
Proof. vm_compute. repeat split; reflexivity. Qed.

(** The same collaborators without overrides: the run goes through, and the
    embedding and the upsert come after the preamble. *)
Example ingest_sample_run :
  map isNetworkCall
      (trace (snd (ingestPDF ChunkerFacts.wordTokens sampleSchemas sampleDeps
                     sampleConfig "sample.pdf" None {| now := 0; trace := [] |})))
  = [true; false; false; false; false; true; true; false]
  /\ match fst (ingestPDF ChunkerFacts.wordTokens sampleSchemas sampleDeps
                  sampleConfig "sample.pdf" None {| now := 0; trace := [] |}) with
     | inr summary => Some (chunkCount summary, embeddingCount summary)
     | inl _ => None
     end = Some (1%nat, 1%nat).
Proof. vm_compute. split; reflexivity. Qed.

End IngestFacts.

(* ================================================================== *)
(** * Further properties of the sentence splitter and of the passages *)
(* ================================================================== *)

Module TextFacts.
Import Js Types PdfParser JsFacts ChunkerFacts SectionFacts.

(** The characters of a text that are not white space, in their order. *)
Definition solid (l : list ascii) : list ascii :=
  List.filter (fun c => negb (isSpace c)) l.

Lemma solid_app l1 l2 : solid (l1 ++ l2) = solid l1 ++ solid l2.
Proof. apply List.filter_app. Qed.

Lemma solid_rev l : solid (rev l) = rev (solid l).
Proof.
  induction l as [|x l IH]; [reflexivity|].
  simpl. rewrite solid_app, IH. simpl. destruct (isSpace x); simpl.
  - now rewrite app_nil_r.
  - reflexivity.
Qed.

Lemma solid_dropWhile l : solid (dropWhile isSpace l) = solid l.
Proof.
  induction l as [|x l IH]; [reflexivity|].
  simpl. destruct (isSpace x) eqn:Hx; simpl; [exact IH | now rewrite Hx].
Qed.

Lemma solid_trimChars l : solid (trimChars l) = solid l.
Proof.
  unfold trimChars, trimEndChars, trimStartChars.
  now rewrite solid_rev, solid_dropWhile, <- solid_rev, rev_involutive, solid_dropWhile.
Qed.

Lemma chars_str l : chars (str l) = l.
Proof. apply String.list_ascii_of_string_of_list_ascii. Qed.

Lemma str_chars s : str (chars s) = s.
Proof. apply String.string_of_list_ascii_of_string. Qed.

Lemma chars_app a b : chars (a +:+ b) = chars a ++ chars b.
Proof.
  induction a as [|x a IH]; [reflexivity|].
  rewrite append_cons. unfold chars in *. simpl. now rewrite IH.
Qed.

Lemma truthy_chars s : truthy s = false -> chars s = [].
Proof. destruct s; [reflexivity | discriminate]. Qed.

Lemma solid_pieces skipping prev cur l :
  solid (concat (splitAtBoundaries skipping prev cur l)) = solid (rev cur ++ l).
Proof.
  revert skipping prev cur. induction l as [|c t IH]; intros skipping prev cur.
  - simpl. now rewrite !app_nil_r.
  - cbn [splitAtBoundaries]. destruct (isSpace c) eqn:Hc.
    + assert (Hdrop : solid (rev cur ++ c :: t) = solid (rev cur ++ t)).
      { rewrite !solid_app. simpl. now rewrite Hc. }
      destruct skipping; [now rewrite IH, Hdrop|].
      destruct (isSentenceEnd prev).
      * cbn [concat]. rewrite solid_app, IH, Hdrop. simpl. now rewrite solid_app.
      * rewrite IH. simpl. now rewrite <- app_assoc.
    + rewrite IH. simpl. now rewrite <- app_assoc.
Qed.

Lemma solid_sentences pieces :
  solid (concat (map chars (List.filter truthy (map trim (map str pieces)))))
  = solid (concat pieces).
Proof.
  induction pieces as [|p ps IH]; [reflexivity|].
  cbn [map List.filter concat]. rewrite solid_app, <- IH.
  assert (Hp : solid (chars (trim (str p))) = solid p).
  { unfold trim. now rewrite !chars_str, solid_trimChars. }
  destruct (truthy (trim (str p))) eqn:Ht.
  - cbn [map concat]. now rewrite solid_app, Hp.
  - rewrite <- Hp, (truthy_chars _ Ht). reflexivity.
Qed.

Lemma truthy_not_blank s :
  truthy (trim s) = true -> forallb isSpace (chars s) = false.
Proof.
  intros Ht. destruct (forallb isSpace (chars s)) eqn:Hb; [|reflexivity].
  now rewrite (trim_blank _ Hb) in Ht.
Qed.

Lemma sentences_keep_text_chars text :
  solid (concat (map chars (splitIntoSentences text))) = solid (chars text).
Proof. unfold splitIntoSentences. now rewrite solid_sentences, solid_pieces. Qed.

Lemma sentences_trimmed text :
  Forall (fun s => truthy s = true /\ trim s = s) (splitIntoSentences text).
Proof.
  unfold splitIntoSentences. apply List.Forall_forall. intros s Hs.
  apply List.filter_In in Hs. destruct Hs as [Hin Ht]. split; [exact Ht|].
  apply List.in_map_iff in Hin. destruct Hin as (p & <- & _).
  now apply trim_not_blank, truthy_not_blank.
Qed.

(** X1. [splitIntoSentences] loses nothing but white space: the characters
    of its sentences that are not white space are, in order, those of the
    text; and every sentence is non-empty and has no white space at either
    end (trimming it again changes nothing). *)
Theorem sentences_keep_the_text text :
  solid (concat (map chars (splitIntoSentences text))) = solid (chars text)
  /\ Forall (fun s => truthy s = true /\ trim s = s) (splitIntoSentences text).
Proof. split; [apply sentences_keep_text_chars | apply sentences_trimmed]. Qed.

(** ** The passages of [splitByTokens] *)

Section Passages.

Variable countTokens : string -> nat.

Lemma tokensOf_app xs ys :
  tokensOf countTokens (xs ++ ys)
  = (tokensOf countTokens xs + tokensOf countTokens ys)%Z.
Proof. induction xs as [|x xs IH]; simpl; [reflexivity | rewrite IH; lia]. Qed.

(** The budget of a passage, the [i]-th of [groups]: its sentences fit in
    [maxTokens], or it is one sentence, or it is the seed left by the passage
    before it and one sentence. *)
Definition Fits (maxTokens overlap : Z) (groups : list (list string)) (i : nat)
  (grp : list string) : Prop :=
  (tokensOf countTokens grp <= maxTokens)%Z
  \/ (exists s, grp = [s])
  \/ ((0 < overlap)%Z
      /\ exists j prev s, i = S j /\ groups !! j = Some prev
                          /\ grp = seedOf countTokens overlap prev ++ [s]).

Lemma fits_grow maxTokens overlap groups more i grp :
  Fits maxTokens overlap groups i grp -> Fits maxTokens overlap (groups ++ more) i grp.
Proof.
  intros [H | [H | (Hov & j & prev & s & -> & Hj & ->)]]; [now left | now right; left |].
  right; right. split; [exact Hov|]. exists j, prev, s.
  split; [reflexivity|]. split; [|reflexivity].
  now apply lookup_app_l_Some.
Qed.

(** What the loop of [splitByTokens] keeps, after the sentences [seen]. *)
Record Covers (maxTokens overlap : Z) (seen : list string)
  (g : list (list string) * SplitState) : Prop := mkCovers {
  cv_chunks : chunks (snd g) = map (join " ") (fst g);
  cv_tokens : currentTokens (snd g) = tokensOf countTokens (currentChunk (snd g));
  cv_nonempty : Forall (fun grp => grp <> []) (fst g);
  cv_all : forall s, s ∈ seen ->
      (exists grp, grp ∈ fst g /\ s ∈ grp) \/ s ∈ currentChunk (snd g);
  cv_exact : (overlap <= 0)%Z -> concat (fst g) ++ currentChunk (snd g) = seen;
  cv_closed : forall i grp, fst g !! i = Some grp -> Fits maxTokens overlap (fst g) i grp;
  cv_open : currentChunk (snd g) = []
            \/ Fits maxTokens overlap (fst g) (length (fst g)) (currentChunk (snd g)) }.

Lemma takeOverlap_tokens overlap sentences :
  snd (takeOverlap countTokens overlap (rev sentences) [] 0%Z)
  = tokensOf countTokens (seedOf countTokens overlap sentences).
Proof.
  unfold seedOf.
  destruct (takeOverlap_spec countTokens overlap (rev sentences) [])
    as (taken & rest & _ & Hrun & _).
  simpl in Hrun. now rewrite Hrun.
Qed.

Lemma covers_step maxTokens overlap seen g sentence :
  Covers maxTokens overlap seen g ->
  Covers maxTokens overlap (seen ++ [sentence])
    (groupStep countTokens maxTokens overlap g sentence).
Proof.
  intros [Hch Htok Hne Hall Hexact Hclosed Hopen]. destruct g as [groups st].
  simpl in *. unfold groupStep, splitStep. simpl.
  destruct ((currentTokens st + Z.of_nat (countTokens sentence) >? maxTokens)%Z
            && (0 <? length (currentChunk st))%nat) eqn:Hclose.
  - apply andb_true_iff in Hclose. destruct Hclose as [_ Hlen].
    apply Nat.ltb_lt in Hlen.
    assert (Hcur : currentChunk st <> [])
      by (destruct (currentChunk st); simpl in *; [lia | discriminate]).
    destruct Hopen as [Hopen | Hopen]; [contradiction|].
    assert (Hold : forall i grp, (groups ++ [currentChunk st]) !! i = Some grp ->
                     Fits maxTokens overlap (groups ++ [currentChunk st]) i grp).
    { intros i grp Hi. destruct (decide (i < length groups)%nat) as [Hlt|Hge].
      - rewrite lookup_app_l in Hi by exact Hlt. now apply fits_grow, Hclosed.
      - assert (i = length groups) as ->.
        { apply lookup_lt_Some in Hi. rewrite length_app in Hi. simpl in Hi. lia. }
        rewrite list_lookup_middle in Hi by reflexivity. injection Hi as <-.
        now apply fits_grow. }
    assert (Hseen : forall s, s ∈ seen ->
                      exists grp, grp ∈ groups ++ [currentChunk st] /\ s ∈ grp).
    { intros s Hs. destruct (Hall s Hs) as [(grp & Hg & Hin) | Hin].
      - exists grp. split; [|exact Hin]. apply elem_of_app. now left.
      - exists (currentChunk st). split; [|exact Hin].
        apply elem_of_app. right. now apply list_elem_of_singleton. }
    destruct (overlap >? 0)%Z eqn:Hov; simpl.
    + apply Z.gtb_lt in Hov. split; simpl.
      * now rewrite map_app, Hch.
      * rewrite tokensOf_app, takeOverlap_tokens. unfold seedOf. simpl. lia.
      * apply Forall_app. split; [exact Hne | now repeat constructor].
      * intros s Hs. apply elem_of_app in Hs. destruct Hs as [Hs | Hs].
        -- left. now apply Hseen.
        -- right. apply elem_of_app. now right.
      * intros Hle. lia.
      * exact Hold.
      * right. right; right. split; [exact Hov|].
        exists (length groups), (currentChunk st), sentence.
        split; [rewrite length_app; simpl; lia|].
        split; [now apply list_lookup_middle | reflexivity].
    + split; simpl.
      * now rewrite map_app, Hch.
      * lia.
      * apply Forall_app. split; [exact Hne | now repeat constructor].
      * intros s Hs. apply elem_of_app in Hs. destruct Hs as [Hs | Hs].
        -- left. now apply Hseen.
        -- right. exact Hs.
      * intros Hle. rewrite concat_app. simpl. rewrite app_nil_r.
        now rewrite Hexact.
      * exact Hold.
      * right. right; left. now exists sentence.
  - split; simpl.
    + exact Hch.
    + rewrite tokensOf_app, Htok. simpl. lia.
    + exact Hne.
    + intros s Hs. apply elem_of_app in Hs. destruct Hs as [Hs | Hs].
      * destruct (Hall s Hs) as [H | H]; [now left|].
        right. apply elem_of_app. now left.
      * right. apply elem_of_app. now right.
    + intros Hle. now rewrite app_assoc, Hexact.
    + exact Hclosed.
    + right. destruct (currentChunk st) as [|x cur] eqn:Ecur.
      * right; left. now exists sentence.
      * left. rewrite tokensOf_app. simpl in *.
        apply andb_false_iff in Hclose. destruct Hclose as [Hc | Hc].
        -- rewrite Z.gtb_ltb in Hc. apply Z.ltb_ge in Hc. lia.
        -- discriminate.
Qed.

Lemma covers_loop maxTokens overlap sentences seen g :
  Covers maxTokens overlap seen g ->
  Covers maxTokens overlap (seen ++ sentences)
    (fold_left (groupStep countTokens maxTokens overlap) sentences g).
Proof.
  revert seen g. induction sentences as [|s l IH]; simpl; intros seen g Hg.
  - now rewrite app_nil_r.
  - replace (seen ++ s :: l) with ((seen ++ [s]) ++ l) by now rewrite <- app_assoc.
    apply IH. now apply covers_step.
Qed.

Lemma covers_start maxTokens overlap :
  Covers maxTokens overlap []
    ([], {| chunks := []; currentChunk := []; currentTokens := 0%Z |}).
Proof.
  split; simpl.
  - reflexivity.
  - reflexivity.
  - constructor.
  - intros s Hs. now apply elem_of_nil in Hs.
  - reflexivity.
  - intros i grp Hi. now rewrite lookup_nil in Hi.
  - now left.
Qed.

(** The passages as runs of sentences, for every overlap. *)
Lemma passages_covered text maxTokens overlap :
  splitByTokens countTokens text maxTokens overlap
  = map (join " ") (passageSentences countTokens text maxTokens overlap)
  /\ Forall (fun grp => grp <> []) (passageSentences countTokens text maxTokens overlap)
  /\ (forall s, s ∈ splitIntoSentences text ->
        exists grp, grp ∈ passageSentences countTokens text maxTokens overlap /\ s ∈ grp)
  /\ ((overlap <= 0)%Z ->
      concat (passageSentences countTokens text maxTokens overlap)
      = splitIntoSentences text)
  /\ (forall i grp,
        passageSentences countTokens text maxTokens overlap !! i = Some grp ->
        Fits maxTokens overlap
          (passageSentences countTokens text maxTokens overlap) i grp).
Proof.
  pose proof (covers_loop maxTokens overlap (splitIntoSentences text) [] _
                (covers_start maxTokens overlap))
    as [Hch Htok Hne Hall Hexact Hclosed Hopen].
  simpl in Hall, Hexact.
  unfold splitByTokens, splitFinish, passageSentences.
  pose proof (groupStep_snd countTokens maxTokens overlap (splitIntoSentences text)
                ([], {| chunks := []; currentChunk := []; currentTokens := 0%Z |}))
    as Hsnd.
  simpl in Hsnd. rewrite <- Hsnd. clear Hsnd.
  set (g := fold_left _ _ _) in *.
  destruct (0 <? length (currentChunk (snd g)))%nat eqn:Hlen.
  - apply Nat.ltb_lt in Hlen.
    assert (Hcur : currentChunk (snd g) <> [])
      by (destruct (currentChunk (snd g)); simpl in *; [lia | discriminate]).
    destruct Hopen as [Hopen | Hopen]; [contradiction|].
    repeat split.
    + now rewrite map_app, Hch.
    + apply Forall_app. split; [exact Hne | now repeat constructor].
    + intros s Hs. destruct (Hall s Hs) as [(grp & Hg & Hin) | Hin].
      * exists grp. split; [|exact Hin]. apply elem_of_app. now left.
      * exists (currentChunk (snd g)). split; [|exact Hin].
        apply elem_of_app. right. now apply list_elem_of_singleton.
    + intros Hle. rewrite concat_app. simpl. rewrite app_nil_r. now apply Hexact.
    + intros i grp Hi. destruct (decide (i < length (fst g))%nat) as [Hlt|Hge].
      * rewrite lookup_app_l in Hi by exact Hlt. now apply fits_grow, Hclosed.
      * assert (i = length (fst g)) as ->.
        { apply lookup_lt_Some in Hi. rewrite length_app in Hi. simpl in Hi. lia. }
        rewrite list_lookup_middle in Hi by reflexivity. injection Hi as <-.
        now apply fits_grow.
  - apply Nat.ltb_ge in Hlen.
    assert (Hcur : currentChunk (snd g) = [])
      by (destruct (currentChunk (snd g)); simpl in *; [reflexivity | lia]).
    repeat split.
    + exact Hch.
    + exact Hne.
    + intros s Hs. destruct (Hall s Hs) as [H | Hin]; [exact H|].
      rewrite Hcur in Hin. now apply elem_of_nil in Hin.
    + intros Hle. rewrite <- (Hexact Hle), Hcur. now rewrite app_nil_r.
    + exact Hclosed.
Qed.

End Passages.

Lemma solid_join grp :
  solid (chars (join " " grp)) = solid (concat (map chars grp)).
Proof.
  induction grp as [|x grp IH]; [reflexivity|].
  destruct grp as [|y grp].
  - simpl. now rewrite app_nil_r.
  - change (join " " (x :: y :: grp)) with (x +:+ " " +:+ join " " (y :: grp)).
    rewrite !chars_app, !solid_app, IH.
    change (map chars (x :: y :: grp)) with (chars x :: map chars (y :: grp)).
    cbn [concat]. now rewrite solid_app.
Qed.

Lemma solid_joined groups :
  solid (concat (map chars (map (join " ") groups)))
  = solid (concat (map chars (concat groups))).
Proof.
  induction groups as [|g groups IH]; [reflexivity|].
  cbn [map concat]. rewrite map_app, concat_app, !solid_app, IH.
  now rewrite solid_join.
Qed.

(** X2. [splitByTokens] loses no sentence: every sentence of the text is in
    one of the passages, and no passage is empty.  When the overlap is not
    positive the passages are the sentences of the text cut into consecutive
    runs, so that the characters of the passages that are not white space
    are, in order, those of the text, each once. *)
Theorem passages_cover_the_text countTokens text maxTokens overlap :
  (forall s, s ∈ splitIntoSentences text ->
     exists grp, join " " grp ∈ splitByTokens countTokens text maxTokens overlap
                 /\ s ∈ grp)
  /\ Forall (fun p => truthy p = true) (splitByTokens countTokens text maxTokens overlap)
  /\ ((overlap <= 0)%Z ->
      (exists groups,
          splitByTokens countTokens text maxTokens overlap = map (join " ") groups
          /\ concat groups = splitIntoSentences text)
      /\ solid (concat (map chars (splitByTokens countTokens text maxTokens overlap)))
         = solid (chars text)).
Proof.
  destruct (passages_covered countTokens text maxTokens overlap)
    as (Hsplit & Hne & Hall & Hexact & _).
  split; [|split].
  - intros s Hs. destruct (Hall s Hs) as (grp & Hg & Hin).
    exists grp. split; [|exact Hin]. rewrite Hsplit. now apply list_elem_of_fmap_2.
  - rewrite Hsplit. apply Forall_fmap.
    pose proof (passages_Forall countTokens _ text maxTokens overlap
                  (splitIntoSentences_truthy text)) as Htruthy.
    rewrite Forall_forall in Hne, Htruthy. apply Forall_forall. intros grp Hg.
    apply join_truthy; [now apply Hne | now apply Htruthy].
  - intros Hle. split.
    + eexists. split; [exact Hsplit | now apply Hexact].
    + rewrite Hsplit, solid_joined, (Hexact Hle).
      apply sentences_keep_text_chars.
Qed.

(** X3. The budget of the passages of [splitByTokens].  The passages are
    runs of sentences of the text joined by a space: none is empty, every
    sentence of a run is a sentence of the text, and without overlap the runs
    put end to end are the sentences of the text.  The token counts of the
    sentences of a run add up to at most [maxTokens], unless the run is a
    single sentence, or (with a positive overlap) the seed taken from the run
    before it followed by a single sentence. *)
Theorem passage_within_budget countTokens text maxTokens overlap :
  exists groups : list (list string),
    splitByTokens countTokens text maxTokens overlap = map (join " ") groups
    /\ Forall (fun grp =>
                 grp <> [] /\ Forall (fun s => s ∈ splitIntoSentences text) grp)
         groups
    /\ ((overlap <= 0)%Z -> concat groups = splitIntoSentences text)
    /\ forall i grp,
        groups !! i = Some grp ->
        (tokensOf countTokens grp <= maxTokens)%Z
        \/ (exists s, s ∈ splitIntoSentences text /\ grp = [s])
        \/ ((0 < overlap)%Z
            /\ exists j prev s,
                i = S j /\ groups !! j = Some prev
                /\ s ∈ splitIntoSentences text
                /\ grp = seedOf countTokens overlap prev ++ [s]).
Proof.
  destruct (passages_covered countTokens text maxTokens overlap)
    as (Hsplit & Hne & _ & Hexact & Hfit).
  pose proof (passages_Forall countTokens (fun s => s ∈ splitIntoSentences text)
                text maxTokens overlap) as Hfrom.
  assert (Hown : Forall (fun s => s ∈ splitIntoSentences text)
                   (splitIntoSentences text)) by now apply Forall_forall.
  specialize (Hfrom Hown).
  exists (passageSentences countTokens text maxTokens overlap).
  split; [exact Hsplit|]. split; [|split; [exact Hexact|]].
  - apply Forall_lookup. intros i grp Hi. split.
    + rewrite Forall_lookup in Hne. now apply (Hne i).
    + rewrite Forall_lookup in Hfrom. now apply (Hfrom i).
  - intros i grp Hi.
    assert (Hmembers : Forall (fun s => s ∈ splitIntoSentences text) grp).
    { rewrite Forall_lookup in Hfrom. now apply (Hfrom i). }
    destruct (Hfit i grp Hi) as [H | [[s ->] | (Hov & j & prev & s & -> & Hj & ->)]].
    + now left.
    + right; left. exists s. split; [|reflexivity].
      exact (List.Forall_inv Hmembers).
    + right; right. split; [exact Hov|]. exists j, prev, s.
      split; [reflexivity|]. split; [exact Hj|]. split; [|reflexivity].
      apply Forall_app in Hmembers as [_ Hs]. exact (List.Forall_inv Hs).
Qed.

(** A three-sentence text under [wordTokens], with a budget of 4 tokens and
    an overlap of 1: each passage after the first is the seed and one
    sentence. *)
Example passages_of_three_sentences :
  splitByTokens wordTokens "aa bb cc. dd ee ff. gg hh ii." 4 1
  = ["aa bb cc."; "aa bb cc. dd ee ff."; "dd ee ff. gg hh ii."].
Proof. reflexivity. Qed.

End TextFacts.

(* ================================================================== *)
(** * Further properties of the section extractor *)
(* ================================================================== *)

Module HeadingFacts.
Import Js Types PdfParser JsFacts ChunkerFacts SectionFacts TextFacts.

(** A trimmed line that one of the three patterns of [extractSections] takes
    for a heading. *)
Definition isHeading (line : string) : bool :=
  bool_decide (is_Some (chapterMatch line))
  || bool_decide (is_Some (if startsWithTriple line then None else sectionMatch line))
  || bool_decide (is_Some (subSectionMatch line)).

(** The state before the first line. *)
Definition emptyState : ExtractState :=
  {| store := []; sections := []; currentChapter := None;
     currentSection := None; currentSubSection := None; contentBuffer := [] |}.

(** What [extractSections] returns from the state after the last line. *)
Definition finish (st : ExtractState) : list DocSection :=
  let st' := flushContent st in
  omap (reify (S (length (store st'))) (store st')) (sections st').

Lemma extractSections_finish text :
  extractSections text = finish (fold_left extractLine (splitOn LF text) emptyState).
Proof. reflexivity. Qed.

(** No heading seen yet: no section object, no cursor. *)
Record Blank (st : ExtractState) : Prop := mkBlank {
  bl_store : store st = [];
  bl_sections : sections st = [];
  bl_chapter : currentChapter st = None;
  bl_section : currentSection st = None;
  bl_sub : currentSubSection st = None;
  bl_buffer : Forall (fun l => forallb isSpace (chars l) = false) (contentBuffer st) }.

Lemma blank_empty : Blank emptyState.
Proof. split; simpl; auto. Qed.

Lemma join_not_blank sep x xs :
  forallb isSpace (chars x) = false ->
  forallb isSpace (chars (join sep (x :: xs))) = false.
Proof.
  intros Hx. destruct xs as [|y xs]; [exact Hx|].
  change (join sep (x :: y :: xs)) with (x +:+ sep +:+ join sep (y :: xs)).
  rewrite chars_app, forallb_app, Hx. reflexivity.
Qed.

(** Before the first heading [flushContent] only empties the buffer. *)
Lemma flushContent_blank st : Blank st -> flushContent st = emptyState.
Proof.
  intros [Hs Hsec H1 H2 H3 Hbuf]. unfold flushContent.
  destruct st as [h secs c1 c2 c3 buf]. simpl in *. subst.
  destruct buf as [|x xs]; [reflexivity|].
  inversion Hbuf as [|? ? Hx _]; subst.
  pose proof (join_not_blank "
" x xs Hx) as Hj.
  destruct (trim_not_blank _ Hj) as [Ht _]. now rewrite Ht.
Qed.

Lemma isHeading_false line :
  isHeading line = false ->
  chapterMatch line = None
  /\ (if startsWithTriple line then None else sectionMatch line) = None
  /\ subSectionMatch line = None.
Proof.
  unfold isHeading. intros H.
  apply orb_false_iff in H. destruct H as [H H3].
  apply orb_false_iff in H. destruct H as [H1 H2].
  apply bool_decide_eq_false in H1, H2, H3.
  repeat split; match goal with |- ?x = None => destruct x; [|reflexivity] end;
    exfalso; eauto.
Qed.

(** A line that is no heading only feeds the buffer. *)
Lemma extractLine_plain st line :
  isHeading (trim line) = false ->
  extractLine st line
  = if truthy (trim line)
    then withStore st (store st) (contentBuffer st ++ [trim line])
    else st.
Proof.
  intros H. destruct (isHeading_false _ H) as (H1 & H2 & H3).
  unfold extractLine. now rewrite H1, H2, H3.
Qed.

Lemma extractLine_plain_blank st line :
  isHeading (trim line) = false -> Blank st -> Blank (extractLine st line).
Proof.
  intros H Hst. rewrite extractLine_plain by exact H.
  destruct (truthy (trim line)) eqn:Ht; [|exact Hst].
  destruct Hst as [Hs Hsec H1 H2 H3 Hbuf]. split; simpl; auto.
  apply Forall_app. split; [exact Hbuf|]. repeat constructor.
  destruct (forallb isSpace (chars (trim line))) eqn:Hb; [|reflexivity].
  pose proof (truthy_not_blank line Ht) as Hline.
  destruct (trim_not_blank _ Hline) as [_ Hidem].
  pose proof (trim_blank _ Hb) as H0. rewrite Hidem in H0.
  now rewrite H0 in Ht.
Qed.

(** A heading reads the state through [flushContent] only. *)
Lemma extractLine_heading st st' line :
  isHeading (trim line) = true ->
  flushContent st = flushContent st' ->
  extractLine st line = extractLine st' line.
Proof.
  intros H Hflush. unfold extractLine.
  destruct (chapterMatch (trim line)) as [m|] eqn:H1; [now rewrite Hflush|].
  destruct (if startsWithTriple (trim line) then None else sectionMatch (trim line))
    as [m|] eqn:H2; [now rewrite Hflush|].
  destruct (subSectionMatch (trim line)) as [m|] eqn:H3; [now rewrite Hflush|].
  unfold isHeading in H. rewrite H1, H2, H3 in H.
  rewrite !bool_decide_eq_false_2 in H by (intros [? ?]; discriminate).
  discriminate.
Qed.

(** The first heading opens the first top-level section. *)
Lemma extractLine_first_heading st line :
  isHeading (trim line) = true -> Blank st ->
  sections (extractLine st line) = [0%nat].
Proof.
  intros H Hst.
  rewrite (extractLine_heading st emptyState line H)
    by (now rewrite !flushContent_blank by (exact Hst || exact blank_empty)).
  unfold extractLine.
  destruct (chapterMatch (trim line)) as [m|] eqn:H1; [reflexivity|].
  destruct (if startsWithTriple (trim line) then None else sectionMatch (trim line))
    as [m|] eqn:H2; [reflexivity|].
  destruct (subSectionMatch (trim line)) as [m|] eqn:H3; [reflexivity|].
  unfold isHeading in H. rewrite H1, H2, H3 in H.
  rewrite !bool_decide_eq_false_2 in H by (intros [? ?]; discriminate).
  discriminate.
Qed.

Lemma flushContent_sections st : sections (flushContent st) = sections st.
Proof.
  unfold flushContent. destruct (negb _); [reflexivity|].
  destruct (currentSubSection st), (currentSection st), (currentChapter st); reflexivity.
Qed.

(** The result array only grows. *)
Lemma extractLine_sections st line :
  exists more, sections (extractLine st line) = sections st ++ more.
Proof.
  unfold extractLine.
  destruct (chapterMatch (trim line)) as [m|].
  { simpl. rewrite flushContent_sections. eauto. }
  destruct (if startsWithTriple (trim line) then None else sectionMatch (trim line))
    as [m|].
  { destruct (currentChapter (flushContent st)); simpl; rewrite flushContent_sections;
      [exists []; now rewrite app_nil_r | eauto]. }
  destruct (subSectionMatch (trim line)) as [m|].
  { destruct (currentSection (flushContent st)), (currentChapter (flushContent st));
      simpl; rewrite flushContent_sections;
      try (exists []; now rewrite app_nil_r); eauto. }
  destruct (truthy (trim line)); simpl; exists []; now rewrite app_nil_r.
Qed.

Lemma sections_stay lines st :
  sections st <> [] -> sections (fold_left extractLine lines st) <> [].
Proof.
  revert st. induction lines as [|l ls IH]; simpl; intros st Hst; [exact Hst|].
  apply IH. destruct (extractLine_sections st l) as [more ->].
  destruct (sections st); [congruence | discriminate].
Qed.

Lemma blank_loop lines st :
  Blank st ->
  Forall (fun line => isHeading (trim line) = false) lines ->
  Blank (fold_left extractLine lines st).
Proof.
  intros Hst Hall. revert st Hst.
  induction Hall as [|l ls Hl _ IH]; simpl; intros st Hst; [exact Hst|].
  apply IH. now apply extractLine_plain_blank.
Qed.

Lemma headed_loop lines st :
  Blank st ->
  sections (fold_left extractLine lines st) = [] ->
  Forall (fun line => isHeading (trim line) = false) lines.
Proof.
  revert st. induction lines as [|l ls IH]; simpl; intros st Hst Hnone; [constructor|].
  destruct (isHeading (trim l)) eqn:Hl.
  - exfalso. apply (sections_stay ls (extractLine st l)); [|exact Hnone].
    now rewrite extractLine_first_heading.
  - constructor; [exact Hl|]. apply (IH (extractLine st l)); [|exact Hnone].
    now apply extractLine_plain_blank.
Qed.

(** The result has one tree for each entry of the result array. *)
Lemma finish_length lines :
  length (finish (fold_left extractLine lines emptyState))
  = length (sections (fold_left extractLine lines emptyState)).
Proof.
  unfold finish.
  set (st := flushContent (fold_left extractLine lines emptyState)).
  assert (Hloop : forall ls s, Sound s -> Sound (fold_left extractLine ls s)).
  { induction ls as [|l ls IH]; simpl; intros s Hs; [exact Hs|].
    apply IH. now apply extractLine_sound. }
  assert (H0 : Sound emptyState).
  { split; simpl; try discriminate; try constructor;
      try (intros r o Hr; now rewrite lookup_nil in Hr). }
  pose proof (flushContent_sound _ (Hloop lines emptyState H0)) as [Hs Hsec _ _ _].
  fold st in Hs, Hsec.
  assert (HF : Forall2 (Represents (store st)) (sections st)
                 (omap (reify (S (length (store st))) (store st)) (sections st))).
  { apply omap_total. eapply Forall_impl; [exact Hsec|].
    intros r Hr. apply reify_represents; [exact Hs | exact Hr | lia]. }
  apply Forall2_length in HF. rewrite <- HF. unfold st.
  now rewrite flushContent_sections.
Qed.

Lemma plain_text_has_no_section text :
  Forall (fun line => isHeading (trim line) = false) (splitOn LF text) ->
  extractSections text = [].
Proof.
  intros Hall. rewrite extractSections_finish.
  apply length_zero_iff_nil. rewrite finish_length.
  now rewrite (bl_sections _ (blank_loop _ _ blank_empty Hall)).
Qed.

(** X4. [extractSections] returns no section exactly when no line of the
    text, trimmed, is a heading (a chapter line, a numbered section line or a
    numbered sub-section line); [chunkDocument] then splits the whole content. *)
Theorem no_section_iff_no_heading text :
  extractSections text = []
  <-> Forall (fun line => isHeading (trim line) = false) (splitOn LF text).
Proof.
  split; [|apply plain_text_has_no_section].
  rewrite extractSections_finish.
  intros Hnone. apply (headed_loop _ emptyState blank_empty).
  apply length_zero_iff_nil. rewrite <- finish_length, Hnone. reflexivity.
Qed.

(** ** Text before the first heading *)

Lemma splitCharsOn_app c cur l1 l2 :
  splitCharsOn c cur (l1 ++ c :: l2) = splitCharsOn c cur l1 ++ splitCharsOn c [] l2.
Proof.
  revert cur. induction l1 as [|x l1 IH]; intros cur; simpl.
  - now rewrite Ascii.eqb_refl.
  - destruct (Ascii.eqb x c); simpl; now rewrite IH.
Qed.

Lemma splitOn_append c a b :
  splitOn c (a +:+ String c b) = splitOn c a ++ splitOn c b.
Proof.
  unfold splitOn. rewrite chars_app.
  change (chars (String c b)) with (c :: chars b).
  now rewrite splitCharsOn_app, map_app.
Qed.

(** Whatever was read before the first heading, the result is the same. *)
Lemma preamble_irrelevant lines st :
  Blank st ->
  finish (fold_left extractLine lines st)
  = finish (fold_left extractLine lines emptyState).
Proof.
  revert st. induction lines as [|l ls IH]; simpl; intros st Hst.
  - unfold finish. now rewrite !flushContent_blank by (exact Hst || exact blank_empty).
  - destruct (isHeading (trim l)) eqn:Hl.
    + rewrite (extractLine_heading st emptyState l Hl)
        by (now rewrite !flushContent_blank by (exact Hst || exact blank_empty)).
      reflexivity.
    + rewrite (IH (extractLine st l)) by now apply extractLine_plain_blank.
      rewrite (IH (extractLine emptyState l))
        by (apply extractLine_plain_blank; [exact Hl | exact blank_empty]).
      reflexivity.
Qed.

(** X5. [extractSections] drops the text that comes before the first
    heading: when no line of [before] is a heading, the sections of [before]
    followed by a line feed and [rest] are the sections of [rest]. *)
Theorem text_before_first_heading_is_dropped before rest :
  Forall (fun line => isHeading (trim line) = false) (splitOn LF before) ->
  extractSections (before +:+ String LF rest) = extractSections rest.
Proof.
  intros Hplain. rewrite !extractSections_finish, splitOn_append, fold_left_app.
  apply preamble_irrelevant. now apply blank_loop; [apply blank_empty|].
Qed.

Lemma text_before_first_heading_is_dropped_witness :
  extractSections ("Preface line" +:+ String LF "Chapter 1: Intro
Body text.")
  = extractSections "Chapter 1: Intro
Body text.".
Proof.
  apply text_before_first_heading_is_dropped.
  change (splitOn LF "Preface line") with ["Preface line"].
  constructor; [reflexivity | constructor].
Defined.

(** A number followed by a no-break space is a heading, as under [\s]. *)
Example heading_after_no_break_space :
  isHeading ("1.1" +:+ String NBSP "Background") = true
  /\ length (extractSections ("1.1" +:+ String NBSP "Background")) = 1%nat.
Proof. split; reflexivity. Qed.

End HeadingFacts.

(* ================================================================== *)
(** * Further properties of the chunker and of the classifier *)
(* ================================================================== *)

Module PassageFacts.
Import Js Types PdfParser JsFacts ChunkerFacts SectionFacts TextFacts HeadingFacts.

Section Contents.

Variable countTokens : string -> nat.
Variable schemas : Schemas.
Variable document : SEBIDocument.

(** A loop keeps what its body keeps on the elements of the list. *)
Lemma forEach_keeps_on {A B} (I : B -> Prop) (body : B -> A -> result B) l :
  (forall st x st', x ∈ l -> I st -> body st x = inr st' -> I st') ->
  forall st st', I st -> forEach body l st = inr st' -> I st'.
Proof.
  induction l as [|x l IH]; simpl; intros Hbody st st' Hst Hrun.
  - congruence.
  - destruct (body st x) as [e|st1] eqn:Hx; simpl in Hrun; [discriminate|].
    apply (IH (fun s y s' Hy => Hbody s y s' (list_elem_of_further _ _ _ Hy)) st1 st');
      [|exact Hrun].
    eapply Hbody; [apply list_elem_of_here | exact Hst | exact Hx].
Qed.

(** What every chunk built by [pushChunk] from a text that is not empty has,
    with [flat] telling whether the hierarchy is empty. *)
Definition Filled (flat : bool) (c : SEBIChunk) : Prop :=
  truthy (content c) = true /\ embedding c = None /\ chunk_metadata c = None
  /\ (section_hierarchy c = [] <-> flat = true).

Lemma pushChunk_filled flat text n hierarchy st st' :
  truthy text = true -> (hierarchy = [] <-> flat = true) ->
  Forall (Filled flat) (emitted st) ->
  pushChunk schemas document text n hierarchy st = inr st' ->
  Forall (Filled flat) (emitted st').
Proof.
  intros Ht Hh Hst. unfold pushChunk, SEBIChunkSchema_parse.
  destruct (chunkOk schemas _); simpl; [|discriminate].
  intros [= <-]. simpl. apply Forall_app. split; [exact Hst|].
  repeat constructor; simpl; try exact Ht; apply Hh.
Qed.

Lemma passages_truthy text maxTokens overlap :
  Forall (fun p => truthy p = true) (splitByTokens countTokens text maxTokens overlap).
Proof.
  destruct (passages_covered countTokens text maxTokens overlap) as (Hsplit & Hne & _).
  rewrite Hsplit. apply Forall_fmap.
  pose proof (passages_Forall countTokens _ text maxTokens overlap
                (splitIntoSentences_truthy text)) as Htruthy.
  rewrite Forall_forall in Hne, Htruthy. apply Forall_forall. intros grp Hg.
  apply join_truthy; [now apply Hne | now apply Htruthy].
Qed.

(** The blocks of [flattenSections] have a text and a path. *)
Definition Block (b : ContentBlock) : Prop :=
  truthy (block_content b) = true /\ block_hierarchy b <> [].

Lemma flattenSection_blocks section :
  forall path, Forall Block (flattenSection path section).
Proof.
  revert section.
  refine (fix IH (section : DocSection) : _ :=
            match section with
            | mkSection id title body level children => _
            end).
  intros path. cbn [flattenSection]. apply Forall_app. split.
  - destruct (truthy body) eqn:Hb; [|constructor].
    repeat constructor; [exact Hb|]. simpl. now destruct path.
  - destruct (0 <? length children)%nat; [|constructor].
    induction children as [|child rest IHrest]; [constructor|].
    cbn [flat_map]. apply Forall_app. split; [apply IH | exact IHrest].
Qed.

Lemma flattenSections_blocks sections path :
  Forall Block (flattenSections sections path).
Proof.
  unfold flattenSections. induction sections as [|s l IH]; [constructor|].
  cbn [flat_map]. apply Forall_app. split; [apply flattenSection_blocks | exact IH].
Qed.

Lemma chunkDocument_filled options chunks :
  chunkDocument countTokens schemas document options = inr chunks ->
  Forall (Filled (bool_decide (extractSections (doc_content document) = []))) chunks.
Proof.
  unfold chunkDocument.
  destruct (length (extractSections (doc_content document)) =? 0)%nat eqn:Hlen.
  - apply Nat.eqb_eq, length_zero_iff_nil in Hlen. rewrite Hlen.
    destruct (forEach _ _ _) as [e|st] eqn:Hrun; simpl; [discriminate|].
    intros [= <-].
    eapply (forEach_keeps_on (fun s => Forall (Filled true) (emitted s)));
      [| | exact Hrun]; [|constructor].
    intros s text s' Hin Hs. unfold emitUnstructured.
    destruct (_ && _); [now intros [= <-]|].
    apply pushChunk_filled; [|easy|exact Hs].
    pose proof (passages_truthy (doc_content document)
                  (default 512%Z (maxTokens options))
                  (default 50%Z (overlap options))) as Hp.
    rewrite Forall_forall in Hp. now apply Hp.
  - assert (Hsome : bool_decide (extractSections (doc_content document) = []) = false).
    { apply bool_decide_eq_false. intros H. rewrite H in Hlen. discriminate. }
    rewrite Hsome.
    destruct (forEach _ _ _) as [e|st] eqn:Hrun; simpl; [discriminate|].
    intros [= <-].
    eapply (forEach_keeps_on (fun s => Forall (Filled false) (emitted s)));
      [| | exact Hrun]; [|constructor].
    intros s block s' Hin Hs.
    pose proof (flattenSections_blocks (extractSections (doc_content document)) [])
      as Hblocks.
    rewrite Forall_forall in Hblocks. destruct (Hblocks block Hin) as [Hb Hh].
    unfold emitBlock. destruct (_ <=? _)%Z.
    + destruct (_ || _); [|now intros [= <-]].
      apply pushChunk_filled; [exact Hb | | exact Hs].
      split; [contradiction | discriminate].
    + apply (forEach_keeps_on (fun s0 => Forall (Filled false) (emitted s0)));
        [|exact Hs].
      intros s1 text s1' Hin1 Hs1. unfold emitSplit.
      destruct (_ || _); [|now intros [= <-]].
      apply pushChunk_filled; [| |exact Hs1].
      * pose proof (passages_truthy (block_content block)
                      (default 512%Z (maxTokens options))
                      (default 50%Z (overlap options))) as Hp.
        rewrite Forall_forall in Hp. now apply Hp.
      * split; [contradiction | discriminate].
Qed.

End Contents.

(** X6. Every passage that [chunkDocument] returns has a text that is not
    empty, carries no embedding and no metadata, and has an empty section
    hierarchy exactly when the document has no section. *)
Theorem chunks_are_filled countTokens schemas document options chunks :
  chunkDocument countTokens schemas document options = inr chunks ->
  Forall (fun c =>
            truthy (content c) = true
            /\ embedding c = None /\ chunk_metadata c = None
            /\ (section_hierarchy c = [] <-> extractSections (doc_content document) = []))
    chunks.
Proof.
  intros Hrun. eapply Forall_impl; [apply (chunkDocument_filled _ _ _ _ _ Hrun)|].
  intros c (H1 & H2 & H3 & H4). repeat split; auto.
  - intros H. apply H4 in H. now apply bool_decide_eq_true in H.
  - intros H. apply H4. now apply bool_decide_eq_true.
Qed.

Lemma chunks_are_filled_witness :
  exists chunks,
    chunkDocument wordTokens acceptAll (documentOf structuredText)
      {| maxTokens := Some 512%Z; minTokens := Some 5%Z; overlap := Some 2%Z |}
    = inr chunks
    /\ Forall (fun c =>
                 truthy (content c) = true
                 /\ embedding c = None /\ chunk_metadata c = None
                 /\ (section_hierarchy c = []
                     <-> extractSections (doc_content (documentOf structuredText)) = []))
         chunks.
Proof.
  eexists. split; [reflexivity|].
  apply (chunks_are_filled wordTokens acceptAll (documentOf structuredText)
           {| maxTokens := Some 512%Z; minTokens := Some 5%Z; overlap := Some 2%Z |}).
  reflexivity.
Defined.

(** ** Blank documents *)

Lemma forallb_reversed {A} (p : A -> bool) l :
  forallb p l = true -> forallb p (rev l) = true.
Proof.
  rewrite !forallb_forall. intros H x Hx. apply H. now apply List.in_rev.
Qed.

Lemma splitCharsOn_blank c cur l :
  forallb isSpace cur = true -> forallb isSpace l = true ->
  Forall (fun piece => forallb isSpace piece = true) (splitCharsOn c cur l).
Proof.
  revert cur. induction l as [|x l IH]; simpl; intros cur Hcur Hl.
  - repeat constructor. now apply forallb_reversed.
  - apply andb_true_iff in Hl. destruct Hl as [Hx Hl].
    destruct (Ascii.eqb x c).
    + constructor; [now apply forallb_reversed | now apply IH].
    + apply IH; [simpl; now rewrite Hx | exact Hl].
Qed.

Lemma blank_lines text :
  forallb isSpace (chars text) = true ->
  Forall (fun line => isHeading (trim line) = false) (splitOn LF text).
Proof.
  intros Hb. unfold splitOn. apply Forall_fmap.
  eapply Forall_impl; [apply (splitCharsOn_blank LF [] _ eq_refl Hb)|].
  intros piece Hp. simpl. rewrite trim_blank; [reflexivity|].
  now rewrite chars_str.
Qed.

Lemma blank_sentences text :
  forallb isSpace (chars text) = true -> splitIntoSentences text = [].
Proof.
  intros Hb. pose proof (sentences_keep_text_chars text) as Hsolid.
  pose proof (sentences_trimmed text) as Hall.
  assert (Hnone : solid (chars text) = []).
  { clear -Hb. induction (chars text) as [|c l IH]; [reflexivity|].
    simpl in *. apply andb_true_iff in Hb. destruct Hb as [Hc Hl].
    rewrite Hc. simpl. now apply IH. }
  rewrite Hnone in Hsolid.
  destruct (splitIntoSentences text) as [|s l]; [reflexivity|]. exfalso.
  inversion Hall as [|? ? [Ht Hidem] _]; subst.
  cbn [map concat] in Hsolid. rewrite solid_app in Hsolid.
  apply app_eq_nil in Hsolid. destruct Hsolid as [Hs _].
  destruct (forallb isSpace (chars s)) eqn:Hsb.
  - rewrite (trim_blank _ Hsb) in Hidem. now rewrite <- Hidem in Ht.
  - destruct (trimChars_not_blank _ Hsb) as (x & r & Hx & Hxs & _).
    assert (Hc : chars s = x :: r).
    { rewrite <- Hidem at 1. unfold trim. now rewrite chars_str. }
    rewrite Hc in Hs. simpl in Hs. now rewrite Hxs in Hs.
Qed.

Lemma chunkDocument_blank countTokens schemas document options :
  forallb isSpace (chars (doc_content document)) = true ->
  chunkDocument countTokens schemas document options = inr [].
Proof.
  intros Hb. unfold chunkDocument.
  rewrite (plain_text_has_no_section _ (blank_lines _ Hb)). simpl.
  unfold splitByTokens. now rewrite (blank_sentences _ Hb).
Qed.

(** X7. A document whose content is empty or white space only has no
    passage: [chunkDocument] returns the empty list, whatever the options,
    the tokenizer and the schema. *)
Theorem blank_document_has_no_chunk countTokens schemas document options :
  forallb isSpace (chars (doc_content document)) = true ->
  chunkDocument countTokens schemas document options = inr [].
Proof. apply chunkDocument_blank. Qed.

(** A content of a space, a no-break space and a line feed. *)
Lemma blank_document_has_no_chunk_witness :
  chunkDocument wordTokens (zodSchemas QdrantFacts.httpsUrl)
    (documentOf (String " " (String NBSP (String LF "")))) smallBudget
  = inr [].
Proof. apply blank_document_has_no_chunk. reflexivity. Defined.

(** ** [detectCategory] *)

Lemma startsWithChars_app p l more :
  startsWithChars p l = true -> startsWithChars p (l ++ more) = true.
Proof.
  revert l. induction p as [|x p IH]; intros l H; [reflexivity|].
  destruct l as [|y l]; [discriminate|]. simpl in *.
  apply andb_true_iff in H. destruct H as [-> H]. now apply IH.
Qed.

Lemma includesChars_app needle before l after :
  includesChars needle l = true ->
  includesChars needle (before ++ l ++ after) = true.
Proof.
  intros H. induction before as [|b before IH].
  - simpl. induction l as [|y l IHl].
    + simpl in *. rewrite orb_false_r in H.
      destruct needle; [now destruct after | discriminate].
    + cbn [includesChars] in H. apply orb_true_iff in H. destruct H as [H | H].
      * change ((y :: l) ++ after) with (y :: l ++ after) at 1.
        cbn [includesChars].
        change (y :: l ++ after) with ((y :: l) ++ after).
        now rewrite (startsWithChars_app _ _ _ H).
      * change ((y :: l) ++ after) with (y :: l ++ after).
        cbn [includesChars]. rewrite (IHl H). apply orb_true_r.
  - change ((b :: before) ++ l ++ after) with (b :: before ++ l ++ after).
    cbn [includesChars]. rewrite IH. apply orb_true_r.
Qed.

Lemma toLowerCase_app a b : toLowerCase (a +:+ b) = toLowerCase a +:+ toLowerCase b.
Proof.
  unfold toLowerCase. rewrite chars_app, map_app.
  rewrite <- (str_chars (str (map toLower (chars a)) +:+ str (map toLower (chars b)))).
  now rewrite chars_app, !chars_str.
Qed.

Lemma includes_within s needle before after :
  includes (toLowerCase s) needle = true ->
  includes (toLowerCase (before +:+ s +:+ after)) needle = true.
Proof.
  unfold includes. rewrite !toLowerCase_app, !chars_app.
  apply includesChars_app.
Qed.

Lemma toLower_idem c : toLower (toLower c) = toLower c.
Proof.
  rewrite <- (ascii_nat_embedding c).
  assert (H : nat_of_ascii c < 256) by apply nat_ascii_bounded.
  revert H. generalize (nat_of_ascii c). intros n Hn.
  do 256 (destruct n as [|n]; [reflexivity|]). lia.
Qed.

Lemma toLowerCase_idem s : toLowerCase (toLowerCase s) = toLowerCase s.
Proof.
  unfold toLowerCase. rewrite chars_str, map_map.
  f_equal. apply map_ext. intros c. apply toLower_idem.
Qed.

(** X8. [detectCategory] always answers with a member of the category
    enumeration; it does not depend on the case of the letters; the keyword
    groups are tried in order, so a text that holds [ter] (as in "interest"
    or "registered") is a mutual-funds text whatever else it holds; and a
    mutual-funds text stays one when text is put before or after it. *)
Theorem detectCategory_enumerated text :
  detectCategory text ∈ CATEGORY_KEYS
  /\ detectCategory (toLowerCase text) = detectCategory text
  /\ (includes (toLowerCase text) "ter" = true -> detectCategory text = "mutual_funds")
  /\ (forall before after,
        detectCategory text = "mutual_funds" ->
        detectCategory (before +:+ text +:+ after) = "mutual_funds").
Proof.
  split; [|split; [|split]].
  - unfold detectCategory, CATEGORY_KEYS.
    repeat match goal with |- context [if ?b then _ else _] => destruct b end;
      set_solver.
  - unfold detectCategory. now rewrite toLowerCase_idem.
  - unfold detectCategory. intros ->. now rewrite !orb_true_r.
  - intros before after. unfold detectCategory.
    destruct (includes (toLowerCase text) "mutual fund"
              || includes (toLowerCase text) "amc"
              || includes (toLowerCase text) "ter") eqn:Hfirst.
    + intros _.
      apply orb_true_iff in Hfirst. destruct Hfirst as [Hfirst | H3].
      * apply orb_true_iff in Hfirst. destruct Hfirst as [H1 | H2].
        -- now rewrite (includes_within _ _ before after H1).
        -- rewrite (includes_within _ _ before after H2). now rewrite orb_true_r.
      * rewrite (includes_within _ _ before after H3). now rewrite !orb_true_r.
    + repeat match goal with |- context [if ?b then _ else _] => destruct b end;
        discriminate.
Qed.

Lemma detectCategory_enumerated_witness :
  detectCategory "REIT units: registered holders" ∈ CATEGORY_KEYS
  /\ detectCategory (toLowerCase "REIT units: registered holders")
     = detectCategory "REIT units: registered holders"
  /\ detectCategory "REIT units: registered holders" = "mutual_funds".
Proof.
  destruct (detectCategory_enumerated "REIT units: registered holders")
    as (H1 & H2 & H3 & _).
  split; [exact H1 | split; [exact H2 | apply H3; reflexivity]].
Defined.

End PassageFacts.

(* ================================================================== *)
(** * The cache and the rate limiter of the embedding generator *)
(* ================================================================== *)

Module CacheFacts.
Import Js Types Effect Embedder EmbedderFacts.
Local Open Scope Z_scope.

(** ** The entries of the cache *)

Lemma removeEntry_length key c : (length (removeEntry key c) <= length c)%nat.
Proof. unfold removeEntry. apply List.filter_length_le. Qed.

Lemma removeEntry_head key e c :
  (length (removeEntry key ((key, e) :: c)) <= length c)%nat.
Proof.
  unfold removeEntry. simpl. rewrite String.eqb_refl. simpl.
  apply List.filter_length_le.
Qed.

Lemma removeEntry_keys (P : string -> Prop) key c :
  Forall P (map fst c) -> Forall P (map fst (removeEntry key c)).
Proof.
  unfold removeEntry. induction c as [|[k e] c IH]; simpl; intros H; [constructor|].
  inversion H; subst. destruct (negb (String.eqb k key)); simpl; auto.
Qed.

Lemma removeEntry_lookup key c : lookupEntry key (removeEntry key c) = None.
Proof.
  unfold removeEntry. induction c as [|[k e] c IH]; simpl; [reflexivity|].
  destruct (String.eqb k key) eqn:Hk; simpl; [exact IH | now rewrite Hk].
Qed.

Lemma assignEntry_length key e c :
  length (assignEntry key e c)
  = match lookupEntry key c with
    | Some _ => length c
    | None => S (length c)
    end.
Proof.
  induction c as [|[k e0] c IH]; simpl; [reflexivity|].
  destruct (String.eqb k key); simpl; [reflexivity|].
  rewrite IH. now destruct (lookupEntry key c).
Qed.

Lemma assignEntry_keys (P : string -> Prop) key e c :
  P key -> Forall P (map fst c) -> Forall P (map fst (assignEntry key e c)).
Proof.
  intros Hk. induction c as [|[k e0] c IH]; simpl; intros H.
  - now repeat constructor.
  - inversion H; subst. destruct (String.eqb k key); simpl; constructor; auto.
Qed.

Lemma assignEntry_lookup key e c : lookupEntry key (assignEntry key e c) = Some e.
Proof.
  induction c as [|[k e0] c IH]; simpl.
  - now rewrite String.eqb_refl.
  - destruct (String.eqb k key) eqn:Hk; simpl; now rewrite Hk.
Qed.

#[local] Arguments removeEntry : simpl never.
#[local] Arguments assignEntry : simpl never.
#[local] Arguments lookupEntry : simpl never.

(** ** The capacity of the cache *)

(** The cache holds at most [cacheSize] entries, none under the empty key. *)
Definition CacheBounded (this : Generator) (w : World) : Prop :=
  (length (cache w) <= cacheSize this)%nat
  /\ Forall (fun k => truthy k = true) (map fst (cache w)).

(** [m] keeps [I], whether it returns or throws. *)
Definition keeps (I : World -> Prop) {A} (m : M World A) : Prop :=
  forall w, I w -> I (snd (m w)).

Lemma keeps_ret I {A} (a : A) : keeps I (ret a).
Proof. now intros w. Qed.

Lemma keeps_throw I {A} e : keeps I (@throw World A e).
Proof. now intros w. Qed.

Lemma keeps_gets I {A} (f : World -> A) : keeps I (gets f).
Proof. now intros w. Qed.

Lemma keeps_lift I {A} (r : result A) : keeps I (lift r).
Proof. now intros w. Qed.

Lemma keeps_bind I {A B} (m : M World A) (k : A -> M World B) :
  keeps I m -> (forall a, keeps I (k a)) -> keeps I (bind m k).
Proof.
  intros Hm Hk w Hw. unfold bind. specialize (Hm w Hw).
  destruct (m w) as [[e|a] w1]; simpl in *; [exact Hm | now apply Hk].
Qed.

Lemma keeps_tryCatch I {A} (body : M World A) handler :
  keeps I body -> (forall e, keeps I (handler e)) -> keeps I (tryCatch body handler).
Proof.
  intros Hm Hk w Hw. unfold tryCatch. specialize (Hm w Hw).
  destruct (body w) as [[e|a] w1]; simpl in *; [now apply Hk | exact Hm].
Qed.

Lemma keeps_if I {A} (b : bool) (m1 m2 : M World A) :
  keeps I m1 -> keeps I m2 -> keeps I (if b then m1 else m2).
Proof. now destruct b. Qed.

Lemma keeps_forEachM I {A B} (body : B -> A -> M World B) l :
  (forall b x, keeps I (body b x)) -> forall b, keeps I (forEachM body l b).
Proof.
  intros Hbody. induction l as [|x l IH]; simpl; intros b.
  - apply keeps_ret.
  - apply keeps_bind; [apply Hbody | exact IH].
Qed.

(** ** Runs of a single worker *)

(** [embedBatch(texts, size)] starts at most one worker: the batches have a
    positive size, and either [maxConcurrency] is at most 1 or the texts fit
    into one batch.  Two or more workers interleave at every [await]; their
    runs are outside the model of [runWithConcurrency]. *)
Definition oneWorker (this : Generator) (texts : list string) (size : Z) : Prop :=
  0 < size /\ (maxConcurrency this <= 1 \/ Z.of_nat (length texts) <= size).

Lemma createBatchesFrom_single fuel items size i :
  (length items <= i + size)%nat ->
  (length (createBatchesFrom fuel items size i) <= 1)%nat.
Proof.
  intros Hfit. destruct fuel as [|fuel]; cbn [createBatchesFrom]; [simpl; lia|].
  destruct (i <? length items)%nat; [|simpl; lia].
  destruct fuel as [|fuel]; cbn [createBatchesFrom]; [simpl; lia|].
  destruct (i + size <? length items)%nat eqn:Hlt; [|simpl; lia].
  apply Nat.ltb_lt in Hlt. lia.
Qed.

(** With at most one worker [embedBatch] is within the model. *)
Lemma embedBatch_one_worker cacheKey provider this texts size :
  oneWorker this texts size ->
  exists run, embedBatch cacheKey provider this texts size = Some run.
Proof.
  intros [Hsize Hone]. unfold embedBatch.
  destruct texts as [|text texts]; [now eexists|].
  cbn [length Nat.eqb]. unfold createBatches.
  destruct (size <=? 0) eqn:Hs; [apply Z.leb_le in Hs; lia|].
  unfold runWithConcurrency.
  set (batches := createBatchesFrom _ _ _ _).
  destruct (Z.min (maxConcurrency this) (Z.of_nat (length batches)) <=? 0) eqn:H0;
    [now eexists|].
  destruct (Z.min (maxConcurrency this) (Z.of_nat (length batches)) =? 1) eqn:H1;
    [now eexists|].
  exfalso. apply Z.leb_gt in H0. apply Z.eqb_neq in H1.
  destruct Hone as [Hone|Hone]; [lia|].
  assert (length batches <= 1)%nat; [|lia].
  subst batches. apply createBatchesFrom_single. rewrite length_cons in *. lia.
Qed.

Lemma embedChunks_one_worker cacheKey provider this schemas chunks :
  oneWorker this (map content chunks) (batchSize this) ->
  exists run, embedChunks cacheKey provider this schemas chunks = Some run.
Proof.
  intros Hone. unfold embedChunks. destruct (length chunks =? 0)%nat; [now eexists|].
  destruct (embedBatch_one_worker cacheKey provider this _ _ Hone) as [run ->].
  now eexists.
Qed.

Section Capacity.

Variable cacheKey : string -> string.
Variable provider : Provider.
Variable this : Generator.

Hypothesis capacity : (0 < cacheSize this)%nat.
Hypothesis keyed : forall text, truthy (cacheKey text) = true.

(** A step that leaves the cache alone. *)
Lemma keeps_cache {A} (m : M World A) :
  (forall w, cache (snd (m w)) = cache w) -> keeps (CacheBounded this) m.
Proof. intros H w [H1 H2]. unfold CacheBounded. now rewrite H. Qed.

Lemma keeps_emit e : keeps (CacheBounded this) (emit e).
Proof. now apply keeps_cache. Qed.

Lemma keeps_elapse ms : keeps (CacheBounded this) (elapse ms).
Proof. now apply keeps_cache. Qed.

Lemma keeps_setTimestamps ts : keeps (CacheBounded this) (setTimestamps ts).
Proof. now apply keeps_cache. Qed.

Lemma keeps_delay ms : keeps (CacheBounded this) (delay ms).
Proof.
  unfold delay. apply keeps_if; [apply keeps_ret|].
  apply keeps_bind; [apply keeps_emit | intros; apply keeps_elapse].
Qed.

Lemma keeps_cacheCheck key : keeps (CacheBounded this) (cacheCheck key).
Proof.
  intros w [Hlen Hkeys]. unfold cacheCheck, bind, gets, setCache, modify, ret. simpl.
  destruct (lookupEntry key (cache w)) as [e|]; [|now split].
  destruct (expired (now w) e); [|now split].
  split; simpl.
  - pose proof (removeEntry_length key (cache w)). lia.
  - now apply removeEntry_keys.
Qed.

Lemma keeps_cacheGet key : keeps (CacheBounded this) (cacheGet key).
Proof.
  apply keeps_bind; [apply keeps_emit | intros; apply keeps_cacheCheck].
Qed.

(** [setCacheEntry] makes room before it adds a key. *)
Lemma keeps_setCacheEntry key v :
  truthy key = true -> keeps (CacheBounded this) (setCacheEntry this key v).
Proof.
  intros Hkey w [Hlen Hkeys].
  unfold setCacheEntry, cacheKeys, cacheHas, cacheCheck, cacheDel, cacheSet.
  unfold bind, gets, setCache, emit, modify, ret. simpl.
  rewrite length_map.
  destruct (cacheSize this <=? length (cache w))%nat eqn:Hfull; simpl.
  - destruct (lookupEntry key (cache w)) as [e|] eqn:Hlook; simpl.
    + destruct (expired (now w) e) eqn:Hexp; simpl.
      * (* the entry is expired: it is removed, then the oldest key may go *)
        destruct (map fst (removeEntry key (cache w))) as [|oldest keys'] eqn:Hk; simpl.
        -- split; simpl.
           ++ rewrite assignEntry_length, removeEntry_lookup.
              apply (f_equal (@length string)) in Hk. rewrite length_map in Hk.
              simpl in Hk. lia.
           ++ apply assignEntry_keys; [exact Hkey | now apply removeEntry_keys].
        -- assert (Holdest : truthy oldest = true).
           { pose proof (removeEntry_keys _ key _ Hkeys) as H.
             rewrite Hk in H. now inversion H. }
           rewrite Holdest. simpl. split; simpl.
           ++ rewrite assignEntry_length.
              pose proof (removeEntry_length key (cache w)) as H1.
              destruct (removeEntry key (cache w)) as [|[k0 e0] rest] eqn:Hr;
                [discriminate|].
              simpl in Hk. injection Hk as -> _.
              pose proof (removeEntry_head oldest e0 rest) as H2.
              simpl in H1.
              destruct (lookupEntry key (removeEntry oldest _)); lia.
           ++ apply assignEntry_keys; [exact Hkey|].
              apply removeEntry_keys. now apply removeEntry_keys.
      * split; simpl.
        -- rewrite assignEntry_length, Hlook. exact Hlen.
        -- now apply assignEntry_keys.
    + destruct (map fst (cache w)) as [|oldest keys'] eqn:Hk; simpl.
      * split; simpl.
        -- rewrite assignEntry_length, Hlook.
           apply (f_equal (@length string)) in Hk. rewrite length_map in Hk.
           simpl in Hk. lia.
        -- apply assignEntry_keys; [exact Hkey | now rewrite Hk].
      * assert (Holdest : truthy oldest = true) by now inversion Hkeys.
        rewrite Holdest. simpl. split; simpl.
        -- rewrite assignEntry_length.
           destruct (cache w) as [|[k0 e0] rest] eqn:Hr; [discriminate|].
           simpl in Hk. injection Hk as -> _.
           pose proof (removeEntry_head oldest e0 rest) as H2. simpl in Hlen.
           destruct (lookupEntry key (removeEntry oldest _)); lia.
        -- apply assignEntry_keys; [exact Hkey|].
           apply removeEntry_keys. now rewrite Hk.
  - apply Nat.leb_gt in Hfull. split; simpl.
    + rewrite assignEntry_length. destruct (lookupEntry key (cache w)); lia.
    + now apply assignEntry_keys.
Qed.

Lemma keeps_ensureVectorSize v s : keeps (CacheBounded this) (ensureVectorSize v s).
Proof.
  unfold ensureVectorSize. apply keeps_if; [|apply keeps_ret].
  destruct s; [apply keeps_emit | apply keeps_throw].
Qed.

Lemma keeps_retryLoop {A} (fn : M World A) remaining n last :
  keeps (CacheBounded this) fn -> keeps (CacheBounded this) (retryLoop fn remaining n last).
Proof.
  intros Hfn. revert n last.
  induction remaining as [|r IH]; intros n last; simpl; [apply keeps_throw|].
  apply keeps_tryCatch; [exact Hfn|]. intros e.
  apply keeps_bind; [apply keeps_emit|]. intros _.
  apply keeps_bind; [apply keeps_delay | intros; apply IH].
Qed.

Lemma keeps_enforceRateLimit : keeps (CacheBounded this) (enforceRateLimit this).
Proof.
  unfold enforceRateLimit.
  apply keeps_bind; [apply keeps_gets|]. intros t.
  apply keeps_bind; [apply keeps_gets|]. intros ts0.
  apply keeps_bind; [apply keeps_setTimestamps|]. intros _.
  apply keeps_bind.
  { apply keeps_if; [|apply keeps_ret].
    destruct (dropOld t ts0); [|apply keeps_delay].
    apply keeps_bind; [apply keeps_emit | intros; apply keeps_elapse]. }
  intros _. apply keeps_bind; [apply keeps_gets|]. intros t'.
  apply keeps_bind; [apply keeps_gets | intros; apply keeps_setTimestamps].
Qed.

Lemma keeps_callProvider {A} e (answer : nat -> result A) :
  keeps (CacheBounded this) (callProvider provider e answer).
Proof.
  unfold callProvider.
  apply keeps_bind; [apply keeps_emit|]. intros _.
  apply keeps_bind; [apply keeps_gets|]. intros n.
  apply keeps_bind; [now apply keeps_cache | intros; apply keeps_lift].
Qed.

Lemma keeps_request {A} e (answer : nat -> result A) :
  keeps (CacheBounded this) (executeWithRetry
             (bind (enforceRateLimit this) (fun _ => callProvider provider e answer)) 5).
Proof.
  apply keeps_retryLoop.
  apply keeps_bind; [apply keeps_enforceRateLimit | intros; apply keeps_callProvider].
Qed.

Lemma keeps_embedText text : keeps (CacheBounded this) (embedText cacheKey provider this text).
Proof.
  unfold embedText. apply keeps_if; [apply keeps_throw|].
  apply keeps_bind; [apply keeps_cacheGet|]. intros [v|]; [apply keeps_ret|].
  apply keeps_bind; [apply keeps_request|]. intros v.
  apply keeps_bind; [now apply keeps_setCacheEntry|]. intros _.
  apply keeps_bind; [apply keeps_ensureVectorSize | intros; apply keeps_ret].
Qed.

Lemma keeps_embedTextsChunk texts : keeps (CacheBounded this) (embedTextsChunk cacheKey provider this texts).
Proof.
  unfold embedTextsChunk. apply keeps_bind.
  { apply keeps_forEachM. intros st [index text]. unfold lookupText.
    apply keeps_bind; [apply keeps_cacheGet|]. intros [v|]; apply keeps_ret. }
  intros st. apply keeps_bind; [|intros; apply keeps_ret].
  apply keeps_if; [|apply keeps_ret].
  apply keeps_bind; [apply keeps_request|]. intros fetched.
  apply keeps_forEachM. intros vs [idx v]. unfold storeFetched.
  apply keeps_bind; [apply keeps_ensureVectorSize|]. intros _.
  destruct (uncachedTexts st !! idx); [|apply keeps_throw].
  apply keeps_bind; [now apply keeps_setCacheEntry|]. intros _.
  destruct (uncachedIndices st !! idx); apply keeps_ret.
Qed.

Lemma keeps_embedBatch texts size run :
  embedBatch cacheKey provider this texts size = Some run -> keeps (CacheBounded this) run.
Proof.
  unfold embedBatch. destruct (length texts =? 0)%nat; [intros [= <-]; apply keeps_ret|].
  destruct (createBatches texts size) as [batches|]; [|discriminate].
  unfold runWithConcurrency.
  destruct (Z.min (maxConcurrency this) (Z.of_nat (length batches)) <=? 0).
  { intros [= <-]. apply keeps_bind; [apply keeps_ret | intros; apply keeps_ret]. }
  destruct (Z.min (maxConcurrency this) (Z.of_nat (length batches)) =? 1);
    [|discriminate].
  intros [= <-]. apply keeps_bind; [|intros; apply keeps_ret].
  apply keeps_forEachM. intros st [start items]. unfold batchWorker.
  apply keeps_bind; [apply keeps_embedTextsChunk|]. intros vs.
  apply keeps_bind; [|intros; apply keeps_ret].
  apply keeps_if; [apply keeps_emit | apply keeps_ret].
Qed.

Lemma keeps_embedChunks schemas chunks run :
  embedChunks cacheKey provider this schemas chunks = Some run -> keeps (CacheBounded this) run.
Proof.
  unfold embedChunks. destruct (length chunks =? 0)%nat; [intros [= <-]; apply keeps_ret|].
  destruct (embedBatch cacheKey provider this (map content chunks) (batchSize this))
    as [batch|] eqn:Hb; [|discriminate].
  intros [= <-]. apply keeps_bind; [now apply (keeps_embedBatch _ _ _ Hb)|].
  intros; apply keeps_lift.
Qed.

End Capacity.

(** A key function that never returns the empty string, as an MD5 digest in
    hexadecimal never is. *)
Definition prefixedKey (text : string) : string := "k" +:+ text.

(** A provider that answers every text with a vector of 3072 components. *)
Definition wideProvider : Provider :=
  {| embedQuery := fun _ text => inr (replicate 3072 1%Q);
     embedDocuments := fun _ texts => inr (map (fun _ => replicate 3072 1%Q) texts);
     latency := fun _ => 0 |}.

(** X9. The cache never grows beyond its capacity: when the capacity is
    positive and no key is the empty string, a cache that holds at most
    [cacheSize] entries still does so after [embedText], whether it returns
    or throws, and after every run of [embedBatch] and of [embedChunks] with
    at most one worker, which exists and returns or throws.  Runs with two
    or more workers are not covered. *)
Theorem cache_stays_within_capacity cacheKey provider this schemas w :
  (0 < cacheSize this)%nat ->
  (forall text, truthy (cacheKey text) = true) ->
  CacheBounded this w ->
  (forall text, CacheBounded this (snd (embedText cacheKey provider this text w)))
  /\ (forall texts size,
        oneWorker this texts size ->
        exists run,
          embedBatch cacheKey provider this texts size = Some run
          /\ CacheBounded this (snd (run w)))
  /\ (forall chunks,
        oneWorker this (map content chunks) (batchSize this) ->
        exists run,
          embedChunks cacheKey provider this schemas chunks = Some run
          /\ CacheBounded this (snd (run w))).
Proof.
  intros Hcap Hkey Hw. split; [|split].
  - intros text. now apply keeps_embedText.
  - intros texts size Hone.
    destruct (embedBatch_one_worker cacheKey provider this texts size Hone)
      as [run Hrun].
    exists run. split; [exact Hrun|].
    now apply (keeps_embedBatch cacheKey provider this Hcap Hkey texts size run Hrun).
  - intros chunks Hone.
    destruct (embedChunks_one_worker cacheKey provider this schemas chunks Hone)
      as [run Hrun].
    exists run. split; [exact Hrun|].
    now apply (keeps_embedChunks cacheKey provider this Hcap Hkey schemas chunks run Hrun).
Qed.

(** Two chunks embedded by a generator of the default options, which fit
    into one batch, under the schemas of the code. *)
Lemma cache_stays_within_capacity_witness :
  exists run,
    embedChunks prefixedKey wideProvider defaultGenerator
      (zodSchemas QdrantFacts.httpsUrl)
      [QdrantFacts.sampleChunk "d1" 0 None; QdrantFacts.sampleChunk "d1" 1 None]
    = Some run
    /\ CacheBounded defaultGenerator (snd (run (freshWorld 0))).
Proof.
  refine (proj2 (proj2 (cache_stays_within_capacity prefixedKey wideProvider
                          defaultGenerator (zodSchemas QdrantFacts.httpsUrl)
                          (freshWorld 0) _ _ _))
            [QdrantFacts.sampleChunk "d1" 0 None; QdrantFacts.sampleChunk "d1" 1 None]
            _).
  - simpl. lia.
  - reflexivity.
  - split; [simpl; lia | constructor].
  - split; [reflexivity | right; simpl; lia].
Defined.

(** ** A second call for the same text *)

Section RoundTrip.

Variable cacheKey : string -> string.
Variable provider : Provider.
Variable this : Generator.

Hypothesis ttl : 0 <= stdTTL this.

(** The cache holds [v] under [key], and the entry is live. *)
Definition Cached (key : string) (v : vector) (w : World) : Prop :=
  exists e, lookupEntry key (cache w) = Some (v, e) /\ expired (now w) (v, e) = false.

Lemma fresh_entry_live t v :
  expired t (v, if stdTTL this =? 0 then 0 else t + stdTTL this * 1000) = false.
Proof.
  unfold expired. simpl. destruct (stdTTL this =? 0) eqn:H0; [reflexivity|].
  apply andb_false_iff. right. apply Z.ltb_ge. lia.
Qed.

Lemma setCacheEntry_hit key v w :
  fst (setCacheEntry this key v w) = inr tt
  /\ Cached key v (snd (setCacheEntry this key v w)).
Proof.
  unfold setCacheEntry, cacheKeys, cacheHas, cacheCheck, cacheDel, cacheSet.
  unfold bind, gets, setCache, emit, modify, ret. simpl.
  assert (Hgoal : forall c tr,
             Cached key v {| now := now w;
                          cache := assignEntry key
                                     (v, if stdTTL this =? 0 then 0
                                         else now w + stdTTL this * 1000) c;
                          requestTimestamps := requestTimestamps w;
                          providerCalls := providerCalls w;
                          trace := tr |}).
  { intros c tr. eexists. split; [apply assignEntry_lookup | apply fresh_entry_live]. }
  destruct (cacheSize this <=? length (map fst (cache w)))%nat; simpl.
  - destruct (lookupEntry key (cache w)) as [e|]; simpl.
    + destruct (expired (now w) e); simpl.
      * destruct (map fst (removeEntry key (cache w))) as [|oldest keys']; simpl;
          [now split|].
        destruct (truthy oldest); simpl; now split.
      * now split.
    + destruct (map fst (cache w)) as [|oldest keys']; simpl; [now split|].
      destruct (truthy oldest); simpl; now split.
  - now split.
Qed.

Lemma ensureVectorSize_frame v s w :
  exists tr,
    ensureVectorSize v (Some s) w
    = (inr tt, {| now := now w; cache := cache w;
                  requestTimestamps := requestTimestamps w;
                  providerCalls := providerCalls w; trace := tr |}).
Proof.
  unfold ensureVectorSize. destruct (negb _).
  - eexists. reflexivity.
  - exists (trace w). now destruct w.
Qed.

Lemma cacheGet_hit key w v w0 :
  cacheGet key w = (inr (Some v), w0) -> Cached key v w0.
Proof.
  unfold cacheGet, cacheCheck, bind, gets, setCache, emit, modify, ret. simpl.
  destruct (lookupEntry key (cache w)) as [e|] eqn:Hlook; [|discriminate].
  destruct (expired (now w) e) eqn:Hexp; [discriminate|].
  intros [= <- <-]. exists (snd e). simpl. destruct e. now split.
Qed.

Lemma cacheGet_returns key w : exists r w0, cacheGet key w = (inr r, w0).
Proof.
  unfold cacheGet, cacheCheck, bind, gets, setCache, emit, modify, ret. simpl.
  destruct (lookupEntry key (cache w)) as [e|]; [|eauto].
  destruct (expired (now w) e); eauto.
Qed.

(** After a call that returned [v], the cache holds [v] for the text. *)
Lemma embedText_fills text w v w1 :
  embedText cacheKey provider this text w = (inr v, w1) ->
  truthy (trim text) = true /\ Cached (cacheKey (trim text)) v w1.
Proof.
  unfold embedText. destruct (truthy (trim text)) eqn:Ht; [|discriminate].
  simpl. intros Hrun. split; [reflexivity|]. revert Hrun.
  unfold bind at 1.
  destruct (cacheGet_returns (cacheKey (trim text)) w) as (r & w0 & Hget).
  rewrite Hget. destruct r as [v0|].
  - intros [= <- <-]. now apply (cacheGet_hit _ _ _ _ Hget).
  - unfold bind at 1.
    destruct (executeWithRetry _ 5 w0) as [[e|emb] w2]; [discriminate|].
    unfold bind at 1.
    destruct (setCacheEntry_hit (cacheKey (trim text)) emb w2) as [Hok Hhit].
    destruct (setCacheEntry this (cacheKey (trim text)) emb w2) as [r3 w3].
    simpl in Hok, Hhit. subst r3.
    unfold bind at 1.
    destruct (ensureVectorSize_frame emb (trim text) w3) as [tr ->].
    intros [= <- <-]. exact Hhit.
Qed.

(** A call on a live entry returns it after the lookup alone. *)
Lemma embedText_hits text w v :
  truthy (trim text) = true -> Cached (cacheKey (trim text)) v w ->
  embedText cacheKey provider this text w
  = (inr v, {| now := now w; cache := cache w;
               requestTimestamps := requestTimestamps w;
               providerCalls := providerCalls w;
               trace := trace w ++ [CacheGet (cacheKey (trim text))] |}).
Proof.
  intros Ht (e & Hlook & Hlive). unfold embedText. rewrite Ht. simpl.
  unfold cacheGet, cacheCheck, bind, gets, setCache, emit, modify, ret. simpl.
  now rewrite Hlook, Hlive.
Qed.

End RoundTrip.

(** X10. A text that [embedText] has just embedded is served from the
    cache: when a call returns [v] and the time to live is not negative, the
    same call repeated in the state it left returns [v] again after the
    cache lookup alone, with no wait and no provider call. *)
Theorem embedText_repeated_is_cached cacheKey provider this text w v w1 :
  0 <= stdTTL this ->
  embedText cacheKey provider this text w = (inr v, w1) ->
  embedText cacheKey provider this text w1
  = (inr v, {| now := now w1; cache := cache w1;
               requestTimestamps := requestTimestamps w1;
               providerCalls := providerCalls w1;
               trace := trace w1 ++ [CacheGet (cacheKey (trim text))] |}).
Proof.
  intros Httl Hrun.
  destruct (embedText_fills cacheKey provider this Httl text w v w1 Hrun) as [Ht Hhit].
  now apply embedText_hits.
Qed.

Lemma embedText_repeated_is_cached_witness :
  exists v w1,
    embedText id lengthProvider defaultGenerator " Sample text " (freshWorld 0)
    = (inr v, w1)
    /\ embedText id lengthProvider defaultGenerator " Sample text " w1
       = (inr v, {| now := now w1; cache := cache w1;
                    requestTimestamps := requestTimestamps w1;
                    providerCalls := providerCalls w1;
                    trace := trace w1 ++ [CacheGet "Sample text"] |}).
Proof.
  exists (lengthVector "Sample text"),
         (snd (embedText id lengthProvider defaultGenerator " Sample text " (freshWorld 0))).
  split; [vm_compute; reflexivity|].
  apply (embedText_repeated_is_cached id lengthProvider defaultGenerator
           " Sample text " (freshWorld 0)); [simpl; lia | vm_compute; reflexivity].
Defined.

(** ** The rate limiter *)

(** The requests recorded in the minute before [t]. *)
Definition recent (t : Z) (ts : list Z) : list Z :=
  List.filter (fun t0 => t - t0 <=? ONE_MINUTE_MS) ts.

Fixpoint ascending (ts : list Z) : Prop :=
  match ts with
  | [] => True
  | t0 :: rest => Forall (Z.le t0) rest /\ ascending rest
  end.

(** The window of the limiter: the recorded times go up, none is in the
    future, and at most [rateLimitPerMinute] of them are in the last minute. *)
Record Window (this : Generator) (w : World) : Prop := mkWindow {
  wd_ascending : ascending (requestTimestamps w);
  wd_past : Forall (fun t0 => t0 <= now w) (requestTimestamps w);
  wd_rate : Z.of_nat (length (recent (now w) (requestTimestamps w)))
            <= rateLimitPerMinute this }.

Lemma recent_length t ts : (length (recent t ts) <= length ts)%nat.
Proof. apply List.filter_length_le. Qed.

Lemma recent_later t d ts :
  0 <= d -> (length (recent (t + d) ts) <= length (recent t ts))%nat.
Proof.
  intros Hd. unfold recent. induction ts as [|x ts IH]; simpl; [lia|].
  destruct (t + d - x <=? ONE_MINUTE_MS) eqn:H1.
  - apply Z.leb_le in H1. replace (t - x <=? ONE_MINUTE_MS) with true
      by (symmetry; apply Z.leb_le; lia).
    simpl. lia.
  - destruct (t - x <=? ONE_MINUTE_MS); simpl; lia.
Qed.

Lemma recent_all t ts :
  Forall (fun t0 => t - t0 <= ONE_MINUTE_MS) ts -> recent t ts = ts.
Proof.
  unfold recent. induction 1 as [|x ts Hx _ IH]; simpl; [reflexivity|].
  replace (t - x <=? ONE_MINUTE_MS) with true by (symmetry; now apply Z.leb_le).
  now rewrite IH.
Qed.

(** On times that go up, the pruning loop keeps the requests of the last
    minute. *)
Lemma dropOld_recent t ts : ascending ts -> dropOld t ts = recent t ts.
Proof.
  unfold dropOld, recent. induction ts as [|x ts IH]; simpl; [reflexivity|].
  intros [Hx Hts]. rewrite Z.gtb_ltb.
  destruct (ONE_MINUTE_MS <? t - x) eqn:H1.
  - apply Z.ltb_lt in H1.
    replace (t - x <=? ONE_MINUTE_MS) with false by (symmetry; apply Z.leb_gt; lia).
    now apply IH.
  - apply Z.ltb_ge in H1.
    replace (t - x <=? ONE_MINUTE_MS) with true by (symmetry; now apply Z.leb_le).
    f_equal. symmetry. apply (recent_all t ts).
    eapply Forall_impl; [exact Hx|]. simpl. intros y Hy. lia.
Qed.

Lemma recent_within t ts : Forall (fun t0 => t - t0 <= ONE_MINUTE_MS) (recent t ts).
Proof.
  unfold recent. apply List.Forall_forall. intros x Hx.
  apply List.filter_In in Hx. destruct Hx as [_ Hx]. now apply Z.leb_le.
Qed.

Lemma recent_ascending t ts : ascending ts -> ascending (recent t ts).
Proof.
  unfold recent. induction ts as [|x ts IH]; simpl; [auto|].
  intros [Hx Hts]. destruct (t - x <=? ONE_MINUTE_MS); simpl; [|auto].
  split; [|auto]. apply List.Forall_forall. intros y Hy.
  apply List.filter_In in Hy. destruct Hy as [Hy _].
  rewrite List.Forall_forall in Hx. now apply Hx.
Qed.

Lemma recent_past (P : Z -> Prop) t ts : Forall P ts -> Forall P (recent t ts).
Proof.
  unfold recent. intros H. apply List.Forall_forall. intros x Hx.
  apply List.filter_In in Hx. destruct Hx as [Hx _].
  rewrite List.Forall_forall in H. now apply H.
Qed.

Lemma ascending_snoc ts t :
  ascending ts -> Forall (fun t0 => t0 <= t) ts -> ascending (ts ++ [t]).
Proof.
  induction ts as [|x ts IH]; simpl; intros Hts Hle; [auto|].
  destruct Hts as [Hx Hts]. inversion Hle; subst.
  split; [|auto]. apply Forall_app. split; [exact Hx | now repeat constructor].
Qed.

Lemma recent_snoc t ts :
  recent t (ts ++ [t]) = recent t ts ++ [t].
Proof.
  unfold recent. rewrite List.filter_app. simpl.
  replace (t - t <=? ONE_MINUTE_MS) with true
    by (symmetry; apply Z.leb_le; unfold ONE_MINUTE_MS; lia).
  reflexivity.
Qed.

(** Time passing keeps the window. *)
Lemma window_later this w d tr c n :
  0 <= d -> Window this w ->
  Window this {| now := now w + d; cache := c;
                 requestTimestamps := requestTimestamps w;
                 providerCalls := n; trace := tr |}.
Proof.
  intros Hd [Hasc Hpast Hrate]. split; simpl.
  - exact Hasc.
  - eapply Forall_impl; [exact Hpast|]. simpl. intros; lia.
  - pose proof (recent_later (now w) d (requestTimestamps w) Hd). lia.
Qed.

Section Limiter.

Variable this : Generator.
Hypothesis limit : 0 < rateLimitPerMinute this.

(** One pass through the limiter. *)
Lemma enforceRateLimit_window w :
  Window this w ->
  fst (enforceRateLimit this w) = inr tt
  /\ Window this (snd (enforceRateLimit this w))
  /\ now w <= now (snd (enforceRateLimit this w)) <= now w + ONE_MINUTE_MS + 5
  /\ requestTimestamps (snd (enforceRateLimit this w))
     = recent (now w) (requestTimestamps w) ++ [now (snd (enforceRateLimit this w))]
  /\ cache (snd (enforceRateLimit this w)) = cache w
  /\ providerCalls (snd (enforceRateLimit this w)) = providerCalls w.
Proof.
  intros [Hasc Hpast Hrate].
  unfold enforceRateLimit, bind, gets, setTimestamps, modify, ret. simpl.
  rewrite (dropOld_recent _ _ Hasc).
  set (ts := recent (now w) (requestTimestamps w)) in *.
  assert (Hts_asc : ascending ts) by now apply recent_ascending.
  assert (Hts_past : Forall (fun t0 => t0 <= now w) ts) by now apply recent_past.
  assert (Hts_in : Forall (fun t0 => now w - t0 <= ONE_MINUTE_MS) ts)
    by apply recent_within.
  destruct (rateLimitPerMinute this <=? Z.of_nat (length ts)) eqn:Hfull; simpl.
  - apply Z.leb_le in Hfull.
    destruct ts as [|t0 rest] eqn:Ets; [simpl in Hfull; lia|].
    inversion Hts_past as [|? ? Ht0 Hrest]; subst.
    inversion Hts_in as [|? ? Hin0 _]; subst.
    unfold delay.
    replace (ONE_MINUTE_MS - (now w - t0) + 5 <=? 0) with false
      by (symmetry; apply Z.leb_gt; lia).
    unfold bind, emit, elapse, modify. simpl.
    split; [reflexivity|]. split; [|split; [unfold ONE_MINUTE_MS in *; lia|auto]].
    split; simpl.
    + split.
      * apply Forall_app. destruct Hts_asc as [H0 _]. split; [exact H0|].
        repeat constructor. lia.
      * apply ascending_snoc; [now destruct Hts_asc|].
        eapply Forall_impl; [exact Hrest|]. simpl. intros; lia.
    + constructor; [lia|]. apply Forall_app. split.
      * eapply Forall_impl; [exact Hrest|]. simpl. intros; lia.
      * repeat constructor. lia.
    + replace (now w + (ONE_MINUTE_MS - (now w - t0) + 5) - t0 <=? ONE_MINUTE_MS)
        with false by (symmetry; apply Z.leb_gt; lia).
      rewrite recent_snoc, length_app. simpl.
      pose proof (recent_length (now w + (ONE_MINUTE_MS - (now w - t0) + 5)) rest).
      simpl in Hrate. lia.
  - apply Z.leb_gt in Hfull.
    split; [reflexivity|]. split; [|split; [unfold ONE_MINUTE_MS; lia|auto]].
    split; simpl.
    + now apply ascending_snoc.
    + apply Forall_app. split; [exact Hts_past | repeat constructor; lia].
    + rewrite recent_snoc, length_app. simpl.
      pose proof (recent_length (now w) ts). lia.
Qed.

Variable cacheKey : string -> string.
Variable provider : Provider.
Hypothesis latent : forall n, 0 <= latency provider n.

Lemma window_emit e : keeps (Window this) (emit e).
Proof. intros w [H1 H2 H3]. now split. Qed.

Lemma window_setCache c : keeps (Window this) (setCache c).
Proof. intros w [H1 H2 H3]. now split. Qed.

Lemma window_delay ms : keeps (Window this) (delay ms).
Proof.
  intros w Hw. unfold delay. destruct (ms <=? 0) eqn:Hms; [exact Hw|].
  apply Z.leb_gt in Hms. unfold bind, emit, elapse, modify. simpl.
  apply (window_later this w ms); [lia | exact Hw].
Qed.

Lemma window_cacheCheck key : keeps (Window this) (cacheCheck key).
Proof.
  unfold cacheCheck. apply keeps_bind; [apply keeps_gets|]. intros c.
  apply keeps_bind; [apply keeps_gets|]. intros t.
  destruct (lookupEntry key c); [|apply keeps_ret].
  apply keeps_if; [|apply keeps_ret].
  apply keeps_bind; [apply window_setCache | intros; apply keeps_ret].
Qed.

Lemma window_cacheGet key : keeps (Window this) (cacheGet key).
Proof.
  apply keeps_bind; [apply window_emit | intros; apply window_cacheCheck].
Qed.

Lemma window_setCacheEntry key v : keeps (Window this) (setCacheEntry this key v).
Proof.
  unfold setCacheEntry, cacheKeys, cacheHas, cacheDel, cacheSet.
  apply keeps_bind; [apply keeps_gets|]. intros keys.
  apply keeps_bind.
  { apply keeps_if; [|apply keeps_ret].
    apply keeps_bind; [|intros; apply keeps_ret].
    apply keeps_bind; [apply window_cacheCheck | intros; apply keeps_ret]. }
  intros full. apply keeps_bind.
  { apply keeps_if; [|apply keeps_ret].
    apply keeps_bind; [apply keeps_gets|]. intros keys'.
    destruct keys' as [|k ?]; [apply keeps_ret|].
    apply keeps_if; [|apply keeps_ret].
    apply keeps_bind; [apply window_emit|]. intros _.
    apply keeps_bind; [apply keeps_gets | intros; apply window_setCache]. }
  intros _. apply keeps_bind; [apply window_emit|]. intros _.
  apply keeps_bind; [apply keeps_gets|]. intros c.
  apply keeps_bind; [apply keeps_gets | intros; apply window_setCache].
Qed.

Lemma window_ensureVectorSize v s : keeps (Window this) (ensureVectorSize v s).
Proof.
  unfold ensureVectorSize. apply keeps_if; [|apply keeps_ret].
  destruct s; [apply window_emit | apply keeps_throw].
Qed.

Lemma window_retryLoop {A} (fn : M World A) remaining n last :
  keeps (Window this) fn -> keeps (Window this) (retryLoop fn remaining n last).
Proof.
  intros Hfn. revert n last.
  induction remaining as [|r IH]; intros n last; simpl; [apply keeps_throw|].
  apply keeps_tryCatch; [exact Hfn|]. intros e.
  apply keeps_bind; [apply window_emit|]. intros _.
  apply keeps_bind; [apply window_delay | intros; apply IH].
Qed.

Lemma window_enforceRateLimit : keeps (Window this) (enforceRateLimit this).
Proof. intros w Hw. now destruct (enforceRateLimit_window w Hw) as (_ & H & _). Qed.

Lemma window_callProvider {A} e (answer : nat -> result A) :
  keeps (Window this) (callProvider provider e answer).
Proof.
  unfold callProvider.
  apply keeps_bind; [apply window_emit|]. intros _.
  apply keeps_bind; [apply keeps_gets|]. intros n.
  apply keeps_bind; [|intros; apply keeps_lift].
  intros w Hw. unfold modify. simpl. now apply window_later.
Qed.

Lemma window_request {A} e (answer : nat -> result A) :
  keeps (Window this)
    (executeWithRetry
       (bind (enforceRateLimit this) (fun _ => callProvider provider e answer)) 5).
Proof.
  apply window_retryLoop.
  apply keeps_bind; [apply window_enforceRateLimit | intros; apply window_callProvider].
Qed.

Lemma window_embedText text : keeps (Window this) (embedText cacheKey provider this text).
Proof.
  unfold embedText. apply keeps_if; [apply keeps_throw|].
  apply keeps_bind; [apply window_cacheGet|]. intros [v|]; [apply keeps_ret|].
  apply keeps_bind; [apply window_request|]. intros v.
  apply keeps_bind; [apply window_setCacheEntry|]. intros _.
  apply keeps_bind; [apply window_ensureVectorSize | intros; apply keeps_ret].
Qed.

Lemma window_embedTextsChunk texts :
  keeps (Window this) (embedTextsChunk cacheKey provider this texts).
Proof.
  unfold embedTextsChunk. apply keeps_bind.
  { apply keeps_forEachM. intros st [index text]. unfold lookupText.
    apply keeps_bind; [apply window_cacheGet|]. intros [v|]; apply keeps_ret. }
  intros st. apply keeps_bind; [|intros; apply keeps_ret].
  apply keeps_if; [|apply keeps_ret].
  apply keeps_bind; [apply window_request|]. intros fetched.
  apply keeps_forEachM. intros vs [idx v]. unfold storeFetched.
  apply keeps_bind; [apply window_ensureVectorSize|]. intros _.
  destruct (uncachedTexts st !! idx); [|apply keeps_throw].
  apply keeps_bind; [apply window_setCacheEntry|]. intros _.
  destruct (uncachedIndices st !! idx); apply keeps_ret.
Qed.

Lemma window_embedBatch texts size run :
  embedBatch cacheKey provider this texts size = Some run -> keeps (Window this) run.
Proof.
  unfold embedBatch. destruct (length texts =? 0)%nat; [intros [= <-]; apply keeps_ret|].
  destruct (createBatches texts size) as [batches|]; [|discriminate].
  unfold runWithConcurrency.
  destruct (Z.min (maxConcurrency this) (Z.of_nat (length batches)) <=? 0).
  { intros [= <-]. apply keeps_bind; [apply keeps_ret | intros; apply keeps_ret]. }
  destruct (Z.min (maxConcurrency this) (Z.of_nat (length batches)) =? 1);
    [|discriminate].
  intros [= <-]. apply keeps_bind; [|intros; apply keeps_ret].
  apply keeps_forEachM. intros st [start items]. unfold batchWorker.
  apply keeps_bind; [apply window_embedTextsChunk|]. intros vs.
  apply keeps_bind; [|intros; apply keeps_ret].
  apply keeps_if; [apply window_emit | apply keeps_ret].
Qed.

End Limiter.

(** X11. The rate limiter holds the rate.  With a positive limit, in a state
    whose recorded request times go up, are not in the future and count at
    most [rateLimitPerMinute] in the last minute, one pass through
    [enforceRateLimit] returns after a wait of at most 60005 ms, drops the
    times older than a minute, records the time of the request last, and
    leaves a state of the same kind; and so do [embedText], and every run of
    [embedBatch] with at most one worker, whether they return or throw, when
    provider calls take no negative time: at no point of such a run are more
    than [rateLimitPerMinute] requests recorded within a minute.  Runs with
    two or more workers are not covered. *)
Theorem rate_limiter_holds_the_rate cacheKey provider this w :
  0 < rateLimitPerMinute this ->
  (forall n, 0 <= latency provider n) ->
  Window this w ->
  (fst (enforceRateLimit this w) = inr tt
   /\ Window this (snd (enforceRateLimit this w))
   /\ now w <= now (snd (enforceRateLimit this w)) <= now w + ONE_MINUTE_MS + 5
   /\ requestTimestamps (snd (enforceRateLimit this w))
      = recent (now w) (requestTimestamps w) ++ [now (snd (enforceRateLimit this w))])
  /\ (forall text, Window this (snd (embedText cacheKey provider this text w)))
  /\ (forall texts size,
        oneWorker this texts size ->
        exists run,
          embedBatch cacheKey provider this texts size = Some run
          /\ Window this (snd (run w))).
Proof.
  intros Hlimit Hlat Hw. split; [|split].
  - destruct (enforceRateLimit_window this Hlimit w Hw) as (H1 & H2 & H3 & H4 & _).
    auto.
  - intros text. now apply window_embedText.
  - intros texts size Hone.
    destruct (embedBatch_one_worker cacheKey provider this texts size Hone)
      as [run Hrun].
    exists run. split; [exact Hrun|].
    now apply (window_embedBatch this Hlimit cacheKey provider Hlat texts size run Hrun).
Qed.

(** A limiter of two requests a minute that has recorded two requests, 30
    and 10 seconds ago. *)
Definition slowGenerator : Generator :=
  {| batchSize := 100; maxConcurrency := 1; cacheSize := 1000;
     rateLimitPerMinute := 2; stdTTL := 3600 |}.

Definition busyWorld : World :=
  {| now := 60000; cache := []; requestTimestamps := [30000; 50000];
     providerCalls := 2; trace := [] |}.

(** The third request waits 30005 ms; and a batch of two texts, which makes
    one request, leaves the window within the rate. *)
Lemma rate_limiter_holds_the_rate_witness :
  (Window slowGenerator (snd (enforceRateLimit slowGenerator busyWorld))
   /\ now (snd (enforceRateLimit slowGenerator busyWorld)) = 90005)
  /\ exists run,
      embedBatch prefixedKey wideProvider slowGenerator ["a"; "b"] 100 = Some run
      /\ Window slowGenerator (snd (run busyWorld)).
Proof.
  assert (Hw : Window slowGenerator busyWorld).
  { split; simpl.
    - repeat constructor; lia.
    - repeat constructor; lia.
    - lia. }
  assert (Hlat : forall n, 0 <= latency wideProvider n) by (intros n; simpl; lia).
  assert (Hlimit : 0 < rateLimitPerMinute slowGenerator) by (simpl; lia).
  split; [split; [|reflexivity]|].
  - exact (proj1 (proj2 (proj1 (rate_limiter_holds_the_rate prefixedKey wideProvider
                                  slowGenerator busyWorld Hlimit Hlat Hw)))).
  - apply (proj2 (proj2 (rate_limiter_holds_the_rate prefixedKey wideProvider
                           slowGenerator busyWorld Hlimit Hlat Hw))).
    split; [lia | left; simpl; lia].
Defined.

End CacheFacts.

(* ================================================================== *)
(** * Batches and chunk embeddings *)
(* ================================================================== *)

Module BatchFacts.
Import Js Types Effect Embedder EmbedderFacts.
Local Open Scope Z_scope.

(** ** [createBatches] *)

Lemma createBatchesFrom_shape items size fuel i :
  (0 < size)%nat -> (length items - i <= fuel)%nat ->
  Forall (fun b => snd b <> [] /\ (length (snd b) <= size)%nat
                   /\ snd b = take size (drop (fst b) items))
    (createBatchesFrom fuel items size i)
  /\ map fst (createBatchesFrom fuel items size i)
     = map (fun j => (i + j * size)%nat)
           (seq 0 (length (createBatchesFrom fuel items size i))).
Proof.
  intros Hsize. revert i. induction fuel as [|fuel IH]; intros i Hfuel.
  - split; [constructor | reflexivity].
  - cbn [createBatchesFrom]. destruct (i <? length items)%nat eqn:Hi;
      [|split; [constructor | reflexivity]].
    apply Nat.ltb_lt in Hi. destruct (IH (i + size)%nat) as [Hall Hstarts]; [lia|].
    split.
    + constructor; [|exact Hall]. simpl. repeat split.
      * intros H. apply (f_equal (@length string)) in H.
        rewrite length_take, length_drop in H. simpl in H. lia.
      * rewrite length_take. lia.
    + cbn [map fst length seq]. f_equal; [lia|].
      rewrite Hstarts, <- seq_shift, map_map.
      apply map_ext. intros j. simpl. lia.
Qed.

(** X12. The batches of [createBatches] cut the items into consecutive runs:
    put end to end they are the items; each batch is not empty, holds at most
    [batchSize] items, and starts at the offset it records, a multiple of
    [batchSize]. *)
Theorem batches_partition_the_items items size batches :
  createBatches items size = Some batches ->
  concat (map snd batches) = items
  /\ Forall (fun b => snd b <> [] /\ (length (snd b) <= Z.to_nat size)%nat
                      /\ snd b = take (Z.to_nat size) (drop (fst b) items)) batches
  /\ map fst batches
     = map (fun j => (j * Z.to_nat size)%nat) (seq 0 (length batches)).
Proof.
  intros Hrun. split; [now apply createBatches_cover in Hrun|].
  revert Hrun. unfold createBatches. destruct items as [|x items].
  { intros [= <-]. split; [constructor | reflexivity]. }
  remember (x :: items) as l eqn:El.
  destruct (size <=? 0) eqn:Hs; [discriminate|]. intros [= <-].
  apply Z.leb_gt in Hs.
  destruct (createBatchesFrom_shape l (Z.to_nat size) (length l) 0%nat)
    as [Hall Hstarts]; [lia | lia |].
  split; [exact Hall | exact Hstarts].
Qed.

Lemma batches_partition_the_items_witness :
  exists batches,
    createBatches ["alpha"; "beta text"; "gamma"] 2 = Some batches
    /\ concat (map snd batches) = ["alpha"; "beta text"; "gamma"]
    /\ map fst batches = [0; 2]%nat.
Proof.
  eexists. split; [reflexivity|].
  destruct (batches_partition_the_items ["alpha"; "beta text"; "gamma"] 2 _ eq_refl)
    as (H1 & _ & H3).
  split; [exact H1 | exact H3].
Defined.

(** ** [embedChunks] *)

(** The chunk [c] with the embedding [v]. *)
Definition withEmbedding (c : SEBIChunk) (v : option vector) : SEBIChunk :=
  {| chunk_id := chunk_id c; document_id := document_id c;
     chunk_index := chunk_index c; content := content c; tokens := tokens c;
     section_hierarchy := section_hierarchy c; embedding := v;
     chunk_metadata := chunk_metadata c |}.

Lemma attachEmbeddings_spec schemas chunks embeddings :
  forall idx out,
    attachEmbeddings schemas idx chunks embeddings = inr out ->
    out = imap (fun i c =>
                  declared (withEmbedding c (mjoin (embeddings !! (idx + i)%nat))))
            chunks
    /\ Forall (fun o => chunkOk schemas o = true)
         (imap (fun i c => withEmbedding c (mjoin (embeddings !! (idx + i)%nat)))
            chunks).
Proof.
  induction chunks as [|c chunks IH]; intros idx out; cbn [attachEmbeddings].
  - intros [= <-]. split; [reflexivity | constructor].
  - unfold SEBIChunkSchema_parse.
    destruct (chunkOk schemas _) eqn:Hok; simpl; [|discriminate].
    destruct (attachEmbeddings schemas (S idx) chunks embeddings) as [e|others] eqn:Hrest;
      simpl; [discriminate|].
    intros [= <-]. destruct (IH _ _ Hrest) as [-> Hall]. split.
    + cbn [imap]. unfold withEmbedding at 2. rewrite Nat.add_0_r. f_equal.
      apply imap_ext. intros i x _. unfold compose. do 4 f_equal. lia.
    + cbn [imap]. constructor.
      * unfold withEmbedding. now rewrite Nat.add_0_r.
      * erewrite imap_ext; [exact Hall|]. intros i x _. unfold compose.
        do 3 f_equal. lia.
Qed.

(** X13. When [embedChunks] runs at most one worker, it runs [embedBatch] on
    the contents of the chunks, in their order, and does nothing else that
    leaves the process; when it returns, [embedBatch] has returned, and the
    result holds, for every chunk it was given and in the same order, the
    properties that the chunk schema declares, with the embedding that
    [embedBatch] returned at the position of the chunk (none when it returned
    none there): the chunk with that embedding is accepted by the chunk
    schema, and the [metadata] that the chunk object carried is not in the
    result.  On no chunk it returns at once, without any call.  Runs with
    two or more workers are not covered. *)
Theorem embedChunks_keeps_the_chunks cacheKey provider this schemas chunks w :
  CacheFacts.oneWorker this (map content chunks) (batchSize this) ->
  exists run batch,
    embedChunks cacheKey provider this schemas chunks = Some run
    /\ embedBatch cacheKey provider this (map content chunks) (batchSize this)
       = Some batch
    /\ (chunks = [] -> run w = (inr [], w))
    /\ (forall out w',
          run w = (inr out, w') ->
          exists embeddings : list (option vector),
            batch w = (inr embeddings, w')
            /\ out = imap (fun i c =>
                             declared (withEmbedding c (mjoin (embeddings !! i))))
                       chunks
            /\ length out = length chunks
            /\ Forall (fun o => chunk_metadata o = None) out
            /\ Forall (fun o => chunkOk schemas o = true)
                 (imap (fun i c => withEmbedding c (mjoin (embeddings !! i))) chunks)).
Proof.
  intros Hone.
  destruct (CacheFacts.embedBatch_one_worker cacheKey provider this _ _ Hone)
    as [batch Hbatch].
  unfold embedChunks. rewrite Hbatch. destruct chunks as [|c chunks].
  { exists (ret []), batch. cbn [length Nat.eqb].
    split; [reflexivity|]. split; [reflexivity|]. split; [reflexivity|].
    intros out w' [= <- <-]. exists [].
    cbn [map] in Hbatch. unfold embedBatch in Hbatch. cbn [length Nat.eqb] in Hbatch.
    injection Hbatch as <-.
    split; [reflexivity|]. split; [reflexivity|]. split; [reflexivity|].
    split; constructor. }
  remember (c :: chunks) as l eqn:El.
  replace (length l =? 0)%nat with false by (subst l; reflexivity).
  eexists _, batch. split; [reflexivity|]. split; [reflexivity|].
  split; [intros H; subst; discriminate|].
  intros out w'. unfold bind, lift.
  destruct (batch w) as [[e|embeddings] w1]; [discriminate|].
  destruct (attachEmbeddings schemas 0 l embeddings) as [e|out'] eqn:Hattach;
    [discriminate|].
  intros [= <- <-]. destruct (attachEmbeddings_spec _ _ _ _ _ Hattach) as [Hout Hall].
  exists embeddings. split; [reflexivity|]. split; [exact Hout|].
  split; [rewrite Hout; apply length_imap|]. split; [|exact Hall].
  rewrite Hout. apply Forall_forall. intros o Ho.
  apply elem_of_lookup_imap in Ho as (i & x & -> & _). reflexivity.
Qed.

(** A chunk object that carries a [metadata] property, embedded under the
    schemas of the code by a provider of vectors of 3072 components: the
    result has the vector and not the metadata. *)
Lemma embedChunks_keeps_the_chunks_witness :
  exists run out w',
    embedChunks id CacheFacts.wideProvider defaultGenerator
      (zodSchemas QdrantFacts.httpsUrl)
      [mkChunk "chunk-1" "doc-1" 1 "first chunk text" 3 ["Chapter 1"] None
         (Some Qdrant.emptyMetadata)] = Some run
    /\ run (freshWorld 0) = (inr out, w')
    /\ map chunk_id out = ["chunk-1"]
    /\ map (fun o => length <$> embedding o) out = [Some 3072%nat]
    /\ Forall (fun o => chunk_metadata o = None) out.
Proof.
  destruct (embedChunks_keeps_the_chunks id CacheFacts.wideProvider defaultGenerator
              (zodSchemas QdrantFacts.httpsUrl)
              [mkChunk "chunk-1" "doc-1" 1 "first chunk text" 3 ["Chapter 1"] None
                 (Some Qdrant.emptyMetadata)]
              (freshWorld 0))
    as (run & batch & Hrun & Hbatch & _ & Hout).
  { split; [reflexivity | right; simpl; lia]. }
  exists run.
  assert (Hsome : exists out w', run (freshWorld 0) = (inr out, w')
                                 /\ map chunk_id out = ["chunk-1"]
                                 /\ map (fun o => length <$> embedding o) out
                                    = [Some 3072%nat]).
  { injection Hrun as <-. eexists _, _. split; [vm_compute; reflexivity|].
    split; vm_compute; reflexivity. }
  destruct Hsome as (out & w' & Hw & Hids & Hvectors).
  exists out, w'. split; [exact Hrun|]. split; [exact Hw|].
  split; [exact Hids|]. split; [exact Hvectors|].
  destruct (Hout out w' Hw) as (embeddings & _ & _ & _ & Hbare & _). exact Hbare.
Defined.

(** ** A provider that answers with too few vectors *)

Lemma mapPresent_id slots : mapPresent slots = slots.
Proof. induction slots as [|[v|] slots IH]; simpl; now rewrite ?IH. Qed.

Lemma imap_pair_snd {A} (l : list A) : map snd (imap pair l) = l.
Proof.
  change (map snd (imap pair l)) with (snd <$> imap pair l).
  rewrite fmap_imap. change (imap (const id) l = l).
  rewrite imap_const. apply list_fmap_id.
Qed.

Lemma imap_pair_fst {A} (l : list A) : map fst (imap pair l) = seq 0 (length l).
Proof.
  change (map fst (imap pair l)) with (fst <$> imap pair l).
  rewrite fmap_imap. unfold compose. simpl.
  rewrite (imap_seq_0 l (fun j => j)). apply list_fmap_id.
Qed.

Section ShortAnswer.

Variable cacheKey : string -> string.
Variable provider : Provider.
Variable this : Generator.

(** The loop that stores the fetched vectors fills the slots from the left. *)
Lemma store_loop texts (vs : list vector) :
  forall k slots w,
    (k + length vs <= length texts)%nat -> length slots = length texts ->
    exists w',
      forEachM (storeFetched cacheKey this texts (seq 0 (length texts)))
        (imap (fun i v => ((k + i)%nat, v)) vs) slots w
      = (inr (take k slots ++ map Some vs ++ drop (k + length vs) slots), w')
      /\ providerCalls w' = providerCalls w
      /\ providerEvents (trace w') = providerEvents (trace w).
Proof.
  induction vs as [|v vs IH]; intros k slots w Hk Hlen.
  - exists w. simpl. unfold ret. now rewrite Nat.add_0_r, take_drop.
  - cbn [imap forEachM]. simpl in Hk.
    destruct (lookup_lt_is_Some_2 texts k) as [text Htext]; [lia|].
    assert (Hidx : seq 0 (length texts) !! k = Some k)
      by (apply lookup_seq; lia).
    rewrite Nat.add_0_r.
    destruct (storeFetched_slot cacheKey this texts (seq 0 (length texts)) slots
                k v text k w Htext Hidx) as (w1 & Hstep & Hp1 & Ht1).
    unfold bind at 1. rewrite Hstep.
    rewrite (imap_ext _ (fun i v0 => ((S k + i)%nat, v0)))
      by (intros i x _; unfold compose; simpl; f_equal; lia).
    destruct (IH (S k) (<[k := Some v]> slots) w1) as (w2 & Hrest & Hp2 & Ht2);
      [lia | now rewrite length_insert|].
    exists w2. rewrite Hrest. split; [|split; congruence]. do 2 f_equal.
    rewrite take_insert_lt by lia.
    rewrite drop_insert_lt by lia.
    assert (Hk' : (k < length slots)%nat) by lia.
    rewrite (take_S_r slots k (default None (slots !! k)))
      by (destruct (lookup_lt_is_Some_2 slots k Hk') as [x ->]; reflexivity).
    rewrite insert_app_r_alt by (rewrite length_take; lia).
    rewrite length_take, Nat.min_l, Nat.sub_diag by lia. simpl.
    rewrite <- app_assoc. simpl.
    now replace (k + S (length vs))%nat with (S (k + length vs)) by lia.
Qed.

(** [forEach] copies the slots that hold a vector. *)
Lemma copyInto_fresh (l : list (option vector)) :
  forall idx res,
    drop idx res = replicate (length l) None -> (idx <= length res)%nat ->
    copyInto 0 idx l res = take idx res ++ l.
Proof.
  induction l as [|[v|] l IH]; intros idx res Hdrop Hidx; cbn [copyInto].
  - simpl in Hdrop. rewrite <- (take_drop idx res) at 1. now rewrite Hdrop.
  - assert (Hlt : (idx < length res)%nat).
    { apply (f_equal (@length (option vector))) in Hdrop.
      rewrite length_drop, length_replicate in Hdrop. simpl in Hdrop. lia. }
    simpl. rewrite IH.
    + rewrite take_insert_lt by lia.
      rewrite (take_S_r res idx None).
      * rewrite insert_app_r_alt by (rewrite length_take; lia).
        rewrite length_take, Nat.min_l, Nat.sub_diag by lia. simpl.
        now rewrite <- app_assoc.
      * apply (f_equal (fun x => x !! 0%nat)) in Hdrop.
        rewrite lookup_drop, Nat.add_0_r in Hdrop. exact Hdrop.
    + rewrite drop_insert_lt by lia.
      replace (S idx) with (idx + 1)%nat by lia.
      rewrite <- drop_drop, Hdrop. reflexivity.
    + rewrite length_insert. lia.
  - assert (Hlt : (idx < length res)%nat).
    { apply (f_equal (@length (option vector))) in Hdrop.
      rewrite length_drop, length_replicate in Hdrop. simpl in Hdrop. lia. }
    rewrite IH.
    + rewrite (take_S_r res idx None).
      * now rewrite <- app_assoc.
      * apply (f_equal (fun x => x !! 0%nat)) in Hdrop.
        rewrite lookup_drop, Nat.add_0_r in Hdrop. exact Hdrop.
    + replace (S idx) with (idx + 1)%nat by lia.
      rewrite <- drop_drop, Hdrop. reflexivity.
    + lia.
Qed.

Hypothesis limit : 0 < rateLimitPerMinute this.

(** One chunk of texts on an empty cache, the provider answering at once
    with no more vectors than texts. *)
Lemma embedTextsChunk_fresh texts vs w :
  texts <> [] ->
  cache w = [] -> requestTimestamps w = [] ->
  embedDocuments provider (providerCalls w) texts = inr vs ->
  (length vs <= length texts)%nat ->
  exists w',
    embedTextsChunk cacheKey provider this texts w
    = (inr (map Some vs ++ replicate (length texts - length vs) None), w')
    /\ providerCalls w' = S (providerCalls w)
    /\ providerEvents (trace w')
       = providerEvents (trace w) ++ [EmbedDocuments texts].
Proof.
  intros Hne Hc Hts Hans Hlen. unfold embedTextsChunk.
  unfold bind at 1.
  match goal with
  | |- context [forEachM (lookupText cacheKey) ?its ?st w] =>
      destruct (lookup_empty_cache cacheKey its st w Hc)
        as (w1 & Hrun & Hc1 & Hp1 & Hts1 & Hn1 & Htr1)
  end.
  rewrite Hrun. cbn [uncachedTexts uncachedIndices vectors app].
  rewrite imap_pair_snd, imap_pair_fst.
  replace (0 <? length texts)%nat with true
    by (symmetry; apply Nat.ltb_lt; destruct texts; simpl; [congruence | lia]).
  unfold bind at 1. unfold bind at 1. unfold executeWithRetry.
  destruct (provider_call_first_attempt provider this texts vs w1)
    as (w2 & Hcall & Hp2 & Htr2); [congruence | exact limit | now rewrite Hp1 |].
  rewrite (retryLoop_succeeded _ _ _ _ _ _ _ Hcall).
  destruct (store_loop texts vs 0%nat (replicate (length texts) None) w2)
    as (w3 & Hstore & Hp3 & Htr3); [simpl; lia | apply length_replicate |].
  change (imap pair vs) with (imap (fun i v => ((0 + i)%nat, v)) vs).
  rewrite Hstore. unfold ret. exists w3. split; [|split].
  - rewrite mapPresent_id. simpl. now rewrite drop_replicate.
  - congruence.
  - congruence.
Qed.

Lemma createBatchesFrom_done fuel items size i :
  (length items <= i)%nat -> createBatchesFrom fuel items size i = [].
Proof.
  intros Hi. destruct fuel as [|fuel]; [reflexivity|]. cbn [createBatchesFrom].
  now replace (i <? length items)%nat with false by (symmetry; apply Nat.ltb_ge; lia).
Qed.

(** With the default options, up to 100 texts make one batch, run by one
    worker. *)
Lemma embedBatch_one_batch texts :
  batchSize this = 100 -> maxConcurrency this = 5 ->
  texts <> [] -> (length texts <= 100)%nat ->
  embedBatch cacheKey provider this texts (batchSize this)
  = Some (bind (forEachM (batchWorker cacheKey provider this (length texts))
                  [(0%nat, texts)]
                  {| results := replicate (length texts) None; processed := 0 |})
               (fun st => ret (mapPresent (results st)))).
Proof.
  intros Hsize Hconc Hne Hlen. unfold embedBatch. rewrite Hsize.
  destruct texts as [|x texts']; [congruence|].
  remember (x :: texts') as l eqn:El.
  replace (length l =? 0)%nat with false by (subst l; reflexivity).
  assert (Hbatches : createBatches l 100 = Some [(0%nat, l)]).
  { unfold createBatches. rewrite El at 1. simpl (100 <=? 0).
    cbv iota. f_equal.
    assert (Hfuel : length l = S (length texts')) by (subst l; reflexivity).
    rewrite Hfuel at 1. cbn [createBatchesFrom].
    replace (0 <? length l)%nat with true by (symmetry; apply Nat.ltb_lt; lia).
    rewrite createBatchesFrom_done by (simpl; lia).
    rewrite drop_0, take_ge by (simpl; lia). reflexivity. }
  rewrite Hbatches. unfold runWithConcurrency. rewrite Hconc. reflexivity.
Qed.

End ShortAnswer.

(** A provider that answers every call with a single vector. *)
Definition tersesProvider : Provider :=
  {| embedQuery := fun _ text => inr (lengthVector text);
     embedDocuments := fun _ texts => inr (map lengthVector (take 1 texts));
     latency := fun _ => 0 |}.

(** X14. A provider answer that is too short is not an error for
    [embedBatch]: on a generator built with the default options and a fresh
    cache, for up to 100 texts, when the provider answers its one call with
    fewer vectors than texts, [embedBatch] returns the vectors it got in the
    first slots and leaves the other slots empty; the check "Missing
    embedding" does not fire, since [map] skips the slots that were never
    assigned. *)
Theorem short_answer_leaves_empty_slots cacheKey provider apiKey this t texts vs :
  newGenerator apiKey (mkOptions None None None None) = inr this ->
  texts <> [] -> (length texts <= 100)%nat ->
  embedDocuments provider 0 texts = inr vs ->
  (length vs <= length texts)%nat ->
  exists run,
    embedBatch cacheKey provider this texts (batchSize this) = Some run
    /\ fst (run (freshWorld t))
       = inr (map Some vs ++ replicate (length texts - length vs) None)
    /\ providerEvents (trace (snd (run (freshWorld t)))) = [EmbedDocuments texts].
Proof.
  intros Hnew Hne Hlen Hans Hvs. unfold newGenerator in Hnew.
  destruct (negb (truthy apiKey)); [discriminate|]. injection Hnew as <-.
  eexists. split; [now apply embedBatch_one_batch|].
  match goal with
  | |- context [batchWorker ?k ?p ?g] =>
      destruct (embedTextsChunk_fresh k p g eq_refl texts vs (freshWorld t)
                  Hne eq_refl eq_refl Hans Hvs) as (w' & Hrun & Hp & Htr)
  end.
  assert (Hcopy : copyInto 0 0
                    (map Some vs ++ replicate (length texts - length vs) None)
                    (replicate (length texts) None)
                  = map Some vs ++ replicate (length texts - length vs) None).
  { rewrite copyInto_fresh; [reflexivity | | lia].
    rewrite drop_0, length_app, length_map, length_replicate. f_equal. lia. }
  match goal with
  | |- context [bind ?m ?k (freshWorld t)] =>
      assert (Hall : exists w'',
                 bind m k (freshWorld t)
                 = (inr (map Some vs ++ replicate (length texts - length vs) None), w'')
                 /\ providerEvents (trace w'') = [EmbedDocuments texts])
  end.
  { cbn [forEachM]. unfold batchWorker. unfold bind. rewrite Hrun.
    cbn [results processed].
    destruct ((50 <=? length texts)%nat && ((0 + length texts) mod 50 =? 0)%nat);
      unfold emit, modify, ret; rewrite Hcopy, mapPresent_id;
      eexists; (split; [reflexivity|]); cbn [trace].
    - rewrite providerEvents_app, Htr. reflexivity.
    - rewrite Htr. reflexivity. }
  destruct Hall as (w'' & -> & Htr''). now split.
Qed.

Lemma short_answer_leaves_empty_slots_witness :
  exists run,
    embedBatch id tersesProvider defaultGenerator ["alpha"; "beta"] 100 = Some run
    /\ fst (run (freshWorld 0)) = inr [Some [5%Q]; None]
    /\ providerEvents (trace (snd (run (freshWorld 0))))
       = [EmbedDocuments ["alpha"; "beta"]].
Proof.
  apply (short_answer_leaves_empty_slots id tersesProvider "key" defaultGenerator 0
           ["alpha"; "beta"] [[5%Q]]);
    [reflexivity | discriminate | simpl; lia | reflexivity | simpl; lia].
Defined.

End BatchFacts.

(* ================================================================== *)
(** * The store side of the vector-store manager *)
(* ================================================================== *)

Module StoreFacts.
Import Js Types Effect Qdrant QdrantFacts.

(** ** [retry] *)

Section Retry.

Context {Store : Type}.

(** The state after the failed try number [n] of [attempts]: the warning is
    logged and the manager has slept [100 * n] milliseconds. *)
Definition pause (attempts n : nat) (error : exn) (w : World Store) : World Store :=
  {| now := (now w + 100 * Z.of_nat n)%Z;
     service := service w;
     trace := trace w ++
       [LogWarn ("Qdrant operation failed (attempt " +:+ showNat n +:+ "/"
                 +:+ showNat attempts +:+ "): " +:+ stringifyError error);
        Sleep (100 * Z.of_nat n)] |}.

(** The runs of an operation under [retry], from the try number [n]: it
    succeeds; or it fails, and after the pause of [n] the try number [n + 1]
    follows; or it is the last try and fails, and then its error is thrown
    after the pause. *)
Inductive Tries {A} (operation : M (World Store) A) (attempts : nat)
  : nat -> World Store -> result A * World Store -> Prop :=
| try_returns n w a w' :
    operation w = (inr a, w') ->
    Tries operation attempts n w (inr a, w')
| try_again n w e w1 out :
    (n < attempts)%nat ->
    operation w = (inl e, w1) ->
    Tries operation attempts (S n) (pause attempts n e w1) out ->
    Tries operation attempts n w out
| try_gives_up w e w1 :
    operation w = (inl e, w1) ->
    Tries operation attempts attempts w (inl e, pause attempts attempts e w1).

Lemma retryLoop_tries {A} (operation : M (World Store) A) attempts :
  forall remaining n last w,
    (0 < remaining)%nat -> (n + remaining = S attempts)%nat ->
    Tries operation attempts n w (retryLoop operation attempts remaining n last w).
Proof.
  induction remaining as [|r IH]; intros n last w Hpos Hsum; [lia|].
  cbn [retryLoop]. unfold tryCatch.
  destruct (operation w) as [[e|a] w1] eqn:Hop; [|now apply try_returns].
  unfold bind, emit, elapse, modify. cbn [fst snd now service trace].
  match goal with
  | |- Tries _ _ _ _ (retryLoop _ _ _ _ _ ?w2) =>
      replace w2 with (pause attempts n e w1)
        by (unfold pause; now rewrite <- app_assoc)
  end.
  destruct r as [|r].
  - assert (n = attempts) as -> by lia. cbn [retryLoop]. unfold throw. simpl.
    now apply try_gives_up.
  - eapply try_again; [lia | exact Hop |]. apply IH; lia.
Qed.

End Retry.

(** X15. An operation run through [retry] with at least one attempt runs as
    [Tries] says from the first try: it is tried until it returns, at most
    [attempts] times; after the failed try [n] comes a warning that names
    [n/attempts] and a wait of [100 * n] ms, also after the last failure; then
    the error of the last try is thrown. *)
Theorem retry_tries_with_linear_waits {Store A} (operation : M (World Store) A)
  (attempts : nat) (w : World Store) :
  (0 < attempts)%nat ->
  Tries operation attempts 1 w (retry operation attempts w).
Proof. intros Hpos. unfold retry. apply retryLoop_tries; lia. Qed.

(** A store that is down, tried twice: 100 ms and 200 ms of waiting. *)
Lemma retry_tries_with_linear_waits_witness :
  Tries (A := unit) (throw (Rejected "down")) 2 1 startWorld
    (inl (Rejected "down"),
     {| now := 300; service := tt;
        trace := [LogWarn "Qdrant operation failed (attempt 1/2): down"; Sleep 100;
                  LogWarn "Qdrant operation failed (attempt 2/2): down"; Sleep 200] |}).
Proof.
  exact (retry_tries_with_linear_waits (A := unit) (throw (Rejected "down")) 2 startWorld
           (Nat.lt_0_succ 1)).
Defined.

(** ** [initializeCollection] *)

Lemma omap_nothing {A B} (f : A -> option B) (l : list A) :
  omap f l = [] <-> Forall (fun x => f x = None) l.
Proof.
  induction l as [|x l IH]; simpl.
  - split; [constructor | reflexivity].
  - destruct (f x) eqn:Hx; simpl.
    + split; [discriminate|]. intros H. apply Forall_cons in H as [H _]. congruence.
    + rewrite IH. split; [now constructor | now intros [_ H]%Forall_cons].
Qed.

(** The reason that a promise at the position [i] contributes. *)
Definition rejectionAt {A} (outcomes : list (result A)) (i : nat) : option exn :=
  match outcomes !! i with
  | Some (inl e) => Some e
  | _ => None
  end.

Lemma firstRejection_unfold {A} settles (outcomes : list (result A)) :
  firstRejection settles outcomes
  = head (omap (rejectionAt outcomes) (settles ++ seq 0 (length outcomes))).
Proof. reflexivity. Qed.

(** [Promise.all] returns exactly when every promise is fulfilled. *)
Lemma promiseAll_returns settles (outcomes : list (result unit)) :
  promiseAll settles outcomes = inr tt <-> Forall (fun r => r = inr tt) outcomes.
Proof.
  unfold promiseAll. rewrite firstRejection_unfold.
  destruct (omap (rejectionAt outcomes) (settles ++ seq 0 (length outcomes)))
    as [|e rest] eqn:Hall; cbn [head].
  - split; [intros _|reflexivity].
    apply omap_nothing in Hall. apply Forall_app in Hall as [_ Hall].
    apply Forall_lookup. intros i r Hr.
    rewrite Forall_forall in Hall.
    assert (Hi : i ∈ seq 0 (length outcomes)).
    { apply elem_of_seq. pose proof (lookup_lt_Some _ _ _ Hr) as Hlt. split; [lia | exact Hlt]. }
    specialize (Hall i Hi). cbv beta in Hall. unfold rejectionAt, result in *.
    rewrite Hr in Hall. destruct r as [e|[]]; [discriminate | reflexivity].
  - split; [discriminate|]. intros Hfine. exfalso.
    assert (Hnone : omap (rejectionAt outcomes) (settles ++ seq 0 (length outcomes))
                    = []).
    { apply omap_nothing, Forall_forall. intros i _. unfold rejectionAt.
      destruct (outcomes !! i) as [r|] eqn:Hr; [|reflexivity].
      rewrite Forall_lookup in Hfine. now rewrite (Hfine i r Hr). }
    rewrite Hnone in Hall. discriminate.
Qed.

(** What [Promise.all] throws is the reason of one of the promises. *)
Lemma promiseAll_throws settles (outcomes : list (result unit)) e :
  promiseAll settles outcomes = inl e -> exists i, outcomes !! i = Some (inl e).
Proof.
  unfold promiseAll. rewrite firstRejection_unfold.
  destruct (omap (rejectionAt outcomes) (settles ++ seq 0 (length outcomes)))
    as [|e0 rest] eqn:Hall; cbn [head]; [discriminate|].
  intros [= <-].
  assert (He : e0 ∈ omap (rejectionAt outcomes) (settles ++ seq 0 (length outcomes))).
  { rewrite Hall. left. }
  apply list_elem_of_omap in He as (i & _ & Hi). exists i.
  unfold rejectionAt in Hi. destruct (outcomes !! i) as [[e1|u]|]; congruence.
Qed.

(** It is the reason of the promise that is rejected first in time. *)
Lemma promiseAll_first before i after (outcomes : list (result unit)) e :
  Forall (fun j => forall e', outcomes !! j <> Some (inl e')) before ->
  outcomes !! i = Some (inl e) ->
  promiseAll (before ++ i :: after) outcomes = inl e.
Proof.
  intros Hbefore Hi. unfold promiseAll. rewrite firstRejection_unfold.
  rewrite <- !app_assoc, omap_app.
  assert (Hnone : omap (rejectionAt outcomes) before = []).
  { apply omap_nothing. eapply Forall_impl; [exact Hbefore|].
    intros j Hj. unfold rejectionAt, result in *.
    destruct (outcomes !! j) as [[e'|u]|] eqn:Hoj;
      [now destruct (Hj e') | reflexivity..]. }
  rewrite Hnone. simpl. unfold rejectionAt at 1. unfold result in *. now rewrite Hi.
Qed.

(** X16. [initializeCollection] asks the store for the collection first.
    When the store has it, nothing else is sent.  Every rejection of that
    request, whatever its cause, is logged as "not found" and followed by the
    creation of the collection; when the creation is rejected its error is
    thrown and no index is requested; when it is accepted the four payload
    indexes are requested in the order written, all four even when one is
    rejected, and the method returns exactly when the four are accepted;
    otherwise it throws the rejection of one of the four requests, the one
    that settles first in time, whatever its place in the array.  [settles]
    is the order in which the four requests settle. *)
Theorem initializeCollection_requests {Store} (client : Client Store) name settles
  (w : World Store) :
  (forall s1,
      getCollection client name (service w) = (inr tt, s1) ->
      initializeCollection client name settles w
      = (inr tt, {| now := now w; service := s1;
                    trace := trace w ++ [GetCollection name] |}))
  /\ (forall e s1 e' s2,
        getCollection client name (service w) = (inl e, s1) ->
        createCollection client name s1 = (inl e', s2) ->
        initializeCollection client name settles w
        = (inl e',
           {| now := now w; service := s2;
              trace := trace w ++
                [GetCollection name;
                 LogWarn ("Collection " +:+ name +:+ " not found: "
                          +:+ stringifyError e);
                 CreateCollection name] |}))
  /\ (forall e s1 s2 r1 s3 r2 s4 r3 s5 r4 s6,
        getCollection client name (service w) = (inl e, s1) ->
        createCollection client name s1 = (inr tt, s2) ->
        createPayloadIndex client name "circular_id" "keyword" s2 = (r1, s3) ->
        createPayloadIndex client name "category" "keyword" s3 = (r2, s4) ->
        createPayloadIndex client name "chapter" "keyword" s4 = (r3, s5) ->
        createPayloadIndex client name "date" "datetime" s5 = (r4, s6) ->
        initializeCollection client name settles w
        = (promiseAll settles [r1; r2; r3; r4],
           {| now := now w; service := s6;
              trace := trace w ++
                [GetCollection name;
                 LogWarn ("Collection " +:+ name +:+ " not found: "
                          +:+ stringifyError e);
                 CreateCollection name;
                 CreatePayloadIndex name "circular_id" "keyword";
                 CreatePayloadIndex name "category" "keyword";
                 CreatePayloadIndex name "chapter" "keyword";
                 CreatePayloadIndex name "date" "datetime"] |})
        /\ (promiseAll settles [r1; r2; r3; r4] = inr tt
            <-> r1 = inr tt /\ r2 = inr tt /\ r3 = inr tt /\ r4 = inr tt)
        /\ (forall e', promiseAll settles [r1; r2; r3; r4] = inl e' ->
              r1 = inl e' \/ r2 = inl e' \/ r3 = inl e' \/ r4 = inl e')
        /\ (forall before i after e',
              settles = before ++ i :: after ->
              Forall (fun j => forall e0, [r1; r2; r3; r4] !! j <> Some (inl e0))
                before ->
              [r1; r2; r3; r4] !! i = Some (inl e') ->
              promiseAll settles [r1; r2; r3; r4] = inl e')).
Proof.
  split; [|split].
  - intros s1 Hget.
    unfold initializeCollection, collectionExists, tryCatch, call, bind, emit,
      modify, ret. simpl. now rewrite Hget.
  - intros e s1 e' s2 Hget Hcreate.
    unfold initializeCollection, collectionExists, tryCatch, call, bind, emit,
      modify, ret. simpl. rewrite Hget. simpl. rewrite Hcreate. simpl.
    now rewrite <- !app_assoc.
  - intros e s1 s2 r1 s3 r2 s4 r3 s5 r4 s6 Hget Hcreate H1 H2 H3 H4.
    split; [|split; [|split]].
    + unfold initializeCollection, collectionExists, createIndex, settled, tryCatch,
        call, bind, emit, modify, ret, lift. simpl.
      rewrite Hget. simpl. rewrite Hcreate. simpl. rewrite H1. simpl.
      rewrite H2. simpl. rewrite H3. simpl. rewrite H4. simpl.
      now rewrite <- !app_assoc.
    + rewrite promiseAll_returns. rewrite !Forall_cons. rewrite Forall_nil. tauto.
    + intros e' He'. apply promiseAll_throws in He' as [i Hi].
      destruct i as [|[|[|[|i]]]]; simpl in Hi; try discriminate;
        injection Hi as ->; auto.
    + intros before i after e' -> Hbefore Hi. now apply promiseAll_first.
Qed.

(** A store without the collection that rejects the second index, and the
    fourth for another reason. *)
Definition bareClient : Client unit :=
  {| getCollection := fun _ s => (inl (Rejected "404"), s);
     createCollection := fun _ s => (inr tt, s);
     createPayloadIndex := fun _ field _ s =>
       (if String.eqb field "category" then inl (Rejected "busy")
        else if String.eqb field "date" then inl (Rejected "late")
        else inr tt, s);
     upsert := fun _ _ s => (inr tt, s);
     search := fun _ _ _ _ s => (inr [], s);
     scroll := fun _ _ _ s => (inr ([], None), s);
     deleteCollection := fun _ s => (inr tt, s) |}.

(** When the request for the fourth index settles first, its rejection is
    the one thrown. *)
Lemma initializeCollection_requests_witness :
  initializeCollection bareClient "sebi_regulations" [3; 0; 1; 2]%nat startWorld
  = (inl (Rejected "late"),
     {| now := 0; service := tt;
        trace := [GetCollection "sebi_regulations";
                  LogWarn "Collection sebi_regulations not found: 404";
                  CreateCollection "sebi_regulations";
                  CreatePayloadIndex "sebi_regulations" "circular_id" "keyword";
                  CreatePayloadIndex "sebi_regulations" "category" "keyword";
                  CreatePayloadIndex "sebi_regulations" "chapter" "keyword";
                  CreatePayloadIndex "sebi_regulations" "date" "datetime"] |}).
Proof.
  exact (proj1 (proj2 (proj2 (initializeCollection_requests bareClient
                                "sebi_regulations" [3; 0; 1; 2]%nat startWorld))
                  (Rejected "404") tt tt (inr tt) tt (inl (Rejected "busy")) tt
                  (inr tt) tt (inl (Rejected "late")) tt
                  eq_refl eq_refl eq_refl eq_refl eq_refl eq_refl)).
Defined.

(** ** [buildPayload] and [mapHitToResult] *)

(** The document that [payloadToDocument] puts together, at the time [t],
    from the payload of a chunk stored without metadata. *)
Definition rebuilt (parseDate : string -> JsDate) (toISOString : Z -> string)
  (c : SEBIChunk) (t : Z) : SEBIDocument :=
  {| doc_id := document_id c; circular_id := document_id c;
     doc_title := "SEBI Circular " +:+ document_id c;
     doc_date := Some (default t (parseDate (toISOString t)));
     category := "general"; doc_content := content c; doc_url := "";
     doc_chapter := section_hierarchy c !! 0%nat;
     doc_section := last (section_hierarchy c);
     doc_metadata := [] |}.

(** X17. A chunk without a [metadata] property, as [chunkDocument] and
    [embedChunks] return them, is stored with the category [general], its
    document id for the circular id, and no date, title, url or document.
    From that payload [payloadToDocument] puts together a document made of
    defaults: the category [general], the title [SEBI Circular <id>], the
    content of the chunk, for its date the time of the search as the runtime
    reads it back from its ISO text, and the empty string for its url; and
    it puts that document to [SEBIDocumentSchema.parse].  As the empty
    string is no URL, the schema of the code refuses it: a hit that carries
    the payload makes [mapHitToResult] throw the [ZodError] when the chunk
    passes the chunk schema, and is skipped with a warning when it does not.
    The chunk is never read back. *)
Theorem plain_chunk_read_back {Store} isUrl parseDate toISOString
  (c : SEBIChunk) id s (w : World Store) :
  chunk_metadata c = None ->
  isUrl "" = false ->
  exists payload,
    buildPayload parseDate toISOString c = inr payload
    /\ pl_chunk payload = Some c
    /\ pl_category payload = Some "general"
    /\ pl_circular_id payload = Some (document_id c)
    /\ pl_date payload = None /\ pl_document payload = None
    /\ pl_title payload = None /\ pl_url payload = None
    /\ (forall schemas,
          payloadToDocument schemas parseDate toISOString payload c w
          = (SEBIDocumentSchema_parse schemas (rebuilt parseDate toISOString c (now w)),
             w))
    /\ (chunkOk (zodSchemas isUrl) c = true ->
        mapHitToResult (zodSchemas isUrl) parseDate toISOString
          {| hit_id := id; hit_score := s; hit_payload := Some payload |} w
        = (inl (ZodError "SEBIDocument"), w))
    /\ (chunkOk (zodSchemas isUrl) c = false ->
        mapHitToResult (zodSchemas isUrl) parseDate toISOString
          {| hit_id := id; hit_score := s; hit_payload := Some payload |} w
        = (inr None,
           {| now := now w; service := service w;
              trace := trace w ++ [LogWarn "Failed to parse chunk payload"] |})).
Proof.
  intros Hmeta Hurl. eexists. split.
  { unfold buildPayload, extractChunkMetadata. rewrite Hmeta. simpl. reflexivity. }
  repeat (split; [reflexivity|]).
  assert (Hdeclared : declared c = c).
  { destruct c. simpl in Hmeta. subst. reflexivity. }
  split; [|split].
  - intros schemas. unfold payloadToDocument, bind, gets, lift, rebuilt. simpl.
    do 2 f_equal.
    destruct (section_hierarchy c !! 0%nat), (parseDate (toISOString (now w)));
      reflexivity.
  - intros Hok. unfold mapHitToResult, SEBIChunkSchema_safeParse.
    cbn [hit_payload pl_chunk]. rewrite Hok, Hdeclared. unfold bind.
    rewrite payloadToDocument_rejects;
      [reflexivity | exact Hurl | reflexivity | left; reflexivity].
  - intros Hbad. unfold mapHitToResult, SEBIChunkSchema_safeParse.
    cbn [hit_payload pl_chunk]. now rewrite Hbad.
Qed.

(** The sample chunk, stored and read back under the schemas of the code. *)
Lemma plain_chunk_read_back_witness :
  exists payload,
    buildPayload epochOf epochText (sampleChunk "d1" 0 None) = inr payload
    /\ pl_url payload = None
    /\ mapHitToResult (zodSchemas httpsUrl) epochOf epochText
         {| hit_id := "d1-chunk-0"; hit_score := Some 0.9%Q;
            hit_payload := Some payload |} startWorld
       = (inl (ZodError "SEBIDocument"), startWorld).
Proof.
  destruct (plain_chunk_read_back (Store := unit) httpsUrl epochOf epochText
              (sampleChunk "d1" 0 None) "d1-chunk-0" (Some 0.9%Q) startWorld
              eq_refl eq_refl)
    as (payload & Hbuild & _ & _ & _ & _ & _ & _ & Hurl & _ & Hthrows & _).
  exists payload. split; [exact Hbuild|]. split; [exact Hurl|].
  apply Hthrows. reflexivity.
Defined.

(** ** [upsertChunks] *)

Section Points.

Context {Store : Type}.
Variable client : Client Store.
Variable collectionName : string.
Variable parseDate : string -> JsDate.
Variable toISOString : Z -> string.

(** The three failed tries of [retry] on an operation that throws [e] and
    leaves the state alone. *)
Definition afterThreeFailures (e : exn) (w : World Store) : World Store :=
  {| now := (now w + 600)%Z;
     service := service w;
     trace := trace w ++
       [LogWarn ("Qdrant operation failed (attempt 1/3): " +:+ stringifyError e);
        Sleep 100;
        LogWarn ("Qdrant operation failed (attempt 2/3): " +:+ stringifyError e);
        Sleep 200;
        LogWarn ("Qdrant operation failed (attempt 3/3): " +:+ stringifyError e);
        Sleep 300] |}.

Lemma retry_throwing {A} (e : exn) (m : M (World Store) A) w :
  (forall w0, m w0 = (inl e, w0)) ->
  retry m 3 w = (inl e, afterThreeFailures e w).
Proof.
  intros Hm. unfold retry. cbn [retryLoop].
  unfold tryCatch, bind, emit, elapse, modify, throw.
  rewrite Hm. cbn [fst snd now service trace]. rewrite Hm.
  cbn [fst snd now service trace]. rewrite Hm. cbn [fst snd now service trace default].
  unfold afterThreeFailures. f_equal. f_equal; [lia | now rewrite <- !app_assoc].
Qed.

Lemma batchStarts_first {A} (items : list A) :
  items <> [] ->
  exists rest,
    batchStarts (length items) (length items) DEFAULT_BATCH_SIZE 0 = 0%nat :: rest.
Proof.
  destruct items as [|x items]; [easy|]. intros _. simpl. eauto.
Qed.

(** X18. The payloads are built inside the retried operation.  When a payload
    of the first batch cannot be built (the date of a chunk does not parse),
    [upsertChunks] goes through its three tries all the same: three warnings
    and 100, 200 and 300 ms of waiting, then the error is thrown; nothing is
    sent to the store. *)
Theorem unbuildable_payload_is_retried chunks embeddings e (w : World Store) :
  length chunks = length embeddings ->
  chunks <> [] ->
  buildPoints parseDate toISOString 0 (take DEFAULT_BATCH_SIZE chunks)
    (take DEFAULT_BATCH_SIZE embeddings) = inl e ->
  upsertChunks client collectionName parseDate toISOString chunks embeddings w
  = (inl e, afterThreeFailures e w).
Proof.
  intros Hlen Hne Hbuild. unfold upsertChunks.
  apply Nat.eqb_eq in Hlen. rewrite Hlen. change (negb true) with false. cbv iota.
  destruct (batchStarts_first chunks Hne) as [rest ->].
  cbn [forEachM]. unfold bind at 1. unfold bind at 1.
  rewrite !drop_0.
  rewrite (retry_throwing e); [reflexivity|].
  intros w0. unfold bind, lift. now rewrite Hbuild.
Qed.

(** What the store is sent for the chunk [c] and the vector [v]. *)
Definition Stored (c : SEBIChunk) (v : vector) (p : QdrantPoint) : Prop :=
  pt_id p = chunk_id c /\ pt_vector p = Some v
  /\ exists payload,
      buildPayload parseDate toISOString c = inr payload
      /\ pt_payload p = Some payload.

Definition pointOf (embeddings : list vector) (i : nat)
  (built : SEBIChunk * PayloadShape) : QdrantPoint :=
  {| pt_id := chunk_id (fst built);
     pt_vector := embeddings !! i;
     pt_payload := Some (snd built) |}.

Lemma payloads_exist chunks :
  Forall (fun c => exists payload, buildPayload parseDate toISOString c = inr payload)
         chunks ->
  exists payloads,
    Forall2 (fun c payload => buildPayload parseDate toISOString c = inr payload)
            chunks payloads.
Proof.
  induction 1 as [|c l [payload Hc] _ [payloads IH]].
  - exists []. constructor.
  - exists (payload :: payloads). now constructor.
Qed.

Lemma buildPoints_built chunks payloads embeddings :
  Forall2 (fun c payload => buildPayload parseDate toISOString c = inr payload)
          chunks payloads ->
  forall k,
    buildPoints parseDate toISOString k chunks embeddings
    = inr (imap (fun j => pointOf embeddings (k + j)) (zip chunks payloads)).
Proof.
  induction 1 as [|c payload l ps Hc _ IH]; intros k; [reflexivity|].
  cbn [buildPoints zip zip_with]. rewrite Hc. cbn [rbind]. rewrite (IH (S k)).
  cbn [rbind]. rewrite imap_cons. unfold pointOf at 2. cbn [fst snd].
  rewrite Nat.add_0_r. f_equal. f_equal.
  apply imap_ext. intros j x _. simpl. f_equal. lia.
Qed.

(** The points of a batch are the batch of the points. *)
Lemma buildPoints_batch chunks payloads embeddings i :
  Forall2 (fun c payload => buildPayload parseDate toISOString c = inr payload)
          chunks payloads ->
  buildPoints parseDate toISOString 0 (take DEFAULT_BATCH_SIZE (drop i chunks))
    (take DEFAULT_BATCH_SIZE (drop i embeddings))
  = inr (take DEFAULT_BATCH_SIZE
           (drop i (imap (pointOf embeddings) (zip chunks payloads)))).
Proof.
  intros Hall.
  rewrite (buildPoints_built _ (take DEFAULT_BATCH_SIZE (drop i payloads)))
    by now apply Forall2_take, Forall2_drop.
  f_equal. rewrite <- (zip_with_take pair), <- (zip_with_drop pair).
  apply list_eq. intros j.
  rewrite list_lookup_imap, !lookup_take.
  destruct (decide (j < DEFAULT_BATCH_SIZE)%nat) as [Hj|Hj]; [|reflexivity].
  rewrite !lookup_drop, list_lookup_imap.
  destruct (zip chunks payloads !! (i + j)%nat) as [built|]; [|reflexivity].
  simpl. unfold pointOf. f_equal.
  rewrite lookup_take, lookup_drop.
  now destruct (decide (j < DEFAULT_BATCH_SIZE)%nat); [|lia].
Qed.

Lemma batchStarts_concat {A} (items : list A) size fuel i :
  (0 < size)%nat -> (length items - i <= fuel)%nat ->
  concat (map (fun j => take size (drop j items))
              (batchStarts fuel (length items) size i))
  = drop i items.
Proof.
  intros Hsize. revert i. induction fuel as [|fuel IH]; intros i Hfuel; simpl.
  - rewrite drop_ge; [reflexivity | lia].
  - destruct (i <? length items)%nat eqn:Hi.
    + simpl. rewrite IH by (apply Nat.ltb_lt in Hi; lia).
      rewrite <- drop_drop. apply take_drop.
    + apply Nat.ltb_ge in Hi. simpl. rewrite drop_ge; [reflexivity | lia].
Qed.

Lemma batchStarts_filled {A} (items : list A) size fuel i :
  (0 < size)%nat ->
  Forall (fun j => (0 < length (take size (drop j items)) <= size)%nat)
         (batchStarts fuel (length items) size i).
Proof.
  intros Hsize. revert i. induction fuel as [|fuel IH]; intros i; simpl.
  - constructor.
  - destruct (i <? length items)%nat eqn:Hi; [|constructor].
    apply Nat.ltb_lt in Hi. constructor; [|apply IH].
    rewrite length_take, length_drop. lia.
Qed.

Lemma upsert_loop_trace chunks payloads embeddings starts success w :
  Forall2 (fun c payload => buildPayload parseDate toISOString c = inr payload)
          chunks payloads ->
  (forall name points s, exists s', upsert client name points s = (inr tt, s')) ->
  exists n w',
    forEachM (upsertRound client collectionName parseDate toISOString chunks embeddings)
      starts success w = (inr n, w')
    /\ now w' = now w
    /\ trace w'
       = trace w
         ++ map (fun i => Upsert collectionName
                            (take DEFAULT_BATCH_SIZE
                               (drop i (imap (pointOf embeddings)
                                          (zip chunks payloads)))))
                starts.
Proof.
  intros Hall Hstore. revert success w.
  induction starts as [|i starts IH]; intros success w.
  - exists success, w. simpl. now rewrite app_nil_r.
  - cbn [forEachM]. unfold bind at 1. unfold upsertRound at 1.
    rewrite (buildPoints_batch chunks payloads embeddings i Hall).
    set (points := take DEFAULT_BATCH_SIZE
                     (drop i (imap (pointOf embeddings) (zip chunks payloads)))).
    destruct (Hstore collectionName points (service w)) as [s' Hs].
    unfold retry, retryLoop, tryCatch, lift, call, emit, modify, ret.
    unfold bind at 1. unfold bind at 1. unfold bind at 1. unfold bind at 1.
    cbn [fst snd now service trace]. rewrite Hs.
    match goal with
    | |- context [forEachM _ starts ?n ?w1] =>
        destruct (IH n w1) as (m & w' & -> & Hnow & Htrace)
    end.
    exists m, w'. split; [reflexivity|]. split; [exact Hnow|].
    rewrite Htrace. cbn [trace map]. now rewrite <- app_assoc.
Qed.

(** X19. On as many embeddings as chunks, when every payload can be built and
    the store accepts what it is sent, [upsertChunks] sends the store nothing
    but upserts, each of between 1 and 100 points; the points sent are, in
    the order of the chunks, one for each chunk: its id, its embedding and its
    payload.  The manager does not wait. *)
Theorem upsertChunks_sends_every_chunk_once chunks embeddings (w : World Store) :
  length chunks = length embeddings ->
  Forall (fun c => exists payload, buildPayload parseDate toISOString c = inr payload)
         chunks ->
  (forall name points s, exists s', upsert client name points s = (inr tt, s')) ->
  exists batches w',
    upsertChunks client collectionName parseDate toISOString chunks embeddings w
    = (inr (length chunks), w')
    /\ now w' = now w
    /\ trace w' = trace w ++ map (Upsert collectionName) batches
    /\ Forall (fun batch => (0 < length batch <= 100)%nat) batches
    /\ Forall2 (fun pair point => Stored (fst pair) (snd pair) point)
               (zip chunks embeddings) (concat batches).
Proof.
  intros Hlen Hall Hstore.
  destruct (payloads_exist chunks Hall) as [payloads Hpay].
  set (points := imap (pointOf embeddings) (zip chunks payloads)).
  set (starts := batchStarts (length chunks) (length chunks) DEFAULT_BATCH_SIZE 0).
  assert (Hpoints : length points = length chunks).
  { unfold points. rewrite length_imap, length_zip_with.
    apply Forall2_length in Hpay. lia. }
  exists (map (fun i => take DEFAULT_BATCH_SIZE (drop i points)) starts).
  destruct (upsert_loop_trace chunks payloads embeddings starts 0%nat w Hpay Hstore)
    as (n & w' & Hrun & Hnow & Htrace).
  exists w'. unfold upsertChunks.
  pose proof Hlen as Hlenb. apply Nat.eqb_eq in Hlenb. rewrite Hlenb.
  change (negb true) with false. cbv iota.
  change (forEachM _ ?st 0%nat w)
    with (forEachM (upsertRound client collectionName parseDate toISOString
                      chunks embeddings) st 0%nat w).
  fold starts. rewrite Hrun. split.
  { f_equal. f_equal. apply upsert_loop_count in Hrun. rewrite Hrun.
    unfold batchTotal, starts. rewrite batchStarts_cover; unfold DEFAULT_BATCH_SIZE; lia. }
  split; [exact Hnow|]. split.
  { rewrite Htrace. now rewrite map_map. }
  split.
  { unfold starts. rewrite <- Hpoints. rewrite Forall_map.
    apply (batchStarts_filled points DEFAULT_BATCH_SIZE). unfold DEFAULT_BATCH_SIZE. lia. }
  unfold starts. rewrite <- Hpoints.
  rewrite batchStarts_concat by (unfold DEFAULT_BATCH_SIZE; lia).
  rewrite drop_0. unfold points.
  clear -Hpay Hlen. 
  assert (Hgen : forall (vectors : list vector) k,
             Forall2 (fun pair point => Stored (fst pair) (snd pair) point)
               (zip chunks (drop k vectors))
               (imap (fun j => pointOf vectors (k + j)) (zip chunks payloads))
             \/ length chunks <> length (drop k vectors)).
  { clear Hlen. induction Hpay as [|c payload l ps Hc _ IH]; intros vectors k.
    - left. constructor.
    - destruct (decide (length (c :: l) = length (drop k vectors))) as [Heq|];
        [left | now right].
      destruct (drop k vectors) as [|v vs] eqn:Hdrop; [discriminate|].
      cbn [zip zip_with]. rewrite imap_cons. constructor.
      + unfold Stored, pointOf. simpl. rewrite Nat.add_0_r.
        split; [reflexivity|]. split.
        * rewrite <- (Nat.add_0_r k), <- lookup_drop, Hdrop. reflexivity.
        * now exists payload.
      + assert (Hvs : vs = drop (S k) vectors).
        { replace (S k) with (k + 1)%nat by lia. now rewrite <- drop_drop, Hdrop. }
        rewrite Hvs.
        rewrite (imap_ext _ (fun j => pointOf vectors (S k + j)));
          [|intros j x _; simpl; f_equal; lia].
        destruct (IH vectors (S k)) as [H|H]; [exact H|].
        exfalso. apply H. rewrite <- Hvs. simpl in Heq. lia. }
  destruct (Hgen embeddings 0%nat) as [H|H].
  - rewrite drop_0 in H. exact H.
  - rewrite drop_0 in H. contradiction.
Qed.

End Points.

(** A date that the runtime does not read. *)
Definition strictDate (text : string) : JsDate :=
  if String.eqb text "2024-01-15" then Some 1705276800000%Z else None.

Definition misdatedChunk : SEBIChunk :=
  {| chunk_id := "d1-chunk-0"; document_id := "d1"; chunk_index := 0;
     content := "TER limits for equity schemes"; tokens := 5;
     section_hierarchy := []; embedding := None;
     chunk_metadata :=
       Some {| m_circular_id := None; m_category := None;
               m_date := Some "15th of January"; m_chapter := None; m_title := None;
               m_url := None; m_document := None; m_metadata := None |} |}.

Lemma unbuildable_payload_is_retried_witness :
  upsertChunks (scriptedClient []) "sebi_regulations" strictDate epochText
    [misdatedChunk] [[1%Q]] startWorld
  = (inl (RangeError "Invalid time value"),
     {| now := 600; service := tt;
        trace := [LogWarn "Qdrant operation failed (attempt 1/3): Invalid time value";
                  Sleep 100;
                  LogWarn "Qdrant operation failed (attempt 2/3): Invalid time value";
                  Sleep 200;
                  LogWarn "Qdrant operation failed (attempt 3/3): Invalid time value";
                  Sleep 300] |}).
Proof.
  apply (unbuildable_payload_is_retried (scriptedClient []) "sebi_regulations"
           strictDate epochText [misdatedChunk] [[1%Q]]
           (RangeError "Invalid time value") startWorld).
  - reflexivity.
  - discriminate.
  - reflexivity.
Defined.

Lemma upsertChunks_sends_every_chunk_once_witness :
  exists batches w',
    upsertChunks (scriptedClient []) "sebi_regulations" epochOf epochText
      [sampleChunk "d1" 0 None; sampleChunk "d1" 1 None] [[1%Q]; [2%Q]] startWorld
    = (inr 2%nat, w')
    /\ trace w' = map (Upsert "sebi_regulations") batches
    /\ length (concat batches) = 2%nat.
Proof.
  destruct (upsertChunks_sends_every_chunk_once (scriptedClient [])
              "sebi_regulations" epochOf epochText
              [sampleChunk "d1" 0 None; sampleChunk "d1" 1 None] [[1%Q]; [2%Q]]
              startWorld eq_refl)
    as (batches & w' & Hrun & _ & Htrace & _ & Hpoints).
  - repeat constructor; eexists; reflexivity.
  - intros name points s. now exists s.
  - exists batches, w'. split; [exact Hrun|]. split; [exact Htrace|].
    apply Forall2_length in Hpoints. now rewrite <- Hpoints.
Defined.

End StoreFacts.

(* ================================================================== *)
(** * The search side of the vector-store manager *)
(* ================================================================== *)

Module SearchFacts.
Import Js Types Effect Qdrant QdrantFacts TextFacts PassageFacts.

(** ** [tokenize] *)

(** A non-empty run of lower-case letters and digits. *)
Definition isWord (t : string) : bool := truthy t && forallb isAlnum (chars t).

Lemma isAlnum_lower c : isAlnum c = true -> toLower c = c.
Proof.
  rewrite <- (ascii_nat_embedding c).
  assert (H : nat_of_ascii c < 256) by apply nat_ascii_bounded.
  revert H. generalize (nat_of_ascii c). intros n Hn.
  do 256 (destruct n as [|n]; [first [reflexivity | discriminate]|]). lia.
Qed.

Lemma truthy_str l : truthy (str l) = match l with [] => false | _ => true end.
Proof. now destruct l. Qed.

Lemma isWord_run cur :
  cur <> [] -> forallb isAlnum cur = true -> isWord (str (rev cur)) = true.
Proof.
  intros Hne Hall. unfold isWord. rewrite chars_str, (forallb_reversed _ _ Hall).
  rewrite truthy_str, andb_true_r. destruct (rev cur) eqn:Hrev; [|reflexivity].
  apply (f_equal (@rev ascii)) in Hrev. rewrite rev_involutive in Hrev. now subst.
Qed.

Lemma tokenizeChars_words l :
  forall cur, forallb isAlnum cur = true ->
              Forall (fun t => isWord t = true) (tokenizeChars cur l).
Proof.
  induction l as [|c l IH]; intros cur Hcur; cbn [tokenizeChars].
  - destruct cur as [|x cur]; constructor; [|constructor].
    now apply isWord_run.
  - destruct (isAlnum (toLower c)) eqn:Hc.
    + apply IH. simpl. now rewrite Hc.
    + destruct cur as [|x cur]; [now apply IH|].
      constructor; [now apply isWord_run | now apply IH].
Qed.

Lemma tokenizeChars_lower l :
  forall cur, tokenizeChars cur (map toLower l) = tokenizeChars cur l.
Proof.
  induction l as [|c l IH]; intros cur; [reflexivity|].
  cbn [map tokenizeChars]. rewrite toLower_idem.
  destruct (isAlnum (toLower c)); [apply IH|].
  destruct cur; now rewrite IH.
Qed.

(** A character that is no letter and no digit ends the current token. *)
Lemma tokenizeChars_separator c l1 l2 :
  isAlnum (toLower c) = false ->
  forall cur,
    tokenizeChars cur (l1 ++ c :: l2) = tokenizeChars cur l1 ++ tokenizeChars [] l2.
Proof.
  intros Hc. induction l1 as [|x l1 IH]; intros cur.
  - cbn [app tokenizeChars]. rewrite Hc. now destruct cur.
  - cbn [app tokenizeChars]. destruct (isAlnum (toLower x)); [apply IH|].
    destruct cur; now rewrite IH.
Qed.

Lemma tokenizeChars_run t :
  forallb isAlnum t = true ->
  forall cur, tokenizeChars cur t
              = match rev t ++ cur with [] => [] | run => [str (rev run)] end.
Proof.
  induction t as [|c t IH]; intros Hall cur.
  - now destruct cur.
  - simpl in Hall. apply andb_true_iff in Hall as [Hc Ht].
    cbn [tokenizeChars]. rewrite (isAlnum_lower c Hc), Hc, (IH Ht).
    cbn [rev]. now rewrite <- app_assoc.
Qed.

Lemma tokenize_word t : isWord t = true -> tokenize t = [t].
Proof.
  unfold isWord, tokenize. intros H. apply andb_true_iff in H as [Hne Hall].
  rewrite (tokenizeChars_run _ Hall), app_nil_r.
  destruct (rev (chars t)) eqn:Hrev.
  - apply (f_equal (@rev ascii)) in Hrev. rewrite rev_involutive in Hrev.
    simpl in Hrev. rewrite <- (str_chars t), Hrev in Hne. discriminate.
  - rewrite <- Hrev, rev_involutive. now rewrite str_chars.
Qed.

Lemma tokenize_spaced a b : tokenize (a +:+ " " +:+ b) = tokenize a ++ tokenize b.
Proof.
  unfold tokenize. rewrite !chars_app.
  change (chars " ") with [" "%char]. cbn [app].
  now apply tokenizeChars_separator.
Qed.

Lemma tokenize_joined ts :
  Forall (fun t => isWord t = true) ts -> tokenize (join " " ts) = ts.
Proof.
  induction 1 as [|t ts Ht Hts IH]; [reflexivity|].
  destruct ts as [|t' ts]; [now apply tokenize_word|].
  change (join " " (t :: t' :: ts)) with (t +:+ " " +:+ join " " (t' :: ts)).
  now rewrite tokenize_spaced, IH, (tokenize_word t Ht).
Qed.

(** X20. The tokens of a text are non-empty runs of lower-case letters and
    digits.  The case of the text does not count; the tokens of two texts
    joined by a space are the tokens of the first followed by those of the
    second; and the tokens joined by spaces tokenize to themselves. *)
Theorem tokenize_gives_words text other :
  Forall (fun t => isWord t = true) (tokenize text)
  /\ tokenize (toLowerCase text) = tokenize text
  /\ tokenize (text +:+ " " +:+ other) = tokenize text ++ tokenize other
  /\ tokenize (join " " (tokenize text)) = tokenize text.
Proof.
  split; [|split; [|split]].
  - now apply tokenizeChars_words.
  - unfold tokenize, toLowerCase. rewrite chars_str. apply tokenizeChars_lower.
  - apply tokenize_spaced.
  - apply tokenize_joined. now apply tokenizeChars_words.
Qed.

(** ** BM25 *)

(** The term frequencies that [computeBm25Score] counts. *)
Definition termFrequencies (docTokens : list string) (start : gmap string nat)
  : gmap string nat :=
  fold_left (fun (m : gmap string nat) token =>
               <[token := (default 0 (m !! token) + 1)%nat]> m) docTokens start.

Lemma termFrequencies_zero docTokens term :
  forall start,
    default 0%nat (termFrequencies docTokens start !! term) = 0%nat
    <-> default 0%nat (start !! term) = 0%nat /\ term ∉ docTokens.
Proof.
  unfold termFrequencies.
  induction docTokens as [|token rest IH]; intros start; cbn [fold_left].
  - split; [intros H; split; [exact H | apply not_elem_of_nil] | now intros [H _]].
  - rewrite IH. destruct (decide (token = term)) as [->|Hne].
    + rewrite lookup_insert. rewrite decide_True by reflexivity. simpl. split.
      * intros [H _]. lia.
      * intros [_ H]. exfalso. apply H. left.
    + rewrite lookup_insert_ne by exact Hne. split.
      * intros [H Hnot]. split; [exact H|].
        intros Hin. apply elem_of_cons in Hin as [Hin|Hin]; [congruence | contradiction].
      * intros [H Hnot]. split; [exact H|].
        intros Hin. apply Hnot. now right.
Qed.

Lemma termFrequency_zero docTokens term :
  (default 0%nat (termFrequencies docTokens ∅ !! term) =? 0)%nat = true
  <-> term ∉ docTokens.
Proof.
  rewrite Nat.eqb_eq, termFrequencies_zero, lookup_empty. simpl. tauto.
Qed.

(** [computeDocumentFrequency]: the count of the documents that hold the
    term, for the terms of the query and for no other. *)
Lemma computeDocumentFrequency_lookup documents queryTokens term :
  computeDocumentFrequency documents queryTokens !! term
  = if bool_decide (term ∈ queryTokens)
    then Some (length (List.filter (fun tokens => bool_decide (term ∈ tokens)) documents))
    else None.
Proof.
  unfold computeDocumentFrequency.
  assert (H : forall (start : gmap string nat),
             fold_left (fun (df : gmap string nat) t =>
                 <[t := length (List.filter (fun tokens => bool_decide (t ∈ tokens))
                                  documents)]> df) queryTokens start !! term
             = if bool_decide (term ∈ queryTokens)
               then Some (length (List.filter (fun tokens => bool_decide (term ∈ tokens))
                                    documents))
               else start !! term).
  { induction queryTokens as [|t rest IH]; intros start; cbn [fold_left].
    - rewrite bool_decide_eq_false_2; [reflexivity | apply not_elem_of_nil].
    - rewrite IH. destruct (bool_decide (term ∈ rest)) eqn:Hrest.
      + apply bool_decide_eq_true in Hrest.
        rewrite bool_decide_eq_true_2; [reflexivity | now right].
      + apply bool_decide_eq_false in Hrest.
        destruct (decide (t = term)) as [->|Hne].
        * rewrite lookup_insert, decide_True by reflexivity.
          rewrite bool_decide_eq_true_2; [reflexivity | left].
        * rewrite lookup_insert_ne by exact Hne.
          rewrite bool_decide_eq_false_2; [reflexivity|].
          intros Hin. apply elem_of_cons in Hin as [Hin|Hin];
            [congruence | contradiction]. }
  rewrite H, lookup_empty. now destruct (bool_decide (term ∈ queryTokens)).
Qed.

Lemma filter_length_le {A} (p : A -> bool) l : (length (List.filter p l) <= length l)%nat.
Proof. induction l as [|x l IH]; simpl; [lia|]. destruct (p x); simpl; lia. Qed.

Section Scores.

(** [Math.log] is positive above 1. *)
Variable ln : Q -> Q.
Hypothesis ln_positive : forall x : Q, (1 < x)%Q -> (0 < ln x)%Q.

Variable docTokens queryTokens : list string.
Variable df : gmap string nat.
Variable totalDocs : nat.
Variable avgDocLength : Q.

(** The frequencies are counts of documents among [totalDocs], and the
    average length is no negative number. *)
Hypothesis df_counts :
  forall term, term ∈ queryTokens ->
               exists n, df !! term = Some n /\ (n <= totalDocs)%nat.
Hypothesis avg_nonneg : (0 <= avgDocLength)%Q.

(** What a term of the query that stands in the document adds to the score. *)
Definition termScore (termFrequency : nat) (term : string) : Q :=
  let documentFrequency :=
    match df !! term with Some n => ofNat n | None => 0.5%Q end in
  (ln ((ofNat totalDocs - documentFrequency + 0.5) / (documentFrequency + 0.5) + 1)
   * ((ofNat termFrequency * (1.5 + 1))
      / (ofNat termFrequency
         + 1.5 * (1 - 0.75
                  + (0.75 * ofNat (length docTokens))
                    / (if Qeq_bool avgDocLength 0 then 1 else avgDocLength)))))%Q.

Lemma ofNat_le n m : (n <= m)%nat -> (ofNat n <= ofNat m)%Q.
Proof. intros H. unfold ofNat, Qle. simpl. lia. Qed.

Lemma ofNat_pos n : (0 < n)%nat -> (0 < ofNat n)%Q.
Proof. intros H. unfold ofNat, Qlt. simpl. lia. Qed.

Lemma ofNat_ge0 n : (0 <= ofNat n)%Q.
Proof. unfold ofNat, Qle. simpl. lia. Qed.

Lemma Qdiv_positive a b : (0 < a)%Q -> (0 < b)%Q -> (0 < a / b)%Q.
Proof. intros Ha Hb. apply Qlt_shift_div_l; [exact Hb | lra]. Qed.

Lemma Qdiv_nonneg a b : (0 <= a)%Q -> (0 < b)%Q -> (0 <= a / b)%Q.
Proof. intros Ha Hb. apply Qle_shift_div_l; [exact Hb | lra]. Qed.

Lemma termScore_positive termFrequency term :
  term ∈ queryTokens -> (0 < termFrequency)%nat ->
  (0 < termScore termFrequency term)%Q.
Proof.
  intros Hin Htf. unfold termScore.
  destruct (df_counts term Hin) as (n & -> & Hn).
  pose proof (ofNat_le _ _ Hn) as Hle. pose proof (ofNat_ge0 n) as Hn0.
  pose proof (ofNat_pos _ Htf) as Htf0.
  pose proof (ofNat_ge0 (length docTokens)) as Hlen.
  apply Qmult_lt_0_compat.
  - apply ln_positive.
    assert (0 < (ofNat totalDocs - ofNat n + 0.5) / (ofNat n + 0.5))%Q
      by (apply Qdiv_positive; lra).
    lra.
  - apply Qdiv_positive; [lra|].
    assert (Havg : (0 < (if Qeq_bool avgDocLength 0 then 1 else avgDocLength))%Q).
    { destruct (Qeq_bool avgDocLength 0) eqn:Hz; [lra|].
      apply Qeq_bool_neq in Hz. destruct (Qlt_le_dec 0 avgDocLength) as [H|H]; [exact H|].
      exfalso. apply Hz. lra. }
    assert (0 <= (0.75 * ofNat (length docTokens))
                 / (if Qeq_bool avgDocLength 0 then 1 else avgDocLength))%Q
      by (apply Qdiv_nonneg; [lra | exact Havg]).
    lra.
Qed.

(** The loop over the terms of the query. *)
Definition scoreLoop (terms : list string) (start : Q) : Q :=
  fold_left (fun (acc : Q) term =>
      let termFrequency := default 0%nat (termFrequencies docTokens ∅ !! term) in
      if (termFrequency =? 0)%nat then acc
      else (acc + termScore termFrequency term)%Q)
    terms start.

Lemma scoreLoop_disjoint terms start :
  Forall (fun term => term ∉ docTokens) terms -> scoreLoop terms start = start.
Proof.
  unfold scoreLoop. intros Hall. revert start.
  induction Hall as [|term terms Hterm _ IH]; intros start; cbn [fold_left];
    [reflexivity|].
  apply termFrequency_zero in Hterm. rewrite Hterm. apply IH.
Qed.

Lemma scoreLoop_grows terms :
  (forall term, term ∈ terms -> term ∈ queryTokens) ->
  forall start,
    (start <= scoreLoop terms start)%Q
    /\ (Exists (fun term => term ∈ docTokens) terms -> (start < scoreLoop terms start)%Q).
Proof.
  unfold scoreLoop. induction terms as [|term terms IH]; intros Hsub start;
    cbn [fold_left].
  - split; [lra | intros H; inversion H].
  - assert (Hsub' : forall t, t ∈ terms -> t ∈ queryTokens)
      by (intros t Ht; apply Hsub; now right).
    destruct (default 0%nat (termFrequencies docTokens ∅ !! term) =? 0)%nat eqn:Hz.
    + destruct (IH Hsub' start) as [Hle Hlt]. split; [exact Hle|].
      intros Hex. apply Exists_cons in Hex as [Hin|Hex]; [|now apply Hlt].
      apply termFrequency_zero in Hz. contradiction.
    + apply Nat.eqb_neq in Hz.
      pose proof (termScore_positive
                    (default 0%nat (termFrequencies docTokens ∅ !! term)) term
                    (Hsub term ltac:(left)) ltac:(lia)) as Hpos.
      destruct (IH Hsub' (start + termScore
                            (default 0%nat (termFrequencies docTokens ∅ !! term))
                            term)%Q) as [Hle _].
      split; [lra | intros _; lra].
Qed.

Lemma computeBm25Score_loop :
  computeBm25Score ln docTokens queryTokens df totalDocs avgDocLength
  = if (length docTokens =? 0)%nat || (length queryTokens =? 0)%nat then 0%Q
    else scoreLoop queryTokens 0.
Proof. reflexivity. Qed.

Lemma bm25_zero_or_positive :
  (Forall (fun term => term ∉ docTokens) queryTokens ->
   computeBm25Score ln docTokens queryTokens df totalDocs avgDocLength = 0%Q)
  /\ (Exists (fun term => term ∈ docTokens) queryTokens ->
      (0 < computeBm25Score ln docTokens queryTokens df totalDocs avgDocLength)%Q).
Proof.
  rewrite computeBm25Score_loop. split.
  - intros Hall. destruct (_ || _); [reflexivity | now apply scoreLoop_disjoint].
  - intros Hex.
    assert (Hdoc : (length docTokens =? 0)%nat = false).
    { apply Nat.eqb_neq. intros Hz. apply nil_length_inv in Hz.
      apply Exists_exists in Hex as (t & _ & Ht). rewrite Hz in Ht.
      now apply elem_of_nil in Ht. }
    assert (Hquery : (length queryTokens =? 0)%nat = false).
    { apply Nat.eqb_neq. intros Hz. apply nil_length_inv in Hz.
      rewrite Hz in Hex. inversion Hex. }
    rewrite Hdoc, Hquery. cbn [orb].
    now apply (scoreLoop_grows queryTokens (fun _ H => H) 0%Q).
Qed.

End Scores.

(** X21. With a logarithm that is positive above 1, document frequencies that
    count documents among [totalDocs] and a non-negative average length, the
    BM25 score of a document is exactly 0 when no term of the query stands in
    the document, and positive when one does. *)
Theorem bm25_positive_iff_shared_term (ln : Q -> Q) docTokens queryTokens
  (df : gmap string nat) totalDocs avgDocLength :
  (forall x : Q, (1 < x)%Q -> (0 < ln x)%Q) ->
  (forall term, term ∈ queryTokens ->
                exists n, df !! term = Some n /\ (n <= totalDocs)%nat) ->
  (0 <= avgDocLength)%Q ->
  (Forall (fun term => term ∉ docTokens) queryTokens ->
   computeBm25Score ln docTokens queryTokens df totalDocs avgDocLength = 0%Q)
  /\ (Exists (fun term => term ∈ docTokens) queryTokens ->
      (0 < computeBm25Score ln docTokens queryTokens df totalDocs avgDocLength)%Q).
Proof. intros Hln Hdf Havg. now apply bm25_zero_or_positive. Qed.

(** A logarithm for concrete runs: [x - 1], positive above 1. *)
Definition chord (x : Q) : Q := (x - 1)%Q.

Lemma chord_positive (x : Q) : (1 < x)%Q -> (0 < chord x)%Q.
Proof. unfold chord. intros H. lra. Qed.

Lemma bm25_positive_iff_shared_term_witness :
  computeBm25Score chord ["ter"; "limits"] ["nav"]
    (computeDocumentFrequency [["ter"; "limits"]; ["nav"; "rules"]] ["nav"]) 2 2 = 0%Q
  /\ (0 < computeBm25Score chord ["nav"; "rules"] ["nav"]
            (computeDocumentFrequency [["ter"; "limits"]; ["nav"; "rules"]] ["nav"])
            2 2)%Q.
Proof.
  assert (Hdf : forall term, term ∈ ["nav"] ->
            exists n,
              computeDocumentFrequency [["ter"; "limits"]; ["nav"; "rules"]] ["nav"]
                !! term = Some n /\ (n <= 2)%nat).
  { intros term Hin. apply list_elem_of_singleton in Hin. subst term.
    exists 1%nat. split; [reflexivity | lia]. }
  split.
  - apply (bm25_positive_iff_shared_term chord ["ter"; "limits"] ["nav"] _ 2 2
             chord_positive Hdf); [lra|].
    constructor; [|constructor].
    intros Hin. apply elem_of_cons in Hin as [Hin|Hin]; [discriminate|].
    apply list_elem_of_singleton in Hin. discriminate.
  - apply (bm25_positive_iff_shared_term chord ["nav"; "rules"] ["nav"] _ 2 2
             chord_positive Hdf); [lra|].
    constructor. left.
Defined.

(** ** Sorting by descending score *)

(** No element is above one that stands before it. *)
Fixpoint descending (l : list Q) : Prop :=
  match l with
  | [] => True
  | x :: t => Forall (fun y => (y <= x)%Q) t /\ descending t
  end.

Lemma insertDesc_perm {A} (key : A -> Q) x l : insertDesc key x l ≡ₚ x :: l.
Proof.
  induction l as [|y l IH]; simpl; [reflexivity|].
  destruct (Qle_bool (key y) (key x)); [reflexivity|].
  rewrite IH. apply Permutation_swap.
Qed.

Lemma sortDesc_perm {A} (key : A -> Q) l : sortDesc key l ≡ₚ l.
Proof.
  induction l as [|x l IH]; simpl; [reflexivity|].
  now rewrite insertDesc_perm, IH.
Qed.

Lemma insertDesc_descending {A} (key : A -> Q) x l :
  descending (map key l) -> descending (map key (insertDesc key x l)).
Proof.
  induction l as [|y l IH]; simpl.
  - intros _. split; [constructor | exact I].
  - intros [Hall Hdesc]. destruct (Qle_bool (key y) (key x)) eqn:Hle; simpl.
    + apply Qle_bool_iff in Hle. split; [|now split].
      constructor; [exact Hle|].
      eapply Forall_impl; [exact Hall|]. intros z Hz. simpl in Hz. lra.
    + split; [|now apply IH].
      assert (Hlt : (key x < key y)%Q).
      { apply Qnot_le_lt. intros H. apply Qle_bool_iff in H. congruence. }
      rewrite (insertDesc_perm key x l). simpl. constructor; [lra | exact Hall].
Qed.

Lemma sortDesc_descending {A} (key : A -> Q) l : descending (map key (sortDesc key l)).
Proof.
  induction l as [|x l IH]; simpl; [exact I|]. now apply insertDesc_descending.
Qed.

Lemma descending_take n l : descending l -> descending (take n l).
Proof.
  revert n. induction l as [|x l IH]; intros [|n]; simpl; try easy.
  intros [Hall Hdesc]. split; [now apply Forall_take | now apply IH].
Qed.

Lemma slice0_descending {A} (key : A -> Q) limit l :
  descending (map key l) -> descending (map key (slice0 limit l)).
Proof.
  unfold slice0. intros H.
  destruct (0 <=? limit)%Z; rewrite <- firstn_map; now apply descending_take.
Qed.

Lemma slice0_length {A} limit (l : list A) :
  (0 <= limit)%Z -> length (slice0 limit l) = Nat.min (Z.to_nat limit) (length l).
Proof.
  intros H. unfold slice0. apply Z.leb_le in H. rewrite H. apply length_take.
Qed.

Lemma slice0_all {A} limit (l : list A) :
  (Z.of_nat (length l) <= limit)%Z -> slice0 limit l = l.
Proof.
  intros H. unfold slice0.
  assert (H0 : (0 <=? limit)%Z = true) by (apply Z.leb_le; lia).
  rewrite H0. apply take_ge. lia.
Qed.

Lemma slice0_sublist {A} limit (l : list A) : slice0 limit l `sublist_of` l.
Proof. unfold slice0. destruct (0 <=? limit)%Z; apply sublist_take. Qed.

(** ** Reciprocal rank fusion: the list returned *)

Section Ranked.

Variable k : Q.

Definition fuseStep (sc : list (string * (SearchResult * Q))) (ir : nat * SearchResult)
  : list (string * (SearchResult * Q)) :=
  accumulate (rrfKey (snd ir)) (snd ir) (1 / (k + ofNat (fst ir) + 1))%Q sc.

Lemma accumulate_results (P : SearchResult -> Prop) key r inc scores :
  P r -> Forall (fun e => P (fst (snd e))) scores ->
  Forall (fun e => P (fst (snd e))) (accumulate key r inc scores).
Proof.
  intros Hr. induction 1 as [|[k0 [r0 s]] rest Hk Hrest IH]; simpl.
  - now repeat constructor.
  - destruct (String.eqb k0 key); constructor; auto.
Qed.

Lemma accumulate_length key r inc scores :
  (length (accumulate key r inc scores) <= S (length scores))%nat.
Proof.
  induction scores as [|[k0 [r0 s]] rest IH]; simpl; [lia|].
  destruct (String.eqb k0 key); simpl; lia.
Qed.

Lemma accumulate_key_kept key r inc scores key' :
  key' ∈ map fst scores -> key' ∈ map fst (accumulate key r inc scores).
Proof.
  rewrite accumulate_keys. destruct (bool_decide _); [easy|].
  intros H. apply elem_of_app. now left.
Qed.

Lemma accumulate_key_added key r inc scores :
  key ∈ map fst (accumulate key r inc scores).
Proof.
  rewrite accumulate_keys. destruct (bool_decide _) eqn:H.
  - now apply bool_decide_eq_true in H.
  - apply elem_of_app. right. left.
Qed.

(** The inner loop: what it keeps and what it adds. *)
Lemma fuseSteps_spec (P : SearchResult -> Prop) irs :
  forall scores,
    let scores' := fold_left fuseStep irs scores in
    (forall key, key ∈ map fst scores -> key ∈ map fst scores')
    /\ (forall ir, ir ∈ irs -> rrfKey (snd ir) ∈ map fst scores')
    /\ (length scores' <= length scores + length irs)%nat
    /\ (Forall (fun ir => P (snd ir)) irs ->
        Forall (fun e => P (fst (snd e))) scores ->
        Forall (fun e => P (fst (snd e))) scores').
Proof.
  induction irs as [|ir irs IH]; intros scores; cbv zeta; cbn [fold_left].
  - split; [|split; [|split]].
    + intros key Hkey. exact Hkey.
    + intros ir Hin. now apply elem_of_nil in Hin.
    + simpl. lia.
    + intros _ Hscores. exact Hscores.
  - destruct (IH (fuseStep scores ir)) as (Hkept & Hadded & Hlen & HP).
    split; [|split; [|split]].
    + intros key Hkey. apply Hkept. now apply accumulate_key_kept.
    + intros ir' Hin. apply elem_of_cons in Hin as [->|Hin]; [|now apply Hadded].
      apply Hkept. apply accumulate_key_added.
    + assert (Hacc : (length (fuseStep scores ir) <= S (length scores))%nat)
        by apply accumulate_length.
      cbn [length]. lia.
    + intros Hirs Hscores. apply Forall_cons in Hirs as [Hir Hirs].
      apply HP; [exact Hirs|]. now apply accumulate_results.
Qed.

Lemma fusedScores_spec (P : SearchResult -> Prop) resultSets :
  (forall results r, results ∈ resultSets -> r ∈ results ->
                     rrfKey r ∈ map fst (fusedScores k resultSets))
  /\ (length (fusedScores k resultSets) <= length (concat resultSets))%nat
  /\ (Forall (Forall P) resultSets ->
      Forall (fun e => P (fst (snd e))) (fusedScores k resultSets)).
Proof.
  unfold fusedScores.
  assert (H : forall sets scores,
             let scores' := fold_left (fuseList k) sets scores in
             (forall key, key ∈ map fst scores -> key ∈ map fst scores')
             /\ (forall results r, results ∈ sets -> r ∈ results ->
                                   rrfKey r ∈ map fst scores')
             /\ (length scores' <= length scores + length (concat sets))%nat
             /\ (Forall (Forall P) sets ->
                 Forall (fun e => P (fst (snd e))) scores ->
                 Forall (fun e => P (fst (snd e))) scores')).
  { induction sets as [|results sets IH]; intros scores; cbv zeta; cbn [fold_left].
    - split; [|split; [|split]].
      + intros key Hkey. exact Hkey.
      + intros results r Hin. now apply elem_of_nil in Hin.
      + simpl. lia.
      + intros _ Hscores. exact Hscores.
    - destruct (IH (fuseList k scores results)) as (Hkept & Hadded & Hlen & HP).
      destruct (fuseSteps_spec P (imap pair results) scores)
        as (Hkept1 & Hadded1 & Hlen1 & HP1).
      change (fold_left fuseStep (imap pair results) scores)
        with (fuseList k scores results) in *.
      split; [|split; [|split]].
      + intros key Hkey. now apply Hkept, Hkept1.
      + intros results' r Hin Hr. apply elem_of_cons in Hin as [->|Hin];
          [|now apply (Hadded results')].
        apply Hkept. apply list_elem_of_lookup in Hr as [i Hi].
        apply (Hadded1 (i, r)). apply list_elem_of_lookup. exists i.
        rewrite list_lookup_imap, Hi. reflexivity.
      + rewrite length_imap in Hlen1. simpl. rewrite length_app. lia.
      + intros Hsets Hscores. apply Forall_cons in Hsets as [Hresults Hsets].
        apply HP; [exact Hsets|]. apply HP1; [|exact Hscores].
        rewrite Forall_forall in Hresults. rewrite Forall_forall. intros [i r] Hin.
        apply list_elem_of_lookup in Hin as [j Hj].
        rewrite list_lookup_imap in Hj.
        destruct (results !! j) as [r'|] eqn:Hr'; [|discriminate].
        injection Hj as <- <-. apply Hresults. now apply list_elem_of_lookup_2 in Hr'. }
  destruct (H resultSets []) as (_ & Hadded & Hlen & HP).
  split; [exact Hadded|]. split; [simpl in Hlen; lia|].
  intros Hsets. apply HP; [exact Hsets | constructor].
Qed.

(** The key of a result that is returned is the key of its entry. *)
Lemma output_keys (entries : list (string * (SearchResult * Q))) :
  Forall (fun e => fst e = rrfKey (fst (snd e))) entries ->
  map (fun entry : SearchResult * Q =>
         rrfKey {| score := snd entry; chunk := chunk (fst entry);
                   document := document (fst entry) |})
      (map snd entries)
  = map fst entries.
Proof.
  induction 1 as [|[key [r s]] rest Hkey _ IH]; [reflexivity|].
  cbn [map fst snd]. rewrite IH. f_equal. simpl in Hkey. now rewrite Hkey.
Qed.

Lemma fusion_ranked resultSets limit :
  NoDup (map rrfKey (reciprocalRankFusionWith k resultSets limit))
  /\ descending (map score (reciprocalRankFusionWith k resultSets limit))
  /\ ((0 <= limit)%Z ->
      length (reciprocalRankFusionWith k resultSets limit)
      = Nat.min (Z.to_nat limit) (length (fusedScores k resultSets)))
  /\ (forall r, r ∈ reciprocalRankFusionWith k resultSets limit ->
                exists results r0,
                  results ∈ resultSets /\ r0 ∈ results
                  /\ chunk r = chunk r0 /\ document r = document r0)
  /\ ((Z.of_nat (length (concat resultSets)) <= limit)%Z ->
      forall results r0, results ∈ resultSets -> r0 ∈ results ->
                         rrfKey r0 ∈ map rrfKey (reciprocalRankFusionWith k resultSets limit)).
Proof.
  destruct (fusedScores_wellKeyed k resultSets) as [Hnd Hkeys].
  destruct (fusedScores_spec
              (fun r => exists results r0,
                          results ∈ resultSets /\ r0 ∈ results
                          /\ chunk r = chunk r0 /\ document r = document r0)
              resultSets) as (Hadded & Hlen & Hfrom).
  unfold reciprocalRankFusionWith.
  set (entries := fusedScores k resultSets) in *.
  set (rebuilt := fun entry : SearchResult * Q =>
                    {| score := snd entry; chunk := chunk (fst entry);
                       document := document (fst entry) |}).
  assert (Hall : NoDup (map (fun e => rrfKey (rebuilt e)) (map snd entries))).
  { unfold rebuilt. now rewrite output_keys. }
  split; [|split; [|split; [|split]]].
  - rewrite map_map.
    assert (Hsub : map (fun e => rrfKey (rebuilt e))
                       (slice0 limit (sortDesc snd (map snd entries)))
                   `sublist_of` map (fun e => rrfKey (rebuilt e))
                                    (sortDesc snd (map snd entries)))
      by exact (fmap_sublist (fun e => rrfKey (rebuilt e)) _ _ (slice0_sublist limit _)).
    assert (Hsorted : NoDup (map (fun e => rrfKey (rebuilt e))
                               (sortDesc snd (map snd entries))))
      by (rewrite (sortDesc_perm snd (map snd entries)); exact Hall).
    eapply sublist_NoDup; eassumption.
  - rewrite map_map. simpl. apply slice0_descending, sortDesc_descending.
  - intros Hlimit. rewrite length_map, slice0_length by exact Hlimit.
    now rewrite (sortDesc_perm snd (map snd entries)), length_map.
  - intros r Hin. apply list_elem_of_fmap in Hin as ([r1 s1] & -> & Hin).
    apply slice0_elem, sortDesc_elem in Hin.
    apply list_elem_of_fmap in Hin as ([key [r2 s2]] & Heq & Hin).
    simpl in Heq. injection Heq as <- <-.
    assert (HP : Forall
                   (fun e : string * (SearchResult * Q) =>
                      exists results r0,
                        results ∈ resultSets /\ r0 ∈ results
                        /\ chunk (fst (snd e)) = chunk r0
                        /\ document (fst (snd e)) = document r0) entries).
    { apply Hfrom. rewrite Forall_forall. intros results Hresults.
      rewrite Forall_forall. intros r0 Hr0. now exists results, r0. }
    rewrite Forall_forall in HP. exact (HP _ Hin).
  - intros Hlimit results r0 Hresults Hr0.
    rewrite slice0_all.
    + rewrite map_map. rewrite (sortDesc_perm snd (map snd entries)).
      unfold rebuilt in Hall. rewrite output_keys by exact Hkeys.
      now apply (Hadded results).
    + rewrite (sortDesc_perm snd (map snd entries)), length_map. lia.
Qed.

End Ranked.

(** X22. Whatever the lists given to [reciprocalRankFusion], no key
    [document id - chunk id] stands twice in what it returns; the scores
    returned never rise along the list; for a limit of 0 or more at most
    [limit] results are returned; the chunk and the document of every result
    are those of a result of one of the lists; and with a limit that is not
    below the number of results given, every key given is returned. *)
Theorem fusion_returns_ranked_distinct_keys resultSets limit :
  NoDup (map rrfKey (reciprocalRankFusion resultSets limit))
  /\ descending (map score (reciprocalRankFusion resultSets limit))
  /\ ((0 <= limit)%Z ->
      (length (reciprocalRankFusion resultSets limit) <= Z.to_nat limit)%nat)
  /\ (forall r, r ∈ reciprocalRankFusion resultSets limit ->
                exists results r0,
                  results ∈ resultSets /\ r0 ∈ results
                  /\ chunk r = chunk r0 /\ document r = document r0)
  /\ ((Z.of_nat (length (concat resultSets)) <= limit)%Z ->
      forall results r0, results ∈ resultSets -> r0 ∈ results ->
                         rrfKey r0 ∈ map rrfKey (reciprocalRankFusion resultSets limit)).
Proof.
  unfold reciprocalRankFusion.
  destruct (fusion_ranked RRF_K resultSets limit) as (H1 & H2 & H3 & H4 & H5).
  repeat split; try assumption.
  intros Hlimit. rewrite (H3 Hlimit). lia.
Qed.

(** ** [keywordSearch] *)

Section Lexical.

Context {Store : Type}.
Variable client : Client Store.
Variable collectionName : string.
Variable schemas : Schemas.
Variable parseDate : string -> JsDate.
Variable toISOString : Z -> string.
Variable ln : Q -> Q.
Hypothesis ln_positive : forall x : Q, (1 < x)%Q -> (0 < ln x)%Q.

Lemma lengths_sum_nonneg (documents : list (SearchResult * list string)) :
  forall start : Q,
    (0 <= start)%Q ->
    (0 <= fold_left (fun sum doc => sum + ofNat (length (snd doc))) documents start)%Q.
Proof.
  induction documents as [|doc documents IH]; intros start Hstart; simpl; [exact Hstart|].
  apply IH. pose proof (ofNat_ge0 (length (snd doc))). lra.
Qed.

(** The scored candidates of [keywordSearch], before the sort. *)
Definition scoredCandidates (query : string) (candidates : list SearchResult)
  : list ((SearchResult * list string) * Q) :=
  let queryTokens := tokenize query in
  let documents := map (fun c => (c, tokenize (content (chunk c)))) candidates in
  let avgDocLength :=
    (fold_left (fun sum doc => sum + ofNat (length (snd doc))) documents 0
     / ofNat (Nat.max (length documents) 1))%Q in
  let docFrequencies := computeDocumentFrequency (map snd documents) queryTokens in
  map (fun doc =>
         (doc, computeBm25Score ln (snd doc) queryTokens docFrequencies
                 (length documents) avgDocLength)) documents.

Lemma scoredCandidates_scores query candidates d :
  d ∈ scoredCandidates query candidates ->
  fst (fst d) ∈ candidates
  /\ (Forall (fun term => term ∉ tokenize (content (chunk (fst (fst d)))))
             (tokenize query) -> snd d = 0%Q)
  /\ (Exists (fun term => term ∈ tokenize (content (chunk (fst (fst d)))))
             (tokenize query) -> (0 < snd d)%Q).
Proof.
  unfold scoredCandidates. intros Hin.
  apply list_elem_of_fmap in Hin as ([c toks] & -> & Hin).
  apply list_elem_of_fmap in Hin as (c' & Heq & Hin). injection Heq as <- ->.
  cbn [fst snd]. split; [exact Hin|].
  apply bm25_zero_or_positive.
  - exact ln_positive.
  - intros term Hterm. rewrite computeDocumentFrequency_lookup.
    rewrite bool_decide_eq_true_2 by exact Hterm. eexists. split; [reflexivity|].
    etransitivity; [apply filter_length_le|]. now rewrite !length_map.
  - apply Qdiv_nonneg.
    + apply lengths_sum_nonneg. lra.
    + apply ofNat_pos. lia.
Qed.

Lemma keywordSearch_ranked pages query limit filters candidates (w w' : World Store) :
  fetchAllPoints client collectionName schemas parseDate toISOString pages filters w
  = (inr (Some candidates), w') ->
  exists out,
    keywordSearch client collectionName schemas parseDate toISOString ln
      pages query limit filters w = (inr (Some out), w')
    /\ ((0 <= limit)%Z -> length out = Nat.min (Z.to_nat limit) (length candidates))
    /\ (truthy (trim query) = false -> out = slice0 limit candidates)
    /\ (truthy (trim query) = true ->
        descending (map score out)
        /\ Forall (fun r =>
                     exists c, c ∈ candidates
                       /\ chunk r = chunk c /\ document r = document c
                       /\ (Forall (fun term => term ∉ tokenize (content (chunk c)))
                                  (tokenize query) -> score r = 0%Q)
                       /\ (Exists (fun term => term ∈ tokenize (content (chunk c)))
                                  (tokenize query) -> (0 < score r)%Q)) out).
Proof.
  intros Hfetch. unfold keywordSearch, bind. rewrite Hfetch.
  destruct (truthy (trim query)) eqn:Hquery; cbn [negb]; unfold ret.
  - change (map (fun doc => (doc, computeBm25Score ln (snd doc) (tokenize query) _ _ _))
                (map (fun c => (c, tokenize (content (chunk c)))) candidates))
      with (scoredCandidates query candidates).
    eexists. split; [reflexivity|]. split; [|split; [discriminate|]].
    + intros Hlimit. rewrite length_map, slice0_length by exact Hlimit.
      rewrite (sortDesc_perm snd (scoredCandidates query candidates)).
      unfold scoredCandidates. now rewrite !length_map.
    + intros _. split.
      * rewrite map_map. simpl. apply slice0_descending, sortDesc_descending.
      * rewrite Forall_forall. intros r Hin.
        apply list_elem_of_fmap in Hin as (d & -> & Hin).
        apply slice0_elem, sortDesc_elem in Hin.
        destruct (scoredCandidates_scores query candidates d Hin) as (Hc & Hzero & Hpos).
        exists (fst (fst d)). simpl. auto.
  - eexists. split; [reflexivity|]. split; [|split; [reflexivity | discriminate]].
    intros Hlimit. now apply slice0_length.
Qed.

End Lexical.

(** X23. On the candidates that the scan of the store gives it,
    [keywordSearch] drops none for its score: for a limit of 0 or more it
    returns [limit] results, or all candidates when they are fewer.  A blank
    query returns the first candidates as they are.  Otherwise the results
    never rise in score along the list, each is a candidate with its BM25
    score in place of its score, 0 when no token of the query stands in the
    content of the chunk and positive when one does. *)
Theorem keywordSearch_ranks_every_candidate {Store} (client : Client Store)
  collectionName schemas parseDate toISOString (ln : Q -> Q)
  pages query limit filters candidates (w w' : World Store) :
  (forall x : Q, (1 < x)%Q -> (0 < ln x)%Q) ->
  fetchAllPoints client collectionName schemas parseDate toISOString pages filters w
  = (inr (Some candidates), w') ->
  exists out,
    keywordSearch client collectionName schemas parseDate toISOString ln
      pages query limit filters w = (inr (Some out), w')
    /\ ((0 <= limit)%Z -> length out = Nat.min (Z.to_nat limit) (length candidates))
    /\ (truthy (trim query) = false -> out = slice0 limit candidates)
    /\ (truthy (trim query) = true ->
        descending (map score out)
        /\ Forall (fun r =>
                     exists c, c ∈ candidates
                       /\ chunk r = chunk c /\ document r = document c
                       /\ (Forall (fun term => term ∉ tokenize (content (chunk c)))
                                  (tokenize query) -> score r = 0%Q)
                       /\ (Exists (fun term => term ∈ tokenize (content (chunk c)))
                                  (tokenize query) -> (0 < score r)%Q)) out).
Proof. intros Hln Hfetch. now apply keywordSearch_ranked. Qed.

(** One stored chunk about TER limits, read back under the schemas of the
    code, and a query about NAV: the chunk is returned with the score 0. *)
Lemma keywordSearch_ranks_every_candidate_witness :
  exists out,
    keywordSearch (scriptedClient [soundHit]) "sebi_regulations" (zodSchemas httpsUrl)
      epochOf epochText chord 8 "NAV" 5 None startWorld
    = (inr (Some out),
       {| now := 0; service := tt;
          trace := [Scroll "sebi_regulations" None None] |})
    /\ length out = 1%nat
    /\ Forall (fun r => score r = 0%Q) out.
Proof.
  destruct (keywordSearch_ranks_every_candidate (scriptedClient [soundHit])
              "sebi_regulations" (zodSchemas httpsUrl) epochOf epochText chord
              8 "NAV" 5 None [sampleResult "d1" 0.9] startWorld
              {| now := 0; service := tt;
                 trace := [Scroll "sebi_regulations" None None] |}
              chord_positive eq_refl)
    as (out & Hrun & Hlen & _ & Hranked).
  exists out. split; [exact Hrun|]. split; [apply Hlen; lia|].
  destruct (Hranked eq_refl) as [_ Hall].
  eapply Forall_impl; [exact Hall|].
  intros r (c & Hc & _ & _ & Hzero & _). apply Hzero.
  apply list_elem_of_singleton in Hc. subst c.
  change (tokenize "NAV") with ["nav"].
  change (tokenize (content (chunk (sampleResult "d1" 0.9))))
    with ["ter"; "limits"; "for"; "equity"; "schemes"].
  constructor; [|constructor].
  intros Hin. repeat (apply elem_of_cons in Hin as [Hin|Hin]; [discriminate|]).
  now apply elem_of_nil in Hin.
Defined.

End SearchFacts.

(* ================================================================== *)
(** * Metadata and corpus statistics *)
(* ================================================================== *)

Module CorpusFacts.
Import Js Types Effect Ingest.

(** ** [mergeMetadata] *)

Lemma assoc_app key (a b : Metadata) :
  assoc key (a ++ b) = match assoc key a with Some v => Some v | None => assoc key b end.
Proof.
  induction a as [|[k v] a IH]; [reflexivity|]. simpl.
  now destruct (String.eqb k key).
Qed.

Lemma assoc_none key (a : Metadata) : assoc key a = None <-> key ∉ map fst a.
Proof.
  induction a as [|[k v] a IH]; simpl.
  - split; [intros _; apply not_elem_of_nil | reflexivity].
  - destruct (String.eqb k key) eqn:Hk.
    + apply String.eqb_eq in Hk. subst k. split; [discriminate|].
      intros H. exfalso. apply H. left.
    + apply String.eqb_neq in Hk. rewrite IH. split.
      * intros H Hin. apply elem_of_cons in Hin as [Hin|Hin]; [congruence | contradiction].
      * intros H Hin. apply H. now right.
Qed.

Lemma assoc_updated key (a b : Metadata) :
  assoc key (map (fun kv => (fst kv, default (snd kv) (assoc (fst kv) b))) a)
  = match assoc key a with
    | Some v => Some (default v (assoc key b))
    | None => None
    end.
Proof.
  induction a as [|[k v] a IH]; [reflexivity|]. simpl.
  destruct (String.eqb k key) eqn:Hk; [|exact IH].
  apply String.eqb_eq in Hk. now subst k.
Qed.

Lemma dedupKeys_lookup key (b : Metadata) :
  forall seen, key ∉ seen -> assoc key (dedupKeys seen b) = assoc key b.
Proof.
  induction b as [|[k v] b IH]; intros seen Hseen; [reflexivity|].
  cbn [dedupKeys assoc]. destruct (bool_decide (k ∈ seen)) eqn:Hk.
  - apply bool_decide_eq_true in Hk.
    assert (Hne : String.eqb k key = false)
      by (apply String.eqb_neq; intros ->; contradiction).
    rewrite Hne. now apply IH.
  - cbn [assoc]. destruct (String.eqb k key) eqn:Hkey; [reflexivity|].
    apply String.eqb_neq in Hkey. apply IH.
    intros Hin. apply elem_of_cons in Hin as [Hin|Hin]; [congruence | contradiction].
Qed.

Lemma dedupKeys_keys (b : Metadata) :
  forall seen,
    NoDup (map fst (dedupKeys seen b))
    /\ forall key, key ∈ map fst (dedupKeys seen b) -> key ∉ seen.
Proof.
  induction b as [|[k v] b IH]; intros seen; cbn [dedupKeys].
  - split; [apply NoDup_nil_2 | intros key Hin; now apply elem_of_nil in Hin].
  - destruct (bool_decide (k ∈ seen)) eqn:Hk; [apply IH|].
    apply bool_decide_eq_false in Hk.
    destruct (IH (k :: seen)) as [Hnd Hout]. cbn [map fst]. split.
    + apply NoDup_cons. split; [|exact Hnd].
      intros Hin. apply (Hout k Hin). left.
    + intros key Hin. apply elem_of_cons in Hin as [->|Hin]; [exact Hk|].
      intros Hseen. apply (Hout key Hin). now right.
Qed.

(** [{ ...a, ...b }]: a key reads as in [b] when [b] has it, as in [a]
    otherwise. *)
Lemma spread_lookup key (a b : Metadata) :
  assoc key (spread a b)
  = match assoc key b with Some v => Some v | None => assoc key a end.
Proof.
  unfold spread. rewrite assoc_app, assoc_updated.
  destruct (assoc key a) as [v|] eqn:Ha.
  - now destruct (assoc key b).
  - apply assoc_none in Ha. rewrite (dedupKeys_lookup key b _ Ha).
    now destruct (assoc key b).
Qed.

Lemma spread_keys (a b : Metadata) :
  NoDup (map fst a) -> NoDup (map fst (spread a b)).
Proof.
  intros Ha. unfold spread. rewrite map_app, map_map. cbn [fst].
  destruct (dedupKeys_keys b (map fst a)) as [Hnd Hout].
  apply NoDup_app. split; [exact Ha|]. split; [|exact Hnd].
  intros key Hin Hin'. exact (Hout key Hin' Hin).
Qed.

Lemma spread_nothing (a : Metadata) : spread a [] = a.
Proof.
  unfold spread. simpl. rewrite app_nil_r.
  induction a as [|[k v] a IH]; [reflexivity|]. simpl. now rewrite IH.
Qed.

(** X24. What [mergeMetadata] returns has, for every property, the value of
    the overrides when they give one and the value of the parsed document
    otherwise; a metadata key reads as in the metadata of the overrides when
    they have it and as in the metadata of the document otherwise; no key
    comes to stand twice; and without overrides the document is returned as
    it is. *)
Theorem mergeMetadata_overrides_win schemas document overrides merged :
  mergeMetadata schemas document overrides = inr merged ->
  let given {A} (property : PartialDocument -> option A) : option A :=
    overrides ≫= property in
  doc_id merged = default (doc_id document) (given p_id)
  /\ circular_id merged = default (circular_id document) (given p_circular_id)
  /\ doc_title merged = default (doc_title document) (given p_title)
  /\ doc_date merged = default (doc_date document) (given p_date)
  /\ Types.category merged = default (Types.category document) (given p_category)
  /\ doc_content merged = default (doc_content document) (given p_content)
  /\ doc_url merged = default (doc_url document) (given p_url)
  /\ (forall key,
         assoc key (doc_metadata merged)
         = match assoc key (default [] (given p_metadata)) with
           | Some v => Some v
           | None => assoc key (doc_metadata document)
           end)
  /\ (NoDup (map fst (doc_metadata document)) -> NoDup (map fst (doc_metadata merged)))
  /\ (overrides = None -> merged = document).
Proof.
  unfold mergeMetadata, SEBIDocumentSchema_parse. intros Hrun.
  match type of Hrun with
  | (if documentOk schemas ?d then _ else _) = _ =>
      destruct (documentOk schemas d); [|discriminate]
  end.
  injection Hrun as <-. destruct overrides as [o|]; cbn.
  - repeat (split; [reflexivity|]). split; [intros key; apply spread_lookup|].
    split; [apply spread_keys | discriminate].
  - repeat (split; [reflexivity|]). split; [intros key; apply spread_lookup|].
    split; [apply spread_keys|]. intros _. rewrite spread_nothing. now destruct document.
Qed.

Lemma mergeMetadata_overrides_win_witness :
  circular_id
    {| doc_id := "doc-001"; circular_id := "SEBI/HO/IMD/2024/999";
       doc_title := "Sample Circular"; doc_date := Some 1704067200000%Z;
       Types.category := "mutual_funds";
       doc_content := doc_content IngestFacts.sampleDocument;
       doc_url := "https://www.sebi.gov.in/circulars/sample";
       doc_chapter := None; doc_section := None;
       doc_metadata := [("version", "7")] |}
  = default (circular_id IngestFacts.sampleDocument) (Some "SEBI/HO/IMD/2024/999").
Proof.
  exact (proj1 (proj2 (mergeMetadata_overrides_win IngestFacts.sampleSchemas
                         IngestFacts.sampleDocument
                         (Some {| p_id := None;
                                  p_circular_id := Some "SEBI/HO/IMD/2024/999";
                                  p_title := None; p_date := None; p_category := None;
                                  p_content := None; p_url := None; p_chapter := None;
                                  p_section := None;
                                  p_metadata := Some [("version", "7")] |})
                         _ eq_refl))).
Defined.

(** ** [getCorpusStats] *)

















(** *** Concrete collaborators *)

(** A directory with a PDF file, a subdirectory with a PDF file and a text
    file, and an entry that is neither a file nor a directory. *)
Definition sampleTree : list Dirent :=
  [RegularFile "a.PDF";
   Directory "sub" (inr [RegularFile "b.pdf"; RegularFile "notes.txt"]);
   OtherEntry "link"].

(** A result of the category [key] dated [date]. *)
Definition datedResult (doc key : string) (date : JsDate) : Qdrant.SearchResult :=
  {| Qdrant.score := 1;
     Qdrant.chunk := QdrantFacts.sampleChunk doc 0 None;
     Qdrant.document :=
       {| doc_id := doc; circular_id := doc; doc_title := "SEBI Circular " +:+ doc;
          doc_date := date; Types.category := key;
          doc_content := "TER limits for equity schemes";
          doc_url := QdrantFacts.sampleUrl;
          doc_chapter := None; doc_section := None; doc_metadata := [] |} |}.

(** A file system that holds [sampleTree] at [/tmp/circulars], and a store
    that accepts every deletion and lists three chunks. *)
Definition sampleCorpus : CorpusDependencies :=
  {| readdir := fun dir =>
       if String.eqb dir "/tmp/circulars" then inr sampleTree
       else inl (Error "ENOENT");
     pathJoin := fun dir name => dir +:+ "/" +:+ name;
     deleteChunksByCircularId := fun _ => inr tt;
     listChunks :=
       inr [datedResult "d1" "mutual_funds" (Some 1706745600000%Z);
            datedResult "d2" "reits" (Some 1710460800000%Z);
            datedResult "d3" "reits" None];
     toISOString := fun t => "t" +:+ pretty t;
     zodMessage := fun schema => "Invalid " +:+ schema;
     stringOf := fun value => value;
     inheritedText := fun key =>
       if String.eqb key "__proto__" then "[object Object]"
       else if String.eqb key "constructor" then "function Object() { [native code] }"
       else "function " +:+ key +:+ "() { [native code] }";
     took := fun _ => 1%Z |}.

Definition emptyCorpusWorld : CorpusWorld := {| corpusNow := 0; corpusTrace := [] |}.


(** A chunk whose category reads [constructor]: the value under that key is
    no count, and the counts of the object fall short of [totalChunks]. *)
Example inherited_key_spoils_the_count :
  fst (getCorpusStats
         {| readdir := readdir sampleCorpus; pathJoin := pathJoin sampleCorpus;
            deleteChunksByCircularId := deleteChunksByCircularId sampleCorpus;
            listChunks := inr [datedResult "d1" "constructor" None;
                               datedResult "d2" "__proto__" None];
            toISOString := toISOString sampleCorpus;
            zodMessage := zodMessage sampleCorpus;
            stringOf := stringOf sampleCorpus;
            inheritedText := inheritedText sampleCorpus;
            took := took sampleCorpus |} emptyCorpusWorld)
  = inr {| totalChunks := 2;
           categories :=
             [("mutual_funds", Count 0); ("portfolio_managers", Count 0);
              ("invits", Count 0); ("reits", Count 0); ("general", Count 0);
              ("constructor", Text "function Object() { [native code] }1")];
           latestIngestion := None |}.
Proof. vm_compute. reflexivity. Qed.

End CorpusFacts.

(* ================================================================== *)
(** * The ingestion pipeline and the corpus methods *)
(* ================================================================== *)

Module PipelineFacts.
Import Js Types Effect Ingest.

(** ** The calls of [ingestPDF] *)

Lemma requireEmbeddings_each chunks :
  forall embeddings,
    requireEmbeddings chunks = inr embeddings ->
    Forall2 (fun c v => embedding c = Some v) chunks embeddings.
Proof.
  induction chunks as [|c chunks IH]; intros embeddings; cbn [requireEmbeddings].
  - intros [= <-]. constructor.
  - destruct (embedding c) as [v|] eqn:Hc; [|discriminate].
    destruct (requireEmbeddings chunks) as [e|vs]; [discriminate|].
    intros [= <-]. constructor; [exact Hc | now apply IH].
Qed.

#[local] Arguments validateMetadata : simpl never.
#[local] Arguments mergeMetadata : simpl never.
#[local] Arguments requireEmbeddings : simpl never.
#[local] Arguments PdfParser.chunkDocument : simpl never.

Section Runs.

Variable countTokens : string -> nat.
Variable schemas : Schemas.
Variable deps : Dependencies.
Variable config : IngestionConfig.

(** The calls of a run that goes through: for the file at [path] with the
    content [buffer], the chunks [chunks] of its document, the chunks
    [embedded] that the embedder returns for them, with the embeddings
    [embeddings], and the circular identifier [circular]. *)
Definition calls (path buffer : string) (chunks embedded : list SEBIChunk)
  (embeddings : list vector) (circular : string) : list Event :=
  [QdrantInitializeCollection;
   LogInfo ("Ingesting PDF: " +:+ path);
   ReadFile path;
   Parse buffer;
   LogInfo ("Chunked document into " +:+ showNat (length chunks) +:+ " chunks");
   EmbedChunks chunks;
   QdrantUpsertChunks embedded embeddings;
   LogInfo ("Ingested " +:+ circular +:+ " (" +:+ showNat (length embedded)
            +:+ " chunks)")].

(** What a run has established when it has made [n] of its calls. *)
Definition Reached (file : string) (metadata : option PartialDocument) (n : nat)
  (buffer : string) (chunks embedded : list SEBIChunk) (embeddings : list vector)
  (circular : string) : Prop :=
  (n = 1 \/ n = 3 \/ n = 4 \/ n = 6 \/ n = 7 \/ n = 8)%nat
  /\ ((6 <= n)%nat ->
      chunks <> []
      /\ exists document merged,
          parser deps buffer = inr document
          /\ mergeMetadata schemas document metadata = inr merged
          /\ validateMetadata (Some (toPartial merged)) = inr tt
          /\ PdfParser.chunkDocument countTokens schemas merged
               (effectiveChunkOptions config) = inr chunks
          /\ circular = circular_id merged)
  /\ ((7 <= n)%nat ->
      embedChunks deps chunks = inr embedded
      /\ requireEmbeddings embedded = inr embeddings).

Lemma ingestPDF_prefix file metadata w :
  exists n buffer chunks embedded embeddings circular,
    trace (snd (ingestPDF countTokens schemas deps config file metadata w))
    = trace w ++ take n (calls (resolve deps (sourcePath config) file) buffer
                           chunks embedded embeddings circular)
    /\ Reached file metadata n buffer chunks embedded embeddings circular
    /\ ((exists e, fst (ingestPDF countTokens schemas deps config file metadata w)
                   = inl e) -> (n < 8)%nat)
    /\ (forall summary,
          fst (ingestPDF countTokens schemas deps config file metadata w)
          = inr summary ->
          n = 8%nat
          /\ pdfPath summary = resolve deps (sourcePath config) file
          /\ circularId summary = circular
          /\ chunkCount summary = length embedded
          /\ upsertChunks deps embedded embeddings = inr (embeddingCount summary)
          /\ durationMs summary
             = (elapsed deps (ReadFile (resolve deps (sourcePath config) file))
                + elapsed deps (Parse buffer)
                + elapsed deps (EmbedChunks chunks)
                + elapsed deps (QdrantUpsertChunks embedded embeddings))%Z).
Proof.
  unfold ingestPDF, Reached.
  set (path := resolve deps (sourcePath config) file).
  unfold call, logInfo, lift, gets, modify, throw, ret, bind. simpl.
  destruct (initializeCollection deps) as [e|[]] eqn:Hinit; simpl.
  { exists 1%nat, "", [], [], [], "". split; [reflexivity|].
    split; [split; [tauto | split; intros; lia]|]. split; [intros; lia | discriminate]. }
  destruct (readFile deps path) as [e|buffer] eqn:Hread; simpl.
  { exists 3%nat, "", [], [], [], "". split; [now rewrite <- !app_assoc|].
    split; [split; [tauto | split; intros; lia]|]. split; [intros; lia | discriminate]. }
  destruct (parser deps buffer) as [e|document] eqn:Hparse; simpl.
  { exists 4%nat, buffer, [], [], [], "". split; [now rewrite <- !app_assoc|].
    split; [split; [tauto | split; intros; lia]|]. split; [intros; lia | discriminate]. }
  destruct (mergeMetadata schemas document metadata) as [e|merged] eqn:Hmerge; simpl.
  { exists 4%nat, buffer, [], [], [], "". split; [now rewrite <- !app_assoc|].
    split; [split; [tauto | split; intros; lia]|]. split; [intros; lia | discriminate]. }
  destruct (validateMetadata (Some (toPartial merged))) as [e|[]] eqn:Hvalid; simpl.
  { exists 4%nat, buffer, [], [], [], "". split; [now rewrite <- !app_assoc|].
    split; [split; [tauto | split; intros; lia]|]. split; [intros; lia | discriminate]. }
  destruct (PdfParser.chunkDocument countTokens schemas merged (effectiveChunkOptions config))
    as [e|chunks] eqn:Hchunks; simpl.
  { exists 4%nat, buffer, [], [], [], "". split; [now rewrite <- !app_assoc|].
    split; [split; [tauto | split; intros; lia]|]. split; [intros; lia | discriminate]. }
  destruct (length chunks =? 0)%nat eqn:Hnone; simpl.
  { exists 4%nat, buffer, [], [], [], "". split; [now rewrite <- !app_assoc|].
    split; [split; [tauto | split; intros; lia]|]. split; [intros; lia | discriminate]. }
  assert (Hsome : chunks <> []).
  { apply Nat.eqb_neq in Hnone. now destruct chunks. }
  assert (Hdone : chunks <> []
                  /\ exists document0 merged0,
                      parser deps buffer = inr document0
                      /\ mergeMetadata schemas document0 metadata = inr merged0
                      /\ validateMetadata (Some (toPartial merged0)) = inr tt
                      /\ PdfParser.chunkDocument countTokens schemas merged0
                           (effectiveChunkOptions config) = inr chunks
                      /\ circular_id merged = circular_id merged0).
  { split; [exact Hsome|]. now exists document, merged. }
  destruct (embedChunks deps chunks) as [e|embedded] eqn:Hembed; simpl.
  { exists 6%nat, buffer, chunks, [], [], (circular_id merged).
    split; [now rewrite <- !app_assoc|].
    split; [split; [tauto | split; [intros _; exact Hdone | intros; lia]]|].
    split; [intros; lia | discriminate]. }
  destruct (requireEmbeddings embedded) as [e|embeddings] eqn:Hvectors; simpl.
  { exists 6%nat, buffer, chunks, [], [], (circular_id merged).
    split; [now rewrite <- !app_assoc|].
    split; [split; [tauto | split; [intros _; exact Hdone | intros; lia]]|].
    split; [intros; lia | discriminate]. }
  destruct (upsertChunks deps embedded embeddings) as [e|upserted] eqn:Hupsert; simpl.
  { exists 7%nat, buffer, chunks, embedded, embeddings, (circular_id merged).
    split; [now rewrite <- !app_assoc|].
    split; [split; [tauto | split; [intros _; exact Hdone | intros _; now split]]|].
    split; [intros; lia | discriminate]. }
  exists 8%nat, buffer, chunks, embedded, embeddings, (circular_id merged).
  split; [now rewrite <- !app_assoc|].
  split; [split; [tauto | split; [intros _; exact Hdone | intros _; now split]]|].
  split; [intros [e [=]]|].
  intros summary [= <-]. cbn [pdfPath circularId chunkCount embeddingCount durationMs].
  repeat (split; [reflexivity|]). split; [exact Hupsert | lia].
Qed.

End Runs.

(** X26. The calls of every run of [ingestPDF] are the first calls of one
    sequence: collection set-up, log, file read, parse, log, embedding,
    upsert, log.  A run that throws stops short of the last; the embedder is
    only called with the chunks of the validated document, of which there is
    at least one; the store is only given the chunks that the embedder
    returned, each with its own embedding, so as many embeddings as chunks.
    The summary of a run that returns counts the chunks that the embedder
    returned, and its duration leaves out the set-up of the collection. *)
Theorem ingestPDF_calls_in_order countTokens schemas deps config file metadata w :
  exists n buffer chunks embedded embeddings circular,
    trace (snd (ingestPDF countTokens schemas deps config file metadata w))
    = trace w ++ take n (calls (resolve deps (sourcePath config) file) buffer
                           chunks embedded embeddings circular)
    /\ (1 <= n <= 8)%nat
    /\ ((6 <= n)%nat ->
        chunks <> []
        /\ exists document merged,
            parser deps buffer = inr document
            /\ mergeMetadata schemas document metadata = inr merged
            /\ validateMetadata (Some (toPartial merged)) = inr tt
            /\ PdfParser.chunkDocument countTokens schemas merged
                 (effectiveChunkOptions config) = inr chunks)
    /\ ((7 <= n)%nat ->
        embedChunks deps chunks = inr embedded
        /\ Forall2 (fun c v => embedding c = Some v) embedded embeddings)
    /\ ((exists e, fst (ingestPDF countTokens schemas deps config file metadata w)
                   = inl e) -> (n < 8)%nat)
    /\ (forall summary,
          fst (ingestPDF countTokens schemas deps config file metadata w)
          = inr summary ->
          n = 8%nat
          /\ chunkCount summary = length embedded
          /\ durationMs summary
             = (elapsed deps (ReadFile (resolve deps (sourcePath config) file))
                + elapsed deps (Parse buffer)
                + elapsed deps (EmbedChunks chunks)
                + elapsed deps (QdrantUpsertChunks embedded embeddings))%Z).
Proof.
  destruct (ingestPDF_prefix countTokens schemas deps config file metadata w)
    as (n & buffer & chunks & embedded & embeddings & circular
        & Htrace & (Hn & Hsix & Hseven) & Hthrown & Hsummary).
  exists n, buffer, chunks, embedded, embeddings, circular.
  split; [exact Htrace|]. split; [lia|]. split.
  { intros H6. destruct (Hsix H6) as (Hsome & document & merged & H1 & H2 & H3 & H4 & _).
    split; [exact Hsome|]. now exists document, merged. }
  split.
  { intros H7. destruct (Hseven H7) as [Hembed Hvectors].
    split; [exact Hembed | now apply requireEmbeddings_each]. }
  split; [exact Hthrown|].
  intros summary Hrun. destruct (Hsummary summary Hrun) as (H8 & _ & _ & Hcount & _ & Hms).
  auto.
Qed.

(** X30. A document whose content is white space only is not ingested: when
    the collection is ready, the file is read and parsed and the merged
    document passes the schema and [validateMetadata], [ingestPDF] throws
    [No chunks produced for] its circular identifier, and neither the
    embedder nor the store has been given anything. *)
Theorem blank_document_is_not_ingested countTokens schemas deps config file metadata w
  buffer document merged :
  initializeCollection deps = inr tt ->
  readFile deps (resolve deps (sourcePath config) file) = inr buffer ->
  parser deps buffer = inr document ->
  mergeMetadata schemas document metadata = inr merged ->
  validateMetadata (Some (toPartial merged)) = inr tt ->
  forallb isSpace (chars (doc_content merged)) = true ->
  fst (ingestPDF countTokens schemas deps config file metadata w)
  = inl (Error ("No chunks produced for " +:+ circular_id merged))
  /\ trace (snd (ingestPDF countTokens schemas deps config file metadata w))
     = trace w ++ IngestFacts.preamble deps config file buffer
  /\ existsb isEmbedOrUpsert (IngestFacts.preamble deps config file buffer) = false.
Proof.
  intros Hinit Hread Hparse Hmerge Hvalid Hblank.
  unfold ingestPDF, IngestFacts.preamble.
  set (path := resolve deps (sourcePath config) file) in *.
  unfold call, logInfo, lift, gets, modify, throw, ret, bind. simpl.
  rewrite Hinit. simpl. rewrite Hread. simpl. rewrite Hparse. simpl.
  rewrite Hmerge. simpl. rewrite Hvalid. simpl.
  rewrite (PassageFacts.chunkDocument_blank countTokens schemas merged _ Hblank). simpl.
  split; [reflexivity|]. split; [now rewrite <- !app_assoc | reflexivity].
Qed.

(** Collaborators whose parser finds nothing but white space. *)
Definition blankDeps : Dependencies :=
  {| initializeCollection := inr tt;
     readFile := fun _ => inr "PDF";
     parser := fun _ =>
       inr {| doc_id := "doc-002"; circular_id := "SEBI/HO/IMD/2024/002";
              doc_title := "Scanned Circular"; doc_date := Some 1704067200000%Z;
              Types.category := "general"; doc_content := String NBSP "  ";
              doc_url := "https://www.sebi.gov.in/circulars/scanned";
              doc_chapter := None; doc_section := None; doc_metadata := [] |};
     embedChunks := fun chunks => inr chunks;
     upsertChunks := fun chunks _ => inr (length chunks);
     resolve := fun _ path => "/tmp/" +:+ path;
     elapsed := fun _ => 1%Z |}.

Lemma blank_document_is_not_ingested_witness :
  fst (ingestPDF ChunkerFacts.wordTokens IngestFacts.sampleSchemas blankDeps
         IngestFacts.sampleConfig "scan.pdf" None {| now := 0; trace := [] |})
  = inl (Error "No chunks produced for SEBI/HO/IMD/2024/002").
Proof.
  exact (proj1 (blank_document_is_not_ingested ChunkerFacts.wordTokens
                  IngestFacts.sampleSchemas blankDeps IngestFacts.sampleConfig
                  "scan.pdf" None {| now := 0; trace := [] |} "PDF" _ _
                  eq_refl eq_refl eq_refl eq_refl eq_refl eq_refl)).
Defined.

(** ** [walkPdfFiles] *)

Section Walk.

Variable corpus : CorpusDependencies.

(** A file that [walkPdfFiles] is to find. *)
Definition isPdf (name : string) : bool := endsWith (toLowerCase name) ".pdf".

(** [path] is a PDF file at or below the entry [entry] of the directory
    [dir]. *)
Inductive FoundAt : string -> Dirent -> string -> Prop :=
| found_file dir name :
    isPdf name = true ->
    FoundAt dir (RegularFile name) (pathJoin corpus dir name)
| found_below dir name entries entry path :
    entry ∈ entries ->
    FoundAt (pathJoin corpus dir name) entry path ->
    FoundAt dir (Directory name (inr entries)) path.

(** Every directory at or below the entry can be read. *)
Fixpoint readable (entry : Dirent) : bool :=
  match entry with
  | Directory _ (inr entries) => forallb readable entries
  | Directory _ (inl _) => false
  | RegularFile _ | OtherEntry _ => true
  end.

(** The directories at or below the entry. *)
Fixpoint directories (entry : Dirent) : nat :=
  match entry with
  | Directory _ (inr entries) => S (list_sum (map directories entries))
  | Directory _ (inl _) => 1
  | RegularFile _ | OtherEntry _ => 0
  end.

Definition isReaddir (e : CorpusEvent) : bool :=
  match e with Readdir _ => true | _ => false end.

(** What the walk of one entry does. *)
Definition Walked (dir : string) (entry : Dirent) : Prop :=
  forall pdfs w,
    exists added,
      corpusTrace (snd (walkEntry corpus dir pdfs entry w)) = corpusTrace w ++ added
      /\ forallb isReaddir added = true
      /\ (readable entry = true ->
          length added = directories entry
          /\ exists found,
              fst (walkEntry corpus dir pdfs entry w) = inr (pdfs ++ found)
              /\ forall path, path ∈ found <-> FoundAt dir entry path)
      /\ (readable entry = false ->
          exists error, fst (walkEntry corpus dir pdfs entry w) = inl error).

Lemma walk_entries dir entries :
  Forall (Walked dir) entries ->
  forall pdfs w,
    exists added,
      corpusTrace (snd (forEachM (walkEntry corpus dir) entries pdfs w))
      = corpusTrace w ++ added
      /\ forallb isReaddir added = true
      /\ (forallb readable entries = true ->
          length added = list_sum (map directories entries)
          /\ exists found,
              fst (forEachM (walkEntry corpus dir) entries pdfs w) = inr (pdfs ++ found)
              /\ forall path,
                  path ∈ found <-> exists entry, entry ∈ entries /\ FoundAt dir entry path)
      /\ (forallb readable entries = false ->
          exists error, fst (forEachM (walkEntry corpus dir) entries pdfs w) = inl error).
Proof.
  induction 1 as [|entry entries Hentry _ IH]; intros pdfs w.
  - exists []. cbn [forEachM]. unfold ret. simpl. rewrite app_nil_r.
    split; [reflexivity|]. split; [reflexivity|]. split; [|discriminate].
    intros _. split; [reflexivity|]. exists []. rewrite app_nil_r.
    split; [reflexivity|]. intros path. split.
    + intros Hin. now apply elem_of_nil in Hin.
    + intros (entry & Hin & _). now apply elem_of_nil in Hin.
  - cbn [forEachM]. unfold bind.
    destruct (Hentry pdfs w) as (added1 & Htrace1 & Hkind1 & Hgood1 & Hbad1).
    destruct (walkEntry corpus dir pdfs entry w) as [[error|out] w1] eqn:Hrun;
      cbn [fst snd] in *.
    + exists added1. split; [exact Htrace1|]. split; [exact Hkind1|].
      cbn [forallb]. destruct (readable entry) eqn:Hr; cbn [andb].
      * destruct (Hgood1 eq_refl) as (_ & found & Hfound & _). discriminate.
      * split; [discriminate|]. intros _. now exists error.
    + destruct (readable entry) eqn:Hr;
        [|destruct (Hbad1 eq_refl) as [error Herror]; discriminate].
      destruct (Hgood1 eq_refl) as (Hlen1 & found1 & Hout & Hfound1).
      injection Hout as ->.
      destruct (IH (pdfs ++ found1) w1) as (added2 & Htrace2 & Hkind2 & Hgood2 & Hbad2).
      exists (added1 ++ added2). split; [now rewrite Htrace2, Htrace1, app_assoc|].
      split; [now rewrite forallb_app, Hkind1, Hkind2|].
      change (list_sum (map directories (entry :: entries)))
        with (directories entry + list_sum (map directories entries))%nat.
      cbn [forallb]. rewrite Hr. cbn [andb]. split.
      * intros Hrest. destruct (Hgood2 Hrest) as (Hlen2 & found2 & Hout2 & Hfound2).
        split; [rewrite length_app; lia|].
        exists (found1 ++ found2). split; [now rewrite Hout2, app_assoc|].
        intros path. rewrite elem_of_app, Hfound1, Hfound2. split.
        -- intros [Hhere|(entry' & Hin & Hat)].
           ++ exists entry. split; [left | exact Hhere].
           ++ exists entry'. split; [now right | exact Hat].
        -- intros (entry' & Hin & Hat).
           apply elem_of_cons in Hin as [->|Hin]; [now left|].
           right. now exists entry'.
      * intros Hrest. exact (Hbad2 Hrest).
Qed.

Lemma walkEntry_walked : forall entry dir, Walked dir entry.
Proof.
  refine (fix IH (entry : Dirent) : forall dir, Walked dir entry := _).
  intros dir pdfs w. destruct entry as [name [error|entries]|name|name].
  - exists [Readdir (pathJoin corpus dir name)].
    cbn [walkEntry direntName readable directories].
    unfold bind, callCorpus, throw. cbn [fst snd corpusTrace].
    split; [reflexivity|]. split; [reflexivity|]. split; [discriminate|].
    intros _. now exists error.
  - assert (Hall : Forall (Walked (pathJoin corpus dir name)) entries).
    { clear -IH. induction entries as [|e entries IHentries]; constructor.
      - apply IH.
      - exact IHentries. }
    cbn [walkEntry direntName readable directories].
    unfold bind, callCorpus. cbn [fst snd].
    set (w1 := {| corpusNow := (corpusNow w
                                + took corpus (Readdir (pathJoin corpus dir name)))%Z;
                  corpusTrace := corpusTrace w ++ [Readdir (pathJoin corpus dir name)] |}).
    destruct (walk_entries (pathJoin corpus dir name) entries Hall [] w1)
      as (added & Htrace & Hkind & Hgood & Hbad).
    exists (Readdir (pathJoin corpus dir name) :: added).
    destruct (forEachM (walkEntry corpus (pathJoin corpus dir name)) entries [] w1)
      as [[error|found] w2] eqn:Hrun; cbn [fst snd] in *.
    + split; [rewrite Htrace; unfold w1; cbn [corpusTrace]; now rewrite <- app_assoc|].
      split; [exact Hkind|]. split.
      * intros Hr. destruct (Hgood Hr) as (_ & found & Hfound & _). discriminate.
      * intros _. now exists error.
    + unfold ret. cbn [fst snd].
      split; [rewrite Htrace; unfold w1; cbn [corpusTrace]; now rewrite <- app_assoc|].
      split; [exact Hkind|]. split.
      * intros Hr. destruct (Hgood Hr) as (Hlen & found' & Hfound & Hpaths).
        injection Hfound as ->. cbn [length]. split; [now rewrite Hlen|].
        exists found'. split; [reflexivity|]. intros path. rewrite Hpaths. split.
        -- intros (entry & Hin & Hat). now apply (found_below dir name entries entry).
        -- intros Hat. inversion Hat; subst. now exists entry.
      * intros Hr. destruct (Hbad Hr) as [error Herror]. discriminate.
  - exists []. cbn [walkEntry direntName readable directories].
    fold (isPdf name). rewrite app_nil_r.
    split; [now destruct (isPdf name)|]. split; [reflexivity|]. split; [|discriminate].
    intros _. split; [reflexivity|].
    destruct (isPdf name) eqn:Hpdf; unfold ret; cbn [fst].
    + exists [pathJoin corpus dir name]. split; [reflexivity|]. intros path. split.
      * intros Hin. apply list_elem_of_singleton in Hin. subst path. now constructor.
      * intros Hat. inversion Hat; subst. apply list_elem_of_singleton. reflexivity.
    + exists []. rewrite app_nil_r. split; [reflexivity|]. intros path. split.
      * intros Hin. now apply elem_of_nil in Hin.
      * intros Hat. inversion Hat; subst. congruence.
  - exists []. cbn [walkEntry direntName readable directories]. unfold ret.
    cbn [fst snd]. rewrite app_nil_r.
    split; [reflexivity|]. split; [reflexivity|]. split; [|discriminate].
    intros _. split; [reflexivity|]. exists []. rewrite app_nil_r.
    split; [reflexivity|]. intros path. split.
    + intros Hin. now apply elem_of_nil in Hin.
    + intros Hat. inversion Hat.
Qed.

Lemma walkPdfFiles_spec dir entries w :
  readdir corpus dir = inr entries ->
  exists added,
    corpusTrace (snd (walkPdfFiles corpus dir w))
    = corpusTrace w ++ Readdir dir :: added
    /\ forallb isReaddir added = true
    /\ (forallb readable entries = true ->
        length added = list_sum (map directories entries)
        /\ exists found,
            fst (walkPdfFiles corpus dir w) = inr found
            /\ forall path,
                path ∈ found <-> exists entry, entry ∈ entries /\ FoundAt dir entry path)
    /\ (forallb readable entries = false ->
        exists error, fst (walkPdfFiles corpus dir w) = inl error).
Proof.
  intros Hread. unfold walkPdfFiles, bind, callCorpus. rewrite Hread.
  set (w1 := {| corpusNow := (corpusNow w + took corpus (Readdir dir))%Z;
                corpusTrace := corpusTrace w ++ [Readdir dir] |}).
  assert (Hall : Forall (Walked dir) entries).
  { apply Forall_forall. intros entry _. apply walkEntry_walked. }
  destruct (walk_entries dir entries Hall [] w1) as (added & Htrace & Hkind & Hgood & Hbad).
  exists added. split; [rewrite Htrace; unfold w1; cbn [corpusTrace];
                        now rewrite <- app_assoc|].
  split; [exact Hkind|]. split; [exact Hgood | exact Hbad].
Qed.

End Walk.

(** X27. When the directory can be read, [walkPdfFiles] does nothing but read
    directories, starting with the one it is given.  When every directory
    below it can be read, it reads each of them once and returns the paths of
    the regular files at any depth whose name ends in [.pdf], in any case of
    the letters, and no other path; when one cannot be read, it throws and
    returns no path at all. *)
Theorem walkPdfFiles_finds_the_pdfs corpus dir entries (w : CorpusWorld) :
  readdir corpus dir = inr entries ->
  exists added,
    corpusTrace (snd (walkPdfFiles corpus dir w))
    = corpusTrace w ++ Readdir dir :: added
    /\ forallb isReaddir added = true
    /\ (forallb (readable) entries = true ->
        length added = list_sum (map directories entries)
        /\ exists found,
            fst (walkPdfFiles corpus dir w) = inr found
            /\ forall path,
                path ∈ found
                <-> exists entry, entry ∈ entries /\ FoundAt corpus dir entry path)
    /\ (forallb readable entries = false ->
        exists error, fst (walkPdfFiles corpus dir w) = inl error).
Proof. apply walkPdfFiles_spec. Qed.

(** ** [ingestDirectory] *)

(** The start of a run of [ingestPDF]. *)
Definition isSetup (e : CorpusEvent) : bool :=
  match e with
  | Ingestion QdrantInitializeCollection => true
  | _ => false
  end.

Section Directory.

Variable countTokens : string -> nat.
Variable schemas : Schemas.
Variable deps : Dependencies.
Variable config : IngestionConfig.
Variable corpus : CorpusDependencies.

(** The body of [for (const pdf of pdfFiles)]. *)
Definition ingestFile (acc : list IngestionSummary * list (string * string))
  (pdf : string) : M CorpusWorld (list IngestionSummary * list (string * string)) :=
  tryCatch
    (bind (ingestion (ingestPDF countTokens schemas deps config pdf None))
          (fun summary => ret (fst acc ++ [summary], snd acc)))
    (fun error =>
       bind (logCorpus (LogError ("Failed to ingest " +:+ pdf +:+ ": "
                                  +:+ errorMessage corpus error)))
            (fun _ => ret (fst acc, snd acc ++ [(pdf, errorMessage corpus error)]))).

Lemma setup_once n path buffer chunks embedded embeddings circular (tail : list CorpusEvent) :
  (n = 1 \/ n = 3 \/ n = 4 \/ n = 6 \/ n = 7 \/ n = 8)%nat ->
  forallb (fun e => negb (isSetup e)) tail = true ->
  length (List.filter isSetup
            (map Ingestion (take n (calls path buffer chunks embedded embeddings circular))
             ++ tail)) = 1%nat.
Proof.
  intros Hn Htail.
  assert (Hnone : List.filter isSetup tail = []).
  { induction tail as [|e tail IH]; [reflexivity|]. simpl in *.
    apply andb_true_iff in Htail as [He Htail].
    destruct (isSetup e); [discriminate | now apply IH]. }
  rewrite List.filter_app, Hnone, app_nil_r.
  destruct Hn as [-> | [-> | [-> | [-> | [-> | ->]]]]]; reflexivity.
Qed.

Lemma ingestFile_spec acc pdf (w : CorpusWorld) :
  exists acc' added,
    ingestFile acc pdf w
    = (inr acc', {| corpusNow := corpusNow (snd (ingestFile acc pdf w));
                    corpusTrace := corpusTrace w ++ added |})
    /\ length (List.filter isSetup added) = 1%nat
    /\ ((exists summary,
            acc' = (fst acc ++ [summary], snd acc)
            /\ pdfPath summary = resolve deps (sourcePath config) pdf
            /\ forallb (fun e => match e with Ingestion _ => true | _ => false end) added
               = true)
        \/ (exists error,
               acc' = (fst acc, snd acc ++ [(pdf, errorMessage corpus error)])
               /\ last added
                  = Some (LogError ("Failed to ingest " +:+ pdf +:+ ": "
                                    +:+ errorMessage corpus error)))).
Proof.
  destruct (ingestPDF_prefix countTokens schemas deps config pdf None
              {| now := corpusNow w; trace := [] |})
    as (n & buffer & chunks & embedded & embeddings & circular
        & Htrace & (Hn & _ & _) & _ & Hsummary).
  unfold ingestFile, tryCatch, bind, ingestion, logCorpus, modify, ret.
  destruct (ingestPDF countTokens schemas deps config pdf None
              {| now := corpusNow w; trace := [] |}) as [[error|summary] wi] eqn:Hrun;
    cbn [fst snd corpusNow corpusTrace] in *.
  - eexists _, _. split; [rewrite <- app_assoc; reflexivity|]. rewrite Htrace.
    split; [now apply setup_once|].
    right. exists error. split; [reflexivity|]. now rewrite last_snoc.
  - eexists _, _. split; [reflexivity|]. rewrite Htrace. split.
    + rewrite <- (app_nil_r (map Ingestion _)). now apply setup_once.
    + left. exists summary. split; [reflexivity|].
      destruct (Hsummary summary eq_refl) as (_ & Hpath & _). split; [exact Hpath|].
      generalize (take n (calls (resolve deps (sourcePath config) pdf) buffer chunks
                            embedded embeddings circular)).
      intros l. now induction l.
Qed.

Lemma ingestFiles_spec files :
  forall acc (w : CorpusWorld),
    exists acc' w' added,
      forEachM ingestFile files acc w = (inr acc', w')
      /\ corpusTrace w' = corpusTrace w ++ added
      /\ length (List.filter isSetup added) = length files
      /\ (length (fst acc') + length (snd acc')
          = length (fst acc) + length (snd acc) + length files)%nat
      /\ (exists failed,
             map fst (snd acc') = map fst (snd acc) ++ failed
             /\ failed `sublist_of` files)
      /\ (exists done,
             map pdfPath (fst acc') = map pdfPath (fst acc) ++ done
             /\ done `sublist_of` map (resolve deps (sourcePath config)) files).
Proof.
  induction files as [|pdf files IH]; intros acc w.
  - exists acc, w, []. cbn [forEachM]. unfold ret. rewrite app_nil_r.
    split; [reflexivity|]. split; [reflexivity|]. split; [reflexivity|].
    split; [simpl; lia|].
    split; exists []; rewrite app_nil_r; split; try reflexivity; constructor.
  - cbn [forEachM]. unfold bind.
    destruct (ingestFile_spec acc pdf w) as (acc1 & added1 & Hrun & Hsetup & Hcase).
    rewrite Hrun.
    match goal with
    | |- context [forEachM ingestFile files acc1 ?w1] =>
        destruct (IH acc1 w1)
          as (acc' & w' & added2 & Hrest & Htrace & Hsetup2 & Hlen & Hfailed & Hdone)
    end.
    exists acc', w', (added1 ++ added2). split; [exact Hrest|].
    split; [rewrite Htrace; cbn [corpusTrace]; now rewrite app_assoc|].
    split; [rewrite List.filter_app, length_app, Hsetup, Hsetup2; reflexivity|].
    destruct Hfailed as (failed & Hfailed & Hsub).
    destruct Hdone as (done & Hdone & Hsub').
    destruct Hcase as [(summary & -> & Hpath & _)|(error & -> & _)]; cbn [fst snd] in *.
    + split; [rewrite length_app in Hlen; simpl in *; lia|]. split.
      * exists failed. split; [exact Hfailed | now apply sublist_cons].
      * exists (pdfPath summary :: done). split.
        -- rewrite Hdone, map_app. cbn [map]. now rewrite <- app_assoc.
        -- cbn [map]. rewrite Hpath. now apply sublist_skip.
    + split; [rewrite length_app in Hlen; simpl in *; lia|]. split.
      * exists (pdf :: failed). split.
        -- rewrite Hfailed, map_app. cbn [map fst]. now rewrite <- app_assoc.
        -- now apply sublist_skip.
      * exists done. split; [exact Hdone|]. cbn [map]. now apply sublist_cons.
Qed.

Lemma ingestDirectory_pass dirPath (w : CorpusWorld) :
  (forall error w1,
      walkPdfFiles corpus (resolve deps (sourcePath config) dirPath) w = (inl error, w1) ->
      ingestDirectory countTokens schemas deps config corpus dirPath w = (inl error, w1))
  /\ (forall files w1,
         walkPdfFiles corpus (resolve deps (sourcePath config) dirPath) w
         = (inr files, w1) ->
         exists summary w' added,
           ingestDirectory countTokens schemas deps config corpus dirPath w
           = (inr summary, w')
           /\ totalFiles summary = length files
           /\ successCount summary = length (summaries summary)
           /\ failureCount summary = length (failures summary)
           /\ (successCount summary + failureCount summary = totalFiles summary)%nat
           /\ map fst (failures summary) `sublist_of` files
           /\ map pdfPath (summaries summary)
              `sublist_of` map (resolve deps (sourcePath config)) files
           /\ corpusTrace w' = corpusTrace w1 ++ added
           /\ length (List.filter isSetup added) = length files
           /\ (files = [] ->
               added = [LogWarn ("No PDF files found under "
                                 +:+ resolve deps (sourcePath config) dirPath)])).
Proof.
  split.
  - intros error w1 Hwalk. unfold ingestDirectory, bind. now rewrite Hwalk.
  - intros files w1 Hwalk. unfold ingestDirectory.
    change (forEachM _ ?l ([], [])) with (forEachM ingestFile l ([], [])).
    unfold bind. rewrite Hwalk.
    destruct (length files =? 0)%nat eqn:Hnone.
    + apply Nat.eqb_eq, nil_length_inv in Hnone. subst files.
      unfold logCorpus, modify, ret. cbn [forEachM fst snd]. unfold ret.
      eexists _, _, _. split; [reflexivity|]. cbn.
      repeat (split; [first [reflexivity | constructor]|]). intros _. reflexivity.
    + unfold ret at 1.
      destruct (ingestFiles_spec files ([], []) w1)
        as (acc' & w' & added & Hrun & Htrace & Hsetup & Hlen & Hfailed & Hdone).
      rewrite Hrun. unfold ret. eexists _, w', added. split; [reflexivity|].
      cbn [totalFiles successCount failureCount summaries failures].
      split; [reflexivity|]. split; [reflexivity|]. split; [reflexivity|].
      split; [simpl in Hlen; lia|].
      destruct Hfailed as (failed & -> & Hsub). destruct Hdone as (done & -> & Hsub').
      split; [exact Hsub|]. split; [exact Hsub'|]. split; [exact Htrace|].
      split; [exact Hsetup|]. intros ->. discriminate.
Qed.

(** ** [updateCorpus] *)

Lemma mergeMetadata_given document overrides merged :
  mergeMetadata schemas document (Some overrides) = inr merged ->
  circular_id merged = default (circular_id document) (p_circular_id overrides)
  /\ doc_metadata merged
     = spread (doc_metadata document) (default [] (p_metadata overrides)).
Proof.
  unfold mergeMetadata, SEBIDocumentSchema_parse. intros Hrun.
  match type of Hrun with
  | (if documentOk schemas ?d then _ else _) = _ =>
      destruct (documentOk schemas d); [|discriminate]
  end.
  injection Hrun as <-. split; reflexivity.
Qed.

Lemma updateCorpus_spec circularId file (w : CorpusWorld) :
  (forall error,
      deleteChunksByCircularId corpus circularId = inl error ->
      updateCorpus countTokens schemas deps config corpus circularId file w
      = (inl error,
         {| corpusNow := (corpusNow w
                          + took corpus (QdrantDeleteChunksByCircularId circularId))%Z;
            corpusTrace := corpusTrace w ++
              [Ingestion (LogInfo ("Updating corpus for " +:+ circularId));
               QdrantDeleteChunksByCircularId circularId] |}))
  /\ (deleteChunksByCircularId corpus circularId = inr tt ->
      exists n buffer chunks embedded embeddings,
        corpusTrace (snd (updateCorpus countTokens schemas deps config corpus
                            circularId file w))
        = corpusTrace w
          ++ [Ingestion (LogInfo ("Updating corpus for " +:+ circularId));
              QdrantDeleteChunksByCircularId circularId]
          ++ map Ingestion
               (take n (calls (resolve deps (sourcePath config) file) buffer chunks
                          embedded embeddings circularId))
        /\ (1 <= n <= 8)%nat
        /\ ((6 <= n)%nat ->
            exists document merged,
              parser deps buffer = inr document
              /\ mergeMetadata schemas document
                   (Some (versionOverrides circularId
                            (toISOString corpus
                               (corpusNow w
                                + took corpus
                                    (QdrantDeleteChunksByCircularId circularId))%Z)))
                 = inr merged
              /\ circular_id merged = circularId
              /\ assoc "version" (doc_metadata merged)
                 = Some (quoted
                           (toISOString corpus
                              (corpusNow w
                               + took corpus
                                   (QdrantDeleteChunksByCircularId circularId))%Z))
              /\ PdfParser.chunkDocument countTokens schemas merged
                   (effectiveChunkOptions config) = inr chunks)
        /\ (forall summary,
              fst (updateCorpus countTokens schemas deps config corpus circularId file w)
              = inr summary ->
              n = 8%nat /\ circularId = Ingest.circularId summary)).
Proof.
  split.
  - intros error Hdelete.
    unfold updateCorpus, bind, logCorpus, callCorpus, modify. cbn [fst snd].
    rewrite Hdelete. cbn [corpusNow corpusTrace]. now rewrite <- app_assoc.
  - intros Hdelete.
    unfold updateCorpus, bind, logCorpus, callCorpus, modify, gets, ingestion.
    cbn [fst snd]. rewrite Hdelete. cbn [corpusNow corpusTrace].
    set (t := (corpusNow w + took corpus (QdrantDeleteChunksByCircularId circularId))%Z).
    set (overrides := versionOverrides circularId (toISOString corpus t)).
    destruct (ingestPDF_prefix countTokens schemas deps config file (Some overrides)
                {| now := t; trace := [] |})
      as (n & buffer & chunks & embedded & embeddings & circular
          & Htrace & (Hn & Hsix & _) & _ & Hsummary).
    destruct (ingestPDF countTokens schemas deps config file (Some overrides)
                {| now := t; trace := [] |}) as [r wi] eqn:Hrun.
    cbn [fst snd corpusTrace] in *.
    assert (Hcircular : (6 <= n)%nat -> circular = circularId).
    { intros H6. destruct (Hsix H6) as (_ & document & merged & _ & Hmerge & _ & _ & ->).
      now destruct (mergeMetadata_given document overrides merged Hmerge) as [-> _]. }
    assert (Hcalls : take n (calls (resolve deps (sourcePath config) file) buffer chunks
                               embedded embeddings circular)
                     = take n (calls (resolve deps (sourcePath config) file) buffer chunks
                                 embedded embeddings circularId)).
    { destruct (decide (6 <= n)%nat) as [H6|H6]; [now rewrite (Hcircular H6)|].
      destruct Hn as [-> | [-> | [-> | [-> | [-> | ->]]]]]; first [reflexivity | lia]. }
    exists n, buffer, chunks, embedded, embeddings.
    split; [now rewrite Htrace, Hcalls, <- !app_assoc|]. split; [lia|]. split.
    + intros H6. destruct (Hsix H6) as (_ & document & merged & Hparse & Hmerge & _ & Hchunks & _).
      exists document, merged. split; [exact Hparse|]. split; [exact Hmerge|].
      destruct (mergeMetadata_given document overrides merged Hmerge) as [Hid Hmeta].
      split; [exact Hid|]. split; [|exact Hchunks].
      rewrite Hmeta, CorpusFacts.spread_lookup. reflexivity.
    + intros summary ->. destruct (Hsummary summary eq_refl) as (H8 & _ & Hid & _).
      split; [exact H8|]. rewrite Hid. symmetry. apply Hcircular. lia.
Qed.

End Directory.

(** X28. [ingestDirectory] throws only what the walk of the directory throws,
    before any file is ingested.  When the walk returns, it returns too,
    whatever happens to the files: every file is attempted once, in whatever
    way its ingestion ends; the successes and the failures add up to the
    number of files found; the failures are files found and the summaries are
    for files found; and when none is found, a warning is all it logs. *)
Theorem ingestDirectory_makes_a_full_pass countTokens schemas deps config corpus
  dirPath (w : CorpusWorld) :
  (forall error w1,
      walkPdfFiles corpus (resolve deps (sourcePath config) dirPath) w = (inl error, w1) ->
      ingestDirectory countTokens schemas deps config corpus dirPath w = (inl error, w1))
  /\ (forall files w1,
         walkPdfFiles corpus (resolve deps (sourcePath config) dirPath) w
         = (inr files, w1) ->
         exists summary w' added,
           ingestDirectory countTokens schemas deps config corpus dirPath w
           = (inr summary, w')
           /\ totalFiles summary = length files
           /\ successCount summary = length (summaries summary)
           /\ failureCount summary = length (failures summary)
           /\ (successCount summary + failureCount summary = totalFiles summary)%nat
           /\ map fst (failures summary) `sublist_of` files
           /\ map pdfPath (summaries summary)
              `sublist_of` map (resolve deps (sourcePath config)) files
           /\ corpusTrace w' = corpusTrace w1 ++ added
           /\ length (List.filter isSetup added) = length files
           /\ (files = [] ->
               added = [LogWarn ("No PDF files found under "
                                 +:+ resolve deps (sourcePath config) dirPath)])).
Proof. apply ingestDirectory_pass. Qed.

(** X29. [updateCorpus] logs, then has the chunks of the circular deleted.
    When the deletion is rejected nothing else happens.  When it is accepted
    the file is ingested with the circular identifier given, whatever
    identifier the parser found, and with the time after the deletion as the
    [version] of its metadata; the summary returned names the identifier
    given.  The deletion stands when the ingestion stops short. *)
Theorem updateCorpus_deletes_then_ingests countTokens schemas deps config corpus
  circularId file (w : CorpusWorld) :
  (forall error,
      deleteChunksByCircularId corpus circularId = inl error ->
      updateCorpus countTokens schemas deps config corpus circularId file w
      = (inl error,
         {| corpusNow := (corpusNow w
                          + took corpus (QdrantDeleteChunksByCircularId circularId))%Z;
            corpusTrace := corpusTrace w ++
              [Ingestion (LogInfo ("Updating corpus for " +:+ circularId));
               QdrantDeleteChunksByCircularId circularId] |}))
  /\ (deleteChunksByCircularId corpus circularId = inr tt ->
      exists n buffer chunks embedded embeddings,
        corpusTrace (snd (updateCorpus countTokens schemas deps config corpus
                            circularId file w))
        = corpusTrace w
          ++ [Ingestion (LogInfo ("Updating corpus for " +:+ circularId));
              QdrantDeleteChunksByCircularId circularId]
          ++ map Ingestion
               (take n (calls (resolve deps (sourcePath config) file) buffer chunks
                          embedded embeddings circularId))
        /\ (1 <= n <= 8)%nat
        /\ ((6 <= n)%nat ->
            exists document merged,
              parser deps buffer = inr document
              /\ mergeMetadata schemas document
                   (Some (versionOverrides circularId
                            (toISOString corpus
                               (corpusNow w
                                + took corpus
                                    (QdrantDeleteChunksByCircularId circularId))%Z)))
                 = inr merged
              /\ circular_id merged = circularId
              /\ assoc "version" (doc_metadata merged)
                 = Some (quoted
                           (toISOString corpus
                              (corpusNow w
                               + took corpus
                                   (QdrantDeleteChunksByCircularId circularId))%Z))
              /\ PdfParser.chunkDocument countTokens schemas merged
                   (effectiveChunkOptions config) = inr chunks)
        /\ (forall summary,
              fst (updateCorpus countTokens schemas deps config corpus circularId file w)
              = inr summary ->
              n = 8%nat /\ circularId = Ingest.circularId summary)).
Proof. apply updateCorpus_spec. Qed.

(** The PDF files of the sample tree. *)
Lemma walkPdfFiles_finds_the_pdfs_witness :
  exists added found,
    corpusTrace (snd (walkPdfFiles CorpusFacts.sampleCorpus "/tmp/circulars"
                        CorpusFacts.emptyCorpusWorld))
    = Readdir "/tmp/circulars" :: added
    /\ length added = 1%nat
    /\ fst (walkPdfFiles CorpusFacts.sampleCorpus "/tmp/circulars"
              CorpusFacts.emptyCorpusWorld) = inr found
    /\ "/tmp/circulars/sub/b.pdf" ∈ found.
Proof.
  destruct (walkPdfFiles_finds_the_pdfs CorpusFacts.sampleCorpus "/tmp/circulars"
              CorpusFacts.sampleTree CorpusFacts.emptyCorpusWorld eq_refl)
    as (added & Htrace & _ & Hgood & _).
  destruct (Hgood eq_refl) as (Hlen & found & Hfound & Hpaths).
  exists added, found. split; [exact Htrace|]. split; [exact Hlen|].
  split; [exact Hfound|]. apply Hpaths.
  exists (Directory "sub" (inr [RegularFile "b.pdf"; RegularFile "notes.txt"])).
  split; [right; left|].
  apply (found_below CorpusFacts.sampleCorpus "/tmp/circulars" "sub"
           [RegularFile "b.pdf"; RegularFile "notes.txt"] (RegularFile "b.pdf"));
    [left|].
  apply (found_file CorpusFacts.sampleCorpus "/tmp/circulars/sub" "b.pdf"). reflexivity.
Defined.

(** The sample tree ingested with the sample collaborators. *)
Lemma ingestDirectory_makes_a_full_pass_witness :
  exists summary w',
    ingestDirectory ChunkerFacts.wordTokens IngestFacts.sampleSchemas
      IngestFacts.sampleDeps IngestFacts.sampleConfig CorpusFacts.sampleCorpus
      "circulars" CorpusFacts.emptyCorpusWorld = (inr summary, w')
    /\ totalFiles summary = 2%nat
    /\ (successCount summary + failureCount summary = 2)%nat.
Proof.
  destruct (proj2 (ingestDirectory_makes_a_full_pass ChunkerFacts.wordTokens
                     IngestFacts.sampleSchemas IngestFacts.sampleDeps
                     IngestFacts.sampleConfig CorpusFacts.sampleCorpus
                     "circulars" CorpusFacts.emptyCorpusWorld)
              ["/tmp/circulars/a.PDF"; "/tmp/circulars/sub/b.pdf"]
              {| corpusNow := 2;
                 corpusTrace := [Readdir "/tmp/circulars";
                                 Readdir "/tmp/circulars/sub"] |}
              eq_refl)
    as (summary & w' & added & Hrun & Htotal & _ & _ & Hsum & _).
  exists summary, w'. split; [exact Hrun|]. split; [exact Htotal|].
  now rewrite Hsum, Htotal.
Defined.

(** An update of the sample circular under another identifier. *)
Lemma updateCorpus_deletes_then_ingests_witness :
  exists n buffer chunks embedded embeddings,
    corpusTrace (snd (updateCorpus ChunkerFacts.wordTokens IngestFacts.sampleSchemas
                        IngestFacts.sampleDeps IngestFacts.sampleConfig
                        CorpusFacts.sampleCorpus "SEBI/HO/IMD/2024/999" "latest.pdf"
                        CorpusFacts.emptyCorpusWorld))
    = [] ++ [Ingestion (LogInfo "Updating corpus for SEBI/HO/IMD/2024/999");
             QdrantDeleteChunksByCircularId "SEBI/HO/IMD/2024/999"]
         ++ map Ingestion
              (take n (calls "/tmp/latest.pdf" buffer chunks embedded embeddings
                         "SEBI/HO/IMD/2024/999"))
    /\ (1 <= n <= 8)%nat.
Proof.
  destruct (proj2 (updateCorpus_deletes_then_ingests ChunkerFacts.wordTokens
                     IngestFacts.sampleSchemas IngestFacts.sampleDeps
                     IngestFacts.sampleConfig CorpusFacts.sampleCorpus
                     "SEBI/HO/IMD/2024/999" "latest.pdf" CorpusFacts.emptyCorpusWorld)
              eq_refl)
    as (n & buffer & chunks & embedded & embeddings & Htrace & Hn & _).
  now exists n, buffer, chunks, embedded, embeddings.
Defined.

End PipelineFacts.
